(** * Order book of idzharbae/crypto-exchange: a shallow embedding

    Source: [src/internal/entity/orderbook.go] (package [entity]) and the
    request handlers of [src/cmd/main.go].

    Modelling choices.
    - Go pointers [*Order] and [*Limit] are indices into two stores
      ([orders], [limits]); an object is allocated by appending to its store
      and is never freed.  Pointer equality is equality of indices.
    - The [float64] quantities [Size], [TotalVolume] and [SizeFilled] are
      modelled twice.  The program is first written with sizes in [Z], the
      arithmetic of [float64] wherever it is exact, and the invariants are
      proved there.  Module [F64] then repeats the program on IEEE 754
      binary64 as [SpecFloat] defines it, and the two programs are proved to
      agree on sizes that are whole numbers, none negative, adding up to less
      than [2^53] ([exact_run], [exact_step]).  What is said about quantities
      is settled on [F64].
    - A [Price] is only compared with other prices and used as a key: prices
      are kept in [Z].
    - [int64] counters wrap around ([wrap64]).
    - Go's [map] is stdpp's [gmap]; a slice is the list of its cells.  The one
      place where a slice is written while another slice header over the same
      backing array is still being ranged over ([PlaceMarketOrder] calling
      [deleteLimit]) carries the cells of the backing array explicitly.
    - [sort.Sort] is an insertion sort.  Go runs exactly that on at most twelve
      elements, and every sorting algorithm returns the same slice when no two
      keys tie.
    - The package-level variables [OrderIndex] and [orderIdSequence] are fields
      of the machine state, next to the stores and the book under study.
    - [time.Now().UnixNano()] is an input of [NewOrder].

    Contents: the program; the predicates and postconditions the proofs use;
    the states of the examples; the lemmas, function by function, up to the
    invariant [Inv] of reachable states; the claims C1 to C10 that
    do not depend on the arithmetic; further definitions (postconditions of
    the operations, the request handlers, the program on binary64) and further
    properties of the order book and of the handlers; the agreement of the two
    programs on whole-number sizes, and with it what is said about
    quantities (C4, C10 and the properties of volumes and fills). *)

From Stdlib Require Import ZArith Lia SpecFloat.
From stdpp Require Import gmap strings list fin_maps sorting.

(** * The program *)

(** ** Data model *)

Definition BID_ORDER : string := "BID".
Definition ASK_ORDER : string := "ASK".

Record Order := mkOrder {
  ID : Z;
  OrderPlacement : string;
  Size : Z;
  OrderLimit : option nat;      (* field [Limit *Limit]; [None] is nil *)
  Timestamp : Z
}.

Record Limit := mkLimit {
  Price : Z;
  Orders : list nat;            (* [Orders []*Order] *)
  TotalVolume : Z
}.

Record Match := mkMatch {
  Ask : nat;
  Bid : nat;
  SizeFilled : Z;
  MatchPrice : Z                (* field [Price] of [Match] *)
}.

Record OrderMetadata := mkOrderMetadata {
  MetaOrder : nat;              (* field [Order] of [OrderMetadata] *)
  MetaMarket : string           (* field [Market] of [OrderMetadata] *)
}.

Record OrderBook := mkOrderBook {
  Market : string;
  asks : list nat;              (* [asks []*Limit] *)
  bids : list nat;
  AskLimits : gmap Z nat;
  BidLimits : gmap Z nat
}.

Record State := mkState {
  orders : list Order;          (* store of [Order] objects *)
  limits : list Limit;          (* store of [Limit] objects *)
  book : OrderBook;             (* the receiver [ob] *)
  OrderIndex : gmap Z OrderMetadata;
  orderIdSequence : Z
}.

Inductive error :=
  | ErrNotFound
  | ErrInvalidPlacement
  | ErrNotEnoughAskVolume (asksVolume bidSize : Z)
  | ErrNotEnoughBidVolume (askSize bidsVolume : Z).

(** ** Stores *)

Definition wrap64 (z : Z) : Z := ((z + 2 ^ 63) mod 2 ^ 64 - 2 ^ 63)%Z.

Definition nilOrder : Order := mkOrder 0 "" 0 None 0.
Definition nilLimit : Limit := mkLimit 0 [] 0.

Definition order_at (st : State) (o : nat) : Order := default nilOrder (orders st !! o).
Definition limit_at (st : State) (l : nat) : Limit := default nilLimit (limits st !! l).

Definition set_orders (os : list Order) (st : State) : State :=
  mkState os (limits st) (book st) (OrderIndex st) (orderIdSequence st).
Definition set_limits (ls : list Limit) (st : State) : State :=
  mkState (orders st) ls (book st) (OrderIndex st) (orderIdSequence st).
Definition set_book (b : OrderBook) (st : State) : State :=
  mkState (orders st) (limits st) b (OrderIndex st) (orderIdSequence st).
Definition set_index (ix : gmap Z OrderMetadata) (st : State) : State :=
  mkState (orders st) (limits st) (book st) ix (orderIdSequence st).

Definition upd_order (o : nat) (f : Order → Order) (st : State) : State :=
  set_orders (alter f o (orders st)) st.
Definition upd_limit (l : nat) (f : Limit → Limit) (st : State) : State :=
  set_limits (alter f l (limits st)) st.

Definition with_Size (f : Z → Z) (x : Order) : Order :=
  mkOrder (ID x) (OrderPlacement x) (f (Size x)) (OrderLimit x) (Timestamp x).
Definition with_OrderLimit (l : option nat) (x : Order) : Order :=
  mkOrder (ID x) (OrderPlacement x) (Size x) l (Timestamp x).
Definition with_Orders (f : list nat → list nat) (x : Limit) : Limit :=
  mkLimit (Price x) (f (Orders x)) (TotalVolume x).
Definition with_TotalVolume (f : Z → Z) (x : Limit) : Limit :=
  mkLimit (Price x) (Orders x) (f (TotalVolume x)).

Definition side_of (placement : string) (b : OrderBook) : list nat :=
  if String.eqb placement BID_ORDER then bids b else asks b.
Definition set_side (placement : string) (ls : list nat) (b : OrderBook) : OrderBook :=
  if String.eqb placement BID_ORDER
  then mkOrderBook (Market b) (asks b) ls (AskLimits b) (BidLimits b)
  else mkOrderBook (Market b) ls (bids b) (AskLimits b) (BidLimits b).
Definition map_of (placement : string) (b : OrderBook) : gmap Z nat :=
  if String.eqb placement BID_ORDER then BidLimits b else AskLimits b.
Definition set_map (placement : string) (m : gmap Z nat) (b : OrderBook) : OrderBook :=
  if String.eqb placement BID_ORDER
  then mkOrderBook (Market b) (asks b) (bids b) (AskLimits b) m
  else mkOrderBook (Market b) (asks b) (bids b) m (BidLimits b).

(** ** [sort.Sort] *)

Section Sort.
Context {A : Type} (less : A → A → bool).

Fixpoint insertBy (x : A) (l : list A) : list A :=
  match l with
  | [] => [x]
  | y :: ys => if less y x then y :: insertBy x ys else x :: y :: ys
  end.

Fixpoint sortBy (l : list A) : list A :=
  match l with
  | [] => []
  | x :: xs => insertBy x (sortBy xs)
  end.

End Sort.

(** [Orders.Less], [ByBestAsk.Less], [ByBestBid.Less] *)
Definition Orders_Less (st : State) (a b : nat) : bool :=
  (Timestamp (order_at st a) <? Timestamp (order_at st b))%Z.
Definition ByBestAsk_Less (st : State) (a b : nat) : bool :=
  (Price (limit_at st a) <? Price (limit_at st b))%Z.
Definition ByBestBid_Less (st : State) (a b : nat) : bool :=
  (Price (limit_at st a) >? Price (limit_at st b))%Z.

(** ** Order and Limit *)

Definition NewOrder (orderPlacement : string) (size now : Z) (st : State) : nat * State :=
  let seq := wrap64 (orderIdSequence st + 1) in
  (length (orders st),
   mkState (orders st ++ [mkOrder seq orderPlacement size None now])
           (limits st) (book st) (OrderIndex st) seq).

Definition IsFilled (st : State) (o : nat) : bool := (Size (order_at st o) =? 0)%Z.

Definition NewLimit (price : Z) (st : State) : nat * State :=
  (length (limits st), set_limits (limits st ++ [mkLimit price [] 0]) st).

Definition AddOrder (l o : nat) (st : State) : State :=
  let st1 := upd_order o (with_OrderLimit (Some l)) st in
  let st2 := upd_limit l (with_Orders (λ os, os ++ [o])) st1 in
  upd_limit l (with_TotalVolume (λ v, v + Size (order_at st2 o))%Z) st2.

(** First index [i] with [l[i] == x]. *)
Fixpoint find_index (x : nat) (l : list nat) : option nat :=
  match l with
  | [] => None
  | y :: ys => if decide (y = x) then Some 0 else S <$> find_index x ys
  end.

(** [s[i] = s[len(s)-1]; s = s[:len(s)-1]] *)
Definition swap_delete (i : nat) (s : list nat) : list nat :=
  match s !! (length s - 1) with
  | Some z => take (length s - 1) (<[i := z]> s)
  | None => s
  end.

Definition DeleteOrder (l o : nat) (st : State) : State :=
  let st1 :=
    match find_index o (Orders (limit_at st l)) with
    | Some i => upd_limit l (with_Orders (swap_delete i)) st
    | None => st
    end in
  let st2 := upd_order o (with_OrderLimit None) st1 in
  let st3 := upd_limit l (with_TotalVolume (λ v, v - Size (order_at st2 o))%Z) st2 in
  upd_limit l (with_Orders (sortBy (Orders_Less st3))) st3.

Definition fillOrder (l matchingOrder order : nat) (st : State) : Match * State :=
  let '(ask, bid) :=
    if String.eqb (OrderPlacement (order_at st order)) BID_ORDER
    then (matchingOrder, order) else (order, matchingOrder) in
  let sizeFilled := Z.min (Size (order_at st ask)) (Size (order_at st bid)) in
  let st1 := upd_order ask (with_Size (λ s, s - sizeFilled)%Z) st in
  let st2 := upd_order bid (with_Size (λ s, s - sizeFilled)%Z) st1 in
  let st3 := upd_limit l (with_TotalVolume (λ v, v - sizeFilled)%Z) st2 in
  (mkMatch ask bid sizeFilled (Price (limit_at st3 l)), st3).

(** The first loop of [Limit.Fill], over the resting orders still to visit:
    the orders to delete, the matches, and the state it ends in. *)
Fixpoint Fill_walk (l order : nat) (resting : list nat) (st : State)
  : list nat * list Match * State :=
  match resting with
  | [] => ([], [], st)
  | matchingOrder :: rest =>
    let '(mt, st1) := fillOrder l matchingOrder order st in
    let del := if IsFilled st1 matchingOrder then [matchingOrder] else [] in
    if IsFilled st1 order then (del, [mt], st1)
    else
      let '(dels, matches, st2) := Fill_walk l order rest st1 in
      (del ++ dels, mt :: matches, st2)
  end.

Definition Fill (l order : nat) (st : State) : list Match * State :=
  let '(ordersToDelete, matches, st1) := Fill_walk l order (Orders (limit_at st l)) st in
  (matches, foldl (λ s o, DeleteOrder l o s) st1 ordersToDelete).

(** ** OrderBook *)

Definition NewOrderBook (market : string) : OrderBook :=
  mkOrderBook market [] [] ∅ ∅.

Definition sumVolume (st : State) (ls : list nat) : Z :=
  foldl (λ totalVolume l, totalVolume + TotalVolume (limit_at st l))%Z 0%Z ls.

Definition AskTotalVolume (st : State) : Z := sumVolume st (asks (book st)).
Definition BidTotalVolume (st : State) : Z := sumVolume st (bids (book st)).

Definition Asks (st : State) : list nat * State :=
  let s := sortBy (ByBestAsk_Less st) (asks (book st)) in
  (s, set_book (set_side ASK_ORDER s (book st)) st).

Definition Bids (st : State) : list nat * State :=
  let s := sortBy (ByBestBid_Less st) (bids (book st)) in
  (s, set_book (set_side BID_ORDER s (book st)) st).

(** The loop of [deleteLimit] over the slice [cells[:len]]:
    [for i := 0; i < len(s); i++ { if s[i] == x { s[i] = s[len(s)-1]; s = s[:len(s)-1] } }].
    [k] bounds the iterations left; the result is the backing array after the
    writes and the new length. *)
Fixpoint sliceDelete_loop (k : nat) (x : nat) (i : nat) (cells : list nat) (len : nat)
  : list nat * nat :=
  match k with
  | 0 => (cells, len)
  | S k' =>
    if (i <? len)%nat then
      if decide (cells !! i = Some x)
      then sliceDelete_loop k' x (S i) (<[i := default 0 (cells !! (len - 1))]> cells) (len - 1)
      else sliceDelete_loop k' x (S i) cells len
    else (cells, len)
  end.

Definition sliceDelete (x : nat) (cells : list nat) (len : nat) : list nat * nat :=
  sliceDelete_loop len x 0 cells len.

(** [deleteLimit], with the cells of the backing array of the side's slice
    given by the caller: the slice itself is [cells[:len]], [len] being the
    current length of [ob.bids] (or [ob.asks]).  The updated cells are
    returned for a caller that is still ranging over them. *)
Definition deleteLimitCells (limitPlacement : string) (limit : nat) (cells : list nat)
    (st : State) : list nat * State :=
  let b := book st in
  let b1 := set_map limitPlacement (delete (Price (limit_at st limit)) (map_of limitPlacement b)) b in
  let '(cells', len') := sliceDelete limit cells (length (side_of limitPlacement b1)) in
  (cells', set_book (set_side limitPlacement (take len' cells') b1) st).

Definition deleteLimit (limitPlacement : string) (limit : nat) (st : State) : State :=
  snd (deleteLimitCells limitPlacement limit (side_of limitPlacement (book st)) st).

(** The [for _, limit := range ob.Asks()] loop of [PlaceMarketOrder]: [cells]
    is the backing array seen through the slice header that [range] evaluated
    once, [i] the index of the iteration and [k] the iterations left. *)
Fixpoint marketLoop (limitPlacement : string) (order : nat) (k i : nat) (cells : list nat)
    (matches : list Match) (st : State) : list Match * State :=
  match k with
  | 0 => (matches, st)
  | S k' =>
    let limit := default 0 (cells !! i) in
    let '(limitMatches, st1) := Fill limit order st in
    let '(cells1, st2) :=
      if (TotalVolume (limit_at st1 limit) =? 0)%Z
      then deleteLimitCells limitPlacement limit cells st1
      else (cells, st1) in
    let matches := matches ++ limitMatches in
    if IsFilled st2 order then (matches, st2)
    else marketLoop limitPlacement order k' (S i) cells1 matches st2
  end.

Definition PlaceMarketOrder (order : nat) (st : State) : (list Match + error) * State :=
  if String.eqb (OrderPlacement (order_at st order)) BID_ORDER then
    if (Size (order_at st order) >? AskTotalVolume st)%Z
    then (inr (ErrNotEnoughAskVolume (AskTotalVolume st) (Size (order_at st order))), st)
    else
      let '(cells, st1) := Asks st in
      let '(matches, st2) := marketLoop ASK_ORDER order (length cells) 0 cells [] st1 in
      (inl matches, st2)
  else
    if (Size (order_at st order) >? BidTotalVolume st)%Z
    then (inr (ErrNotEnoughBidVolume (Size (order_at st order)) (BidTotalVolume st)), st)
    else
      let '(cells, st1) := Bids st in
      let '(matches, st2) := marketLoop BID_ORDER order (length cells) 0 cells [] st1 in
      (inl matches, st2).

Definition PlaceLimitOrder (price : Z) (order : nat) (st : State) : option error * State :=
  let placement := OrderPlacement (order_at st order) in
  if negb (String.eqb placement BID_ORDER || String.eqb placement ASK_ORDER)
  then (Some ErrInvalidPlacement, st)
  else
    let '(limit, st1) :=
      match map_of placement (book st) !! price with
      | Some limit => (limit, st)
      | None =>
        let '(limit, st0) := NewLimit price st in
        let b := book st0 in
        let b1 := set_side placement (side_of placement b ++ [limit]) b in
        let b2 := set_map placement (<[price := limit]> (map_of placement b1)) b1 in
        (limit, set_book b2 st0)
      end in
    let st2 := AddOrder limit order st1 in
    let st3 := set_index (<[ID (order_at st2 order) :=
                            mkOrderMetadata order (Market (book st2))]> (OrderIndex st2)) st2 in
    (None, st3).

(** The nested [range] loops of [CancelOrderByID]: the first order with the
    given id, scanning the limits in slice order and each limit's orders in
    queue order. *)
Fixpoint findOrder (st : State) (orderId : Z) (os : list nat) : option nat :=
  match os with
  | [] => None
  | order :: rest =>
    if (ID (order_at st order) =? orderId)%Z then Some order else findOrder st orderId rest
  end.

Fixpoint findLimitOrder (st : State) (orderId : Z) (ls : list nat) : option (nat * nat) :=
  match ls with
  | [] => None
  | limit :: rest =>
    match findOrder st orderId (Orders (limit_at st limit)) with
    | Some order => Some (limit, order)
    | None => findLimitOrder st orderId rest
    end
  end.

Definition CancelOrderByID (orderId : Z) (orderPlacement : string) (st : State)
  : option error * State :=
  match findLimitOrder st orderId (side_of orderPlacement (book st)) with
  | Some (limit, order) =>
    let st1 := DeleteOrder limit order st in
    let st2 := set_index (delete (ID (order_at st1 order)) (OrderIndex st1)) st1 in
    let st3 :=
      if (TotalVolume (limit_at st2 limit) =? 0)%Z
      then deleteLimit orderPlacement limit st2 else st2 in
    (None, st3)
  | None => (Some ErrNotFound, st)
  end.

(** ** Public operations, as the request handlers issue them *)

Inductive op :=
  | OpLimit (placement : string) (size price now : Z)
  | OpMarket (placement : string) (size now : Z)
  | OpCancel (orderId : Z) (placement : string).

Inductive outcome :=
  | Placed
  | Matched (matches : list Match)
  | Cancelled
  | Failed (e : error).

(** [handlePlaceOrder] builds the order with [NewOrder] and places it;
    [handleCancelOrder] ends in [CancelOrderByID]. *)
Definition run_op (c : op) (st : State) : outcome * State :=
  match c with
  | OpLimit placement size price now =>
    let '(order, st1) := NewOrder placement size now st in
    match PlaceLimitOrder price order st1 with
    | (None, st2) => (Placed, st2)
    | (Some e, st2) => (Failed e, st2)
    end
  | OpMarket placement size now =>
    let '(order, st1) := NewOrder placement size now st in
    match PlaceMarketOrder order st1 with
    | (inl matches, st2) => (Matched matches, st2)
    | (inr e, st2) => (Failed e, st2)
    end
  | OpCancel orderId placement =>
    match CancelOrderByID orderId placement st with
    | (None, st1) => (Cancelled, st1)
    | (Some e, st1) => (Failed e, st1)
    end
  end.

Definition init (market : string) : State :=
  mkState [] [] (NewOrderBook market) ∅ 0.

Definition run_ops (cs : list op) (st : State) : State :=
  foldl (λ s c, snd (run_op c s)) st cs.

(** * Predicates on states *)

(** ** Rejected market orders *)

Definition opposingVolume (st : State) (order : nat) : Z :=
  if String.eqb (OrderPlacement (order_at st order)) BID_ORDER
  then AskTotalVolume st else BidTotalVolume st.

(** The error [PlaceMarketOrder] builds when it rejects [order]. *)
Definition rejection (st : State) (order : nat) : error :=
  if String.eqb (OrderPlacement (order_at st order)) BID_ORDER
  then ErrNotEnoughAskVolume (AskTotalVolume st) (Size (order_at st order))
  else ErrNotEnoughBidVolume (Size (order_at st order)) (BidTotalVolume st).

Definition insufficientLiquidity (e : error) : Prop :=
  match e with
  | ErrNotEnoughAskVolume _ _ | ErrNotEnoughBidVolume _ _ => True
  | _ => False
  end.

(** ** Sums of residual sizes *)

Definition Zsum (f : nat → Z) (l : list nat) : Z := foldr (λ x a, f x + a)%Z 0%Z l.

Definition size_at (st : State) (o : nat) : Z := Size (order_at st o).
Definition ts_at (st : State) (o : nat) : Z := Timestamp (order_at st o).

(** ** The invariant of the book *)

Definition in_book (st : State) (l : nat) : Prop :=
  l ∈ asks (book st) ∨ l ∈ bids (book st).

Definition queue (st : State) (l : nat) : list nat := Orders (limit_at st l).

(** Two orders of a queue that were created in one order and stamped in the
    same order stand in that order. *)
Definition arrival_ordered (st : State) (os : list nat) : Prop :=
  ∀ i j a b, os !! i = Some a → os !! j = Some b →
    a < b → (ts_at st a < ts_at st b)%Z → i < j.

(** The invariant of the book under the public operations: each side lists
    a limit once and the sides share none; the limits of the book are
    allocated; each price map has exactly the limits of its side, at their
    prices; the queues of the book hold allocated orders, each order once and
    in one queue only; the cached volume of a limit is the sum of the residual
    sizes in its queue; every queue is in arrival order. *)
Record Inv (st : State) : Prop := {
  inv_asks_nodup : NoDup (asks (book st));
  inv_bids_nodup : NoDup (bids (book st));
  inv_sides_disjoint : ∀ l, l ∈ asks (book st) → l ∈ bids (book st) → False;
  inv_limit_alloc : ∀ l, in_book st l → l < length (limits st);
  inv_ask_map : ∀ p l,
    AskLimits (book st) !! p = Some l ↔ l ∈ asks (book st) ∧ Price (limit_at st l) = p;
  inv_bid_map : ∀ p l,
    BidLimits (book st) !! p = Some l ↔ l ∈ bids (book st) ∧ Price (limit_at st l) = p;
  inv_queue_nodup : ∀ l, in_book st l → NoDup (queue st l);
  inv_queue_alloc : ∀ l o, in_book st l → o ∈ queue st l → o < length (orders st);
  inv_queue_disjoint : ∀ l1 l2 o,
    in_book st l1 → in_book st l2 → o ∈ queue st l1 → o ∈ queue st l2 → l1 = l2;
  inv_volume : ∀ l, in_book st l →
    TotalVolume (limit_at st l) = Zsum (size_at st) (queue st l);
  inv_arrival : ∀ l, in_book st l → arrival_ordered st (queue st l)
}.

(** The order is not resting in the book. *)
Definition not_resting (st : State) (o : nat) : Prop :=
  ∀ l, in_book st l → o ∉ queue st l.

(** No limit of the book has an empty queue. *)
Definition NonEmpty (st : State) : Prop :=
  ∀ l, in_book st l → queue st l ≠ [].

(** ** [fillOrder] *)

Definition filled (st : State) (m order : nat) : Z :=
  Z.min (size_at st m) (size_at st order).

(** ** [Limit.DeleteOrder] *)

(** What the search loop of [DeleteOrder] leaves of the queue. *)
Definition without (o : nat) (os : list nat) : list nat :=
  match find_index o os with
  | Some i => swap_delete i os
  | None => os
  end.

(** The second loop of [Limit.Fill]: the exhausted orders leave the queue. *)
Definition deleteAll (l : nat) (dels : list nat) (st : State) : State :=
  foldl (λ s o, DeleteOrder l o s) st dels.

Record deleteAll_post (l : nat) (dels : list nat) (st st' : State) : Prop := {
  dp_inv : Inv st';
  dp_book : book st' = book st;
  dp_index : OrderIndex st' = OrderIndex st;
  dp_length_orders : length (orders st') = length (orders st);
  dp_length_limits : length (limits st') = length (limits st);
  dp_size : ∀ o, size_at st' o = size_at st o;
  dp_ts : ∀ o, ts_at st' o = ts_at st o;
  dp_placement : ∀ o, OrderPlacement (order_at st' o) = OrderPlacement (order_at st o);
  dp_limit_ne : ∀ l', l' ≠ l → limit_at st' l' = limit_at st l';
  dp_price : Price (limit_at st' l) = Price (limit_at st l);
  dp_volume : TotalVolume (limit_at st' l) = TotalVolume (limit_at st l);
  dp_queue : dels ++ queue st' l ≡ₚ queue st l
}.

(** ** [Limit.Fill] *)

(** The resting order of a match made for the incoming [order]. *)
Definition resting_of (st : State) (order : nat) (mt : Match) : nat :=
  if String.eqb (OrderPlacement (order_at st order)) BID_ORDER then Ask mt else Bid mt.

(** The same, from the placement of the incoming order. *)
Definition resting_side (placement : string) (mt : Match) : nat :=
  if String.eqb placement BID_ORDER then Ask mt else Bid mt.

Record walk_post (l order : nat) (resting : list nat) (st : State)
    (dels : list nat) (ms : list Match) (st' : State) : Prop := {
  wp_inv : Inv st';
  wp_book : book st' = book st;
  wp_index : OrderIndex st' = OrderIndex st;
  wp_length_orders : length (orders st') = length (orders st);
  wp_length_limits : length (limits st') = length (limits st);
  wp_queue : ∀ l', queue st' l' = queue st l';
  wp_limit_ne : ∀ l', l' ≠ l → limit_at st' l' = limit_at st l';
  wp_price : Price (limit_at st' l) = Price (limit_at st l);
  wp_ts : ∀ o, ts_at st' o = ts_at st o;
  wp_placement : ∀ o,
    OrderPlacement (order_at st' o) = OrderPlacement (order_at st o);
  wp_size_frame : ∀ o, o ∉ resting → o ≠ order → size_at st' o = size_at st o;
  wp_matches : map (resting_of st order) ms = take (length ms) resting;
  wp_matches_length : length ms ≤ length resting;
  wp_match_price : ∀ mt, mt ∈ ms → MatchPrice mt = Price (limit_at st l);
  wp_unvisited : ∀ i o,
    resting !! i = Some o → length ms ≤ i → size_at st' o = size_at st o;
  wp_visited : ∀ i o,
    resting !! i = Some o → i < length ms →
    (0 ≤ size_at st' o)%Z ∧
    (size_at st' o = 0%Z ∨ (S i = length ms ∧ size_at st' order = 0%Z));
  wp_dels : ∀ d,
    d ∈ dels ↔ ∃ i, resting !! i = Some d ∧ i < length ms ∧ size_at st' d = 0%Z;
  wp_dels_nodup : NoDup dels;
  wp_unfilled : size_at st' order ≠ 0%Z → length ms = length resting;
  wp_conserve :
    (size_at st order - size_at st' order
     = TotalVolume (limit_at st l) - TotalVolume (limit_at st' l))%Z
}.

Record Fill_post (l order : nat) (st : State) (ms : list Match) (st' : State)
  : Prop := {
  fp_inv : Inv st';
  fp_book : book st' = book st;
  fp_index : OrderIndex st' = OrderIndex st;
  fp_length_orders : length (orders st') = length (orders st);
  fp_length_limits : length (limits st') = length (limits st);
  fp_limit_ne : ∀ l', l' ≠ l → limit_at st' l' = limit_at st l';
  fp_price : Price (limit_at st' l) = Price (limit_at st l);
  fp_ts : ∀ o, ts_at st' o = ts_at st o;
  fp_placement : ∀ o,
    OrderPlacement (order_at st' o) = OrderPlacement (order_at st o);
  fp_size_frame : ∀ o, o ∉ queue st l → o ≠ order → size_at st' o = size_at st o;
  fp_matches : map (resting_of st order) ms = take (length ms) (queue st l);
  fp_matches_length : length ms ≤ length (queue st l);
  fp_match_price : ∀ mt, mt ∈ ms → MatchPrice mt = Price (limit_at st l);
  fp_unvisited : ∀ i o,
    queue st l !! i = Some o → length ms ≤ i → size_at st' o = size_at st o;
  fp_visited : ∀ i o,
    queue st l !! i = Some o → i < length ms →
    (0 ≤ size_at st' o)%Z ∧
    (size_at st' o = 0%Z ∨ (S i = length ms ∧ size_at st' order = 0%Z));
  fp_queue : ∀ o,
    o ∈ queue st' l ↔
    o ∈ queue st l ∧
    ¬ ∃ i, queue st l !! i = Some o ∧ i < length ms ∧ size_at st' o = 0%Z;
  fp_unfilled :
    size_at st' order ≠ 0%Z →
    queue st' l = [] ∧ TotalVolume (limit_at st' l) = 0%Z;
  fp_conserve :
    (size_at st order - size_at st' order
     = TotalVolume (limit_at st l) - TotalVolume (limit_at st' l))%Z
}.

(** ** [deleteLimit] *)

(** The side and the price map [deleteLimit] does not look at. *)
Definition other_side (placement : string) (b : OrderBook) : list nat :=
  if String.eqb placement BID_ORDER then asks b else bids b.
Definition other_map (placement : string) (b : OrderBook) : gmap Z nat :=
  if String.eqb placement BID_ORDER then AskLimits b else BidLimits b.

(** The total volume an order of this placement is matched against:
    [AskTotalVolume] for a bid, [BidTotalVolume] otherwise. *)
Definition otherVolume (placement : string) (st : State) : Z :=
  if String.eqb placement BID_ORDER then AskTotalVolume st else BidTotalVolume st.

Record deleteLimit_post (pl : string) (limit : nat) (cells : list nat)
    (st : State) (cells' : list nat) (st' : State) : Prop := {
  lp_inv : Inv st';
  lp_orders : orders st' = orders st;
  lp_limits : limits st' = limits st;
  lp_index : OrderIndex st' = OrderIndex st;
  lp_other_side : other_side pl (book st') = other_side pl (book st);
  lp_other_map : other_map pl (book st') = other_map pl (book st);
  lp_market : Market (book st') = Market (book st);
  lp_cells : ∃ j, j < length (side_of pl (book st)) ∧ cells !! j = Some limit ∧
      cells' = <[j := default 0 (cells !! (length (side_of pl (book st)) - 1))]> cells;
  lp_side : side_of pl (book st')
            = take (length (side_of pl (book st)) - 1) cells';
  lp_side_perm : limit :: side_of pl (book st') ≡ₚ side_of pl (book st)
}.

(** ** The loop of [PlaceMarketOrder] *)

Definition sideVolume (pl : string) (st : State) : Z :=
  Zsum (λ l, TotalVolume (limit_at st l)) (side_of pl (book st)).

(** Every limit of the side holds an order, and every order resting there has
    a strictly positive residual size. *)
Definition positive_side (pl : string) (st : State) : Prop :=
  ∀ l, l ∈ side_of pl (book st) →
    queue st l ≠ [] ∧ ∀ o, o ∈ queue st l → (0 < size_at st o)%Z.

(** One iteration: the limit's matches, the cells and the state after it. *)
Definition marketStep (pl : string) (order i : nat) (cells : list nat) (st : State)
  : list Match * list nat * State :=
  let limit := default 0 (cells !! i) in
  let '(limitMatches, st1) := Fill limit order st in
  let '(cells1, st2) :=
    if (TotalVolume (limit_at st1 limit) =? 0)%Z
    then deleteLimitCells pl limit cells st1
    else (cells, st1) in
  (limitMatches, cells1, st2).

Record loop_inv (pl : string) (order i : nat) (cells : list nat) (st : State)
  : Prop := {
  li_inv : Inv st;
  li_order : order < length (orders st);
  li_nr : not_resting st order;
  li_side : side_of pl (book st) = take (length (side_of pl (book st))) cells;
  li_nodup : NoDup (drop i cells);
  li_mem : ∀ x, x ∈ side_of pl (book st) ↔ x ∈ drop i cells
}.

Record step_post (pl : string) (order i : nat) (cells : list nat) (st : State)
    (cells1 : list nat) (st2 : State) : Prop := {
  sp_inv : Inv st2;
  sp_order : order < length (orders st2);
  sp_nr : not_resting st2 order;
  sp_other_side : other_side pl (book st2) = other_side pl (book st);
  sp_other_map : other_map pl (book st2) = other_map pl (book st);
  sp_index : OrderIndex st2 = OrderIndex st;
  sp_market : Market (book st2) = Market (book st);
  sp_sub : ∀ l, l ∈ side_of pl (book st2) → l ∈ side_of pl (book st);
  sp_frame : ∀ l, l ∉ side_of pl (book st) → limit_at st2 l = limit_at st l;
  sp_conserve :
    (size_at st order - size_at st2 order = sideVolume pl st - sideVolume pl st2)%Z;
  sp_positive : positive_side pl st → positive_side pl st2;
  sp_length : length cells1 = length cells;
  sp_next : size_at st2 order ≠ 0%Z → loop_inv pl order (S i) cells1 st2;
  sp_placement : ∀ o,
    OrderPlacement (order_at st2 o) = OrderPlacement (order_at st o);
  sp_nonempty :
    (∀ l, l ∈ side_of pl (book st) → queue st l ≠ []) →
    ∀ l, l ∈ side_of pl (book st2) → queue st2 l ≠ []
}.

Record loop_post (pl : string) (order : nat) (st st' : State) : Prop := {
  lo_inv : Inv st';
  lo_order : order < length (orders st');
  lo_nr : not_resting st' order;
  lo_other_side : other_side pl (book st') = other_side pl (book st);
  lo_other_map : other_map pl (book st') = other_map pl (book st);
  lo_index : OrderIndex st' = OrderIndex st;
  lo_market : Market (book st') = Market (book st);
  lo_sub : ∀ l, l ∈ side_of pl (book st') → l ∈ side_of pl (book st);
  lo_frame : ∀ l, l ∉ side_of pl (book st) → limit_at st' l = limit_at st l;
  lo_conserve :
    (size_at st order - size_at st' order = sideVolume pl st - sideVolume pl st')%Z;
  lo_positive : positive_side pl st → positive_side pl st';
  lo_exit : size_at st' order = 0%Z ∨ side_of pl (book st') = [];
  lo_placement : ∀ o,
    OrderPlacement (order_at st' o) = OrderPlacement (order_at st o);
  lo_nonempty :
    (∀ l, l ∈ side_of pl (book st) → queue st l ≠ []) →
    ∀ l, l ∈ side_of pl (book st') → queue st' l ≠ []
}.

(** ** First in, first out across a whole market order *)

(** The limit visited by iteration [i] of the loop of [PlaceMarketOrder]. *)
Definition visited (cells : list nat) (i : nat) : nat := default 0 (cells !! i).

Record step_fifo (pl : string) (order i : nat) (cells : list nat) (st : State)
    (lms : list Match) (st2 : State) : Prop := {
  sf_limit_in : visited cells i ∈ side_of pl (book st);
  sf_limit_ne : ∀ l, l ≠ visited cells i → limit_at st2 l = limit_at st l;
  sf_keep : ∀ l,
    l ∈ side_of pl (book st) → l ≠ visited cells i → l ∈ side_of pl (book st2);
  sf_gone : size_at st2 order ≠ 0%Z → visited cells i ∉ side_of pl (book st2);
  sf_queue_sub : ∀ o,
    o ∈ queue st2 (visited cells i) → o ∈ queue st (visited cells i);
  sf_size_frame : ∀ o,
    o ∉ queue st (visited cells i) → o ≠ order → size_at st2 o = size_at st o;
  sf_matches :
    map (resting_of st order) lms = take (length lms) (queue st (visited cells i));
  sf_unvisited : ∀ j o,
    queue st (visited cells i) !! j = Some o → length lms ≤ j →
    size_at st2 o = size_at st o;
  sf_visited : ∀ j o,
    queue st (visited cells i) !! j = Some o → S j < length lms →
    size_at st2 o = 0%Z
}.

(** What a run of matches [new], ending in [st'], owes to the queues of [st]:
    of two orders of one queue, the one behind changes size only if the one in
    front is exhausted, and is matched only after the one in front. *)
Definition fifo_post (st : State) (order : nat) (new : list Match) (st' : State)
  : Prop :=
  ∀ l a b ia ib, in_book st l →
    queue st l !! ia = Some a → queue st l !! ib = Some b → ia < ib →
    (size_at st' b ≠ size_at st b → size_at st' a = 0%Z) ∧
    (∀ j, map (resting_of st order) new !! j = Some b →
       ∃ i, i < j ∧ map (resting_of st order) new !! i = Some a).

Record loop_fifo (pl : string) (order : nat) (st : State)
    (ms ms' : list Match) (st' : State) : Prop := {
  ff_new : ∃ new, ms' = ms ++ new ∧ fifo_post st order new st' ∧
    ∀ o, o ∈ map (resting_of st order) new →
      ∃ l, l ∈ side_of pl (book st) ∧ o ∈ queue st l;
  ff_size_frame : ∀ o,
    o ≠ order → (∀ l, l ∈ side_of pl (book st) → o ∉ queue st l) →
    size_at st' o = size_at st o
}.

(** The side a market order is matched against, as the placement that
    [PlaceMarketOrder] hands to [deleteLimit]. *)
Definition opposite (st : State) (order : nat) : string :=
  if String.eqb (OrderPlacement (order_at st order)) BID_ORDER
  then ASK_ORDER else BID_ORDER.

(** ** [NewOrder], [AddOrder], [PlaceLimitOrder] *)

(** The order was created after every order resting in the book. *)
Definition newest (st : State) (order : nat) : Prop :=
  ∀ l o, in_book st l → o ∈ queue st l → o < order.

(** The limit an order is queued in: the one the price map has at [price],
    or a new one entered in the side and in the map. *)
Definition limitFor (placement : string) (price : Z) (st : State) : nat * State :=
  match map_of placement (book st) !! price with
  | Some limit => (limit, st)
  | None =>
    let '(limit, st0) := NewLimit price st in
    let b := book st0 in
    let b1 := set_side placement (side_of placement b ++ [limit]) b in
    let b2 := set_map placement (<[price := limit]> (map_of placement b1)) b1 in
    (limit, set_book b2 st0)
  end.

Record limitFor_post (pl : string) (price : Z) (st : State)
    (limit : nat) (st1 : State) : Prop := {
  lf_inv : Inv st1;
  lf_limit : limit ∈ side_of pl (book st1);
  lf_price : Price (limit_at st1 limit) = price;
  lf_orders : orders st1 = orders st;
  lf_index : OrderIndex st1 = OrderIndex st;
  lf_market : Market (book st1) = Market (book st);
  lf_other_side : other_side pl (book st1) = other_side pl (book st);
  lf_other_map : other_map pl (book st1) = other_map pl (book st);
  lf_old : ∀ l, l < length (limits st) → limit_at st1 l = limit_at st l;
  lf_in_book : ∀ l, in_book st1 l →
     in_book st l ∨ (l = limit ∧ queue st1 limit = []);
  lf_side : ∀ l, l ∈ side_of pl (book st) → l ∈ side_of pl (book st1)
}.

(** ** Reachable states *)

(** A state of the machine between two public operations, any number of
    them after [NewOrderBook]; an operation that fails counts as well.  As in
    the handlers, every placement is made with an order that [NewOrder] has
    just built. *)
Definition reachable (st : State) : Prop :=
  ∃ market cs, st = run_ops cs (init market).

(** * States of the examples *)

(** ** C1: a market order larger than the opposing volume *)

(** Two asks of 100 and a market bid of 500, as in the test of the package. *)
Definition twoAsks : State :=
  snd (NewOrder BID_ORDER 500 3
         (run_ops [OpLimit ASK_ORDER 100 10000 1; OpLimit ASK_ORDER 100 12000 2]
                  (init "ETH"))).

(** ** C2: scenario A *)

Definition scenarioA (t1 t2 t3 t4 : Z) : list op :=
  [ OpLimit ASK_ORDER 100 10000 t1; OpLimit ASK_ORDER 350 12000 t2;
    OpLimit ASK_ORDER 15 13000 t3; OpLimit ASK_ORDER 51 12000 t4 ].

Definition matches_of (r : outcome) : list Match :=
  match r with Matched ms => ms | _ => [] end.

(** The price and the volume of the limits of the ask side, best price first. *)
Definition askLevels (st : State) : list (Z * Z) :=
  map (λ l, (Price (limit_at st l), TotalVolume (limit_at st l))) (fst (Asks st)).

(** ** C3: a filled order stays in the index *)

Definition filledAsk : State :=
  run_ops [OpLimit ASK_ORDER 100 10000 1; OpMarket BID_ORDER 100 2] (init "ETH").

(** ** C4: the volume invariant *)

Definition restingA : State := run_ops (scenarioA 1 2 3 4) (init "ETH").

(** ** C5: first in, first out within a limit *)

(** ** C6: [DeleteOrder] with an order that is not in the queue *)

(** A limit at 10000 holding orders of size 5 and 3, and a third order, of
    size 13, that was never added to it. *)
Definition limitOfTwo : State :=
  let '(l, st) := NewLimit 10000 (init "ETH") in
  let '(o0, st) := NewOrder BID_ORDER 5 1 st in
  let st := AddOrder l o0 st in
  let '(o1, st) := NewOrder ASK_ORDER 3 2 st in
  let st := AddOrder l o1 st in
  snd (NewOrder ASK_ORDER 13 3 st).

(** ** C8: one limit per price, and the price maps *)

(** The slice of a side and its price map: no limit twice, no two limits at
    one price, every entry of the map a limit of the side at that price, and
    every limit of the side the entry of the map at its price. *)
Definition price_indexed (st : State) (side : list nat) (m : gmap Z nat) : Prop :=
  NoDup side ∧
  (∀ l1 l2, l1 ∈ side → l2 ∈ side →
     Price (limit_at st l1) = Price (limit_at st l2) → l1 = l2) ∧
  (∀ p l, m !! p = Some l → l ∈ side ∧ Price (limit_at st l) = p) ∧
  (∀ l, l ∈ side → m !! Price (limit_at st l) = Some l).

(** ** C9: [PlaceLimitOrder] leaves the opposing side alone *)

(** A bid of 5 at 20000, above every ask of scenario A, has just been created. *)
Definition crossingBid : State := snd (NewOrder BID_ORDER 5 6 restingA).

(** ** C10: a market order of exactly the opposing volume *)

(** An ask of 100 at 10000 and one of 50 at 12000. *)
Definition twoLevelsOps : list op :=
  [OpLimit ASK_ORDER 100 10000 1; OpLimit ASK_ORDER 50 12000 2].

(** * Further definitions *)

(** What no operation on the book changes: the number of objects, the id
    counter, the market, the identity of an order (id, placement, timestamp),
    the price of a limit; and what only [AddOrder] extends, the queues. *)
Record kept (st st' : State) : Prop := {
  k_orders : length (orders st') = length (orders st);
  k_limits : length (limits st') = length (limits st);
  k_seq : orderIdSequence st' = orderIdSequence st;
  k_market : Market (book st') = Market (book st);
  k_id : ∀ o, ID (order_at st' o) = ID (order_at st o);
  k_placement : ∀ o, OrderPlacement (order_at st' o) = OrderPlacement (order_at st o);
  k_ts : ∀ o, ts_at st' o = ts_at st o;
  k_price : ∀ l, Price (limit_at st' l) = Price (limit_at st l);
  k_queue : ∀ l o, o ∈ queue st' l → o ∈ queue st l
}.

(** The bookkeeping of ids, of the index and of the sides: the id counter
    counts the orders created, an order has the id of its creation, an entry
    of [OrderIndex] is filed under the id of its order and names the market
    of the book, and an order rests on the side of its placement. *)
Record Wf (st : State) : Prop := {
  wf_seq : orderIdSequence st = wrap64 (Z.of_nat (length (orders st)));
  wf_id : ∀ o, o < length (orders st) →
    ID (order_at st o) = wrap64 (Z.of_nat o + 1);
  wf_index : ∀ id md, OrderIndex st !! id = Some md →
    MetaOrder md < length (orders st) ∧
    ID (order_at st (MetaOrder md)) = id ∧
    MetaMarket md = Market (book st);
  wf_bids : ∀ l o, l ∈ bids (book st) → o ∈ queue st l →
    OrderPlacement (order_at st o) = BID_ORDER;
  wf_asks : ∀ l o, l ∈ asks (book st) → o ∈ queue st l →
    OrderPlacement (order_at st o) = ASK_ORDER
}.

(** What [PlaceLimitOrder] does with a valid placement [pl]: [limit] is the
    limit of the side at [price], the one already there or a new one, and
    the order is queued behind the orders it holds. *)
Record placed (pl : string) (price : Z) (order limit : nat) (st st' : State)
  : Prop := {
  pd_inv : Inv st';
  pd_found : ∀ l, map_of pl (book st) !! price = Some l → limit = l;
  pd_fresh : map_of pl (book st) !! price = None → limit = length (limits st);
  pd_side : side_of pl (book st')
            = match map_of pl (book st) !! price with
              | Some _ => side_of pl (book st)
              | None => side_of pl (book st) ++ [limit]
              end;
  pd_map : map_of pl (book st') = <[price := limit]> (map_of pl (book st));
  pd_other_side : other_side pl (book st') = other_side pl (book st);
  pd_other_map : other_map pl (book st') = other_map pl (book st);
  pd_market : Market (book st') = Market (book st);
  pd_price : Price (limit_at st' limit) = price;
  pd_queue : queue st' limit = queue st limit ++ [order];
  pd_volume : TotalVolume (limit_at st' limit)
              = (TotalVolume (limit_at st limit) + size_at st order)%Z;
  pd_limits : ∀ l, l ≠ limit → l < length (limits st) → limit_at st' l = limit_at st l;
  pd_orders : length (orders st') = length (orders st);
  pd_seq : orderIdSequence st' = orderIdSequence st;
  pd_order : ∀ {B} (g : Order → B), (∀ f x, g (with_OrderLimit f x) = g x) →
    ∀ o, g (order_at st' o) = g (order_at st o);
  pd_back : OrderLimit (order_at st' order) = Some limit;
  pd_index : OrderIndex st'
             = <[ID (order_at st order) := mkOrderMetadata order (Market (book st))]>
                 (OrderIndex st)
}.

(** Fewer than [2^63] orders were created: no id has wrapped around. *)
Definition bounded (st : State) : Prop :=
  (Z.of_nat (length (orders st)) < 2 ^ 63)%Z.

(** Every order resting in the book is filed in [OrderIndex] under its id. *)
Definition Indexed (st : State) : Prop :=
  ∀ l o, in_book st l → o ∈ queue st l →
    OrderIndex st !! ID (order_at st o)
    = Some (mkOrderMetadata o (Market (book st))).

(** What [CancelOrderByID] does once its loops have found [order] in the
    queue of [limit]: the order leaves the queue and the index, and the limit
    leaves the book if no volume is left in it. *)
Record cancelled (pl : string) (limit order : nat) (st st' : State) : Prop := {
  cd_inv : Inv st';
  cd_index : OrderIndex st' = delete (ID (order_at st order)) (OrderIndex st);
  cd_other_side : other_side pl (book st') = other_side pl (book st);
  cd_other_map : other_map pl (book st') = other_map pl (book st);
  cd_queue : order :: queue st' limit ≡ₚ queue st limit;
  cd_volume : TotalVolume (limit_at st' limit)
              = (TotalVolume (limit_at st limit) - size_at st order)%Z;
  cd_limits : ∀ l, l ≠ limit → limit_at st' l = limit_at st l;
  cd_size : ∀ o, size_at st' o = size_at st o;
  cd_back : OrderLimit (order_at st' order) = None;
  cd_keep : TotalVolume (limit_at st' limit) ≠ 0%Z →
    side_of pl (book st') = side_of pl (book st) ∧
    map_of pl (book st') = map_of pl (book st);
  cd_drop : TotalVolume (limit_at st' limit) = 0%Z →
    limit :: side_of pl (book st') ≡ₚ side_of pl (book st) ∧
    map_of pl (book st') = delete (Price (limit_at st limit)) (map_of pl (book st));
  cd_swap : TotalVolume (limit_at st' limit) = 0%Z →
    ∃ j, side_of pl (book st) !! j = Some limit ∧
         side_of pl (book st') = swap_delete j (side_of pl (book st));
  cd_queue_eq : queue st' limit
                = sortBy (Orders_Less st) (without order (queue st limit))
}.

(** The sum of the sizes filled by a list of matches. *)
Definition filledTotal (ms : list Match) : Z :=
  foldr (λ mt a, SizeFilled mt + a)%Z 0%Z ms.

(** The incoming order of a match, from its placement. *)
Definition incoming_side (placement : string) (mt : Match) : nat :=
  if String.eqb placement BID_ORDER then Bid mt else Ask mt.

(** What the matches of one iteration add up to, whom they pair and at
    which price; the cells behind the iteration are left alone. *)
Record step_matches (pl : string) (order i : nat) (cells : list nat) (st : State)
    (lms : list Match) (cells1 : list nat) (st2 : State) : Prop := {
  sm_total : filledTotal lms = (size_at st order - size_at st2 order)%Z;
  sm_incoming : ∀ mt, mt ∈ lms →
    incoming_side (OrderPlacement (order_at st order)) mt = order;
  sm_resting : ∀ mt, mt ∈ lms →
    resting_of st order mt ∈ queue st (visited cells i) ∧
    MatchPrice mt = Price (limit_at st (visited cells i));
  sm_nonneg :
    (0 ≤ size_at st order)%Z ∨ queue st (visited cells i) ≠ [] →
    (0 ≤ size_at st2 order)%Z;
  sm_cells : drop (S i) cells1 = drop (S i) cells
}.

(** What the matches of the loop of [PlaceMarketOrder] add up to, whom they
    pair, and at which prices: [R] orders the prices, best first. *)
Record loop_matches (R : Z → Z → Prop) (pl : string) (order i : nat)
    (cells : list nat) (st : State) (new : list Match) (st' : State) : Prop := {
  lm_total : filledTotal new = (size_at st order - size_at st' order)%Z;
  lm_incoming : ∀ mt, mt ∈ new →
    incoming_side (OrderPlacement (order_at st order)) mt = order;
  lm_resting : ∀ mt, mt ∈ new →
    ∃ l, l ∈ side_of pl (book st) ∧ resting_of st order mt ∈ queue st l ∧
         MatchPrice mt = Price (limit_at st l);
  lm_nonneg :
    (0 ≤ size_at st order)%Z ∨ (i < length cells ∧ queue st (visited cells i) ≠ []) →
    (0 ≤ size_at st' order)%Z;
  lm_sorted : StronglySorted R (map MatchPrice new);
  lm_left : ∀ l mt, l ∈ side_of pl (book st') → mt ∈ new →
    R (MatchPrice mt) (Price (limit_at st l))
}.

(** The order in which an incoming market order of this placement meets the
    prices: a bid takes the lowest ask first, anything else the highest bid. *)
Definition priceOrder (placement : string) (p q : Z) : Prop :=
  if String.eqb placement BID_ORDER then (p ≤ q)%Z else (q ≤ p)%Z.

(** The matches [ms] of a whole market order against the side [pl]. *)
Record matched (R : Z → Z → Prop) (pl : string) (order : nat) (st : State)
    (ms : list Match) (st' : State) : Prop := {
  md_total : filledTotal ms = (size_at st order - size_at st' order)%Z;
  md_incoming : ∀ mt, mt ∈ ms →
    incoming_side (OrderPlacement (order_at st order)) mt = order;
  md_resting : ∀ mt, mt ∈ ms →
    ∃ l, l ∈ side_of pl (book st) ∧ resting_of st order mt ∈ queue st l ∧
         MatchPrice mt = Price (limit_at st l);
  md_nonneg :
    (0 ≤ size_at st order)%Z ∨
    (side_of pl (book st) ≠ [] ∧ ∀ l, l ∈ side_of pl (book st) → queue st l ≠ []) →
    (0 ≤ size_at st' order)%Z;
  md_sorted : StronglySorted R (map MatchPrice ms);
  md_left : ∀ l mt, l ∈ side_of pl (book st') → mt ∈ ms →
    R (MatchPrice mt) (Price (limit_at st l))
}.

(** Every order resting in the book has a strictly positive residual size. *)
Definition positive_book (st : State) : Prop :=
  ∀ l o, in_book st l → o ∈ queue st l → (0 < size_at st o)%Z.

(** The limit orders among the operations all have a strictly positive size. *)
Definition positive_sizes (cs : list op) : Prop :=
  ∀ placement size price now, OpLimit placement size price now ∈ cs → (0 < size)%Z.

(** A market order as the handler issues it: the order is built by
    [NewOrder], at index [length (orders st)], then placed. *)
Record market_run (placement : string) (size now : Z) (st : State)
    (ms : list Match) (st' : State) : Prop := {
  mr_post : loop_post (if String.eqb placement BID_ORDER then ASK_ORDER else BID_ORDER)
              (length (orders st)) (snd (NewOrder placement size now st)) st';
  mr_matched : matched (priceOrder placement)
              (if String.eqb placement BID_ORDER then ASK_ORDER else BID_ORDER)
              (length (orders st)) (snd (NewOrder placement size now st)) ms st';
  mr_sizes : ∀ o, o < length (orders st) →
    (∀ l, l ∈ other_side placement (book st) → o ∉ queue st l) →
    size_at st' o = size_at st o;
  mr_kept : kept (snd (NewOrder placement size now st)) st'
}.

(** The total volume of the side of this placement: [BidTotalVolume] for a
    bid, [AskTotalVolume] otherwise. *)
Definition ownVolume (placement : string) (st : State) : Z :=
  if String.eqb placement BID_ORDER then BidTotalVolume st else AskTotalVolume st.

(** Four asks at three prices, entered worst price first, and two bids. *)
Definition sixOps : list op :=
  [ OpLimit ASK_ORDER 15 13000 1; OpLimit ASK_ORDER 350 12000 2;
    OpLimit ASK_ORDER 100 10000 3; OpLimit ASK_ORDER 51 12000 4;
    OpLimit BID_ORDER 7 9000 5; OpLimit BID_ORDER 9 9500 6 ].

Definition sixOrders : State := run_ops sixOps (init "ETH").

(** A limit at 10000 holding four orders stamped 1, 2, 3 and 4. *)
Definition limitOfFour : State :=
  let '(l, st) := NewLimit 10000 (init "ETH") in
  let '(o0, st) := NewOrder BID_ORDER 5 1 st in
  let st := AddOrder l o0 st in
  let '(o1, st) := NewOrder ASK_ORDER 3 2 st in
  let st := AddOrder l o1 st in
  let '(o2, st) := NewOrder ASK_ORDER 13 3 st in
  let st := AddOrder l o2 st in
  let '(o3, st) := NewOrder ASK_ORDER 7 4 st in
  AddOrder l o3 st.

(** ** The request handlers of [main.go]

    The handlers are modelled from the decoded request to the reply: what
    [c.JSON] writes (status code and body) and the error the handler returns.
    Requests are served one at a time.  [strconv.ParseInt] and
    [strings.ToUpper] are parameters of the handlers that call them. *)

Definition MarketOrder : string := "MARKET_ORDER".
Definition LimitOrder : string := "LIMIT_ORDER".
Definition MarketETH : string := "ETH".

Record PlaceOrderRequest := mkPlaceOrderRequest {
  ReqType : string;             (* field [Type] *)
  ReqPlacement : string;        (* field [Placement] *)
  ReqSize : Z;                  (* field [Size] *)
  ReqPrice : Z;                 (* field [Price] *)
  ReqMarket : string            (* field [Market] *)
}.

Record OrderData := mkOrderData {
  DataID : Z;
  DataOrderPlacement : string;
  DataSize : Z;
  DataPrice : Z;
  DataTimestamp : Z
}.

Record OrderBookData := mkOrderBookData {
  DataAsks : list OrderData;
  DataBids : list OrderData;
  DataBidTotalVolume : Z;
  DataAskTotalVolume : Z
}.

(** The bodies the handlers write. *)
Inductive payload :=
  | Msg (msg : string)
  | MsgOrder (msg : string) (order : Order)
  | MsgOrderMatches (msg : string) (order : Order) (matches : nat)
  | BookData (data : OrderBookData).

(** The errors the handlers return. *)
Inductive handlerError :=
  | DecodeError
  | OrderBookIsEmpty
  | Propagated (cause : error) (format : string) (args : list Z).

Record reply := mkReply {
  written : option (Z * payload);     (* the call of [c.JSON], if any *)
  returned : option handlerError      (* the error returned, [None] for nil *)
}.

(** [NewExchange]: the one book, for [MarketETH], and the package-level
    variables of [entity] at their initial values. *)
Definition NewExchange : State := init MarketETH.

(** [ex.orderBooks[market]]: the map has the one entry [NewExchange] makes. *)
Definition orderBooks (market : string) (st : State) : option OrderBook :=
  if String.eqb market MarketETH then Some (book st) else None.

Definition handlePlaceOrder (body : option PlaceOrderRequest) (now : Z) (st : State)
  : reply * State :=
  match body with
  | None => (mkReply None (Some DecodeError), st)
  | Some placeOrderRequest =>
    match orderBooks (ReqMarket placeOrderRequest) st with
    | None => (mkReply None (Some OrderBookIsEmpty), st)
    | Some _ =>
      let '(order, st1) :=
        NewOrder (ReqPlacement placeOrderRequest) (ReqSize placeOrderRequest) now st in
      if String.eqb (ReqType placeOrderRequest) LimitOrder then
        match PlaceLimitOrder (ReqPrice placeOrderRequest) order st1 with
        | (Some err, st2) =>
          (mkReply (Some (500%Z, Msg "failed to place order"))
                   (Some (Propagated err "handlePlaceOrder: failed to place limit order" [])),
           st2)
        | (None, st2) =>
          (mkReply (Some (200%Z, MsgOrder "order placed" (order_at st2 order))) None, st2)
        end
      else if String.eqb (ReqType placeOrderRequest) MarketOrder then
        match PlaceMarketOrder order st1 with
        | (inr err, st2) =>
          (mkReply (Some (500%Z, Msg "failed to place order"))
                   (Some (Propagated err "handlePlaceOrder: failed to place market order" [])),
           st2)
        | (inl matches, st2) =>
          (mkReply (Some (200%Z, MsgOrderMatches "order placed" (order_at st2 order)
                                   (length matches))) None, st2)
        end
      else (mkReply (Some (400%Z, Msg "invalid order type")) None, st1)
    end
  end.

(** The two loops of [handleGetBook] over the limits of a side and their
    orders. *)
Definition orderData (st : State) (limit order : nat) : OrderData :=
  mkOrderData (ID (order_at st order)) (OrderPlacement (order_at st order))
              (Size (order_at st order)) (Price (limit_at st limit))
              (Timestamp (order_at st order)).

Definition listOrders (st : State) (ls : list nat) : list OrderData :=
  concat (map (λ limit, map (orderData st limit) (Orders (limit_at st limit))) ls).

Section Handlers.
Variable ParseInt : string → option Z.   (* [strconv.ParseInt(s, 10, 64)], [None] for an error *)
Variable ToUpper : string → string.      (* [strings.ToUpper] *)

Definition handleGetBook (market : string) (st : State) : reply * State :=
  match orderBooks (ToUpper market) st with
  | None => (mkReply (Some (404%Z, Msg "market not found")) None, st)
  | Some _ =>
    let bidTotalVolume := BidTotalVolume st in
    let askTotalVolume := AskTotalVolume st in
    let '(asks, st1) := Asks st in
    let asksData := listOrders st1 asks in
    let '(bids, st2) := Bids st1 in
    let bidsData := listOrders st2 bids in
    (mkReply (Some (200%Z, BookData (mkOrderBookData asksData bidsData
                                       bidTotalVolume askTotalVolume))) None,
     st2)
  end.

Definition handleCancelOrder (orderId : string) (st : State) : reply * State :=
  if String.eqb orderId EmptyString
  then (mkReply (Some (404%Z, Msg "order ID not found")) None, st)
  else
    match ParseInt orderId with
    | None => (mkReply (Some (400%Z, Msg "invalid order_id")) None, st)
    | Some orderIdInt64 =>
      match OrderIndex st !! orderIdInt64 with
      | None => (mkReply (Some (404%Z, Msg "order id not found")) None, st)
      | Some order =>
        match orderBooks (MetaMarket order) st with
        | None => (mkReply (Some (404%Z, Msg "market not found")) None, st)
        | Some _ =>
          match CancelOrderByID orderIdInt64
                  (OrderPlacement (order_at st (MetaOrder order))) st with
          | (Some ErrNotFound, st1) =>
            (mkReply (Some (404%Z, Msg "order id not found")) None, st1)
          | (Some err, st1) =>
            (mkReply (Some (500%Z, Msg "error occured when executing order cancelation"))
                     (Some (Propagated err "handleCancelOrder: failed to cancel order id %d"
                                       [orderIdInt64])),
             st1)
          | (None, st1) => (mkReply (Some (200%Z, Msg "order deleted")) None, st1)
          end
        end
      end
    end.

(** The routes of [main]. *)
Inductive request :=
  | PostOrder (body : option PlaceOrderRequest) (now : Z)
  | GetBook (market : string)
  | DeleteOrderCancel (id : string).

Definition serve (rq : request) (st : State) : reply * State :=
  match rq with
  | PostOrder body now => handlePlaceOrder body now st
  | GetBook market => handleGetBook market st
  | DeleteOrderCancel id => handleCancelOrder id st
  end.

Definition serve_all (rqs : list request) (st : State) : State :=
  foldl (λ s rq, snd (serve rq s)) st rqs.

(** A state of the exchange between two requests. *)
Definition served (st : State) : Prop :=
  ∃ rqs, st = serve_all rqs NewExchange.

End Handlers.

(** The invariants of the book, for the states of the exchange. *)
Record Good (st : State) : Prop := {
  good_inv : Inv st;
  good_nonempty : NonEmpty st;
  good_wf : Wf st;
  good_market : Market (book st) = MarketETH
}.

(** A parser of ids for the examples: it knows the ids 1 to 3. *)
Definition parseSmall (s : string) : option Z :=
  if String.eqb s "1" then Some 1%Z
  else if String.eqb s "2" then Some 2%Z
  else if String.eqb s "3" then Some 3%Z
  else None.

(** Two asks at 12000, an ask at 10000, a request for the book and a market
    bid that exhausts the first ask at 12000 and the ask at 10000. *)
Definition fourRequests : list request :=
  [ PostOrder (Some (mkPlaceOrderRequest LimitOrder ASK_ORDER 350 12000 MarketETH)) 1;
    PostOrder (Some (mkPlaceOrderRequest LimitOrder ASK_ORDER 51 12000 MarketETH)) 2;
    PostOrder (Some (mkPlaceOrderRequest LimitOrder ASK_ORDER 100 10000 MarketETH)) 3;
    GetBook "ETH" ].

Definition afterRequests : State := serve_all parseSmall id fourRequests NewExchange.

Definition fiveRequests : list request :=
  fourRequests ++
  [ PostOrder (Some (mkPlaceOrderRequest MarketOrder BID_ORDER 450 0 MarketETH)) 5 ].

Definition afterMarketBid : State := serve_all parseSmall id fiveRequests NewExchange.

(** * The program on binary64 sizes

    [Size], [TotalVolume] and [SizeFilled] are [float64] in the source.  The
    definitions above compute them in [Z]; this module repeats the program
    with the arithmetic of IEEE 754 binary64 as the Standard Library specifies
    it ([SpecFloat], precision 53, [emax] 1024, rounding to nearest even),
    statement by statement the same otherwise.  Prices stay in [Z]: they are
    only compared with each other and used as keys. *)

Module F64.

Definition f64 : Type := spec_float.

Definition zero : f64 := S754_zero false.

(** [x + y], [x - y], [x / y] *)
Definition add (x y : f64) : f64 := SFadd 53 1024 x y.
Definition sub (x y : f64) : f64 := SFsub 53 1024 x y.
Definition div (x y : f64) : f64 := SFdiv 53 1024 x y.

(** [x > y] and [x == y]: false when an operand is NaN. *)
Definition gtb (x y : f64) : bool := SFltb y x.
Definition eqb (x y : f64) : bool := SFeqb x y.

(** The builtin [min] on two [float64]: NaN if an operand is NaN, and the
    negative zero is the smaller of the two zeros. *)
Definition min (x y : f64) : f64 :=
  match x, y with
  | S754_nan, _ | _, S754_nan => S754_nan
  | _, _ =>
    if SFltb x y then x
    else if SFltb y x then y
    else match x with S754_zero true => x | _ => y end
  end.

(** The [float64] of a whole number, and of a decimal fraction [n / d] as
    [strconv.ParseFloat] rounds it. *)
Definition of_Z (z : Z) : f64 := binary_normalize 53 1024 z 0 false.
Definition of_ratio (n d : Z) : f64 := div (of_Z n) (of_Z d).

Record Order := mkOrder {
  ID : Z;
  OrderPlacement : string;
  Size : f64;
  OrderLimit : option nat;
  Timestamp : Z
}.

Record Limit := mkLimit {
  Price : Z;
  Orders : list nat;
  TotalVolume : f64
}.

Record Match := mkMatch {
  Ask : nat;
  Bid : nat;
  SizeFilled : f64;
  MatchPrice : Z
}.

Record State := mkState {
  orders : list Order;
  limits : list Limit;
  book : OrderBook;
  OrderIndex : gmap Z OrderMetadata;
  orderIdSequence : Z
}.

Inductive error :=
  | ErrNotFound
  | ErrInvalidPlacement
  | ErrNotEnoughAskVolume (asksVolume bidSize : f64)
  | ErrNotEnoughBidVolume (askSize bidsVolume : f64).

Definition nilOrder : Order := mkOrder 0 "" zero None 0.
Definition nilLimit : Limit := mkLimit 0 [] zero.

Definition order_at (st : State) (o : nat) : Order := default nilOrder (orders st !! o).
Definition limit_at (st : State) (l : nat) : Limit := default nilLimit (limits st !! l).

Definition set_orders (os : list Order) (st : State) : State :=
  mkState os (limits st) (book st) (OrderIndex st) (orderIdSequence st).
Definition set_limits (ls : list Limit) (st : State) : State :=
  mkState (orders st) ls (book st) (OrderIndex st) (orderIdSequence st).
Definition set_book (b : OrderBook) (st : State) : State :=
  mkState (orders st) (limits st) b (OrderIndex st) (orderIdSequence st).
Definition set_index (ix : gmap Z OrderMetadata) (st : State) : State :=
  mkState (orders st) (limits st) (book st) ix (orderIdSequence st).

Definition upd_order (o : nat) (f : Order → Order) (st : State) : State :=
  set_orders (alter f o (orders st)) st.
Definition upd_limit (l : nat) (f : Limit → Limit) (st : State) : State :=
  set_limits (alter f l (limits st)) st.

Definition with_Size (f : f64 → f64) (x : Order) : Order :=
  mkOrder (ID x) (OrderPlacement x) (f (Size x)) (OrderLimit x) (Timestamp x).
Definition with_OrderLimit (l : option nat) (x : Order) : Order :=
  mkOrder (ID x) (OrderPlacement x) (Size x) l (Timestamp x).
Definition with_Orders (f : list nat → list nat) (x : Limit) : Limit :=
  mkLimit (Price x) (f (Orders x)) (TotalVolume x).
Definition with_TotalVolume (f : f64 → f64) (x : Limit) : Limit :=
  mkLimit (Price x) (Orders x) (f (TotalVolume x)).

Definition Orders_Less (st : State) (a b : nat) : bool :=
  (Timestamp (order_at st a) <? Timestamp (order_at st b))%Z.
Definition ByBestAsk_Less (st : State) (a b : nat) : bool :=
  (Price (limit_at st a) <? Price (limit_at st b))%Z.
Definition ByBestBid_Less (st : State) (a b : nat) : bool :=
  (Price (limit_at st a) >? Price (limit_at st b))%Z.

Definition NewOrder (orderPlacement : string) (size : f64) (now : Z) (st : State)
  : nat * State :=
  let seq := wrap64 (orderIdSequence st + 1) in
  (length (orders st),
   mkState (orders st ++ [mkOrder seq orderPlacement size None now])
           (limits st) (book st) (OrderIndex st) seq).

Definition IsFilled (st : State) (o : nat) : bool := eqb (Size (order_at st o)) zero.

Definition NewLimit (price : Z) (st : State) : nat * State :=
  (length (limits st), set_limits (limits st ++ [mkLimit price [] zero]) st).

Definition AddOrder (l o : nat) (st : State) : State :=
  let st1 := upd_order o (with_OrderLimit (Some l)) st in
  let st2 := upd_limit l (with_Orders (λ os, os ++ [o])) st1 in
  upd_limit l (with_TotalVolume (λ v, add v (Size (order_at st2 o)))) st2.

Definition DeleteOrder (l o : nat) (st : State) : State :=
  let st1 :=
    match find_index o (Orders (limit_at st l)) with
    | Some i => upd_limit l (with_Orders (swap_delete i)) st
    | None => st
    end in
  let st2 := upd_order o (with_OrderLimit None) st1 in
  let st3 := upd_limit l (with_TotalVolume (λ v, sub v (Size (order_at st2 o)))) st2 in
  upd_limit l (with_Orders (sortBy (Orders_Less st3))) st3.

Definition fillOrder (l matchingOrder order : nat) (st : State) : Match * State :=
  let '(ask, bid) :=
    if String.eqb (OrderPlacement (order_at st order)) BID_ORDER
    then (matchingOrder, order) else (order, matchingOrder) in
  let sizeFilled := min (Size (order_at st ask)) (Size (order_at st bid)) in
  let st1 := upd_order ask (with_Size (λ s, sub s sizeFilled)) st in
  let st2 := upd_order bid (with_Size (λ s, sub s sizeFilled)) st1 in
  let st3 := upd_limit l (with_TotalVolume (λ v, sub v sizeFilled)) st2 in
  (mkMatch ask bid sizeFilled (Price (limit_at st3 l)), st3).

Fixpoint Fill_walk (l order : nat) (resting : list nat) (st : State)
  : list nat * list Match * State :=
  match resting with
  | [] => ([], [], st)
  | matchingOrder :: rest =>
    let '(mt, st1) := fillOrder l matchingOrder order st in
    let del := if IsFilled st1 matchingOrder then [matchingOrder] else [] in
    if IsFilled st1 order then (del, [mt], st1)
    else
      let '(dels, matches, st2) := Fill_walk l order rest st1 in
      (del ++ dels, mt :: matches, st2)
  end.

Definition Fill (l order : nat) (st : State) : list Match * State :=
  let '(ordersToDelete, matches, st1) := Fill_walk l order (Orders (limit_at st l)) st in
  (matches, foldl (λ s o, DeleteOrder l o s) st1 ordersToDelete).

Definition sumVolume (st : State) (ls : list nat) : f64 :=
  foldl (λ totalVolume l, add totalVolume (TotalVolume (limit_at st l))) zero ls.

Definition AskTotalVolume (st : State) : f64 := sumVolume st (asks (book st)).
Definition BidTotalVolume (st : State) : f64 := sumVolume st (bids (book st)).

Definition Asks (st : State) : list nat * State :=
  let s := sortBy (ByBestAsk_Less st) (asks (book st)) in
  (s, set_book (set_side ASK_ORDER s (book st)) st).

Definition Bids (st : State) : list nat * State :=
  let s := sortBy (ByBestBid_Less st) (bids (book st)) in
  (s, set_book (set_side BID_ORDER s (book st)) st).

Definition deleteLimitCells (limitPlacement : string) (limit : nat) (cells : list nat)
    (st : State) : list nat * State :=
  let b := book st in
  let b1 := set_map limitPlacement (delete (Price (limit_at st limit)) (map_of limitPlacement b)) b in
  let '(cells', len') := sliceDelete limit cells (length (side_of limitPlacement b1)) in
  (cells', set_book (set_side limitPlacement (take len' cells') b1) st).

Definition deleteLimit (limitPlacement : string) (limit : nat) (st : State) : State :=
  snd (deleteLimitCells limitPlacement limit (side_of limitPlacement (book st)) st).

Fixpoint marketLoop (limitPlacement : string) (order : nat) (k i : nat) (cells : list nat)
    (matches : list Match) (st : State) : list Match * State :=
  match k with
  | 0 => (matches, st)
  | S k' =>
    let limit := default 0 (cells !! i) in
    let '(limitMatches, st1) := Fill limit order st in
    let '(cells1, st2) :=
      if eqb (TotalVolume (limit_at st1 limit)) zero
      then deleteLimitCells limitPlacement limit cells st1
      else (cells, st1) in
    let matches := matches ++ limitMatches in
    if IsFilled st2 order then (matches, st2)
    else marketLoop limitPlacement order k' (S i) cells1 matches st2
  end.

Definition PlaceMarketOrder (order : nat) (st : State) : (list Match + error) * State :=
  if String.eqb (OrderPlacement (order_at st order)) BID_ORDER then
    if gtb (Size (order_at st order)) (AskTotalVolume st)
    then (inr (ErrNotEnoughAskVolume (AskTotalVolume st) (Size (order_at st order))), st)
    else
      let '(cells, st1) := Asks st in
      let '(matches, st2) := marketLoop ASK_ORDER order (length cells) 0 cells [] st1 in
      (inl matches, st2)
  else
    if gtb (Size (order_at st order)) (BidTotalVolume st)
    then (inr (ErrNotEnoughBidVolume (Size (order_at st order)) (BidTotalVolume st)), st)
    else
      let '(cells, st1) := Bids st in
      let '(matches, st2) := marketLoop BID_ORDER order (length cells) 0 cells [] st1 in
      (inl matches, st2).

Definition PlaceLimitOrder (price : Z) (order : nat) (st : State) : option error * State :=
  let placement := OrderPlacement (order_at st order) in
  if negb (String.eqb placement BID_ORDER || String.eqb placement ASK_ORDER)
  then (Some ErrInvalidPlacement, st)
  else
    let '(limit, st1) :=
      match map_of placement (book st) !! price with
      | Some limit => (limit, st)
      | None =>
        let '(limit, st0) := NewLimit price st in
        let b := book st0 in
        let b1 := set_side placement (side_of placement b ++ [limit]) b in
        let b2 := set_map placement (<[price := limit]> (map_of placement b1)) b1 in
        (limit, set_book b2 st0)
      end in
    let st2 := AddOrder limit order st1 in
    let st3 := set_index (<[ID (order_at st2 order) :=
                            mkOrderMetadata order (Market (book st2))]> (OrderIndex st2)) st2 in
    (None, st3).

Fixpoint findOrder (st : State) (orderId : Z) (os : list nat) : option nat :=
  match os with
  | [] => None
  | order :: rest =>
    if (ID (order_at st order) =? orderId)%Z then Some order else findOrder st orderId rest
  end.

Fixpoint findLimitOrder (st : State) (orderId : Z) (ls : list nat) : option (nat * nat) :=
  match ls with
  | [] => None
  | limit :: rest =>
    match findOrder st orderId (Orders (limit_at st limit)) with
    | Some order => Some (limit, order)
    | None => findLimitOrder st orderId rest
    end
  end.

Definition CancelOrderByID (orderId : Z) (orderPlacement : string) (st : State)
  : option error * State :=
  match findLimitOrder st orderId (side_of orderPlacement (book st)) with
  | Some (limit, order) =>
    let st1 := DeleteOrder limit order st in
    let st2 := set_index (delete (ID (order_at st1 order)) (OrderIndex st1)) st1 in
    let st3 :=
      if eqb (TotalVolume (limit_at st2 limit)) zero
      then deleteLimit orderPlacement limit st2 else st2 in
    (None, st3)
  | None => (Some ErrNotFound, st)
  end.

Inductive op :=
  | OpLimit (placement : string) (size : f64) (price now : Z)
  | OpMarket (placement : string) (size : f64) (now : Z)
  | OpCancel (orderId : Z) (placement : string).

Inductive outcome :=
  | Placed
  | Matched (matches : list Match)
  | Cancelled
  | Failed (e : error).

Definition run_op (c : op) (st : State) : outcome * State :=
  match c with
  | OpLimit placement size price now =>
    let '(order, st1) := NewOrder placement size now st in
    match PlaceLimitOrder price order st1 with
    | (None, st2) => (Placed, st2)
    | (Some e, st2) => (Failed e, st2)
    end
  | OpMarket placement size now =>
    let '(order, st1) := NewOrder placement size now st in
    match PlaceMarketOrder order st1 with
    | (inl matches, st2) => (Matched matches, st2)
    | (inr e, st2) => (Failed e, st2)
    end
  | OpCancel orderId placement =>
    match CancelOrderByID orderId placement st with
    | (None, st1) => (Cancelled, st1)
    | (Some e, st1) => (Failed e, st1)
    end
  end.

Definition init (market : string) : State :=
  mkState [] [] (NewOrderBook market) ∅ 0.

Definition run_ops (cs : list op) (st : State) : State :=
  foldl (λ s c, snd (run_op c s)) st cs.

Definition in_book (st : State) (l : nat) : Prop :=
  l ∈ asks (book st) ∨ l ∈ bids (book st).

Definition queue (st : State) (l : nat) : list nat := Orders (limit_at st l).

Definition size_at (st : State) (o : nat) : f64 := Size (order_at st o).

(** The sum of the residual sizes of a queue, added front to back. *)
Definition queueVolume (st : State) (os : list nat) : f64 :=
  foldl (λ total o, add total (size_at st o)) zero os.

(** The total volume an order of this placement is matched against, and the
    total volume of its own side. *)
Definition otherVolume (placement : string) (st : State) : f64 :=
  if String.eqb placement BID_ORDER then AskTotalVolume st else BidTotalVolume st.
Definition ownVolume (placement : string) (st : State) : f64 :=
  if String.eqb placement BID_ORDER then BidTotalVolume st else AskTotalVolume st.

Definition matches_of (r : outcome) : list Match :=
  match r with Matched ms => ms | _ => [] end.

(** The sizes filled by a list of matches, added first to last. *)
Definition filledTotal (ms : list Match) : f64 :=
  foldl (λ total mt, add total (SizeFilled mt)) zero ms.

Definition not_resting (st : State) (o : nat) : Prop :=
  ∀ l, in_book st l → o ∉ queue st l.

End F64.

(** [m * 2^n] on a mantissa. *)
Definition shl (m : positive) (n : nat) : positive := Nat.iter n xO m.

(** The binary64 of a whole number [0 < c < 2^53]: the mantissa filled up to
    53 bits. *)
Definition canon (c : positive) : F64.f64 :=
  S754_finite false (shl c (53 - Pos.to_nat (digits2_pos c)))
              (Z.pos (digits2_pos c) - 53).

(** The whole numbers on which the arithmetic of binary64 is exact. *)
Definition small (z : Z) : Prop := (0 ≤ z < 2 ^ 53)%Z.

(** ** From whole-number sizes to binary64 *)

Definition f64_Order (x : Order) : F64.Order :=
  F64.mkOrder (ID x) (OrderPlacement x) (F64.of_Z (Size x)) (OrderLimit x) (Timestamp x).

Definition f64_Limit (x : Limit) : F64.Limit :=
  F64.mkLimit (Price x) (Orders x) (F64.of_Z (TotalVolume x)).

Definition f64_Match (x : Match) : F64.Match :=
  F64.mkMatch (Ask x) (Bid x) (F64.of_Z (SizeFilled x)) (MatchPrice x).

Definition f64_error (e : error) : F64.error :=
  match e with
  | ErrNotFound => F64.ErrNotFound
  | ErrInvalidPlacement => F64.ErrInvalidPlacement
  | ErrNotEnoughAskVolume v s => F64.ErrNotEnoughAskVolume (F64.of_Z v) (F64.of_Z s)
  | ErrNotEnoughBidVolume s v => F64.ErrNotEnoughBidVolume (F64.of_Z s) (F64.of_Z v)
  end.

Definition f64_State (st : State) : F64.State :=
  F64.mkState (f64_Order <$> orders st) (f64_Limit <$> limits st)
              (book st) (OrderIndex st) (orderIdSequence st).

Definition f64_op (c : op) : F64.op :=
  match c with
  | OpLimit placement size price now => F64.OpLimit placement (F64.of_Z size) price now
  | OpMarket placement size now => F64.OpMarket placement (F64.of_Z size) now
  | OpCancel orderId placement => F64.OpCancel orderId placement
  end.

Definition f64_outcome (r : outcome) : F64.outcome :=
  match r with
  | Placed => F64.Placed
  | Matched matches => F64.Matched (f64_Match <$> matches)
  | Cancelled => F64.Cancelled
  | Failed e => F64.Failed (f64_error e)
  end.

(** ** Runs on which the arithmetic is exact *)

(** The sum of the residual sizes of all the orders created. *)
Definition total (st : State) : Z :=
  Zsum (size_at st) (seq 0 (length (orders st))).

(** No size is negative, and all of them together stay below [2^53]. *)
Record Exact (st : State) : Prop := {
  ex_nonneg : ∀ o, (0 ≤ size_at st o)%Z;
  ex_total : (total st < 2 ^ 53)%Z
}.

Definition op_size (c : op) : Z :=
  match c with
  | OpLimit _ size _ _ => size
  | OpMarket _ size _ => size
  | OpCancel _ _ => 0%Z
  end.

(** The sizes requested by a list of operations, added up. *)
Definition requested (cs : list op) : Z := foldr (λ c a, op_size c + a)%Z 0%Z cs.

(** Operations whose sizes are whole numbers, none negative, and add up to
    less than [2^53]. *)
Definition exact_ops (cs : list op) : Prop :=
  Forall (λ c, (0 ≤ op_size c)%Z) cs ∧ (requested cs < 2 ^ 53)%Z.

(** What a walk on whole-number sizes keeps: sizes only shrink, and stay
    non-negative; so does the volume of the limit. *)
Record shrinks (l : nat) (st st' : State) : Prop := {
  sh_size : ∀ o, (0 ≤ size_at st' o ≤ size_at st o)%Z;
  sh_volume : (0 ≤ TotalVolume (limit_at st' l) ≤ TotalVolume (limit_at st l))%Z;
  sh_orders : length (orders st') = length (orders st);
  sh_limits : length (limits st') = length (limits st)
}.

(** An operation that creates no size: the state stays exact, below the same
    total. *)
Definition no_growth (st st' : State) : Prop :=
  (∀ o, (0 ≤ size_at st' o)%Z) ∧ (total st' ≤ total st)%Z.

(** ** States of the examples in binary64 *)

(** Asks of 0.1 and 0.2 at one price. *)
Definition tenthAndFifth : list F64.op :=
  [ F64.OpLimit ASK_ORDER (F64.of_ratio 1 10) 100 1;
    F64.OpLimit ASK_ORDER (F64.of_ratio 2 10) 100 2 ].

(** The same, and the first of them cancelled. *)
Definition fifthLeft : F64.State :=
  F64.run_ops (tenthAndFifth ++ [F64.OpCancel 1 ASK_ORDER]) (F64.init "ETH").

(** An ask of 5 at 100 and an ask of size 0 at 200. *)
Definition zeroSizeAsk64 : F64.State :=
  F64.run_ops [ F64.OpLimit ASK_ORDER (F64.of_Z 5) 100 1;
                F64.OpLimit ASK_ORDER (F64.of_Z 0) 200 2 ] (F64.init "ETH").

(** * Lemmas *)

(** ** Rejected market orders *)

Lemma PlaceMarketOrder_reject_eq (st : State) (order : nat) :
  (Size (order_at st order) > opposingVolume st order)%Z →
  PlaceMarketOrder order st = (inr (rejection st order), st).
Proof.
  unfold opposingVolume, rejection, PlaceMarketOrder. intros Hgt.
  destruct (String.eqb _ _).
  - by destruct (Z.gtb_spec (Size (order_at st order)) (AskTotalVolume st)); [|lia].
  - by destruct (Z.gtb_spec (Size (order_at st order)) (BidTotalVolume st)); [|lia].
Qed.

(** ** Reading the stores after an update *)

Lemma limit_at_upd_limit_eq l f st :
  l < length (limits st) → limit_at (upd_limit l f st) l = f (limit_at st l).
Proof.
  intros Hl. unfold limit_at, upd_limit; simpl.
  rewrite list_lookup_alter_eq.
  destruct (lookup_lt_is_Some_2 _ _ Hl) as [x ->]. reflexivity.
Qed.

Lemma limit_at_upd_limit_ne l l' f st :
  l ≠ l' → limit_at (upd_limit l f st) l' = limit_at st l'.
Proof.
  intros Hne. unfold limit_at, upd_limit; simpl.
  by rewrite list_lookup_alter_ne.
Qed.

Lemma order_at_upd_order_eq o f st :
  o < length (orders st) → order_at (upd_order o f st) o = f (order_at st o).
Proof.
  intros Ho. unfold order_at, upd_order; simpl.
  rewrite list_lookup_alter_eq.
  destruct (lookup_lt_is_Some_2 _ _ Ho) as [x ->]. reflexivity.
Qed.

Lemma order_at_upd_order_ne o o' f st :
  o ≠ o' → order_at (upd_order o f st) o' = order_at st o'.
Proof.
  intros Hne. unfold order_at, upd_order; simpl.
  by rewrite list_lookup_alter_ne.
Qed.

(** An update that keeps a field keeps it at every index, allocated or not. *)
Lemma order_at_upd_order_field {B} (g : Order → B) o o' f st :
  (∀ x, g (f x) = g x) → g (order_at (upd_order o f st) o') = g (order_at st o').
Proof.
  intros Hg. unfold order_at, upd_order; simpl.
  rewrite list_lookup_alter. destruct (decide (o = o')) as [->|]; [|done].
  destruct (orders st !! o'); simpl; [apply Hg | done].
Qed.

Lemma limit_at_upd_limit_field {B} (g : Limit → B) l l' f st :
  (∀ x, g (f x) = g x) → g (limit_at (upd_limit l f st) l') = g (limit_at st l').
Proof.
  intros Hg. unfold limit_at, upd_limit; simpl.
  rewrite list_lookup_alter. destruct (decide (l = l')) as [->|]; [|done].
  destruct (limits st !! l'); simpl; [apply Hg | done].
Qed.

Lemma length_orders_upd_order o f st :
  length (orders (upd_order o f st)) = length (orders st).
Proof. unfold upd_order; simpl. apply length_alter. Qed.

Lemma length_limits_upd_limit l f st :
  length (limits (upd_limit l f st)) = length (limits st).
Proof. unfold upd_limit; simpl. apply length_alter. Qed.

(** ** Sums of residual sizes *)

Lemma Zsum_app f l k : Zsum f (l ++ k) = (Zsum f l + Zsum f k)%Z.
Proof. induction l as [|x l IH]; simpl; [done | rewrite IH; lia]. Qed.

Lemma Zsum_perm f l k : l ≡ₚ k → Zsum f l = Zsum f k.
Proof. induction 1; simpl; lia. Qed.

Lemma Zsum_ext f g l : (∀ x, x ∈ l → f x = g x) → Zsum f l = Zsum g l.
Proof.
  induction l as [|x l IH]; simpl; intros H; [done|].
  rewrite H, IH; [done | | left]. intros y Hy. apply H. by right.
Qed.

Lemma Zsum_change f g l m d :
  NoDup l → m ∈ l → g m = (f m - d)%Z → (∀ x, x ∈ l → x ≠ m → g x = f x) →
  Zsum g l = (Zsum f l - d)%Z.
Proof.
  intros Hnd Hm Hgm Hg.
  apply list_elem_of_split in Hm as (l1 & l2 & ->).
  apply NoDup_app in Hnd as (_ & Hd & Hnd2). apply NoDup_cons in Hnd2 as [Hm2 _].
  rewrite !Zsum_app. simpl. rewrite Hgm.
  rewrite (Zsum_ext g f l1), (Zsum_ext g f l2); [lia| |].
  - intros x Hx. apply Hg; [set_solver|]. intros ->. done.
  - intros x Hx. apply Hg; [set_solver|]. intros ->. apply (Hd m); [done | left].
Qed.

Lemma sumVolume_Zsum st ls :
  sumVolume st ls = Zsum (λ l, TotalVolume (limit_at st l)) ls.
Proof.
  unfold sumVolume.
  enough (∀ a, foldl (λ t l, t + TotalVolume (limit_at st l))%Z a ls
               = (a + Zsum (λ l, TotalVolume (limit_at st l)) ls)%Z) as H
    by (rewrite H; lia).
  induction ls as [|x ls IH]; intros a; simpl; [lia | rewrite IH; lia].
Qed.

(** ** The insertion sort *)

Lemma insertBy_perm {A} (less : A → A → bool) x l : insertBy less x l ≡ₚ x :: l.
Proof.
  induction l as [|y l IH]; simpl; [done|].
  destruct (less y x); [|done]. rewrite IH. apply Permutation_swap.
Qed.

Lemma sortBy_perm {A} (less : A → A → bool) l : sortBy less l ≡ₚ l.
Proof.
  induction l as [|x l IH]; simpl; [done|]. by rewrite insertBy_perm, IH.
Qed.

Lemma insertBy_sorted (key : nat → Z) x l :
  StronglySorted (λ a b, key a ≤ key b)%Z l →
  StronglySorted (λ a b, key a ≤ key b)%Z (insertBy (λ a b, key a <? key b)%Z x l).
Proof.
  induction 1 as [|y l Hs IH Hall]; simpl.
  - repeat constructor.
  - destruct (Z.ltb_spec (key y) (key x)).
    + constructor; [done|]. rewrite insertBy_perm. constructor; [lia | done].
    + constructor; [by constructor|]. constructor; [done|].
      eapply Forall_impl; [exact Hall|]. simpl. intros; lia.
Qed.

Lemma sortBy_sorted (key : nat → Z) l :
  StronglySorted (λ a b, key a ≤ key b)%Z (sortBy (λ a b, key a <? key b)%Z l).
Proof.
  induction l as [|x l IH]; simpl; [constructor | by apply insertBy_sorted].
Qed.

Lemma StronglySorted_lookup_le (key : nat → Z) l i j a b :
  StronglySorted (λ a b, key a ≤ key b)%Z l →
  l !! i = Some a → l !! j = Some b → i < j → (key a ≤ key b)%Z.
Proof.
  intros Hs. revert i j. induction Hs as [|y l Hs IH Hall]; intros i j Hi Hj Hlt.
  - done.
  - destruct j as [|j]; [lia|]. destruct i as [|i]; simpl in *.
    + injection Hi as <-. rewrite Forall_forall in Hall. apply Hall.
      by eapply list_elem_of_lookup_2.
    + eapply IH; eauto. lia.
Qed.

(** ** Swap-with-last deletion *)

Lemma swap_delete_perm (s : list nat) i x :
  s !! i = Some x → x :: swap_delete i s ≡ₚ s.
Proof.
  intros Hi. unfold swap_delete.
  destruct (decide (s = [])) as [->|Hne]; [done|].
  destruct (exists_last Hne) as (s' & z & ->).
  rewrite length_app; simpl.
  replace (length s' + 1 - 1) with (length s') by lia.
  rewrite lookup_app_r, Nat.sub_diag by lia. simpl.
  destruct (decide (i < length s')) as [Hlt|Hge].
  - rewrite insert_app_l by done.
    rewrite take_app_length' by (by rewrite length_insert).
    rewrite lookup_app_l in Hi by done.
    apply list_elem_of_split_length in Hi as (l1 & l2 & -> & ->).
    rewrite insert_app_r_alt, Nat.sub_diag by lia. simpl.
    rewrite <- !app_assoc. simpl.
    rewrite (Permutation_app_comm l2 [z]). simpl.
    rewrite <- !Permutation_middle. first [reflexivity | apply Permutation_swap].
  - assert (i = length s') as ->.
    { apply lookup_lt_Some in Hi. rewrite length_app in Hi. simpl in Hi. lia. }
    rewrite lookup_app_r, Nat.sub_diag in Hi by lia. simpl in Hi. injection Hi as ->.
    rewrite insert_app_r_alt, Nat.sub_diag by lia. simpl.
    rewrite take_app_length. by rewrite Permutation_app_comm.
Qed.

Lemma find_index_Some x l i : find_index x l = Some i → l !! i = Some x.
Proof.
  revert i. induction l as [|y l IH]; intros i; simpl; [done|].
  destruct (decide (y = x)) as [->|].
  - by intros [= <-].
  - destruct (find_index x l); simpl; [|done]. intros [= <-]. simpl. by apply IH.
Qed.

Lemma find_index_None x l : find_index x l = None ↔ x ∉ l.
Proof.
  induction l as [|y l IH]; simpl.
  - split; [intros _; apply not_elem_of_nil | done].
  - rewrite not_elem_of_cons. destruct (decide (y = x)) as [->|Hne].
    + split; [done | intros [? _]; done].
    + destruct (find_index x l); simpl.
      * split; [done|]. intros [_ H]. by apply IH in H.
      * split; [|done]. intros _. split; [congruence | by apply IH].
Qed.

(** ** The invariant of the book *)

Lemma side_of_in_book pl st l : l ∈ side_of pl (book st) → in_book st l.
Proof. unfold side_of, in_book. destruct (String.eqb pl BID_ORDER); auto. Qed.

Lemma inv_side_nodup pl st : Inv st → NoDup (side_of pl (book st)).
Proof. intros [? ? ?]. unfold side_of. by destruct (String.eqb pl BID_ORDER). Qed.

Lemma inv_map pl st p l :
  Inv st →
  map_of pl (book st) !! p = Some l ↔ l ∈ side_of pl (book st) ∧ Price (limit_at st l) = p.
Proof.
  intros HI. unfold map_of, side_of. destruct (String.eqb pl BID_ORDER).
  - apply inv_bid_map; done.
  - apply inv_ask_map; done.
Qed.

(** A step that leaves the book alone and only rewrites limits and orders. *)
Lemma Inv_store_step st st' :
  Inv st →
  book st' = book st →
  length (limits st') = length (limits st) →
  length (orders st) ≤ length (orders st') →
  (∀ l, in_book st l → Price (limit_at st' l) = Price (limit_at st l)) →
  (∀ l, in_book st l → NoDup (queue st' l)) →
  (∀ l o, in_book st l → o ∈ queue st' l → o ∈ queue st l) →
  (∀ l, in_book st l → TotalVolume (limit_at st' l) = Zsum (size_at st') (queue st' l)) →
  (∀ l, in_book st l → arrival_ordered st' (queue st' l)) →
  Inv st'.
Proof.
  intros HI Hb Hll Hlo Hp Hnd Hsub Hvol Harr.
  assert (∀ l, in_book st' l ↔ in_book st l) as Hin
    by (intros l; unfold in_book; by rewrite Hb).
  split.
  - rewrite Hb. apply HI.
  - rewrite Hb. apply HI.
  - rewrite Hb. apply HI.
  - intros l Hl%Hin. rewrite Hll. by apply HI.
  - intros p l. rewrite Hb. rewrite (inv_ask_map _ HI).
    split; intros [H1 H2]; (split; [done|]);
      [rewrite Hp | rewrite <- Hp]; try done; by left.
  - intros p l. rewrite Hb. rewrite (inv_bid_map _ HI).
    split; intros [H1 H2]; (split; [done|]);
      [rewrite Hp | rewrite <- Hp]; try done; by right.
  - intros l Hl%Hin. by apply Hnd.
  - intros l o Hl%Hin Ho. eapply Nat.lt_le_trans; [|exact Hlo].
    eapply inv_queue_alloc; eauto.
  - intros l1 l2 o H1%Hin H2%Hin Ho1 Ho2.
    eapply (inv_queue_disjoint _ HI l1 l2 o); eauto.
  - intros l Hl%Hin. by apply Hvol.
  - intros l Hl%Hin. by apply Harr.
Qed.

(** A step that leaves the stores alone and only shrinks or reorders the
    sides of the book. *)
Lemma Inv_book_step st st' :
  Inv st →
  orders st' = orders st →
  limits st' = limits st →
  NoDup (asks (book st')) →
  NoDup (bids (book st')) →
  (∀ l, l ∈ asks (book st') → l ∈ asks (book st)) →
  (∀ l, l ∈ bids (book st') → l ∈ bids (book st)) →
  (∀ p l, AskLimits (book st') !! p = Some l ↔
            l ∈ asks (book st') ∧ Price (limit_at st l) = p) →
  (∀ p l, BidLimits (book st') !! p = Some l ↔
            l ∈ bids (book st') ∧ Price (limit_at st l) = p) →
  Inv st'.
Proof.
  intros HI Ho Hl Hna Hnb Hsa Hsb Hma Hmb.
  assert (∀ l, limit_at st' l = limit_at st l) as Hla
    by (intros l; unfold limit_at; by rewrite Hl).
  assert (∀ l, queue st' l = queue st l) as Hq
    by (intros l; unfold queue; by rewrite Hla).
  assert (∀ o, size_at st' o = size_at st o) as Hsz
    by (intros o; unfold size_at, order_at; by rewrite Ho).
  assert (∀ l, in_book st' l → in_book st l) as Hin
    by (intros l [?|?]; [left | right]; auto).
  split; try done.
  - intros l H1 H2. eapply (inv_sides_disjoint _ HI); eauto.
  - intros l Hl'%Hin. rewrite Hl. by apply HI.
  - intros p l. rewrite Hla. apply Hma.
  - intros p l. rewrite Hla. apply Hmb.
  - intros l Hl'%Hin. rewrite Hq. by apply HI.
  - intros l o Hl'%Hin. rewrite Hq, Ho. by apply HI.
  - intros l1 l2 o H1%Hin H2%Hin. rewrite !Hq. by apply HI.
  - intros l Hl'%Hin. rewrite Hla, Hq. rewrite (Zsum_ext _ (size_at st)) by done.
    by apply HI.
  - intros l Hl'%Hin. rewrite Hq. intros i j a b Hi Hj Hab Hts.
    eapply (inv_arrival _ HI l Hl' i j a b); eauto.
    unfold ts_at, order_at in *. by rewrite <- Ho.
Qed.

(** ** [fillOrder] *)

Lemma size_at_upd_size o g st o' :
  o < length (orders st) →
  size_at (upd_order o (with_Size g) st) o'
  = if decide (o' = o) then g (size_at st o) else size_at st o'.
Proof.
  intros Ho. unfold size_at. destruct (decide (o' = o)) as [->|Hne].
  - by rewrite order_at_upd_order_eq.
  - by rewrite order_at_upd_order_ne.
Qed.

Lemma fillOrder_book l m order st : book (snd (fillOrder l m order st)) = book st.
Proof. unfold fillOrder. by destruct (String.eqb _ _). Qed.

Lemma fillOrder_index l m order st :
  OrderIndex (snd (fillOrder l m order st)) = OrderIndex st.
Proof. unfold fillOrder. by destruct (String.eqb _ _). Qed.

Lemma fillOrder_length_orders l m order st :
  length (orders (snd (fillOrder l m order st))) = length (orders st).
Proof.
  unfold fillOrder. destruct (String.eqb _ _); simpl; by rewrite !length_alter.
Qed.

Lemma fillOrder_length_limits l m order st :
  length (limits (snd (fillOrder l m order st))) = length (limits st).
Proof.
  unfold fillOrder. destruct (String.eqb _ _); simpl; by rewrite !length_alter.
Qed.

Lemma fillOrder_order_field {B} (g : Order → B) l m order st o :
  (∀ f x, g (with_Size f x) = g x) →
  g (order_at (snd (fillOrder l m order st)) o) = g (order_at st o).
Proof.
  intros Hg. unfold fillOrder. destruct (String.eqb _ _); simpl;
    change (order_at (upd_limit ?l ?f ?s) o) with (order_at s o);
    by rewrite !order_at_upd_order_field.
Qed.

Lemma fillOrder_ts l m order st o :
  ts_at (snd (fillOrder l m order st)) o = ts_at st o.
Proof. apply (fillOrder_order_field Timestamp). done. Qed.

Lemma fillOrder_placement l m order st o :
  OrderPlacement (order_at (snd (fillOrder l m order st)) o)
  = OrderPlacement (order_at st o).
Proof. apply (fillOrder_order_field OrderPlacement). done. Qed.

Lemma fillOrder_size l m order st o :
  m ≠ order → m < length (orders st) → order < length (orders st) →
  size_at (snd (fillOrder l m order st)) o
  = if decide (o = m ∨ o = order)
    then (size_at st o - filled st m order)%Z else size_at st o.
Proof.
  intros Hne Hm Ho. unfold fillOrder, filled.
  destruct (String.eqb _ _); simpl;
    change (size_at (upd_limit ?l ?f ?s) o) with (size_at s o);
    rewrite !size_at_upd_size by (by rewrite ?length_orders_upd_order);
    rewrite ?size_at_upd_size by done;
    fold (size_at st m); fold (size_at st order);
    repeat case_decide; subst; try done; try tauto;
    try (rewrite Z.min_comm; done).
Qed.

Lemma fillOrder_limit_ne l l' m order st :
  l' ≠ l → limit_at (snd (fillOrder l m order st)) l' = limit_at st l'.
Proof.
  intros Hne. unfold fillOrder. destruct (String.eqb _ _); simpl;
    by rewrite limit_at_upd_limit_ne.
Qed.

Lemma fillOrder_limit_eq l m order st :
  l < length (limits st) →
  limit_at (snd (fillOrder l m order st)) l
  = with_TotalVolume (λ v, v - filled st m order)%Z (limit_at st l).
Proof.
  intros Hl. unfold fillOrder, filled. destruct (String.eqb _ _); simpl;
    rewrite limit_at_upd_limit_eq by done;
    change (limit_at (upd_order ?a ?f ?s) l) with (limit_at s l);
    fold (size_at st m); fold (size_at st order); [done|].
  by rewrite Z.min_comm.
Qed.

Lemma fillOrder_limit_field {B} (g : Limit → B) l l' m order st :
  (∀ f x, g (with_TotalVolume f x) = g x) →
  g (limit_at (snd (fillOrder l m order st)) l') = g (limit_at st l').
Proof.
  intros Hg. unfold fillOrder. destruct (String.eqb _ _); simpl;
    by rewrite limit_at_upd_limit_field.
Qed.

Lemma fillOrder_queue l l' m order st :
  queue (snd (fillOrder l m order st)) l' = queue st l'.
Proof. apply (fillOrder_limit_field Orders). done. Qed.

Lemma fillOrder_match l m order st :
  fst (fillOrder l m order st)
  = if String.eqb (OrderPlacement (order_at st order)) BID_ORDER
    then mkMatch m order (filled st m order) (Price (limit_at st l))
    else mkMatch order m (filled st m order) (Price (limit_at st l)).
Proof.
  unfold fillOrder, filled. destruct (String.eqb _ _); simpl;
    rewrite (limit_at_upd_limit_field Price) by done;
    change (limit_at (upd_order ?a ?f ?s) l) with (limit_at s l);
    fold (size_at st m); fold (size_at st order); [done|].
  by rewrite Z.min_comm.
Qed.

Lemma fillOrder_Inv l m order st :
  Inv st → in_book st l → m ∈ queue st l →
  order < length (orders st) → not_resting st order →
  Inv (snd (fillOrder l m order st)).
Proof.
  intros HI Hl Hm Ho Hnr.
  assert (m ≠ order) as Hne by (intros ->; by apply (Hnr l)).
  assert (m < length (orders st)) as Hma by (eapply inv_queue_alloc; eauto).
  apply (Inv_store_step st); try done.
  - apply fillOrder_book.
  - apply fillOrder_length_limits.
  - by rewrite fillOrder_length_orders.
  - intros l' _. apply (fillOrder_limit_field Price). done.
  - intros l' Hl'. rewrite fillOrder_queue. by apply HI.
  - intros l' o _. by rewrite fillOrder_queue.
  - intros l' Hl'. rewrite fillOrder_queue.
    destruct (decide (l' = l)) as [->|Hll].
    + rewrite fillOrder_limit_eq by (by apply HI). simpl.
      rewrite (inv_volume _ HI l Hl). symmetry.
      apply (Zsum_change _ _ _ m); [by apply HI | done | |].
      * rewrite fillOrder_size by done. by rewrite decide_True by auto.
      * intros x Hx Hxm. rewrite fillOrder_size by done.
        rewrite decide_False; [done|]. intros [?| ->]; [done|]. by apply (Hnr l).
    + rewrite fillOrder_limit_ne by done. rewrite (inv_volume _ HI l' Hl').
      apply Zsum_ext. intros x Hx. rewrite fillOrder_size by done.
      rewrite decide_False; [done|]. intros [->| ->].
      * apply Hll. eapply (inv_queue_disjoint _ HI); eauto.
      * by apply (Hnr l').
  - intros l' Hl'. rewrite fillOrder_queue. intros i j a b Hi Hj Hab.
    rewrite !fillOrder_ts. by apply (inv_arrival _ HI l' Hl').
Qed.

(** ** [Limit.DeleteOrder] *)

Lemma insertBy_ext {A} (less less' : A → A → bool) x l :
  (∀ a b, less a b = less' a b) → insertBy less x l = insertBy less' x l.
Proof. intros H. induction l as [|y l IH]; simpl; [done|]. by rewrite H, IH. Qed.

Lemma sortBy_ext {A} (less less' : A → A → bool) l :
  (∀ a b, less a b = less' a b) → sortBy less l = sortBy less' l.
Proof.
  intros H. induction l as [|y l IH]; simpl; [done|].
  rewrite IH. by apply insertBy_ext.
Qed.

Lemma without_perm o os : o ∈ os → o :: without o os ≡ₚ os.
Proof.
  intros Ho. unfold without. destruct (find_index o os) as [i|] eqn:Hf.
  - apply swap_delete_perm. by apply find_index_Some.
  - by apply find_index_None in Hf.
Qed.

Lemma DeleteOrder_book l o st : book (DeleteOrder l o st) = book st.
Proof. unfold DeleteOrder. by destruct (find_index _ _). Qed.

Lemma DeleteOrder_index l o st : OrderIndex (DeleteOrder l o st) = OrderIndex st.
Proof. unfold DeleteOrder. by destruct (find_index _ _). Qed.

Lemma DeleteOrder_length_orders l o st :
  length (orders (DeleteOrder l o st)) = length (orders st).
Proof.
  unfold DeleteOrder. destruct (find_index _ _); simpl; by rewrite !length_alter.
Qed.

Lemma DeleteOrder_length_limits l o st :
  length (limits (DeleteOrder l o st)) = length (limits st).
Proof.
  unfold DeleteOrder. destruct (find_index _ _); simpl; by rewrite !length_alter.
Qed.

Lemma DeleteOrder_order_field {B} (g : Order → B) l o st o' :
  (∀ f x, g (with_OrderLimit f x) = g x) →
  g (order_at (DeleteOrder l o st) o') = g (order_at st o').
Proof.
  intros Hg. unfold DeleteOrder. destruct (find_index _ _);
    repeat (change (order_at (upd_limit ?l ?f ?s) o') with (order_at s o');
            rewrite ?order_at_upd_order_field by (intros; apply Hg)); done.
Qed.

Lemma DeleteOrder_size l o st o' : size_at (DeleteOrder l o st) o' = size_at st o'.
Proof. apply (DeleteOrder_order_field Size). done. Qed.

Lemma DeleteOrder_ts l o st o' : ts_at (DeleteOrder l o st) o' = ts_at st o'.
Proof. apply (DeleteOrder_order_field Timestamp). done. Qed.

Lemma DeleteOrder_limit_ne l l' o st :
  l' ≠ l → limit_at (DeleteOrder l o st) l' = limit_at st l'.
Proof.
  intros Hne. unfold DeleteOrder. destruct (find_index _ _);
    repeat first [ rewrite limit_at_upd_limit_ne by done
                 | progress change (limit_at (upd_order ?a ?f ?s) l') with (limit_at s l') ];
    done.
Qed.

Lemma DeleteOrder_limit_eq l o st :
  l < length (limits st) →
  limit_at (DeleteOrder l o st) l
  = mkLimit (Price (limit_at st l))
            (sortBy (Orders_Less st) (without o (queue st l)))
            (TotalVolume (limit_at st l) - size_at st o).
Proof.
  intros Hl. unfold DeleteOrder, without, queue.
  set (st1 := match find_index o (Orders (limit_at st l)) with
              | Some i => upd_limit l (with_Orders (swap_delete i)) st
              | None => st end).
  assert (length (limits st1) = length (limits st)) as Hl1
    by (unfold st1; destruct (find_index _ _); [apply length_limits_upd_limit | done]).
  assert (∀ o', order_at st1 o' = order_at st o') as Ho1
    by (unfold st1; destruct (find_index _ _); done).
  assert (limit_at st1 l
          = with_Orders (λ os, match find_index o (Orders (limit_at st l)) with
                               | Some i => swap_delete i os | None => os end)
                        (limit_at st l)) as Hq1.
  { unfold st1. destruct (find_index _ _).
    - by rewrite limit_at_upd_limit_eq.
    - by destruct (limit_at st l). }
  rewrite !limit_at_upd_limit_eq
    by (rewrite ?length_limits_upd_limit; simpl; by rewrite ?Hl1).
  change (limit_at (upd_order ?a ?f ?s) l) with (limit_at s l).
  rewrite Hq1. unfold with_Orders, with_TotalVolume; simpl. f_equal.
  - apply sortBy_ext. intros a b. unfold Orders_Less.
    change (order_at (upd_limit ?l ?f ?s) ?x) with (order_at s x).
    by rewrite !(order_at_upd_order_field Timestamp), !Ho1.
  - unfold size_at.
    by rewrite (order_at_upd_order_field Size), Ho1.
Qed.

Lemma DeleteOrder_queue_perm l o st :
  l < length (limits st) → o ∈ queue st l →
  o :: queue (DeleteOrder l o st) l ≡ₚ queue st l.
Proof.
  intros Hl Ho. unfold queue at 1. rewrite DeleteOrder_limit_eq by done. simpl.
  rewrite sortBy_perm. by apply without_perm.
Qed.

Lemma sorted_arrival_ordered st os :
  NoDup os → StronglySorted (λ a b, ts_at st a ≤ ts_at st b)%Z os →
  arrival_ordered st os.
Proof.
  intros Hnd Hs i j a b Hi Hj Hab Hts.
  destruct (decide (i < j)) as [|Hge]; [done|]. exfalso.
  destruct (decide (i = j)) as [->|Hij].
  - rewrite Hi in Hj. injection Hj as ->. lia.
  - assert (j < i) as Hji by lia.
    pose proof (StronglySorted_lookup_le (ts_at st) os j i b a Hs Hj Hi Hji). lia.
Qed.

Lemma DeleteOrder_Inv l o st :
  Inv st → in_book st l → o ∈ queue st l → Inv (DeleteOrder l o st).
Proof.
  intros HI Hl Ho.
  assert (l < length (limits st)) as Hla by (by apply HI).
  pose proof (DeleteOrder_queue_perm l o st Hla Ho) as Hperm.
  assert (NoDup (queue (DeleteOrder l o st) l)) as Hnd.
  { pose proof (inv_queue_nodup _ HI l Hl) as H. rewrite <- Hperm in H.
    by apply NoDup_cons in H as [_ ?]. }
  assert (∀ l', l' ≠ l → queue (DeleteOrder l o st) l' = queue st l') as Hq
    by (intros l' ?; unfold queue; by rewrite DeleteOrder_limit_ne).
  apply (Inv_store_step st); try done.
  - apply DeleteOrder_book.
  - apply DeleteOrder_length_limits.
  - by rewrite DeleteOrder_length_orders.
  - intros l' _. destruct (decide (l' = l)) as [->|Hne].
    + by rewrite DeleteOrder_limit_eq.
    + by rewrite DeleteOrder_limit_ne.
  - intros l' Hl'. destruct (decide (l' = l)) as [->|Hne]; [done|].
    rewrite Hq by done. by apply HI.
  - intros l' x _. destruct (decide (l' = l)) as [->|Hne].
    + intros Hx. rewrite <- Hperm. by right.
    + by rewrite Hq.
  - intros l' Hl'. rewrite (Zsum_ext _ (size_at st)) by (intros; apply DeleteOrder_size).
    destruct (decide (l' = l)) as [->|Hne].
    + rewrite DeleteOrder_limit_eq at 1 by done. simpl.
      rewrite (inv_volume _ HI l Hl), <- (Zsum_perm _ _ _ Hperm). simpl. lia.
    + rewrite Hq, DeleteOrder_limit_ne by done. by apply HI.
  - intros l' Hl'. destruct (decide (l' = l)) as [->|Hne].
    + apply sorted_arrival_ordered; [done|].
      unfold queue. rewrite DeleteOrder_limit_eq by done. simpl.
      rewrite (sortBy_ext _ (λ a b, ts_at (DeleteOrder l o st) a <? ts_at (DeleteOrder l o st) b)%Z)
        by (intros a b; unfold Orders_Less; by rewrite !DeleteOrder_ts).
      apply sortBy_sorted.
    + rewrite Hq by done. intros i j a b Hi Hj Hab.
      rewrite !DeleteOrder_ts. by apply (inv_arrival _ HI l' Hl').
Qed.

Lemma deleteAll_spec l dels st :
  Inv st → in_book st l → NoDup dels →
  (∀ d, d ∈ dels → d ∈ queue st l ∧ size_at st d = 0%Z) →
  deleteAll_post l dels st (deleteAll l dels st).
Proof.
  revert st. induction dels as [|d dels IH]; intros st HI Hl Hnd Hd.
  - by split.
  - apply NoDup_cons in Hnd as [Hnotin Hnd].
    destruct (Hd d) as [Hdq Hd0]; [left|].
    assert (l < length (limits st)) as Hla by (by apply HI).
    pose proof (DeleteOrder_queue_perm l d st Hla Hdq) as Hperm.
    assert (in_book (DeleteOrder l d st) l) as Hl'
      by (unfold in_book; by rewrite DeleteOrder_book).
    specialize (IH (DeleteOrder l d st) (DeleteOrder_Inv l d st HI Hl Hdq) Hl' Hnd).
    destruct IH as [? ? ? ? ? ? ? ? ? ? ? ?].
    { intros x Hx. rewrite DeleteOrder_size. split; [|apply Hd; by right].
      assert (x ∈ d :: queue (DeleteOrder l d st) l) as Hin
        by (rewrite Hperm; apply Hd; by right).
      apply elem_of_cons in Hin as [->|]; done. }
    unfold deleteAll in *. simpl. split; try done.
    + by rewrite dp_book0, DeleteOrder_book.
    + by rewrite dp_index0, DeleteOrder_index.
    + by rewrite dp_length_orders0, DeleteOrder_length_orders.
    + by rewrite dp_length_limits0, DeleteOrder_length_limits.
    + intros o. by rewrite dp_size0, DeleteOrder_size.
    + intros o. by rewrite dp_ts0, DeleteOrder_ts.
    + intros o. rewrite dp_placement0.
      by apply (DeleteOrder_order_field OrderPlacement).
    + intros l' Hne. by rewrite dp_limit_ne0, DeleteOrder_limit_ne.
    + by rewrite dp_price0, DeleteOrder_limit_eq.
    + rewrite dp_volume0, DeleteOrder_limit_eq by done. simpl. lia.
    + simpl. by rewrite dp_queue0.
Qed.

(** ** [Limit.Fill] *)

Lemma IsFilled_spec st o : IsFilled st o = true ↔ size_at st o = 0%Z.
Proof. unfold IsFilled, size_at. apply Z.eqb_eq. Qed.

Lemma resting_of_fillOrder l m order st :
  resting_of st order (fst (fillOrder l m order st)) = m.
Proof.
  rewrite fillOrder_match. unfold resting_of. by destruct (String.eqb _ _).
Qed.

Lemma Fill_walk_spec l order resting st :
  Inv st → in_book st l → order < length (orders st) → not_resting st order →
  NoDup resting → (∀ m, m ∈ resting → m ∈ queue st l) →
  match Fill_walk l order resting st with
  | (dels, ms, st') => walk_post l order resting st dels ms st'
  end.
Proof.
  revert st. induction resting as [|m rest IH]; intros st HI Hl Ho Hnr Hnd Hsub.
  { simpl. split; try done; try lia.
    - by intros mt ?%elem_of_nil.
    - intros d. split; [by intros ?%elem_of_nil | by intros (i & ? & _)]. }
  apply NoDup_cons in Hnd as [Hm_rest Hnd].
  assert (m ∈ queue st l) as Hmq by (apply Hsub; left).
  assert (m ≠ order) as Hmo by (intros ->; by apply (Hnr l)).
  assert (m < length (orders st)) as Hma by (eapply inv_queue_alloc; eauto).
  assert (l < length (limits st)) as Hla by (by apply HI).
  assert (∀ o, o ∈ rest → o ≠ order) as Hrest_o.
  { intros o Ho' ->. apply (Hnr l Hl). apply Hsub. by right. }
  simpl. destruct (fillOrder l m order st) as [mt st1] eqn:E.
  assert (st1 = snd (fillOrder l m order st)) as Hst1 by (by rewrite E).
  assert (mt = fst (fillOrder l m order st)) as Hmt by (by rewrite E).
  assert (Inv st1) as HI1 by (subst st1; by apply fillOrder_Inv).
  assert (book st1 = book st) as Hb1 by (subst st1; apply fillOrder_book).
  assert (∀ l', queue st1 l' = queue st l') as Hq1
    by (intros; subst st1; apply fillOrder_queue).
  assert (∀ o, size_at st1 o = if decide (o = m ∨ o = order)
            then (size_at st o - filled st m order)%Z else size_at st o) as Hs1
    by (intros; subst st1; by apply fillOrder_size).
  assert (size_at st1 m = (size_at st m - filled st m order)%Z) as Hsm
    by (rewrite Hs1; by rewrite decide_True by auto).
  assert (size_at st1 order = (size_at st order - filled st m order)%Z) as Hso
    by (rewrite Hs1; by rewrite decide_True by auto).
  assert (∀ o, o ≠ m → o ≠ order → size_at st1 o = size_at st o) as Hsf
    by (intros o ? ?; rewrite Hs1; rewrite decide_False; [done | tauto]).
  assert (TotalVolume (limit_at st1 l)
          = (TotalVolume (limit_at st l) - filled st m order)%Z) as Hv1
    by (subst st1; by rewrite fillOrder_limit_eq).
  assert (∀ o, OrderPlacement (order_at st1 o) = OrderPlacement (order_at st o))
    as Hp1 by (intros; subst st1; apply fillOrder_placement).
  assert (resting_of st order mt = m) as Hres
    by (subst mt; apply resting_of_fillOrder).
  assert (MatchPrice mt = Price (limit_at st l)) as Hmp.
  { subst mt. rewrite fillOrder_match. by destruct (String.eqb _ _). }
  assert (0 ≤ size_at st1 m)%Z as Hm_nonneg by (unfold filled in Hsm; lia).
  assert (size_at st1 m = 0 ∨ size_at st1 order = 0)%Z as Hz
    by (unfold filled in Hsm, Hso; lia).
  destruct (IsFilled st1 order) eqn:Hfo.
  - (* the incoming order is exhausted: the walk stops *)
    apply IsFilled_spec in Hfo.
    split; try done.
    + subst st1. apply fillOrder_index.
    + subst st1. apply fillOrder_length_orders.
    + subst st1. apply fillOrder_length_limits.
    + intros l' Hne. subst st1. by apply fillOrder_limit_ne.
    + subst st1. by apply (fillOrder_limit_field Price).
    + intros o. subst st1. apply fillOrder_ts.
    + intros o Hno Hne. apply Hsf; [|done]. intros ->. apply Hno. left.
    + simpl. by rewrite Hres.
    + simpl. lia.
    + intros x ->%list_elem_of_singleton. done.
    + intros [|i] o Hi Hlen; simpl in *; [lia|].
      apply Hsf; [|apply Hrest_o; by eapply list_elem_of_lookup_2].
      intros ->. apply Hm_rest. by eapply list_elem_of_lookup_2.
    + intros [|i] o Hi Hlen; simpl in *; [|lia]. injection Hi as <-. auto.
    + intros d. split.
      * destruct (IsFilled st1 m) eqn:Hfm; [|by intros ?%elem_of_nil].
        apply IsFilled_spec in Hfm. intros ->%list_elem_of_singleton.
        exists 0. simpl. repeat split; [lia | done].
      * intros ([|i] & Hi & Hlen & Hd0); simpl in *; [|lia]. injection Hi as <-.
        apply IsFilled_spec in Hd0. rewrite Hd0. left.
    + destruct (IsFilled st1 m); [apply NoDup_singleton | constructor].
    + lia.
  - (* the walk goes on: the resting order just visited is exhausted *)
    assert (size_at st1 order ≠ 0%Z) as Hso_ne.
    { intros H. apply IsFilled_spec in H. congruence. }
    assert (size_at st1 m = 0%Z) as Hsm0 by (destruct Hz; done).
    replace (IsFilled st1 m) with true by (symmetry; by apply IsFilled_spec).
    specialize (IH st1 HI1).
    destruct (Fill_walk l order rest st1) as [[dels ms] st2].
    destruct IH as [? ? ? ? ? ? ? ? ? ? ? ? ? ? ? ? ? ? ? ?]; try done.
    { unfold in_book. by rewrite Hb1. }
    { subst st1. by rewrite fillOrder_length_orders. }
    { intros l' Hl'. rewrite Hq1. apply Hnr. unfold in_book in *. by rewrite <- Hb1. }
    { intros x Hx. rewrite Hq1. apply Hsub. by right. }
    assert (size_at st2 m = 0%Z) as Hm2 by (by rewrite wp_size_frame0).
    split; try done.
    + by rewrite wp_book0.
    + rewrite wp_index0. subst st1. apply fillOrder_index.
    + rewrite wp_length_orders0. subst st1. apply fillOrder_length_orders.
    + rewrite wp_length_limits0. subst st1. apply fillOrder_length_limits.
    + intros l'. by rewrite wp_queue0.
    + intros l' Hne. rewrite wp_limit_ne0 by done. subst st1.
      by apply fillOrder_limit_ne.
    + rewrite wp_price0. subst st1. by apply (fillOrder_limit_field Price).
    + intros o. rewrite wp_ts0. subst st1. apply fillOrder_ts.
    + intros o. by rewrite wp_placement0.
    + intros o Hno Hne.
      rewrite wp_size_frame0; [|intros ?; apply Hno; by right|done].
      apply Hsf; [intros ->; apply Hno; left | done].
    + simpl. rewrite Hres. f_equal. rewrite <- wp_matches0.
      apply map_ext. intros mt'. unfold resting_of. by rewrite Hp1.
    + simpl. lia.
    + intros x [->|Hx]%elem_of_cons; [done|].
      rewrite (wp_match_price0 x Hx). subst st1.
      by apply (fillOrder_limit_field Price).
    + intros [|i] o Hi Hlen; simpl in *; [lia|].
      rewrite (wp_unvisited0 i o Hi) by lia.
      apply Hsf; [|apply Hrest_o; by eapply list_elem_of_lookup_2].
      intros ->. apply Hm_rest. by eapply list_elem_of_lookup_2.
    + intros [|i] o Hi Hlen; simpl in *.
      * injection Hi as <-. rewrite Hm2. split; [lia | by left].
      * destruct (wp_visited0 i o Hi) as [? [?|[? ?]]]; [lia | auto | ].
        split; [done|]. right. split; [lia | done].
    + intros d. simpl. rewrite elem_of_cons, wp_dels0. split.
      * intros [->|(i & Hi & Hlen & Hd0)].
        -- exists 0. simpl. repeat split; [lia | done].
        -- exists (S i). simpl. repeat split; [done | lia | done].
      * intros ([|i] & Hi & Hlen & Hd0); simpl in *.
        -- left. by injection Hi.
        -- right. exists i. repeat split; [done | lia | done].
    + simpl. apply NoDup_cons. split; [|done].
      rewrite wp_dels0. intros (i & Hi & _). apply Hm_rest.
      by eapply list_elem_of_lookup_2.
    + intros H. simpl. by rewrite wp_unfilled0.
    + lia.
Qed.

Lemma Fill_spec l order st :
  Inv st → in_book st l → order < length (orders st) → not_resting st order →
  match Fill l order st with (ms, st') => Fill_post l order st ms st' end.
Proof.
  intros HI Hl Ho Hnr. unfold Fill.
  pose proof (Fill_walk_spec l order (queue st l) st HI Hl Ho Hnr
                (inv_queue_nodup _ HI l Hl) (λ m H, H)) as Hw.
  unfold queue in Hw at 1.
  destruct (Fill_walk l order (Orders (limit_at st l)) st) as [[dels ms] st1].
  destruct Hw as [? ? ? ? ? ? ? ? ? ? ? ? ? ? ? ? ? ? ? ?].
  assert (in_book st1 l) as Hl1 by (unfold in_book; by rewrite wp_book0).
  pose proof (deleteAll_spec l dels st1 wp_inv0 Hl1 wp_dels_nodup0) as Hd.
  destruct Hd as [? ? ? ? ? ? ? ? ? ? ? ?].
  { intros d (i & Hi & _ & Hd0)%wp_dels0. split; [|done].
    rewrite wp_queue0. by eapply list_elem_of_lookup_2. }
  fold (deleteAll l dels st1).
  set (st2 := deleteAll l dels st1) in *.
  rewrite wp_queue0 in dp_queue0.
  assert (∀ o, o ∈ queue st2 l ↔ o ∈ queue st l ∧ o ∉ dels) as Hq2.
  { intros o. pose proof (inv_queue_nodup _ HI l Hl) as Hnd.
    rewrite <- dp_queue0 in Hnd. apply NoDup_app in Hnd as (_ & Hdisj & _).
    rewrite <- dp_queue0, elem_of_app. split.
    - intros Ho2. split; [by right|]. intros Hod. by apply (Hdisj o).
    - intros [[?|?] ?]; done. }
  split; try done.
  - by rewrite dp_book0.
  - by rewrite dp_index0.
  - by rewrite dp_length_orders0.
  - by rewrite dp_length_limits0.
  - intros l' Hne. by rewrite dp_limit_ne0, wp_limit_ne0.
  - by rewrite dp_price0.
  - intros o. by rewrite dp_ts0.
  - intros o. by rewrite dp_placement0.
  - intros o Hno Hne. by rewrite dp_size0, wp_size_frame0.
  - intros i o Hi Hlen. rewrite dp_size0. by eapply wp_unvisited0.
  - intros i o Hi Hlen. rewrite !dp_size0. by eapply wp_visited0.
  - intros o. rewrite Hq2, wp_dels0. by setoid_rewrite dp_size0.
  - rewrite dp_size0. intros Hne.
    assert (queue st2 l = []) as Hnil.
    { apply elem_of_nil_inv. intros o [Hoq Hnd]%Hq2. apply Hnd, wp_dels0.
      apply list_elem_of_lookup_1 in Hoq as [i Hi]. exists i.
      assert (i < length ms) as Hlt
        by (rewrite wp_unfilled0 by done; by eapply lookup_lt_Some).
      destruct (wp_visited0 i o Hi Hlt) as [_ [?|[_ ?]]]; done. }
    split; [done|].
    rewrite (inv_volume _ dp_inv0 l); [by rewrite Hnil|].
    unfold in_book. by rewrite dp_book0.
  - rewrite dp_size0, dp_volume0. done.
Qed.

(** ** [deleteLimit] *)

(** The bound [k] of [sliceDelete_loop] is no fuel that could run out: from
    [len - i] on, the result does not depend on it. *)
Lemma sliceDelete_loop_bound k k' x i cells len :
  len - i ≤ k → len - i ≤ k' →
  sliceDelete_loop k x i cells len = sliceDelete_loop k' x i cells len.
Proof.
  revert k' i cells len. induction k as [|k IH]; intros [|k'] i cells len Hk Hk';
    simpl; try done.
  - destruct (Nat.ltb_spec i len); [lia | done].
  - destruct (Nat.ltb_spec i len); [lia | done].
  - destruct (Nat.ltb_spec i len); [|done].
    destruct (decide (cells !! i = Some x)); apply IH; lia.
Qed.

Lemma sliceDelete_loop_nomatch k x i cells len :
  (∀ j, i ≤ j → j < len → cells !! j ≠ Some x) →
  sliceDelete_loop k x i cells len = (cells, len).
Proof.
  revert i. induction k as [|k IH]; intros i Hno; simpl; [done|].
  destruct (Nat.ltb_spec i len); [|done].
  rewrite decide_False by (apply Hno; lia).
  apply IH. intros j ? ?. apply Hno; lia.
Qed.

Lemma sliceDelete_loop_first k x i j cells len :
  i ≤ j → j < len → len - i ≤ k →
  cells !! j = Some x →
  (∀ j', j' < len → j' ≠ j → cells !! j' ≠ Some x) →
  sliceDelete_loop k x i cells len
  = (<[j := default 0 (cells !! (len - 1))]> cells, len - 1).
Proof.
  revert i. induction k as [|k IH]; intros i Hij Hj Hk Hx Hno; [lia|].
  simpl. destruct (Nat.ltb_spec i len); [|lia].
  destruct (decide (i = j)) as [->|Hne].
  - rewrite decide_True by done.
    apply sliceDelete_loop_nomatch. intros j' ? ?.
    rewrite list_lookup_insert_ne by lia. apply Hno; lia.
  - rewrite decide_False by (apply Hno; lia).
    apply IH; [lia | done | lia | done | done].
Qed.

Lemma sliceDelete_unique x j cells len :
  j < len → len ≤ length cells → NoDup (take len cells) → cells !! j = Some x →
  sliceDelete x cells len
  = (<[j := default 0 (cells !! (len - 1))]> cells, len - 1).
Proof.
  intros Hj Hlen Hnd Hx. unfold sliceDelete.
  apply sliceDelete_loop_first; [lia | done | lia | done |].
  intros j' Hj' Hne Hx'. apply Hne.
  eapply (NoDup_lookup (take len cells) j' j x); [done | |];
    by rewrite lookup_take_lt.
Qed.

Lemma take_swap_delete j cells len :
  j < len → len ≤ length cells →
  take (len - 1) (<[j := default 0 (cells !! (len - 1))]> cells)
  = swap_delete j (take len cells).
Proof.
  intros Hj Hlen. unfold swap_delete.
  rewrite length_take, Nat.min_l by done.
  rewrite lookup_take_lt by lia.
  destruct (lookup_lt_is_Some_2 cells (len - 1)) as [z Hz]; [lia|].
  rewrite Hz. simpl.
  rewrite <- take_insert_lt by done.
  rewrite take_take. f_equal. lia.
Qed.

Lemma side_of_set_side pl ls b : side_of pl (set_side pl ls b) = ls.
Proof. unfold side_of, set_side. by destruct (String.eqb pl BID_ORDER). Qed.

Lemma side_of_set_map pl m b : side_of pl (set_map pl m b) = side_of pl b.
Proof. unfold side_of, set_map. by destruct (String.eqb pl BID_ORDER). Qed.

Lemma map_of_set_map pl m b : map_of pl (set_map pl m b) = m.
Proof. unfold map_of, set_map. by destruct (String.eqb pl BID_ORDER). Qed.

Lemma map_of_set_side pl ls b : map_of pl (set_side pl ls b) = map_of pl b.
Proof. unfold map_of, set_side. by destruct (String.eqb pl BID_ORDER). Qed.

Lemma other_side_set_side pl ls b : other_side pl (set_side pl ls b) = other_side pl b.
Proof. unfold other_side, set_side. by destruct (String.eqb pl BID_ORDER). Qed.

Lemma other_side_set_map pl m b : other_side pl (set_map pl m b) = other_side pl b.
Proof. unfold other_side, set_map. by destruct (String.eqb pl BID_ORDER). Qed.

Lemma other_map_set_side pl ls b : other_map pl (set_side pl ls b) = other_map pl b.
Proof. unfold other_map, set_side. by destruct (String.eqb pl BID_ORDER). Qed.

Lemma other_map_set_map pl m b : other_map pl (set_map pl m b) = other_map pl b.
Proof. unfold other_map, set_map. by destruct (String.eqb pl BID_ORDER). Qed.

Lemma Market_set_side pl ls b : Market (set_side pl ls b) = Market b.
Proof. unfold set_side. by destruct (String.eqb pl BID_ORDER). Qed.

Lemma Market_set_map pl m b : Market (set_map pl m b) = Market b.
Proof. unfold set_map. by destruct (String.eqb pl BID_ORDER). Qed.

Lemma delete_map_corr (m : gmap Z nat) (side side' : list nat) (price : nat → Z) limit :
  (∀ p l, m !! p = Some l ↔ l ∈ side ∧ price l = p) →
  limit ∈ side →
  (∀ l, l ∈ side' ↔ l ∈ side ∧ l ≠ limit) →
  ∀ p l, delete (price limit) m !! p = Some l ↔ l ∈ side' ∧ price l = p.
Proof.
  intros Hm Hlim Hside p l. rewrite Hside. split.
  - intros Hd. destruct (decide (price limit = p)) as [<-|Hne].
    + by rewrite lookup_delete_eq in Hd.
    + rewrite lookup_delete_ne in Hd by done. apply Hm in Hd as [? ?].
      repeat split; try done. intros ->. done.
  - intros [[Hl Hne] Hp]. rewrite lookup_delete_ne.
    + by apply Hm.
    + intros Heq. apply Hne.
      assert (m !! p = Some limit) as H1 by (by apply Hm).
      assert (m !! p = Some l) as H2 by (by apply Hm).
      congruence.
Qed.

Lemma deleteLimitCells_spec pl limit cells st :
  Inv st → limit ∈ side_of pl (book st) →
  side_of pl (book st) = take (length (side_of pl (book st))) cells →
  match deleteLimitCells pl limit cells st with
  | (cells', st') => deleteLimit_post pl limit cells st cells' st'
  end.
Proof.
  intros HI Hlim Hside.
  set (side := side_of pl (book st)) in *.
  set (len := length side) in *.
  assert (len ≤ length cells) as Hlen.
  { unfold len. rewrite Hside, length_take. lia. }
  destruct (list_elem_of_lookup_1 _ _ Hlim) as [j Hj].
  assert (j < len) as Hjlen by (by eapply lookup_lt_Some).
  assert (cells !! j = Some limit) as Hcj.
  { rewrite Hside in Hj. by rewrite lookup_take_lt in Hj. }
  assert (NoDup (take len cells)) as Hnd.
  { rewrite <- Hside. by apply inv_side_nodup. }
  assert (swap_delete j side
          = take (len - 1) (<[j := default 0 (cells !! (len - 1))]> cells)) as Hsd.
  { rewrite take_swap_delete by done. by rewrite <- Hside. }
  pose proof (swap_delete_perm side j limit Hj) as Hperm.
  assert (NoDup (swap_delete j side)) as Hnd'.
  { pose proof (inv_side_nodup pl st HI) as H. fold side in H.
    rewrite <- Hperm in H. by apply NoDup_cons in H as [_ ?]. }
  assert (∀ l, l ∈ swap_delete j side ↔ l ∈ side ∧ l ≠ limit) as Hmem.
  { intros l. pose proof (inv_side_nodup pl st HI) as H. fold side in H.
    rewrite <- Hperm in H. apply NoDup_cons in H as [Hni _].
    assert (l ∈ side ↔ l = limit ∨ l ∈ swap_delete j side) as ->
      by (rewrite <- elem_of_cons; by rewrite Hperm).
    split.
    - intros Hl. split; [by right|]. by intros ->.
    - intros [[?|?] ?]; done. }
  pose proof (delete_map_corr (map_of pl (book st)) side (swap_delete j side)
                (λ l, Price (limit_at st l)) limit
                (λ p l, inv_map pl st p l HI) Hlim Hmem) as Hmap.
  unfold deleteLimitCells.
  assert (length (side_of pl (set_map pl
            (delete (Price (limit_at st limit)) (map_of pl (book st))) (book st)))
          = len) as ->.
  { by rewrite side_of_set_map. }
  rewrite (sliceDelete_unique limit j cells len) by done.
  rewrite <- Hsd.
  split.
  - apply (Inv_book_step st); try done;
      unfold side, side_of, map_of, set_side, set_map in *;
      destruct (String.eqb pl BID_ORDER); simpl in *; try apply HI; try done;
      intros l Hl; by destruct (proj1 (Hmem l) Hl).
  - done.
  - done.
  - done.
  - simpl. by rewrite other_side_set_side, other_side_set_map.
  - simpl. by rewrite other_map_set_side, other_map_set_map.
  - simpl. by rewrite Market_set_side, Market_set_map.
  - exists j. done.
  - simpl. by rewrite side_of_set_side.
  - simpl. by rewrite side_of_set_side.
Qed.

Lemma deleteLimit_spec pl limit st :
  Inv st → limit ∈ side_of pl (book st) →
  deleteLimit_post pl limit (side_of pl (book st)) st
    (fst (deleteLimitCells pl limit (side_of pl (book st)) st))
    (deleteLimit pl limit st).
Proof.
  intros HI Hlim. unfold deleteLimit.
  pose proof (deleteLimitCells_spec pl limit (side_of pl (book st)) st HI Hlim) as H.
  destruct (deleteLimitCells _ _ _ _) as [cells' st']. apply H.
  by rewrite firstn_all.
Qed.

(** ** [Asks] and [Bids] *)

Lemma Inv_side_perm pl side' st :
  Inv st → side' ≡ₚ side_of pl (book st) →
  Inv (set_book (set_side pl side' (book st)) st).
Proof.
  intros HI Hperm.
  assert (∀ l, l ∈ side' ↔ l ∈ side_of pl (book st)) as Hmem
    by (intros l; by rewrite Hperm).
  assert (NoDup side') as Hnd by (rewrite Hperm; by apply inv_side_nodup).
  apply (Inv_book_step st); try done;
    unfold side_of, set_side in *; destruct (String.eqb pl BID_ORDER); simpl;
    try apply HI; try done; try (intros l Hl; by apply Hmem).
  - intros p l. rewrite Hmem. apply HI.
  - intros p l. rewrite Hmem. apply HI.
Qed.

(** ** The loop of [PlaceMarketOrder] *)

Lemma marketLoop_unfold pl order k i cells ms st :
  marketLoop pl order (S k) i cells ms st
  = let '(limitMatches, cells1, st2) := marketStep pl order i cells st in
    if IsFilled st2 order then (ms ++ limitMatches, st2)
    else marketLoop pl order k (S i) cells1 (ms ++ limitMatches) st2.
Proof.
  simpl. unfold marketStep.
  destruct (Fill _ order st) as [lms st1].
  by destruct (if (TotalVolume (limit_at st1 _) =? 0)%Z then _ else _).
Qed.

Lemma in_book_sides pl st l :
  in_book st l ↔ l ∈ side_of pl (book st) ∨ l ∈ other_side pl (book st).
Proof.
  unfold in_book, side_of, other_side. destruct (String.eqb pl BID_ORDER); tauto.
Qed.

Lemma marketStep_spec pl order i cells st :
  loop_inv pl order i cells st → i < length cells →
  match marketStep pl order i cells st with
  | (_, cells1, st2) => step_post pl order i cells st cells1 st2
  end.
Proof.
  intros [HI Ho Hnr Hside Hnd Hmem] Hi.
  destruct (lookup_lt_is_Some_2 cells i Hi) as [limit Hlim].
  unfold marketStep. rewrite Hlim; simpl.
  pose proof (drop_S cells limit i Hlim) as Hdrop.
  assert (limit ∈ side_of pl (book st)) as Hls by (apply Hmem; rewrite Hdrop; left).
  assert (in_book st limit) as Hlb by (by eapply side_of_in_book).
  pose proof (inv_side_nodup pl st HI) as Hnds.
  pose proof (Fill_spec limit order st HI Hlb Ho Hnr) as HF.
  destruct (Fill limit order st) as [lms st1].
  destruct HF as [? ? ? ? ? ? ? ? ? ? ? ? ? ? ? ? ? ?].
  assert (∀ l, in_book st1 l ↔ in_book st l) as Hin1
    by (intros l; unfold in_book; by rewrite fp_book0).
  assert (∀ l, l ≠ limit → queue st1 l = queue st l) as Hq1
    by (intros l ?; unfold queue; by rewrite fp_limit_ne0).
  assert (not_resting st1 order) as Hnr1.
  { intros l Hl%Hin1. destruct (decide (l = limit)) as [->|Hne].
    - intros [Hq _]%fp_queue0. by apply (Hnr limit).
    - rewrite Hq1 by done. by apply Hnr. }
  assert (∀ l o, in_book st l → l ≠ limit → o ∈ queue st l →
            size_at st1 o = size_at st o) as Hsz1.
  { intros l o Hl Hne Hoq. apply fp_size_frame0.
    - intros Hoq'. apply Hne. by eapply (inv_queue_disjoint _ HI).
    - intros ->. by apply (Hnr l). }
  destruct (Z.eqb_spec (TotalVolume (limit_at st1 limit)) 0) as [Hv0|Hvne].
  - (* the limit is drained and leaves the book *)
    pose proof (deleteLimitCells_spec pl limit cells st1 fp_inv0) as HD.
    rewrite fp_book0 in HD. specialize (HD Hls Hside).
    destruct (deleteLimitCells pl limit cells st1) as [cells1 st2].
    destruct HD as [? ? ? ? ? ? ? (j & Hj & Hcj & ->) ? ?].
    rewrite fp_book0 in *.
    assert (∀ l, limit_at st2 l = limit_at st1 l) as Hla2
      by (intros l; unfold limit_at; by rewrite lp_limits0).
    assert (∀ o, size_at st2 o = size_at st1 o) as Hsz2
      by (intros o; unfold size_at, order_at; by rewrite lp_orders0).
    assert (∀ l, queue st2 l = queue st1 l) as Hq2
      by (intros l; unfold queue; by rewrite Hla2).
    pose proof Hnds as Hnds2. rewrite <- lp_side_perm0 in Hnds2.
    apply NoDup_cons in Hnds2 as [Hl_notin Hnds2].
    assert (∀ l, l ∈ side_of pl (book st2) → l ∈ side_of pl (book st) ∧ l ≠ limit)
      as Hsub2.
    { intros l Hl. split; [rewrite <- lp_side_perm0; by right | by intros ->]. }
    assert (j ≤ i) as Hji.
    { destruct (decide (j ≤ i)) as [|Hgt]; [done|]. exfalso.
      assert (drop i cells !! (j - i) = Some limit) as H1
        by (rewrite lookup_drop; by replace (i + (j - i)) with j by lia).
      assert (drop i cells !! 0 = Some limit) as H2 by (by rewrite Hdrop).
      pose proof (NoDup_lookup _ _ _ _ Hnd H1 H2). lia. }
    assert (∀ l, in_book st2 l → in_book st l) as Hin2.
    { intros l. rewrite !(in_book_sides pl), lp_other_side0.
      intros [Hl|Hl]; [left; by apply Hsub2 | by right]. }
    split.
    + done.
    + by rewrite lp_orders0, fp_length_orders0.
    + intros l Hl%Hin2. rewrite Hq2. by apply Hnr1, Hin1.
    + done.
    + done.
    + by rewrite lp_index0.
    + by rewrite lp_market0.
    + intros l Hl. by apply Hsub2.
    + intros l Hl. rewrite Hla2. apply fp_limit_ne0. by intros ->.
    + rewrite Hsz2. unfold sideVolume. rewrite <- (Zsum_perm _ _ _ lp_side_perm0).
      simpl. rewrite (Zsum_ext (λ l, TotalVolume (limit_at st2 l))
                        (λ l, TotalVolume (limit_at st l))); [lia|].
      intros l [Hl Hne]%Hsub2. by rewrite Hla2, fp_limit_ne0.
    + intros Hpos l [Hl Hne]%Hsub2. destruct (Hpos l Hl) as [Hq Hp].
      rewrite Hq2, Hq1 by done. split; [done|]. intros o Hoq.
      rewrite Hsz2, (Hsz1 l) by (try done; by eapply side_of_in_book). by apply Hp.
    + apply length_insert.
    + intros _.
      assert (length (side_of pl (book st2)) = length (side_of pl (book st)) - 1)
        as Hlen2 by (rewrite <- lp_side_perm0; simpl; lia).
      split.
      * done.
      * by rewrite lp_orders0, fp_length_orders0.
      * intros l Hl%Hin2. rewrite Hq2. by apply Hnr1, Hin1.
      * by rewrite Hlen2.
      * rewrite drop_insert_lt by lia. rewrite Hdrop in Hnd.
        by apply NoDup_cons in Hnd as [_ ?].
      * intros x. rewrite drop_insert_lt by lia.
        rewrite Hdrop in Hnd. apply NoDup_cons in Hnd as [Hl_notin' _].
        split.
        -- intros Hx. destruct (Hsub2 x Hx) as [Hxs Hne].
           apply Hmem in Hxs. rewrite Hdrop in Hxs.
           apply elem_of_cons in Hxs as [?|?]; done.
        -- intros Hx.
           assert (x ∈ limit :: side_of pl (book st2)) as Hxs
             by (rewrite lp_side_perm0; apply Hmem; rewrite Hdrop; by right).
           apply elem_of_cons in Hxs as [->|?]; done.
    + intros o. unfold order_at. rewrite lp_orders0. apply fp_placement0.
    + intros Hq l [Hl Hne]%Hsub2. rewrite Hq2, Hq1 by done. by apply Hq.
  - (* the limit keeps volume: the incoming order is exhausted *)
    assert (size_at st1 order = 0%Z) as Hs0.
    { destruct (decide (size_at st1 order = 0%Z)) as [|Hne]; [done|].
      by destruct (fp_unfilled0 Hne). }
    split; try done.
    + by rewrite fp_length_orders0.
    + by rewrite fp_book0.
    + by rewrite fp_book0.
    + by rewrite fp_book0.
    + intros l. by rewrite fp_book0.
    + intros l Hl. apply fp_limit_ne0. by intros ->.
    + unfold sideVolume. rewrite fp_book0.
      rewrite (Zsum_change (λ l, TotalVolume (limit_at st l))
                 (λ l, TotalVolume (limit_at st1 l)) _ limit
                 (TotalVolume (limit_at st limit) - TotalVolume (limit_at st1 limit)));
        [lia | done | done | lia |].
      intros l _ Hne. by rewrite fp_limit_ne0.
    + intros Hpos l. rewrite fp_book0. intros Hl. destruct (Hpos l Hl) as [Hq Hp].
      destruct (decide (l = limit)) as [->|Hne].
      * split.
        -- intros Hnil. apply Hvne.
           rewrite (inv_volume _ fp_inv0 limit) by (by apply Hin1). by rewrite Hnil.
        -- intros o [Hoq Hnz]%fp_queue0.
           apply list_elem_of_lookup_1 in Hoq as [i' Hi'].
           destruct (decide (i' < length lms)) as [Hlt|Hge].
           ++ destruct (fp_visited0 i' o Hi' Hlt) as [Hnn _].
              destruct (decide (size_at st1 o = 0%Z)) as [Hz|Hnz']; [|lia].
              exfalso. apply Hnz. by exists i'.
           ++ rewrite (fp_unvisited0 i' o Hi') by lia.
              apply Hp. by eapply list_elem_of_lookup_2.
      * rewrite Hq1 by done. split; [done|]. intros o Hoq.
        rewrite (Hsz1 l) by (try done; by eapply side_of_in_book). by apply Hp.
    + intros Hq l. rewrite fp_book0. intros Hl.
      destruct (decide (l = limit)) as [->|Hne].
      * intros Hnil. apply Hvne.
        rewrite (inv_volume _ fp_inv0 limit) by (by apply Hin1). by rewrite Hnil.
      * rewrite Hq1 by done. by apply Hq.
Qed.

Lemma marketLoop_spec pl order k i cells ms st :
  loop_inv pl order i cells st → i + k = length cells →
  match marketLoop pl order k i cells ms st with
  | (_, st') => loop_post pl order st st'
  end.
Proof.
  revert i cells ms st. induction k as [|k IH]; intros i cells ms st HL Hlen.
  - simpl. destruct HL as [? ? ? ? ? Hmem].
    split; try done; try lia. right.
    apply elem_of_nil_inv. intros x Hx%Hmem.
    rewrite drop_ge in Hx by lia. by apply elem_of_nil in Hx.
  - rewrite marketLoop_unfold.
    pose proof (marketStep_spec pl order i cells st HL ltac:(lia)) as HS.
    destruct (marketStep pl order i cells st) as [[lms cells1] st2].
    destruct HS as [? ? ? ? ? ? ? ? ? ? ? ? ? ? ?].
    destruct (IsFilled st2 order) eqn:Hf.
    + apply IsFilled_spec in Hf. split; try done. by left.
    + assert (size_at st2 order ≠ 0%Z) as Hne
        by (intros H; apply IsFilled_spec in H; congruence).
      specialize (IH (S i) cells1 (ms ++ lms) st2 (sp_next0 Hne) ltac:(lia)).
      destruct (marketLoop pl order k (S i) cells1 (ms ++ lms) st2) as [ms' st'].
      destruct IH as [? ? ? ? ? ? ? ? ? ? ? ? ? ?].
      split; try done; try congruence.
      * intros l Hl. by apply sp_sub0, lo_sub0.
      * intros l Hl. rewrite lo_frame0; [by apply sp_frame0|].
        intros Hl2. by apply Hl, sp_sub0.
      * lia.
      * intros Hpos. by apply lo_positive0, sp_positive0.
      * intros Hq. by apply lo_nonempty0, sp_nonempty0.
Qed.

Lemma opposingVolume_sideVolume st order :
  opposingVolume st order = sideVolume (opposite st order) st.
Proof.
  unfold opposingVolume, opposite, sideVolume, AskTotalVolume, BidTotalVolume.
  destruct (String.eqb _ _); by rewrite sumVolume_Zsum.
Qed.

Lemma PlaceMarketOrder_accepts st order :
  Inv st → order < length (orders st) → not_resting st order →
  (Size (order_at st order) ≤ opposingVolume st order)%Z →
  ∃ matches st',
    PlaceMarketOrder order st = (inl matches, st') ∧
    loop_post (opposite st order) order st st'.
Proof.
  intros HI Ho Hnr Hle.
  assert (∀ pl less,
    let cells := sortBy less (side_of pl (book st)) in
    let st1 := set_book (set_side pl cells (book st)) st in
    match marketLoop pl order (length cells) 0 cells [] st1 with
    | (_, st') => loop_post pl order st st'
    end) as Hloop.
  { intros pl less cells st1.
    assert (cells ≡ₚ side_of pl (book st)) as Hperm by apply sortBy_perm.
    assert (Inv st1) as HI1 by (by apply Inv_side_perm).
    assert (side_of pl (book st1) = cells) as Hs1 by apply side_of_set_side.
    assert (other_side pl (book st1) = other_side pl (book st)) as Hos1
      by apply other_side_set_side.
    assert (∀ l, in_book st1 l ↔ in_book st l) as Hin.
    { intros l. rewrite !(in_book_sides pl), Hs1, Hos1. by rewrite Hperm. }
    pose proof (marketLoop_spec pl order (length cells) 0 cells [] st1) as H.
    destruct (marketLoop pl order (length cells) 0 cells [] st1) as [ms st'].
    destruct H as [? ? ? ? ? ? ? ? ? ? ? ? ? ?]; [|done|].
    { split; try done.
      - intros l Hl%Hin. by apply Hnr.
      - by rewrite Hs1, firstn_all.
      - simpl. rewrite Hperm. by apply inv_side_nodup.
      - intros x. by rewrite Hs1. }
    split; try done.
    - by rewrite lo_other_side0.
    - rewrite lo_other_map0. apply other_map_set_side.
    - rewrite lo_market0. apply Market_set_side.
    - intros l Hl%lo_sub0. rewrite Hs1 in Hl. by rewrite <- Hperm.
    - intros l Hl. apply lo_frame0. rewrite Hs1. by rewrite Hperm.
    - assert (sideVolume pl st1 = sideVolume pl st) as Hsv.
      { unfold sideVolume. rewrite Hs1. by rewrite (Zsum_perm _ _ _ Hperm). }
      change (size_at st1 order) with (size_at st order) in lo_conserve0. lia.
    - intros Hpos. apply lo_positive0. unfold positive_side. rewrite Hs1.
      intros l Hl. apply (Hpos l). by rewrite <- Hperm.
    - intros Hq. apply lo_nonempty0. rewrite Hs1.
      intros l Hl. apply (Hq l). by rewrite <- Hperm. }
  unfold opposingVolume in Hle. unfold PlaceMarketOrder, opposite.
  destruct (String.eqb _ _).
  - destruct (Z.gtb_spec (Size (order_at st order)) (AskTotalVolume st)); [lia|].
    unfold Asks. specialize (Hloop ASK_ORDER (ByBestAsk_Less st)). simpl in Hloop.
    change (side_of ASK_ORDER (book st)) with (asks (book st)) in Hloop.
    destruct (marketLoop _ _ _ _ _ _ _) as [ms st']. by exists ms, st'.
  - destruct (Z.gtb_spec (Size (order_at st order)) (BidTotalVolume st)); [lia|].
    unfold Bids. specialize (Hloop BID_ORDER (ByBestBid_Less st)). simpl in Hloop.
    change (side_of BID_ORDER (book st)) with (bids (book st)) in Hloop.
    destruct (marketLoop _ _ _ _ _ _ _) as [ms st']. by exists ms, st'.
Qed.

(** ** First in, first out across a whole market order *)

Lemma marketStep_fifo pl order i cells st :
  loop_inv pl order i cells st → i < length cells →
  match marketStep pl order i cells st with
  | (lms, _, st2) => step_fifo pl order i cells st lms st2
  end.
Proof.
  intros [HI Ho Hnr Hside Hnd Hmem] Hi.
  destruct (lookup_lt_is_Some_2 cells i Hi) as [limit Hlim].
  assert (visited cells i = limit) as Hvl by (unfold visited; by rewrite Hlim).
  unfold marketStep. rewrite Hlim; simpl.
  pose proof (drop_S cells limit i Hlim) as Hdrop.
  assert (limit ∈ side_of pl (book st)) as Hls by (apply Hmem; rewrite Hdrop; left).
  assert (in_book st limit) as Hlb by (by eapply side_of_in_book).
  pose proof (inv_side_nodup pl st HI) as Hnds.
  pose proof (Fill_spec limit order st HI Hlb Ho Hnr) as HF.
  destruct (Fill limit order st) as [lms st1].
  destruct HF as [? ? ? ? ? ? ? ? ? ? ? ? ? ? ? ? ? ?].
  assert (∀ j o, queue st limit !! j = Some o → S j < length lms →
            size_at st1 o = 0%Z) as Hvis.
  { intros j o Hj Hlt.
    destruct (fp_visited0 j o Hj ltac:(lia)) as [_ [?|[? _]]]; [done | lia]. }
  assert (∀ o, o ∈ queue st1 limit → o ∈ queue st limit) as Hqs
    by (by intros o [? _]%fp_queue0).
  destruct (Z.eqb_spec (TotalVolume (limit_at st1 limit)) 0) as [Hv0|Hvne].
  - pose proof (deleteLimitCells_spec pl limit cells st1 fp_inv0) as HD.
    rewrite fp_book0 in HD. specialize (HD Hls Hside).
    destruct (deleteLimitCells pl limit cells st1) as [cells1 st2].
    destruct HD as [? ? ? ? ? ? ? _ ? ?].
    rewrite fp_book0 in *.
    assert (∀ l, limit_at st2 l = limit_at st1 l) as Hla2
      by (intros l; unfold limit_at; by rewrite lp_limits0).
    assert (∀ o, size_at st2 o = size_at st1 o) as Hsz2
      by (intros o; unfold size_at, order_at; by rewrite lp_orders0).
    pose proof Hnds as Hnds2. rewrite <- lp_side_perm0 in Hnds2.
    apply NoDup_cons in Hnds2 as [Hl_notin Hnds2].
    split; rewrite ?Hvl; try done.
    + intros l Hne. by rewrite Hla2, fp_limit_ne0.
    + intros l Hl Hne.
      assert (l ∈ limit :: side_of pl (book st2)) as Hin by (by rewrite lp_side_perm0).
      apply elem_of_cons in Hin as [?|?]; done.
    + intros o. unfold queue. rewrite Hla2. apply Hqs.
    + intros o Hno Hne. by rewrite Hsz2, fp_size_frame0.
    + intros j o Hj Hlen. rewrite Hsz2. by eapply fp_unvisited0.
    + intros j o Hj Hlen. rewrite Hsz2. by eapply Hvis.
  - assert (size_at st1 order = 0%Z) as Hs0.
    { destruct (decide (size_at st1 order = 0%Z)) as [|Hne]; [done|].
      by destruct (fp_unfilled0 Hne). }
    split; rewrite ?Hvl; try done.
    intros l Hl Hne. by rewrite fp_book0.
Qed.

Lemma resting_of_ext st st' order mt :
  OrderPlacement (order_at st' order) = OrderPlacement (order_at st order) →
  resting_of st' order mt = resting_of st order mt.
Proof. intros H. unfold resting_of. by rewrite H. Qed.

(** The matches of one iteration, against the queues before it. *)
Lemma step_fifo_post pl order i cells st lms st2 :
  loop_inv pl order i cells st →
  step_fifo pl order i cells st lms st2 →
  fifo_post st order lms st2 ∧
  ∀ o, o ∈ map (resting_of st order) lms → o ∈ queue st (visited cells i).
Proof.
  intros [HI Ho Hnr Hside Hnd Hmem] [? ? ? ? ? ? ? ? ?].
  set (limit := visited cells i) in *.
  assert (in_book st limit) as Hlb by (by eapply side_of_in_book).
  assert (∀ o, o ∈ map (resting_of st order) lms → o ∈ queue st limit) as Hrest.
  { intros o. rewrite sf_matches0. apply subseteq_take. }
  split; [|done].
  intros l a b ia ib Hl Hia Hib Hlt.
  destruct (decide (l = limit)) as [->|Hne].
  - split.
    + intros Hchg. apply (sf_visited0 ia a Hia).
      destruct (decide (ib < length lms)) as [|Hge]; [lia|].
      exfalso. apply Hchg. apply (sf_unvisited0 ib b Hib). lia.
    + intros j Hj. rewrite sf_matches0 in Hj.
      apply lookup_take_Some in Hj as [Hj Hjlen].
      assert (j = ib) as ->
        by (eapply NoDup_lookup; [by apply (inv_queue_nodup _ HI limit)|done|done]).
      exists ia. split; [done|]. rewrite sf_matches0.
      rewrite lookup_take_lt by lia. done.
  - assert (∀ o, o ∈ queue st l → o ∉ queue st limit) as Hdis.
    { intros o Ho1 Ho2. apply Hne. by eapply (inv_queue_disjoint _ HI). }
    assert (∀ o, o ∈ queue st l → size_at st2 o = size_at st o) as Hsame.
    { intros o Ho1. apply sf_size_frame0; [by apply Hdis|].
      intros ->. by apply (Hnr l). }
    split.
    + intros Hchg. exfalso. apply Hchg, Hsame. by eapply list_elem_of_lookup_2.
    + intros j Hj. exfalso.
      apply (Hdis b); [by eapply list_elem_of_lookup_2|].
      apply Hrest. by eapply list_elem_of_lookup_2.
Qed.

Lemma marketLoop_fifo pl order k i cells ms st :
  loop_inv pl order i cells st → i + k = length cells →
  match marketLoop pl order k i cells ms st with
  | (ms', st') => loop_fifo pl order st ms ms' st'
  end.
Proof.
  revert i cells ms st. induction k as [|k IH]; intros i cells ms st HL Hlen.
  { simpl. split; [|done]. exists []. rewrite app_nil_r. split; [done|].
    split; [|by intros o ?%elem_of_nil].
    intros l a b ia ib _ _ _ _. split; [done|]. by intros j ?. }
  rewrite marketLoop_unfold.
  pose proof (marketStep_spec pl order i cells st HL ltac:(lia)) as HS.
  pose proof (marketStep_fifo pl order i cells st HL ltac:(lia)) as HF.
  destruct (marketStep pl order i cells st) as [[lms cells1] st2].
  destruct (step_fifo_post pl order i cells st lms st2 HL HF) as [Hfifo Hrest].
  destruct HS as [? ? ? ? ? ? ? ? ? ? ? ? ? ? ?].
  pose proof HL as [HI Ho Hnr Hside Hnd Hmem].
  destruct HF as [? ? ? ? ? ? ? ? ?].
  set (limit := visited cells i) in *.
  destruct (IsFilled st2 order) eqn:Hf.
  { split.
    - exists lms. split; [done|]. split; [done|].
      intros o Ho'. exists limit. split; [done | by apply Hrest].
    - intros o Hne Hno. apply sf_size_frame0; [by apply Hno | done]. }
  assert (size_at st2 order ≠ 0%Z) as Hne
    by (intros H; apply IsFilled_spec in H; congruence).
  specialize (IH (S i) cells1 (ms ++ lms) st2 (sp_next0 Hne) ltac:(lia)).
  destruct (marketLoop pl order k (S i) cells1 (ms ++ lms) st2) as [ms' st'].
  destruct IH as [(new2 & -> & Hfifo2 & Hrest2) Hframe2].
  pose proof (sf_gone0 Hne) as Hgone.
  assert (in_book st limit) as Hlb by (by eapply side_of_in_book).
  assert (∀ l, l ≠ limit → queue st2 l = queue st l) as Hq2
    by (intros l ?; unfold queue; by rewrite sf_limit_ne0).
  assert (∀ mt, resting_of st2 order mt = resting_of st order mt) as Hro
    by (intros mt; by apply resting_of_ext).
  rewrite (map_ext _ _ Hro) in Hrest2.
  (* an order of the queue of the visited limit is out of reach afterwards *)
  assert (∀ o, o ∈ queue st limit → o ≠ order →
            size_at st' o = size_at st2 o ∧
            o ∉ map (resting_of st order) new2) as Hdone.
  { intros o Hoq Hoo.
    assert (∀ l', l' ∈ side_of pl (book st2) → o ∉ queue st2 l') as Hout.
    { intros l' Hl' Ho2.
      assert (l' ≠ limit) as Hne' by (by intros ->).
      rewrite Hq2 in Ho2 by done. apply Hne'.
      eapply (inv_queue_disjoint _ HI l' limit o); try done.
      eapply side_of_in_book. by apply sp_sub0. }
    split; [by apply Hframe2|].
    intros (l' & Hl' & Ho2)%Hrest2. by apply (Hout l'). }
  split.
  - exists (lms ++ new2). split; [by rewrite app_assoc|]. split.
    + intros l a b ia ib Hl Hia Hib Hlt.
      assert (a ≠ order ∧ b ≠ order) as [Hao Hbo].
      { split; intros ->; apply (Hnr l Hl); by eapply list_elem_of_lookup_2. }
      rewrite map_app.
      destruct (Hfifo l a b ia ib Hl Hia Hib Hlt) as [Hsz1 Hm1].
      destruct (decide (l = limit)) as [->|Hnel].
      * destruct (Hdone a) as [Ha1 Ha2]; [by eapply list_elem_of_lookup_2|done|].
        destruct (Hdone b) as [Hb1 Hb2]; [by eapply list_elem_of_lookup_2|done|].
        split.
        -- rewrite Ha1, Hb1. apply Hsz1.
        -- intros j Hj. apply lookup_app_Some in Hj as [Hj|[_ Hj]].
           ++ destruct (Hm1 j Hj) as (i' & Hi' & Hai). exists i'. split; [done|].
              by rewrite lookup_app_l by (by eapply lookup_lt_Some).
           ++ exfalso. apply Hb2. by eapply list_elem_of_lookup_2.
      * assert (in_book st2 l) as Hl2.
        { apply (in_book_sides pl). apply (in_book_sides pl) in Hl as [Hl|Hl].
          - left. by apply sf_keep0.
          - right. by rewrite sp_other_side0. }
        assert (∀ o, o ∈ queue st l → size_at st2 o = size_at st o) as Hsame.
        { intros o Ho1. apply sf_size_frame0.
          - intros Ho2. apply Hnel. by eapply (inv_queue_disjoint _ HI).
          - intros ->. by apply (Hnr l). }
        rewrite <- (Hq2 l Hnel) in Hia, Hib.
        destruct (Hfifo2 l a b ia ib Hl2 Hia Hib Hlt) as [Hsz2 Hm2].
        rewrite (Hq2 l Hnel) in Hia, Hib.
        rewrite !Hsame in Hsz2 by (by eapply list_elem_of_lookup_2).
        split; [done|].
        intros j Hj. apply lookup_app_Some in Hj as [Hj|[Hjlen Hj]].
        -- exfalso. destruct (Hm1 j Hj) as (i' & _ & Hai).
           apply Hnel. eapply (inv_queue_disjoint _ HI l limit b); try done.
           ++ by eapply list_elem_of_lookup_2.
           ++ apply Hrest. by eapply list_elem_of_lookup_2.
        -- rewrite (map_ext _ _ Hro) in Hm2.
           destruct (Hm2 _ Hj) as (i' & Hi' & Hai).
           exists (length (map (resting_of st order) lms) + i'). split; [lia|].
           rewrite lookup_app_r by lia.
           by replace (_ + i' - _) with i' by lia.
    + intros o. rewrite map_app, elem_of_app. intros [Ho1|Ho2].
      * exists limit. split; [done | by apply Hrest].
      * destruct (Hrest2 o Ho2) as (l' & Hl' & Hq').
        assert (l' ≠ limit) as Hne' by (by intros ->).
        exists l'. split; [by apply sp_sub0|]. by rewrite <- Hq2.
  - intros o Hoo Hno.
    rewrite Hframe2; [apply sf_size_frame0; [by apply Hno | done] | done |].
    intros l' Hl' Ho2. destruct (decide (l' = limit)) as [->|Hne'].
    + apply (Hno limit); [done | by apply sf_queue_sub0].
    + rewrite Hq2 in Ho2 by done. apply (Hno l'); [by apply sp_sub0 | done].
Qed.


(** ** [NewOrder], [AddOrder], [PlaceLimitOrder] *)

(** A step on the stores that may also extend queues. *)
Lemma Inv_store_step_gen st st' :
  Inv st →
  book st' = book st →
  length (limits st') = length (limits st) →
  (∀ l, in_book st l → Price (limit_at st' l) = Price (limit_at st l)) →
  (∀ l, in_book st l → NoDup (queue st' l)) →
  (∀ l o, in_book st l → o ∈ queue st' l → o < length (orders st')) →
  (∀ l1 l2 o, in_book st l1 → in_book st l2 →
     o ∈ queue st' l1 → o ∈ queue st' l2 → l1 = l2) →
  (∀ l, in_book st l → TotalVolume (limit_at st' l) = Zsum (size_at st') (queue st' l)) →
  (∀ l, in_book st l → arrival_ordered st' (queue st' l)) →
  Inv st'.
Proof.
  intros HI Hb Hll Hp Hnd Hal Hdis Hvol Harr.
  assert (∀ l, in_book st' l ↔ in_book st l) as Hin
    by (intros l; unfold in_book; by rewrite Hb).
  split.
  - rewrite Hb. apply HI.
  - rewrite Hb. apply HI.
  - rewrite Hb. apply HI.
  - intros l Hl%Hin. rewrite Hll. by apply HI.
  - intros p l. rewrite Hb. rewrite (inv_ask_map _ HI).
    split; intros [H1 H2]; (split; [done|]);
      [rewrite Hp | rewrite <- Hp]; try done; by left.
  - intros p l. rewrite Hb. rewrite (inv_bid_map _ HI).
    split; intros [H1 H2]; (split; [done|]);
      [rewrite Hp | rewrite <- Hp]; try done; by right.
  - intros l Hl%Hin. by apply Hnd.
  - intros l o Hl%Hin. by apply Hal.
  - intros l1 l2 o H1%Hin H2%Hin. by apply Hdis.
  - intros l Hl%Hin. by apply Hvol.
  - intros l Hl%Hin. by apply Harr.
Qed.

Lemma newest_not_resting st order : newest st order → not_resting st order.
Proof. intros Hn l Hl Ho. specialize (Hn l order Hl Ho). lia. Qed.

Lemma NewOrder_fst pl size now st : fst (NewOrder pl size now st) = length (orders st).
Proof. done. Qed.

Lemma NewOrder_order_at_old pl size now st o :
  o < length (orders st) →
  order_at (snd (NewOrder pl size now st)) o = order_at st o.
Proof. intros Ho. unfold order_at, NewOrder; simpl. by rewrite lookup_app_l. Qed.

Lemma NewOrder_order_at_new pl size now st :
  order_at (snd (NewOrder pl size now st)) (length (orders st))
  = mkOrder (wrap64 (orderIdSequence st + 1)) pl size None now.
Proof.
  unfold order_at, NewOrder; simpl.
  by rewrite lookup_app_r, Nat.sub_diag by lia.
Qed.

Lemma NewOrder_Inv pl size now st : Inv st → Inv (snd (NewOrder pl size now st)).
Proof.
  intros HI.
  assert (∀ l o, in_book st l → o ∈ queue st l →
            order_at (snd (NewOrder pl size now st)) o = order_at st o) as Hold.
  { intros l o Hl Ho. apply NewOrder_order_at_old. by eapply inv_queue_alloc. }
  apply (Inv_store_step st); try done; try apply HI.
  - simpl. rewrite length_app. lia.
  - intros l Hl. etrans; [exact (inv_volume _ HI l Hl)|]. apply Zsum_ext.
    intros o Ho. unfold size_at. by rewrite (Hold l).
  - intros l Hl i j a b Hi Hj Hab. unfold ts_at.
    rewrite (Hold l a), (Hold l b)
      by (try done; by eapply list_elem_of_lookup_2).
    by apply (inv_arrival _ HI l Hl).
Qed.

Lemma NewOrder_newest pl size now st :
  Inv st → newest (snd (NewOrder pl size now st)) (length (orders st)).
Proof. intros HI l o Hl Ho. by eapply (inv_queue_alloc _ HI l). Qed.

Lemma AddOrder_book l o st : book (AddOrder l o st) = book st.
Proof. done. Qed.

Lemma AddOrder_order_field {B} (g : Order → B) l o st o' :
  (∀ f x, g (with_OrderLimit f x) = g x) →
  g (order_at (AddOrder l o st) o') = g (order_at st o').
Proof.
  intros Hg. unfold AddOrder.
  change (order_at (upd_limit ?l ?f ?s) o') with (order_at s o').
  change (order_at (upd_limit ?l ?f ?s) o') with (order_at s o').
  by rewrite order_at_upd_order_field.
Qed.

Lemma AddOrder_limit_ne l l' o st :
  l' ≠ l → limit_at (AddOrder l o st) l' = limit_at st l'.
Proof.
  intros Hne. unfold AddOrder. by rewrite !limit_at_upd_limit_ne.
Qed.

Lemma AddOrder_limit_eq l o st :
  l < length (limits st) →
  limit_at (AddOrder l o st) l
  = mkLimit (Price (limit_at st l)) (queue st l ++ [o])
            (TotalVolume (limit_at st l) + size_at st o).
Proof.
  intros Hl. unfold AddOrder.
  rewrite !limit_at_upd_limit_eq by (by rewrite ?length_limits_upd_limit).
  change (limit_at (upd_order ?a ?f ?s) l) with (limit_at s l).
  unfold with_TotalVolume, with_Orders, queue; simpl. f_equal.
  change (order_at (upd_limit ?l ?f ?s) o) with (order_at s o).
  unfold size_at. by rewrite (order_at_upd_order_field Size).
Qed.

Lemma AddOrder_Inv l o st :
  Inv st → in_book st l → o < length (orders st) → newest st o →
  Inv (AddOrder l o st).
Proof.
  intros HI Hl Ho Hnew.
  assert (l < length (limits st)) as Hla by (by apply HI).
  pose proof (newest_not_resting st o Hnew) as Hnr.
  assert (∀ o', size_at (AddOrder l o st) o' = size_at st o') as Hsz
    by (intros; by apply (AddOrder_order_field Size)).
  assert (∀ o', ts_at (AddOrder l o st) o' = ts_at st o') as Hts
    by (intros; by apply (AddOrder_order_field Timestamp)).
  assert (∀ l', l' ≠ l → queue (AddOrder l o st) l' = queue st l') as Hq
    by (intros l' ?; unfold queue; by rewrite AddOrder_limit_ne).
  assert (queue (AddOrder l o st) l = queue st l ++ [o]) as Hql
    by (unfold queue at 1; by rewrite AddOrder_limit_eq).
  assert (∀ l' x, in_book st l' → x ∈ queue (AddOrder l o st) l' →
            x ∈ queue st l' ∨ (l' = l ∧ x = o)) as Hmem.
  { intros l' x Hl' Hx. destruct (decide (l' = l)) as [->|Hne].
    - rewrite Hql in Hx. apply elem_of_app in Hx as [?|Hx]; [auto|].
      apply list_elem_of_singleton in Hx. auto.
    - rewrite Hq in Hx by done. auto. }
  apply (Inv_store_step_gen st); try done.
  - unfold AddOrder. simpl. by rewrite !length_alter.
  - intros l' _. destruct (decide (l' = l)) as [->|Hne].
    + by rewrite AddOrder_limit_eq.
    + by rewrite AddOrder_limit_ne.
  - intros l' Hl'. destruct (decide (l' = l)) as [->|Hne].
    + rewrite Hql. apply NoDup_app. repeat split.
      * by apply HI.
      * intros x Hx ->%list_elem_of_singleton. by apply (Hnr l).
      * apply NoDup_singleton.
    + rewrite Hq by done. by apply HI.
  - intros l' x Hl' Hx. unfold AddOrder; simpl. rewrite length_alter.
    destruct (Hmem l' x Hl' Hx) as [?|[_ ->]]; [|done].
    by eapply (inv_queue_alloc _ HI l').
  - intros l1 l2 x H1 H2 Hx1 Hx2.
    destruct (Hmem l1 x H1 Hx1) as [Hx1'|[E1 Ex1]];
      destruct (Hmem l2 x H2 Hx2) as [Hx2'|[E2 Ex2]]; subst; try done.
    + by eapply (inv_queue_disjoint _ HI l1 l2 x).
    + by destruct (Hnr l1 H1).
    + by destruct (Hnr l2 H2).
  - intros l' Hl'. rewrite (Zsum_ext _ (size_at st)) by done.
    destruct (decide (l' = l)) as [->|Hne].
    + rewrite Hql, AddOrder_limit_eq, Zsum_app by done. simpl.
      rewrite (inv_volume _ HI l Hl). lia.
    + rewrite Hq, AddOrder_limit_ne by done. by apply HI.
  - intros l' Hl' i j a b Hi Hj Hab. rewrite !Hts. intros Hlt.
    destruct (decide (l' = l)) as [->|Hne].
    + rewrite Hql in Hi, Hj.
      apply lookup_app_Some in Hi as [Hi|[Hi1 Hi2]];
        apply lookup_app_Some in Hj as [Hj|[Hj1 Hj2]].
      * by apply (inv_arrival _ HI l Hl i j a b).
      * apply lookup_lt_Some in Hi. lia.
      * apply list_lookup_singleton_Some in Hi2 as [_ <-].
        apply list_elem_of_lookup_2 in Hj. specialize (Hnew l b Hl Hj). lia.
      * apply list_lookup_singleton_Some in Hi2 as [_ <-].
        apply list_lookup_singleton_Some in Hj2 as [_ <-]. lia.
    + rewrite Hq in Hi, Hj by done. by apply (inv_arrival _ HI l' Hl' i j a b).
Qed.

Lemma inv_other_nodup pl st : Inv st → NoDup (other_side pl (book st)).
Proof. intros [? ? ?]. unfold other_side. by destruct (String.eqb pl BID_ORDER). Qed.

Lemma inv_other_map pl st p l :
  Inv st →
  other_map pl (book st) !! p = Some l
  ↔ l ∈ other_side pl (book st) ∧ Price (limit_at st l) = p.
Proof.
  intros HI. unfold other_map, other_side. destruct (String.eqb pl BID_ORDER).
  - apply inv_ask_map; done.
  - apply inv_bid_map; done.
Qed.

Lemma inv_side_other pl st l :
  Inv st → l ∈ side_of pl (book st) → l ∈ other_side pl (book st) → False.
Proof.
  intros HI. unfold side_of, other_side. destruct (String.eqb pl BID_ORDER);
    intros H1 H2; by apply (inv_sides_disjoint _ HI l).
Qed.

(** The invariant, stated for one side and the other. *)
Lemma Inv_sides pl st :
  NoDup (side_of pl (book st)) →
  NoDup (other_side pl (book st)) →
  (∀ l, l ∈ side_of pl (book st) → l ∈ other_side pl (book st) → False) →
  (∀ l, in_book st l → l < length (limits st)) →
  (∀ p l, map_of pl (book st) !! p = Some l
          ↔ l ∈ side_of pl (book st) ∧ Price (limit_at st l) = p) →
  (∀ p l, other_map pl (book st) !! p = Some l
          ↔ l ∈ other_side pl (book st) ∧ Price (limit_at st l) = p) →
  (∀ l, in_book st l → NoDup (queue st l)) →
  (∀ l o, in_book st l → o ∈ queue st l → o < length (orders st)) →
  (∀ l1 l2 o, in_book st l1 → in_book st l2 →
     o ∈ queue st l1 → o ∈ queue st l2 → l1 = l2) →
  (∀ l, in_book st l → TotalVolume (limit_at st l) = Zsum (size_at st) (queue st l)) →
  (∀ l, in_book st l → arrival_ordered st (queue st l)) →
  Inv st.
Proof.
  unfold side_of, other_side, map_of, other_map.
  destruct (String.eqb pl BID_ORDER); intros; split; eauto.
Qed.

Lemma PlaceLimitOrder_unfold price order st :
  PlaceLimitOrder price order st
  = let placement := OrderPlacement (order_at st order) in
    if negb (String.eqb placement BID_ORDER || String.eqb placement ASK_ORDER)
    then (Some ErrInvalidPlacement, st)
    else
      let '(limit, st1) := limitFor placement price st in
      let st2 := AddOrder limit order st1 in
      (None, set_index (<[ID (order_at st2 order) :=
                           mkOrderMetadata order (Market (book st2))]> (OrderIndex st2)) st2).
Proof. done. Qed.

Lemma limitFor_spec pl price st :
  Inv st →
  match limitFor pl price st with
  | (limit, st1) => limitFor_post pl price st limit st1
  end.
Proof.
  intros HI. unfold limitFor.
  destruct (map_of pl (book st) !! price) as [limit|] eqn:Hm.
  - apply (inv_map pl st price limit HI) in Hm as [Hl Hp].
    split; try done. intros l Hl'. by left.
  - unfold NewLimit. simpl.
    set (limit := length (limits st)).
    set (st1 := set_book _ _).
    assert (side_of pl (book st1) = side_of pl (book st) ++ [limit]) as Hs1
      by (unfold st1; simpl; by rewrite side_of_set_map, side_of_set_side).
    assert (map_of pl (book st1) = <[price := limit]> (map_of pl (book st))) as Hm1
      by (unfold st1; simpl; by rewrite map_of_set_map, map_of_set_side).
    assert (other_side pl (book st1) = other_side pl (book st)) as Hos1
      by (unfold st1; simpl; by rewrite other_side_set_map, other_side_set_side).
    assert (other_map pl (book st1) = other_map pl (book st)) as Hom1
      by (unfold st1; simpl; by rewrite other_map_set_map, other_map_set_side).
    assert (∀ l, l < length (limits st) → limit_at st1 l = limit_at st l) as Hold
      by (intros l Hl; unfold limit_at, st1; simpl; by rewrite lookup_app_l).
    assert (limit_at st1 limit = mkLimit price [] 0) as Hnew.
    { unfold limit_at, st1, limit; simpl.
      by rewrite lookup_app_r, Nat.sub_diag by lia. }
    assert (∀ l, in_book st l → l ≠ limit) as Hfresh.
    { intros l Hl ->. apply (inv_limit_alloc _ HI) in Hl. unfold limit in Hl. lia. }
    assert (∀ l, in_book st1 l ↔ in_book st l ∨ l = limit) as Hin.
    { intros l. rewrite !(in_book_sides pl), Hs1, Hos1, elem_of_app,
        list_elem_of_singleton. tauto. }
    assert (∀ l, in_book st l → limit_at st1 l = limit_at st l) as Hold'
      by (intros l Hl; apply Hold; by apply HI).
    assert (∀ l, in_book st l → queue st1 l = queue st l) as Hq
      by (intros l Hl; unfold queue; by rewrite Hold').
    assert (queue st1 limit = []) as Hqn by (unfold queue; by rewrite Hnew).
    split; try done.
    + apply (Inv_sides pl).
      * rewrite Hs1. apply NoDup_app. repeat split.
        -- by apply inv_side_nodup.
        -- intros l Hl ->%list_elem_of_singleton.
           by apply (Hfresh limit); [eapply side_of_in_book|].
        -- apply NoDup_singleton.
      * rewrite Hos1. by apply inv_other_nodup.
      * rewrite Hs1, Hos1. intros l [Hl| ->%list_elem_of_singleton]%elem_of_app Ho.
        -- by apply (inv_side_other pl st l).
        -- apply (Hfresh limit); [|done]. apply (in_book_sides pl). by right.
      * intros l [Hl| ->]%Hin; unfold st1; simpl; rewrite length_app; simpl.
        -- apply (inv_limit_alloc _ HI) in Hl. lia.
        -- unfold limit. lia.
      * intros p l. rewrite Hm1, Hs1, elem_of_app, list_elem_of_singleton.
        destruct (decide (price = p)) as [<-|Hne].
        -- rewrite lookup_insert_eq. split.
           ++ intros [= <-]. split; [by right | by rewrite Hnew].
           ++ intros [[Hl| ->] Hp]; [|done]. exfalso.
              rewrite Hold' in Hp by (by eapply side_of_in_book).
              assert (map_of pl (book st) !! price = Some l) as H
                by (by apply inv_map).
              congruence.
        -- rewrite lookup_insert_ne by done. rewrite (inv_map pl st p l HI). split.
           ++ intros [Hl Hp]. rewrite Hold' by (by eapply side_of_in_book). auto.
           ++ intros [[Hl| ->] Hp].
              ** rewrite Hold' in Hp by (by eapply side_of_in_book). auto.
              ** rewrite Hnew in Hp. done.
      * intros p l. rewrite Hom1, Hos1, (inv_other_map pl st p l HI).
        split; intros [Hl Hp]; (split; [done|]);
          [rewrite Hold' | rewrite <- Hold']; try done;
          apply (in_book_sides pl); by right.
      * intros l [Hl| ->]%Hin; [|rewrite Hqn; constructor].
        rewrite Hq by done. by apply HI.
      * intros l o [Hl| ->]%Hin; [|rewrite Hqn; by intros ?%elem_of_nil].
        rewrite Hq by done. by apply HI.
      * intros l1 l2 o [H1| ->]%Hin [H2| ->]%Hin;
          rewrite ?Hqn, ?Hq by done; try (by intros ?%elem_of_nil);
          try (by intros _ ?%elem_of_nil).
        by apply HI.
      * intros l [Hl| ->]%Hin.
        -- rewrite Hold', Hq by done. by apply HI.
        -- by rewrite Hqn, Hnew.
      * intros l [Hl| ->]%Hin.
        -- rewrite Hq by done. by apply (inv_arrival _ HI).
        -- rewrite Hqn. intros i j a b Hi. by rewrite lookup_nil in Hi.
    + rewrite Hs1, elem_of_app, list_elem_of_singleton. by right.
    + by rewrite Hnew.
    + unfold st1; simpl. by rewrite Market_set_map, Market_set_side.
    + intros l [Hl| ->]%Hin; [by left | by right].
    + intros l Hl. rewrite Hs1, elem_of_app. by left.
Qed.

Lemma Inv_set_index ix st : Inv st → Inv (set_index ix st).
Proof. intros []. by split. Qed.

Lemma valid_placement_cases pl :
  negb (String.eqb pl BID_ORDER || String.eqb pl ASK_ORDER) = false ↔
  pl = BID_ORDER ∨ pl = ASK_ORDER.
Proof.
  rewrite negb_false_iff, orb_true_iff. by rewrite !String.eqb_eq.
Qed.

Lemma PlaceLimitOrder_Inv price order st :
  Inv st → order < length (orders st) → newest st order →
  Inv (snd (PlaceLimitOrder price order st)).
Proof.
  intros HI Ho Hnew. rewrite PlaceLimitOrder_unfold. simpl.
  destruct (negb _); [done|].
  pose proof (limitFor_spec (OrderPlacement (order_at st order)) price st HI) as HL.
  destruct (limitFor _ price st) as [limit st1].
  destruct HL as [? ? ? ? ? ? ? ? ? ? ?]. simpl.
  apply Inv_set_index, AddOrder_Inv; try done.
  - by eapply side_of_in_book.
  - by rewrite lf_orders0.
  - intros l o [Hl|[-> Hq]]%lf_in_book0.
    + unfold queue. rewrite lf_old0 by (by apply HI). by apply Hnew.
    + rewrite Hq. by intros ?%elem_of_nil.
Qed.

(** ** [CancelOrderByID] *)

Lemma findOrder_Some st orderId os o :
  findOrder st orderId os = Some o → o ∈ os ∧ ID (order_at st o) = orderId.
Proof.
  induction os as [|x os IH]; simpl; [done|].
  destruct (Z.eqb_spec (ID (order_at st x)) orderId).
  - intros [= <-]. split; [left | done].
  - intros [? ?]%IH. split; [by right | done].
Qed.

Lemma findOrder_None st orderId os :
  findOrder st orderId os = None ↔ ∀ o, o ∈ os → ID (order_at st o) ≠ orderId.
Proof.
  induction os as [|x os IH]; simpl.
  - split; [by intros _ o ?%elem_of_nil | done].
  - destruct (Z.eqb_spec (ID (order_at st x)) orderId) as [Heq|Hne].
    + split; [done|]. intros H. exfalso. apply (H x); [left | done].
    + rewrite IH. split.
      * intros H o [->|Ho]%elem_of_cons; auto.
      * intros H o Ho. apply H. by right.
Qed.

Lemma findLimitOrder_Some st orderId ls limit order :
  findLimitOrder st orderId ls = Some (limit, order) →
  limit ∈ ls ∧ order ∈ queue st limit ∧ ID (order_at st order) = orderId.
Proof.
  induction ls as [|x ls IH]; simpl; [done|].
  destruct (findOrder st orderId (Orders (limit_at st x))) as [o|] eqn:Hf.
  - intros [= <- <-]. apply findOrder_Some in Hf as [? ?].
    split; [left | done].
  - intros (? & ? & ?)%IH. split; [by right | done].
Qed.

Lemma findLimitOrder_None st orderId ls :
  findLimitOrder st orderId ls = None ↔
  ∀ limit order, limit ∈ ls → order ∈ queue st limit →
    ID (order_at st order) ≠ orderId.
Proof.
  induction ls as [|x ls IH]; simpl.
  - split; [by intros _ l o ?%elem_of_nil | done].
  - destruct (findOrder st orderId (Orders (limit_at st x))) as [o|] eqn:Hf.
    + split; [done|]. intros H. exfalso.
      apply findOrder_Some in Hf as [Ho Hid]. apply (H x o); [left | done | done].
    + rewrite IH. rewrite findOrder_None in Hf. split.
      * intros H l o [->|Hl]%elem_of_cons Ho; [by apply Hf | by apply (H l)].
      * intros H l o Hl. apply H. by right.
Qed.

Lemma CancelOrderByID_Inv orderId pl st :
  Inv st → Inv (snd (CancelOrderByID orderId pl st)).
Proof.
  intros HI. unfold CancelOrderByID.
  destruct (findLimitOrder st orderId (side_of pl (book st)))
    as [[limit order]|] eqn:Hf; [|done].
  apply findLimitOrder_Some in Hf as (Hl & Ho & _). simpl.
  assert (in_book st limit) as Hlb by (by eapply side_of_in_book).
  pose proof (DeleteOrder_Inv limit order st HI Hlb Ho) as HI1.
  set (st2 := set_index _ _).
  assert (Inv st2) as HI2 by (by apply Inv_set_index).
  destruct (_ =? _)%Z; [|done].
  apply (deleteLimit_spec pl limit st2 HI2).
  change (limit ∈ side_of pl (book (DeleteOrder limit order st))).
  by rewrite DeleteOrder_book.
Qed.

(** ** Reachable states *)

Lemma init_Inv market : Inv (init market).
Proof.
  split; simpl; try done; try (by intros ? [?%elem_of_nil|?%elem_of_nil]);
    try (by intros ? ? [?%elem_of_nil|?%elem_of_nil]);
    try (by intros ? ? ? [?%elem_of_nil|?%elem_of_nil]);
    try apply NoDup_nil_2.
  - intros l ?%elem_of_nil. done.
  - intros p l. rewrite lookup_empty. split; [done | by intros [?%elem_of_nil _]].
  - intros p l. rewrite lookup_empty. split; [done | by intros [?%elem_of_nil _]].
Qed.

Lemma run_op_Inv c st : Inv st → Inv (snd (run_op c st)).
Proof.
  intros HI. destruct c as [pl size price now|pl size now|orderId pl]; simpl.
  - pose proof (PlaceLimitOrder_Inv price (length (orders st))
                  (snd (NewOrder pl size now st)) (NewOrder_Inv pl size now st HI)) as H.
    unfold NewOrder in *. simpl in *.
    destruct (PlaceLimitOrder price _ _) as [[e|] st2]; simpl in *;
      (apply H; [rewrite length_app; simpl; lia|]);
      apply (NewOrder_newest pl size now st HI).
  - pose proof (NewOrder_Inv pl size now st HI) as HI1.
    pose proof (NewOrder_newest pl size now st HI) as Hnew.
    unfold NewOrder in *. simpl in *.
    set (st1 := mkState _ _ _ _ _) in *.
    assert (length (orders st) < length (orders st1)) as Ho
      by (unfold st1; simpl; rewrite length_app; simpl; lia).
    destruct (decide (Size (order_at st1 (length (orders st)))
                      ≤ opposingVolume st1 (length (orders st)))%Z) as [Hle|Hgt].
    + destruct (PlaceMarketOrder_accepts st1 _ HI1 Ho
                  (newest_not_resting _ _ Hnew) Hle) as (ms & st' & -> & Hpost).
      simpl. apply Hpost.
    + by rewrite (PlaceMarketOrder_reject_eq st1 (length (orders st))) by lia.
  - pose proof (CancelOrderByID_Inv orderId pl st HI) as H.
    by destruct (CancelOrderByID orderId pl st) as [[e|] st1].
Qed.

(** A limit is deleted as soon as its queue is empty. *)
Lemma PlaceLimitOrder_NonEmpty price order st :
  Inv st → NonEmpty st → NonEmpty (snd (PlaceLimitOrder price order st)).
Proof.
  intros HI HN. rewrite PlaceLimitOrder_unfold. simpl.
  destruct (negb _); [done|].
  pose proof (limitFor_spec (OrderPlacement (order_at st order)) price st HI) as HL.
  destruct (limitFor _ price st) as [limit st1].
  destruct HL as [? ? ? ? ? ? ? ? ? ? ?]. simpl.
  assert (limit < length (limits st1)) as Hla
    by (apply (inv_limit_alloc _ lf_inv0); by eapply side_of_in_book).
  intros l Hl. change (in_book st1 l) in Hl.
  change (queue (set_index ?ix ?s) l) with (queue s l).
  destruct (decide (l = limit)) as [->|Hne].
  - unfold queue. rewrite AddOrder_limit_eq by done. simpl.
    intros Hnil. by apply app_nil in Hnil as [_ ?].
  - unfold queue. rewrite AddOrder_limit_ne by done.
    destruct (lf_in_book0 l Hl) as [Hl0|[? _]]; [|done].
    rewrite lf_old0 by (by apply HI). by apply HN.
Qed.

Lemma CancelOrderByID_NonEmpty orderId pl st :
  Inv st → NonEmpty st → NonEmpty (snd (CancelOrderByID orderId pl st)).
Proof.
  intros HI HN. unfold CancelOrderByID.
  destruct (findLimitOrder st orderId (side_of pl (book st)))
    as [[limit order]|] eqn:Hf; [|done].
  apply findLimitOrder_Some in Hf as (Hl & Ho & _). simpl.
  assert (in_book st limit) as Hlb by (by eapply side_of_in_book).
  pose proof (DeleteOrder_Inv limit order st HI Hlb Ho) as HI1.
  set (st1 := DeleteOrder limit order st) in *.
  set (st2 := set_index _ st1).
  assert (Inv st2) as HI2 by (by apply Inv_set_index).
  assert (book st2 = book st) as Hb2 by apply DeleteOrder_book.
  assert (∀ l, l ≠ limit → queue st2 l = queue st l) as Hq2.
  { intros l Hne. unfold queue. change (limit_at st2 l) with (limit_at st1 l).
    unfold st1. by rewrite DeleteOrder_limit_ne. }
  change (TotalVolume (limit_at st2 limit)) with (TotalVolume (limit_at st1 limit)).
  destruct (Z.eqb_spec (TotalVolume (limit_at st1 limit)) 0) as [Hv0|Hvne].
  - pose proof (deleteLimit_spec pl limit st2 HI2) as HD.
    rewrite Hb2 in HD. specialize (HD Hl).
    destruct HD as [? ? ? ? ? ? ? _ _ ?].
    set (st3 := deleteLimit pl limit st2) in *.
    pose proof (inv_side_nodup pl st2 HI2) as Hnd. rewrite <- lp_side_perm0 in Hnd.
    apply NoDup_cons in Hnd as [Hnotin _].
    rewrite Hb2 in lp_side_perm0.
    intros l Hl3.
    assert (l ≠ limit ∧ in_book st l) as [Hne Hl0].
    { apply (in_book_sides pl) in Hl3 as [Hl3|Hl3].
      - split; [by intros ->|]. apply (in_book_sides pl). left.
        rewrite <- lp_side_perm0. by right.
      - rewrite lp_other_side0, Hb2 in Hl3. split.
        + intros ->. by apply (inv_side_other pl st limit).
        + apply (in_book_sides pl). by right. }
    unfold queue, limit_at. rewrite lp_limits0.
    fold (limit_at st2 l). fold (queue st2 l). rewrite Hq2 by done. by apply HN.
  - intros l Hl2. unfold in_book in Hl2. rewrite Hb2 in Hl2.
    destruct (decide (l = limit)) as [->|Hne].
    + intros Hnil. apply Hvne.
      rewrite (inv_volume _ HI1 limit) by (unfold in_book, st1; by rewrite DeleteOrder_book).
      change (queue st2 limit) with (queue st1 limit) in Hnil. by rewrite Hnil.
    + rewrite Hq2 by done. by apply HN.
Qed.

Lemma PlaceMarketOrder_NonEmpty order st :
  Inv st → order < length (orders st) → not_resting st order →
  NonEmpty st → NonEmpty (snd (PlaceMarketOrder order st)).
Proof.
  intros HI Ho Hnr HN.
  destruct (decide (Size (order_at st order) ≤ opposingVolume st order)%Z)
    as [Hle|Hgt].
  - destruct (PlaceMarketOrder_accepts st order HI Ho Hnr Hle)
      as (ms & st' & -> & Hpost).
    destruct Hpost as [? ? ? ? ? ? ? ? ? ? ? ? ? ?]. simpl.
    set (pl := opposite st order) in *.
    intros l [Hl|Hl]%(in_book_sides pl).
    + apply lo_nonempty0; [|done]. intros l' Hl'. apply HN. by eapply side_of_in_book.
    + rewrite lo_other_side0 in Hl. unfold queue. rewrite lo_frame0.
      * apply HN, (in_book_sides pl). by right.
      * intros Hl'. by apply (inv_side_other pl st l).
  - by rewrite (PlaceMarketOrder_reject_eq st order) by lia.
Qed.

Lemma run_op_NonEmpty c st : Inv st → NonEmpty st → NonEmpty (snd (run_op c st)).
Proof.
  intros HI HN.
  assert (∀ pl size now, NonEmpty (snd (NewOrder pl size now st))) as HN1
    by (intros pl size now l Hl; by apply (HN l)).
  destruct c as [pl size price now|pl size now|orderId pl]; simpl.
  - pose proof (PlaceLimitOrder_NonEmpty price (length (orders st))
                  (snd (NewOrder pl size now st)) (NewOrder_Inv pl size now st HI)
                  (HN1 pl size now)) as H.
    unfold NewOrder in *. simpl in *.
    by destruct (PlaceLimitOrder price _ _) as [[e|] st2].
  - pose proof (PlaceMarketOrder_NonEmpty (length (orders st))
                  (snd (NewOrder pl size now st)) (NewOrder_Inv pl size now st HI)) as H.
    unfold NewOrder in *. simpl in *.
    destruct (PlaceMarketOrder _ _) as [[ms|e] st2]; simpl in *;
      (apply H; [rewrite length_app; simpl; lia | | apply (HN1 pl size now)]);
      apply newest_not_resting, (NewOrder_newest pl size now st HI).
  - pose proof (CancelOrderByID_NonEmpty orderId pl st HI HN) as H.
    by destruct (CancelOrderByID orderId pl st) as [[e|] st1].
Qed.

Lemma run_ops_Inv cs st : Inv st → Inv (run_ops cs st).
Proof.
  revert st. induction cs as [|c cs IH]; intros st HI; [done|].
  simpl. apply IH. by apply run_op_Inv.
Qed.

Lemma reachable_Inv st : reachable st → Inv st.
Proof. intros (market & cs & ->). apply run_ops_Inv, init_Inv. Qed.

Lemma run_ops_NonEmpty cs st : Inv st → NonEmpty st → NonEmpty (run_ops cs st).
Proof.
  revert st. induction cs as [|c cs IH]; intros st HI HN; [done|].
  simpl. apply IH; [by apply run_op_Inv | by apply run_op_NonEmpty].
Qed.

Lemma reachable_NonEmpty st : reachable st → NonEmpty st.
Proof.
  intros (market & cs & ->). apply run_ops_NonEmpty; [apply init_Inv|].
  by intros l [?%elem_of_nil|?%elem_of_nil].
Qed.

(** ** The tests of the package, replayed on the model *)

(** [TestPlaceLimitOrder]: two bids at two prices make two bid limits. *)
Example test_PlaceLimitOrder :
  length (fst (Bids (run_ops [OpLimit BID_ORDER 10 10000 1;
                              OpLimit BID_ORDER 2000 18000 2] (init "ETH")))) = 2.
Proof. reflexivity. Qed.

(** "Should return error if not enough volume": asks 200.00, bids 500.00. *)
Example test_not_enough_ask_volume :
  fst (run_op (OpMarket BID_ORDER 500 3)
         (run_ops [OpLimit ASK_ORDER 100 10000 1; OpLimit ASK_ORDER 100 12000 2]
                  (init "ETH")))
  = Failed (ErrNotEnoughAskVolume 200 500).
Proof. reflexivity. Qed.

(** "Should return error if not enough volume (ask)": asks 500.00, bids 200.00. *)
Example test_not_enough_bid_volume :
  fst (run_op (OpMarket ASK_ORDER 500 3)
         (run_ops [OpLimit BID_ORDER 100 10000 1; OpLimit BID_ORDER 100 12000 2]
                  (init "ETH")))
  = Failed (ErrNotEnoughBidVolume 500 200).
Proof. reflexivity. Qed.

(** "Should return matches if volume is enough (ask)": three matches, with the
    first, second and fourth bid; bid volume 16; the fourth bid left with 1;
    two bid limits. *)
Example test_matches_ask :
  let r := run_op (OpMarket ASK_ORDER 500 5)
             (run_ops [OpLimit BID_ORDER 100 13000 1; OpLimit BID_ORDER 350 12000 2;
                       OpLimit BID_ORDER 15 10000 3; OpLimit BID_ORDER 51 12000 4]
                      (init "ETH")) in
  map (λ mt, (Ask mt, Bid mt)) (matches_of (fst r)) = [(4, 0); (4, 1); (4, 3)] ∧
  BidTotalVolume (snd r) = 16%Z ∧
  size_at (snd r) 3 = 1%Z ∧
  length (fst (Bids (snd r))) = 2.
Proof. vm_compute. repeat split. Qed.

(** * The claims *)

(** ** C1: a market order larger than the opposing volume *)

(** C1: a market order whose size strictly exceeds the total volume of the
    opposing side is rejected with a not-enough-volume error, no match list is
    returned, and the whole machine state (both sides, both price maps, every
    limit, every order and the index) is the state before the call. *)
Theorem PlaceMarketOrder_rejects (st : State) (order : nat) :
  (Size (order_at st order) > opposingVolume st order)%Z →
  ∃ e, PlaceMarketOrder order st = (inr e, st) ∧ insufficientLiquidity e.
Proof.
  intros Hgt. exists (rejection st order).
  split; [by apply PlaceMarketOrder_reject_eq|].
  unfold rejection. by destruct (String.eqb _ _).
Qed.

Lemma PlaceMarketOrder_rejects_witness :
  (Size (order_at twoAsks 2) > opposingVolume twoAsks 2)%Z ∧
  ∃ e, PlaceMarketOrder 2 twoAsks = (inr e, twoAsks) ∧ insufficientLiquidity e.
Proof.
  split; [vm_compute; reflexivity|].
  apply (PlaceMarketOrder_rejects twoAsks 2). vm_compute. reflexivity.
Defined.

(** ** C2: scenario A *)

(** C2 as the spec has it fails: the third match does not fill 1 unit. *)
Lemma scenarioA_third_match_is_not_1 :
  map SizeFilled
      (matches_of (fst (run_op (OpMarket BID_ORDER 500 5)
                          (run_ops (scenarioA 1 2 3 4) (init "ETH")))))
  ≠ [100; 350; 1]%Z.
Proof. vm_compute. discriminate. Qed.

(** C2, amended: after asks of 100 at 10000, 350 at 12000, 15 at 13000 and 51
    at 12000, whatever their timestamps, a market bid of 500 returns exactly
    three matches, in this order: 100 at 10000 against the first order, 350 at
    12000 against the second, and 50 at 12000 against the fourth; the fourth
    order is left with residual size 1, the ask volume is 16, and two ask
    limits remain, 12000 with volume 1 and 13000 with volume 15. *)
Theorem scenarioA_market_bid (t1 t2 t3 t4 t5 : Z) :
  let r := run_op (OpMarket BID_ORDER 500 t5)
             (run_ops (scenarioA t1 t2 t3 t4) (init "ETH")) in
  fst r = Matched [ mkMatch 0 4 100 10000; mkMatch 1 4 350 12000;
                    mkMatch 3 4 50 12000 ] ∧
  size_at (snd r) 3 = 1%Z ∧
  AskTotalVolume (snd r) = 16%Z ∧
  askLevels (snd r) = [(12000, 1); (13000, 15)]%Z.
Proof. vm_compute. repeat split. Qed.

(** ** C3: a filled order stays in the index *)

(** C3 (the code misses it): after an ask of 100 (id 1) is fully filled by a
    market bid of 100, no limit is left on either side, the order has residual
    size 0, and [OrderIndex] still maps id 1 to it; cancelling the same order
    instead removes the entry. *)
Theorem filled_order_stays_in_index :
  asks (book filledAsk) = [] ∧ bids (book filledAsk) = [] ∧
  size_at filledAsk 0 = 0%Z ∧
  OrderIndex filledAsk !! 1%Z = Some (mkOrderMetadata 0 "ETH") ∧
  OrderIndex (run_ops [OpLimit ASK_ORDER 100 10000 1; OpCancel 1 ASK_ORDER]
                      (init "ETH")) !! 1%Z = None.
Proof. vm_compute. repeat split. Qed.

(** ** C4: the volume invariant *)

(** In exact arithmetic the invariant is the field [inv_volume] of [Inv],
    which every reachable state satisfies ([reachable_Inv]).  C4 is settled
    on binary64 sizes, see [volume_invariant_whole_sizes]. *)

(** ** C5: first in, first out within a limit *)

(** Within one call of [Limit.Fill], on any state that satisfies [Inv]: the
    matches are made with the orders of the queue, front to back, one match
    per order reached; an order is reached only when every order in front of
    it is exhausted, and changes size only if it is reached. *)
Lemma Fill_in_queue_order (st : State) (l order a b ia ib : nat) :
  Inv st → in_book st l →
  order < length (orders st) → not_resting st order →
  queue st l !! ia = Some a → queue st l !! ib = Some b → ia < ib →
  match Fill l order st with
  | (matches, st') =>
    map (resting_of st order) matches = take (length matches) (queue st l) ∧
    (ib < length matches → size_at st' a = 0%Z) ∧
    (size_at st' b ≠ size_at st b → ib < length matches)
  end.
Proof.
  intros HI Hl Ho Hnr Hia Hib Hlt.
  pose proof (Fill_spec l order st HI Hl Ho Hnr) as HF.
  destruct (Fill l order st) as [ms st'].
  destruct HF as [? ? ? ? ? ? ? ? ? ? ? ? ? ? ? ? ? ?].
  repeat split; try done.
  - intros Hreached.
    destruct (fp_visited0 ia a Hia ltac:(lia)) as [_ [?|[? _]]]; [done | lia].
  - intros Hchanged. destruct (decide (ib < length ms)) as [|Hge]; [done|].
    exfalso. apply Hchanged. apply (fp_unvisited0 ib b Hib). lia.
Qed.



(** ** C6: [DeleteOrder] with an order that is not in the queue *)

Lemma DeleteOrder_absent l o st :
  l < length (limits st) → o ∉ queue st l →
  queue (DeleteOrder l o st) l = sortBy (Orders_Less st) (queue st l) ∧
  TotalVolume (limit_at (DeleteOrder l o st) l)
  = (TotalVolume (limit_at st l) - size_at st o)%Z.
Proof.
  intros Hl Ho. unfold queue at 1. rewrite DeleteOrder_limit_eq by done. simpl.
  unfold without. apply find_index_None in Ho. by rewrite Ho.
Qed.

(** C6 (the code misses it): [DeleteOrder] called on a limit with an order
    that is not in its queue leaves the queue as it is but still subtracts the
    size of that order from [TotalVolume]: here 8 becomes -5. *)
Theorem DeleteOrder_absent_subtracts_volume :
  (2 ∉ queue limitOfTwo 0) ∧
  queue (DeleteOrder 0 2 limitOfTwo) 0 = queue limitOfTwo 0 ∧
  TotalVolume (limit_at limitOfTwo 0) = 8%Z ∧
  TotalVolume (limit_at (DeleteOrder 0 2 limitOfTwo) 0) = (-5)%Z.
Proof.
  split; [|vm_compute; repeat split].
  rewrite list_elem_of_In. vm_compute. intros [H|[H|[]]]; discriminate.
Qed.

(** ** C7: cancelling an id that is not resting on the side *)

(** C7: when no limit of the declared side holds an order with the given id,
    [CancelOrderByID] returns [ErrNotFound] and the state it was given: both
    sides, both price maps, every limit, every order and [OrderIndex]. *)
Theorem CancelOrderByID_not_found (st : State) (orderId : Z) (placement : string) :
  (∀ limit order,
     limit ∈ side_of placement (book st) → order ∈ queue st limit →
     ID (order_at st order) ≠ orderId) →
  CancelOrderByID orderId placement st = (Some ErrNotFound, st).
Proof.
  intros Hno%findLimitOrder_None. unfold CancelOrderByID. by rewrite Hno.
Qed.

Lemma CancelOrderByID_not_found_witness :
  CancelOrderByID 99 ASK_ORDER restingA = (Some ErrNotFound, restingA).
Proof.
  apply (CancelOrderByID_not_found restingA 99 ASK_ORDER).
  apply findLimitOrder_None. vm_compute. reflexivity.
Defined.

(** ** C8: one limit per price, and the price maps *)

(** C8: between any two public operations on a book that started empty, on
    each side no two limits have the same price, and the price map of the side
    and its slice of limits describe the same limits. *)
Theorem price_uniqueness (st : State) :
  reachable st →
  price_indexed st (asks (book st)) (AskLimits (book st)) ∧
  price_indexed st (bids (book st)) (BidLimits (book st)).
Proof.
  intros HI%reachable_Inv.
  assert (∀ side m, NoDup side →
            (∀ p l, m !! p = Some l ↔ l ∈ side ∧ Price (limit_at st l) = p) →
            price_indexed st side m) as H.
  { intros side m Hnd Hm. split; [done|]. split; [|split].
    - intros l1 l2 H1 H2 Hp.
      assert (m !! Price (limit_at st l1) = Some l1) as E1 by (by apply Hm).
      assert (m !! Price (limit_at st l1) = Some l2) as E2 by (by apply Hm).
      congruence.
    - intros p l Hpl. by apply Hm.
    - intros l Hl. by apply Hm. }
  split; apply H; apply HI.
Qed.

Lemma price_uniqueness_witness :
  price_indexed restingA (asks (book restingA)) (AskLimits (book restingA)) ∧
  price_indexed restingA (bids (book restingA)) (BidLimits (book restingA)).
Proof.
  apply (price_uniqueness restingA).
  exists "ETH", (scenarioA 1 2 3 4). reflexivity.
Defined.

(** ** C9: [PlaceLimitOrder] leaves the opposing side alone *)

Lemma AskTotalVolume_sideVolume st : AskTotalVolume st = sideVolume ASK_ORDER st.
Proof. unfold AskTotalVolume. by rewrite sumVolume_Zsum. Qed.

Lemma BidTotalVolume_sideVolume st : BidTotalVolume st = sideVolume BID_ORDER st.
Proof. unfold BidTotalVolume. by rewrite sumVolume_Zsum. Qed.

Lemma PlaceLimitOrder_frame price order st :
  Inv st →
  let pl := OrderPlacement (order_at st order) in
  pl = BID_ORDER ∨ pl = ASK_ORDER →
  ∃ st', PlaceLimitOrder price order st = (None, st') ∧
    other_side pl (book st') = other_side pl (book st) ∧
    other_map pl (book st') = other_map pl (book st) ∧
    (∀ l, l ∈ other_side pl (book st) → limit_at st' l = limit_at st l) ∧
    (∀ o, size_at st' o = size_at st o).
Proof.
  intros HI pl Hpl%valid_placement_cases. rewrite PlaceLimitOrder_unfold. simpl.
  fold pl. rewrite Hpl.
  pose proof (limitFor_spec pl price st HI) as HL.
  destruct (limitFor pl price st) as [limit st1].
  destruct HL as [? ? ? ? ? ? ? ? ? ? ?].
  eexists. split; [reflexivity|]. simpl. repeat split; try done.
  - intros l Hl.
    change (limit_at (set_index ?ix ?s) l) with (limit_at s l).
    rewrite AddOrder_limit_ne.
    + apply lf_old0. apply (inv_limit_alloc _ HI), (in_book_sides pl). by right.
    + intros ->. apply (inv_side_other pl st1 limit lf_inv0 lf_limit0).
      by rewrite lf_other_side0.
  - intros o. change (size_at (set_index ?ix ?s) o) with (size_at s o).
    unfold size_at. rewrite (AddOrder_order_field Size) by done.
    unfold order_at. by rewrite lf_orders0.
Qed.

(** C9: on a book that satisfies [Inv] (every reachable one does), placing a
    limit order with a recognized side succeeds, returns nothing but [nil],
    changes the residual size of no order, and leaves the opposing side as it
    was: for a bid the slice of asks, the map [AskLimits], every ask limit and
    [AskTotalVolume]; for an ask the same of the bid side.  The price plays no
    part, so a bid at or above the best ask rests as well. *)
Theorem PlaceLimitOrder_never_matches (st : State) (price : Z) (order : nat) :
  Inv st →
  OrderPlacement (order_at st order) = BID_ORDER ∨
  OrderPlacement (order_at st order) = ASK_ORDER →
  ∃ st', PlaceLimitOrder price order st = (None, st') ∧
    (∀ o, size_at st' o = size_at st o) ∧
    (OrderPlacement (order_at st order) = BID_ORDER →
       asks (book st') = asks (book st) ∧
       AskLimits (book st') = AskLimits (book st) ∧
       (∀ l, l ∈ asks (book st) → limit_at st' l = limit_at st l) ∧
       AskTotalVolume st' = AskTotalVolume st) ∧
    (OrderPlacement (order_at st order) = ASK_ORDER →
       bids (book st') = bids (book st) ∧
       BidLimits (book st') = BidLimits (book st) ∧
       (∀ l, l ∈ bids (book st) → limit_at st' l = limit_at st l) ∧
       BidTotalVolume st' = BidTotalVolume st).
Proof.
  intros HI Hpl.
  destruct (PlaceLimitOrder_frame price order st HI Hpl)
    as (st' & Hrun & Hside & Hmap & Hlim & Hsz).
  exists st'. split; [done|]. split; [done|].
  split; intros E; rewrite E in Hside, Hmap, Hlim;
    unfold other_side, other_map in *; simpl in *;
    (repeat split; try done);
    rewrite ?AskTotalVolume_sideVolume, ?BidTotalVolume_sideVolume;
    unfold sideVolume, side_of; simpl; rewrite Hside;
    apply Zsum_ext; intros l Hl; by rewrite Hlim.
Qed.

Lemma PlaceLimitOrder_never_matches_witness :
  ∃ st', PlaceLimitOrder 20000 4 crossingBid = (None, st') ∧
    (∀ o, size_at st' o = size_at crossingBid o) ∧
    (OrderPlacement (order_at crossingBid 4) = BID_ORDER →
       asks (book st') = asks (book crossingBid) ∧
       AskLimits (book st') = AskLimits (book crossingBid) ∧
       (∀ l, l ∈ asks (book crossingBid) → limit_at st' l = limit_at crossingBid l) ∧
       AskTotalVolume st' = AskTotalVolume crossingBid) ∧
    (OrderPlacement (order_at crossingBid 4) = ASK_ORDER →
       bids (book st') = bids (book crossingBid) ∧
       BidLimits (book st') = BidLimits (book crossingBid) ∧
       (∀ l, l ∈ bids (book crossingBid) → limit_at st' l = limit_at crossingBid l) ∧
       BidTotalVolume st' = BidTotalVolume crossingBid).
Proof.
  assert (Inv restingA) as HI0
    by (apply reachable_Inv; exists "ETH", (scenarioA 1 2 3 4); reflexivity).
  assert (Inv crossingBid) as HI by (by apply NewOrder_Inv).
  apply (PlaceLimitOrder_never_matches crossingBid 20000 4 HI).
  left. vm_compute. reflexivity.
Defined.

(** ** C10: a market order of exactly the opposing volume *)

Lemma Zsum_pos f l :
  l ≠ [] → (∀ x, x ∈ l → (0 < f x)%Z) → (0 < Zsum f l)%Z.
Proof.
  induction l as [|x l IH]; [done|]. intros _ Hpos. simpl.
  assert (0 < f x)%Z by (apply Hpos; left).
  destruct l as [|y l]; [simpl; lia|].
  assert (0 < Zsum f (y :: l))%Z; [|lia].
  apply IH; [done|]. intros z Hz. apply Hpos. by right.
Qed.

Lemma exact_market_order_drains (st : State) (order : nat) :
  Inv st → order < length (orders st) → not_resting st order →
  positive_side (opposite st order) st →
  Size (order_at st order) = opposingVolume st order →
  ∃ matches st',
    PlaceMarketOrder order st = (inl matches, st') ∧
    side_of (opposite st order) (book st') = [] ∧
    sideVolume (opposite st order) st' = 0%Z ∧
    size_at st' order = 0%Z.
Proof.
  intros HI Ho Hnr Hpos Heq.
  destruct (PlaceMarketOrder_accepts st order HI Ho Hnr ltac:(lia))
    as (ms & st' & Hrun & Hpost).
  destruct Hpost as [? ? ? ? ? ? ? ? ? ? ? ? ? ?].
  exists ms, st'. split; [done|].
  rewrite opposingVolume_sideVolume in Heq. fold (size_at st order) in Heq.
  set (pl := opposite st order) in *.
  assert (side_of pl (book st') = []) as Hnil.
  { destruct lo_exit0 as [Hs0|?]; [|done].
    destruct (decide (side_of pl (book st') = [])) as [|Hne]; [done|]. exfalso.
    assert (0 < sideVolume pl st')%Z; [|lia].
    apply Zsum_pos; [done|]. intros l Hl.
    destruct (lo_positive0 Hpos l Hl) as [Hq Hp].
    rewrite (inv_volume _ lo_inv0 l) by (by eapply side_of_in_book).
    by apply Zsum_pos. }
  assert (sideVolume pl st' = 0%Z) as Hv0 by (unfold sideVolume; by rewrite Hnil).
  repeat split; try done. lia.
Qed.

(** In exact arithmetic: between any two public operations on a book that
    started empty, when every order resting on the opposing side has a
    strictly positive residual size, a market order of exactly the total
    volume of the opposing side is accepted, and afterwards the opposing side
    has no limit, its total volume is zero and the residual size of the order
    is zero.  C10 is settled on binary64 sizes, see
    [exact_market_order_drains_whole_sizes]. *)
Lemma exact_market_order_drains_side
    (st : State) (placement : string) (size now : Z) :
  reachable st →
  (∀ l o, l ∈ other_side placement (book st) → o ∈ queue st l →
     (0 < size_at st o)%Z) →
  size = otherVolume placement st →
  let r := run_op (OpMarket placement size now) st in
  (∃ matches, fst r = Matched matches) ∧
  other_side placement (book (snd r)) = [] ∧
  otherVolume placement (snd r) = 0%Z ∧
  size_at (snd r) (length (orders st)) = 0%Z.
Proof.
  intros Hr Hpos Hsize r.
  pose proof (reachable_Inv st Hr) as HI.
  pose proof (reachable_NonEmpty st Hr) as HN.
  set (order := length (orders st)).
  set (st1 := snd (NewOrder placement size now st)).
  assert (Inv st1) as HI1 by (by apply NewOrder_Inv).
  assert (order < length (orders st1)) as Ho
    by (unfold st1, order; simpl; rewrite length_app; simpl; lia).
  assert (not_resting st1 order) as Hnr
    by (by apply newest_not_resting, NewOrder_newest).
  assert (order_at st1 order = mkOrder (wrap64 (orderIdSequence st + 1))
                                 placement size None now) as Hord
    by apply NewOrder_order_at_new.
  assert (∀ b, side_of (opposite st1 order) b = other_side placement b) as Hside.
  { intros b. unfold opposite, side_of, other_side. rewrite Hord. simpl.
    by destruct (String.eqb placement BID_ORDER). }
  assert (∀ s, sideVolume (opposite st1 order) s = otherVolume placement s) as Hvol.
  { intros s. unfold sideVolume, otherVolume, AskTotalVolume, BidTotalVolume.
    rewrite Hside, !sumVolume_Zsum. unfold other_side.
    by destruct (String.eqb placement BID_ORDER). }
  assert (r = match PlaceMarketOrder order st1 with
              | (inl matches, st2) => (Matched matches, st2)
              | (inr e, st2) => (Failed e, st2)
              end) as Hrun by done.
  destruct (exact_market_order_drains st1 order HI1 Ho Hnr)
    as (ms & st' & Hpm & Hnil & Hv0 & Hs0).
  - intros l. rewrite Hside. intros Hl. split.
    + apply (HN l), (in_book_sides placement). by right.
    + intros o Hoq. unfold size_at, st1. rewrite NewOrder_order_at_old.
      * by apply (Hpos l).
      * apply (inv_queue_alloc _ HI l); [|done].
        apply (in_book_sides placement). by right.
  - rewrite opposingVolume_sideVolume, Hvol, Hord. simpl. by rewrite Hsize.
  - rewrite Hpm in Hrun. rewrite Hrun. simpl.
    rewrite Hside in Hnil. rewrite Hvol in Hv0. eauto.
Qed.

(** * Further lemmas *)

Lemma kept_refl st : kept st st.
Proof. by split. Qed.

Lemma kept_trans a b c : kept a b → kept b c → kept a c.
Proof.
  intros [? ? ? ? Hi1 Hp1 Ht1 Hr1 ?] [? ? ? ? Hi2 Hp2 Ht2 Hr2 ?].
  split; try congruence. auto.
Qed.

Lemma limit_at_upd_limit_cases l f st l' :
  limit_at (upd_limit l f st) l' = limit_at st l' ∨
  (l' = l ∧ limit_at (upd_limit l f st) l' = f (limit_at st l)).
Proof.
  destruct (decide (l' = l)) as [->|Hne].
  - destruct (decide (l < length (limits st))).
    + right. split; [done|]. by apply limit_at_upd_limit_eq.
    + left. unfold limit_at, upd_limit; simpl.
      rewrite !lookup_ge_None_2; [done | lia |]. rewrite length_alter. lia.
  - left. by apply limit_at_upd_limit_ne.
Qed.

Lemma kept_upd_order o f st :
  (∀ x, ID (f x) = ID x) → (∀ x, OrderPlacement (f x) = OrderPlacement x) →
  (∀ x, Timestamp (f x) = Timestamp x) →
  kept st (upd_order o f st).
Proof.
  intros H1 H2 H3. split; try done.
  - apply length_orders_upd_order.
  - intros o'. by apply (order_at_upd_order_field ID).
  - intros o'. by apply (order_at_upd_order_field OrderPlacement).
  - intros o'. by apply (order_at_upd_order_field Timestamp).
Qed.

Lemma kept_upd_limit l f st :
  (∀ x, Price (f x) = Price x) → (∀ x o, o ∈ Orders (f x) → o ∈ Orders x) →
  kept st (upd_limit l f st).
Proof.
  intros H1 H2. split; try done.
  - apply length_limits_upd_limit.
  - intros l'. by apply (limit_at_upd_limit_field Price).
  - intros l' o. unfold queue.
    destruct (limit_at_upd_limit_cases l f st l') as [->|[-> ->]]; [done|]. apply H2.
Qed.

Lemma kept_set_book b st : Market b = Market (book st) → kept st (set_book b st).
Proof. intros H. by split. Qed.

Lemma kept_set_index ix st : kept st (set_index ix st).
Proof. by split. Qed.

Lemma kept_fillOrder l m order st : kept st (snd (fillOrder l m order st)).
Proof.
  unfold fillOrder.
  destruct (String.eqb _ _); simpl;
    (match goal with |- kept _ (upd_limit _ _ (upd_order ?b ?g (upd_order ?a ?f _))) =>
       apply (kept_trans _ (upd_order b g (upd_order a f st)));
         [apply (kept_trans _ (upd_order a f st)); by apply kept_upd_order
         |by apply kept_upd_limit]
     end).
Qed.

Lemma swap_delete_sub i s x : x ∈ swap_delete i s → x ∈ s.
Proof.
  unfold swap_delete. destruct (s !! (length s - 1)) as [z|] eqn:Hz; [|done].
  intros (j & Hj & _)%elem_of_take.
  destruct (decide (i = j)) as [->|Hne].
  - assert (j < length s) as Hlt.
    { apply lookup_lt_Some in Hj. by rewrite length_insert in Hj. }
    rewrite list_lookup_insert_eq in Hj by done. injection Hj as <-.
    by eapply list_elem_of_lookup_2.
  - rewrite list_lookup_insert_ne in Hj by done. by eapply list_elem_of_lookup_2.
Qed.

Lemma kept_DeleteOrder l o st : kept st (DeleteOrder l o st).
Proof.
  unfold DeleteOrder.
  set (st1 := match find_index o (Orders (limit_at st l)) with
              | Some i => upd_limit l (with_Orders (swap_delete i)) st
              | None => st
              end).
  assert (kept st st1) as H1.
  { unfold st1. destruct (find_index o (Orders (limit_at st l))); [|apply kept_refl].
    apply kept_upd_limit; [done|]. intros x y. apply swap_delete_sub. }
  set (st2 := upd_order o (with_OrderLimit None) st1).
  set (st3 := upd_limit l (with_TotalVolume _) st2).
  apply (kept_trans _ st3); [apply (kept_trans _ st2); [apply (kept_trans _ st1)|]|];
    [done | by apply kept_upd_order | by apply kept_upd_limit |].
  apply kept_upd_limit; [done|]. intros x y. simpl. by rewrite sortBy_perm.
Qed.

Lemma kept_deleteAll l dels st : kept st (deleteAll l dels st).
Proof.
  revert st. induction dels as [|d dels IH]; intros st; [apply kept_refl|].
  simpl. eapply kept_trans; [apply kept_DeleteOrder | apply IH].
Qed.

Lemma kept_Fill_walk l order resting st :
  kept st (snd (Fill_walk l order resting st)).
Proof.
  revert st. induction resting as [|m rest IH]; intros st; [apply kept_refl|].
  simpl. pose proof (kept_fillOrder l m order st) as H1.
  destruct (fillOrder l m order st) as [mt st1]. simpl in H1.
  destruct (IsFilled st1 order); [done|].
  specialize (IH st1). destruct (Fill_walk l order rest st1) as [[dels ms] st2].
  simpl in *. by eapply kept_trans.
Qed.

Lemma kept_Fill l order st : kept st (snd (Fill l order st)).
Proof.
  unfold Fill. pose proof (kept_Fill_walk l order (Orders (limit_at st l)) st) as H.
  destruct (Fill_walk _ _ _ _) as [[dels ms] st1]. simpl in *.
  eapply kept_trans; [exact H | apply (kept_deleteAll l dels st1)].
Qed.

Lemma kept_deleteLimitCells pl limit cells st :
  kept st (snd (deleteLimitCells pl limit cells st)).
Proof.
  unfold deleteLimitCells. destruct (sliceDelete _ _ _) as [cells' len']. simpl.
  apply kept_set_book. by rewrite Market_set_side, Market_set_map.
Qed.

Lemma kept_marketStep pl order i cells st :
  kept st (snd (marketStep pl order i cells st)).
Proof.
  unfold marketStep.
  pose proof (kept_Fill (default 0 (cells !! i)) order st) as H.
  destruct (Fill _ order st) as [lms st1]. simpl in H.
  destruct (_ =? _)%Z; [|done].
  pose proof (kept_deleteLimitCells pl (default 0 (cells !! i)) cells st1) as H2.
  destruct (deleteLimitCells _ _ _ _) as [cells1 st2]. simpl in *.
  by eapply kept_trans.
Qed.

Lemma kept_marketLoop pl order k i cells ms st :
  kept st (snd (marketLoop pl order k i cells ms st)).
Proof.
  revert i cells ms st. induction k as [|k IH]; intros i cells ms st;
    [apply kept_refl|].
  rewrite marketLoop_unfold.
  pose proof (kept_marketStep pl order i cells st) as H.
  destruct (marketStep pl order i cells st) as [[lms cells1] st2]. simpl in H.
  destruct (IsFilled st2 order); [done|].
  eapply kept_trans; [exact H | apply IH].
Qed.

Lemma kept_PlaceMarketOrder order st : kept st (snd (PlaceMarketOrder order st)).
Proof.
  unfold PlaceMarketOrder.
  destruct (String.eqb _ _).
  - destruct (_ >? _)%Z; [apply kept_refl|]. unfold Asks.
    pose proof (kept_marketLoop ASK_ORDER order
      (length (sortBy (ByBestAsk_Less st) (asks (book st)))) 0
      (sortBy (ByBestAsk_Less st) (asks (book st))) []
      (set_book (set_side ASK_ORDER (sortBy (ByBestAsk_Less st) (asks (book st)))
                   (book st)) st)) as H.
    destruct (marketLoop _ _ _ _ _ _ _) as [ms st2]. simpl in *.
    eapply kept_trans; [|exact H]. by apply kept_set_book.
  - destruct (_ >? _)%Z; [apply kept_refl|]. unfold Bids.
    pose proof (kept_marketLoop BID_ORDER order
      (length (sortBy (ByBestBid_Less st) (bids (book st)))) 0
      (sortBy (ByBestBid_Less st) (bids (book st))) []
      (set_book (set_side BID_ORDER (sortBy (ByBestBid_Less st) (bids (book st)))
                   (book st)) st)) as H.
    destruct (marketLoop _ _ _ _ _ _ _) as [ms st2]. simpl in *.
    eapply kept_trans; [|exact H]. by apply kept_set_book.
Qed.

Lemma kept_deleteLimit pl limit st : kept st (deleteLimit pl limit st).
Proof. apply kept_deleteLimitCells. Qed.

Lemma kept_CancelOrderByID orderId pl st :
  kept st (snd (CancelOrderByID orderId pl st)).
Proof.
  unfold CancelOrderByID.
  destruct (findLimitOrder _ _ _) as [[limit order]|]; [|apply kept_refl]. simpl.
  eapply kept_trans; [apply kept_DeleteOrder|].
  eapply kept_trans; [apply kept_set_index|].
  destruct (_ =? _)%Z; [apply kept_deleteLimit | apply kept_refl].
Qed.

Lemma wrap64_succ z : wrap64 (wrap64 z + 1) = wrap64 (z + 1).
Proof.
  unfold wrap64. f_equal.
  replace ((z + 2 ^ 63) mod 2 ^ 64 - 2 ^ 63 + 1 + 2 ^ 63)%Z
    with ((z + 2 ^ 63) mod 2 ^ 64 + 1)%Z by lia.
  rewrite Zplus_mod_idemp_l. f_equal. lia.
Qed.

Lemma wrap64_small z : (- 2 ^ 63 ≤ z < 2 ^ 63)%Z → wrap64 z = z.
Proof. intros H. unfold wrap64. rewrite Z.mod_small; lia. Qed.

Lemma init_Wf market : Wf (init market).
Proof.
  split; simpl; try done.
  - intros o Ho. lia.
  - intros l o ?%elem_of_nil. done.
  - intros l o ?%elem_of_nil. done.
Qed.

Lemma NewOrder_Wf pl size now st :
  Inv st → Wf st → Wf (snd (NewOrder pl size now st)).
Proof.
  intros HI [Hseq Hid Hix Hb Ha].
  assert (∀ l o, in_book st l → o ∈ queue st l →
            order_at (snd (NewOrder pl size now st)) o = order_at st o) as Hold.
  { intros l o Hl Ho. apply NewOrder_order_at_old. by eapply inv_queue_alloc. }
  split.
  - simpl. rewrite Hseq, wrap64_succ, length_app. simpl. f_equal. lia.
  - intros o Ho. simpl in Ho. rewrite length_app in Ho. simpl in Ho.
    destruct (decide (o = length (orders st))) as [->|Hne].
    + rewrite NewOrder_order_at_new. simpl. by rewrite Hseq, wrap64_succ.
    + rewrite NewOrder_order_at_old by lia. apply Hid. lia.
  - intros id md Hmd. destruct (Hix id md Hmd) as (H1 & H2 & H3).
    split; [simpl; rewrite length_app; lia|].
    by rewrite NewOrder_order_at_old.
  - intros l o Hl Ho. rewrite (Hold l) by (try done; by right). by apply (Hb l).
  - intros l o Hl Ho. rewrite (Hold l) by (try done; by left). by apply (Ha l).
Qed.

Lemma side_cases pl st l :
  l ∈ side_of pl (book st) → l ∈ other_side pl (book st) → Inv st → False.
Proof. intros H1 H2 HI. by apply (inv_side_other pl st l). Qed.

(** The sides of [Wf], by placement. *)
Lemma wf_side pl st l o :
  Wf st → pl = BID_ORDER ∨ pl = ASK_ORDER →
  l ∈ side_of pl (book st) → o ∈ queue st l →
  OrderPlacement (order_at st o) = pl.
Proof.
  intros [_ _ _ Hb Ha] [->| ->] Hl Ho; [by apply (Hb l) | by apply (Ha l)].
Qed.

Lemma Wf_sides st :
  orderIdSequence st = wrap64 (Z.of_nat (length (orders st))) →
  (∀ o, o < length (orders st) → ID (order_at st o) = wrap64 (Z.of_nat o + 1)) →
  (∀ id md, OrderIndex st !! id = Some md →
    MetaOrder md < length (orders st) ∧
    ID (order_at st (MetaOrder md)) = id ∧
    MetaMarket md = Market (book st)) →
  (∀ pl l o, pl = BID_ORDER ∨ pl = ASK_ORDER →
     l ∈ side_of pl (book st) → o ∈ queue st l →
     OrderPlacement (order_at st o) = pl) →
  Wf st.
Proof.
  intros H1 H2 H3 H4. split; try done.
  - intros l o. apply (H4 BID_ORDER). by left.
  - intros l o. apply (H4 ASK_ORDER). by right.
Qed.

(** A step that keeps the identities, shrinks the index and the resting
    relation side by side. *)
Lemma Wf_kept st st' :
  Wf st → kept st st' →
  (∀ id md, OrderIndex st' !! id = Some md → OrderIndex st !! id = Some md) →
  (∀ l, l ∈ bids (book st') → l ∈ bids (book st)) →
  (∀ l, l ∈ asks (book st') → l ∈ asks (book st)) →
  Wf st'.
Proof.
  intros [Hseq Hid Hix Hb Ha] [? ? ? ? Ki Kp Kt Kr Kq] Hsub Hbs Has. split.
  - congruence.
  - intros o Ho. rewrite Ki. apply Hid. lia.
  - intros id md Hmd%Hsub. destruct (Hix id md Hmd) as (H1 & H2 & H3).
    rewrite Ki. split; [lia|]. split; [done | congruence].
  - intros l o Hl%Hbs Ho%Kq. rewrite Kp. by apply (Hb l).
  - intros l o Hl%Has Ho%Kq. rewrite Kp. by apply (Ha l).
Qed.

Lemma sides_sub pl st st' :
  (∀ l, l ∈ side_of pl (book st') → l ∈ side_of pl (book st)) →
  other_side pl (book st') = other_side pl (book st) →
  (∀ l, l ∈ bids (book st') → l ∈ bids (book st)) ∧
  (∀ l, l ∈ asks (book st') → l ∈ asks (book st)).
Proof.
  unfold side_of, other_side. destruct (String.eqb pl BID_ORDER); intros H1 H2;
    split; try done; by rewrite H2.
Qed.

Lemma PlaceMarketOrder_Wf order st :
  Inv st → order < length (orders st) → not_resting st order →
  Wf st → Wf (snd (PlaceMarketOrder order st)).
Proof.
  intros HI Ho Hnr HW.
  pose proof (kept_PlaceMarketOrder order st) as HK.
  destruct (decide (Size (order_at st order) ≤ opposingVolume st order)%Z)
    as [Hle|Hgt].
  - destruct (PlaceMarketOrder_accepts st order HI Ho Hnr Hle)
      as (ms & st' & Heq & Hpost).
    rewrite Heq in *. simpl in *.
    destruct Hpost as [_ _ _ Hos _ Hix _ Hsub _ _ _ _ _ _].
    destruct (sides_sub (opposite st order) st st') as [Hb Ha]; [done..|].
    apply (Wf_kept st); try done. by rewrite Hix.
  - by rewrite (PlaceMarketOrder_reject_eq st order) by lia.
Qed.

Lemma CancelOrderByID_Wf orderId pl st :
  Inv st → Wf st → Wf (snd (CancelOrderByID orderId pl st)).
Proof.
  intros HI HW.
  pose proof (kept_CancelOrderByID orderId pl st) as HK.
  apply (Wf_kept st); try done; revert HK; unfold CancelOrderByID;
    destruct (findLimitOrder st orderId (side_of pl (book st)))
      as [[limit order]|] eqn:Hf; try done; simpl; intros HK;
    apply findLimitOrder_Some in Hf as (Hl & Ho & _);
    assert (in_book st limit) as Hlb by (by eapply side_of_in_book);
    pose proof (DeleteOrder_Inv limit order st HI Hlb Ho) as HI1;
    set (st1 := DeleteOrder limit order st) in *;
    set (st2 := set_index _ st1) in *;
    assert (Inv st2) as HI2 by (by apply Inv_set_index);
    assert (book st2 = book st) as Hb2 by apply DeleteOrder_book;
    pose proof (deleteLimit_spec pl limit st2 HI2) as HD;
    rewrite Hb2 in HD; specialize (HD Hl);
    destruct HD as [_ _ _ Hix3 Hos3 _ _ _ _ Hperm3]; rewrite Hb2 in *.
  - intros id md.
    assert (OrderIndex st2 !! id = Some md → OrderIndex st !! id = Some md) as H2.
    { change (OrderIndex st2) with (delete (ID (order_at st1 order)) (OrderIndex st1)).
      unfold st1 at 2. rewrite DeleteOrder_index.
      intros H. apply lookup_delete_Some in H. tauto. }
    destruct (_ =? _)%Z; [|done]. by rewrite Hix3.
  - destruct (_ =? _)%Z; [|by rewrite Hb2].
    apply (sides_sub pl st (deleteLimit pl limit st2)); [|done].
    intros l Hl'. rewrite <- Hperm3. by right.
  - destruct (_ =? _)%Z; [|by rewrite Hb2].
    apply (sides_sub pl st (deleteLimit pl limit st2)); [|done].
    intros l Hl'. rewrite <- Hperm3. by right.
Qed.

Lemma limit_at_unallocated st l : length (limits st) ≤ l → limit_at st l = nilLimit.
Proof. intros H. unfold limit_at. by rewrite lookup_ge_None_2. Qed.

Lemma PlaceLimitOrder_spec price order st :
  Inv st → order < length (orders st) → newest st order →
  OrderPlacement (order_at st order) = BID_ORDER ∨
  OrderPlacement (order_at st order) = ASK_ORDER →
  ∃ limit st', PlaceLimitOrder price order st = (None, st') ∧
    placed (OrderPlacement (order_at st order)) price order limit st st'.
Proof.
  intros HI Ho Hnew Hpl.
  pose proof (PlaceLimitOrder_Inv price order st HI Ho Hnew) as HI'.
  revert HI'. rewrite PlaceLimitOrder_unfold. simpl.
  set (pl := OrderPlacement (order_at st order)) in *.
  apply valid_placement_cases in Hpl. rewrite Hpl.
  pose proof (limitFor_spec pl price st HI) as HL.
  unfold limitFor in *.
  destruct (map_of pl (book st) !! price) as [limit|] eqn:Hm.
  - (* the price has its limit *)
    destruct HL as [HI1 Hin _ _ _ _ _ _ _ _ _]. simpl. intros HI'.
    assert (limit < length (limits st)) as Hla
      by (apply (inv_limit_alloc _ HI); by eapply side_of_in_book).
    exists limit, (set_index (<[ID (order_at (AddOrder limit order st) order) :=
                     mkOrderMetadata order (Market (book (AddOrder limit order st)))]>
                     (OrderIndex (AddOrder limit order st))) (AddOrder limit order st)).
    split; [done|]. split; rewrite ?Hm; try done.
    + by intros l [= ->].
    + simpl. rewrite insert_id; done.
    + change (limit_at (set_index ?ix ?s) limit) with (limit_at s limit).
      rewrite AddOrder_limit_eq by done. simpl.
      apply (inv_map pl st price limit HI) in Hm. tauto.
    + unfold queue. change (limit_at (set_index ?ix ?s) limit) with (limit_at s limit).
      by rewrite AddOrder_limit_eq.
    + change (limit_at (set_index ?ix ?s) limit) with (limit_at s limit).
      by rewrite AddOrder_limit_eq.
    + intros l Hne _. change (limit_at (set_index ?ix ?s) l) with (limit_at s l).
      by rewrite AddOrder_limit_ne.
    + simpl. unfold AddOrder. simpl. by rewrite length_alter.
    + intros B g Hg o. change (order_at (set_index ?ix ?s) o) with (order_at s o).
      by apply AddOrder_order_field.
    + change (order_at (set_index ?ix ?s) order) with (order_at s order).
      unfold AddOrder.
      change (order_at (upd_limit ?l ?f ?s) order) with (order_at s order).
      change (order_at (upd_limit ?l ?f ?s) order) with (order_at s order).
      by rewrite order_at_upd_order_eq.
    + simpl. f_equal. by rewrite (AddOrder_order_field ID).
  - (* a new limit *)
    unfold NewLimit in *. simpl in *.
    set (limit := length (limits st)) in *.
    set (st1 := set_book _ _) in *.
    destruct HL as [HI1 Hin Hp1 Hor1 Hix1 Hmk1 Hos1 Hom1 Hold1 _ _]. intros HI'.
    assert (limit < length (limits st1)) as Hla
      by (unfold st1; simpl; rewrite length_app; simpl; unfold limit; lia).
    assert (limit_at st1 limit = mkLimit price [] 0) as Hnl.
    { unfold limit_at, st1, limit; simpl.
      by rewrite lookup_app_r, Nat.sub_diag by lia. }
    assert (limit_at st limit = nilLimit) as Hnil
      by (apply limit_at_unallocated; unfold limit; lia).
    exists limit, (set_index (<[ID (order_at (AddOrder limit order st1) order) :=
                     mkOrderMetadata order (Market (book (AddOrder limit order st1)))]>
                     (OrderIndex (AddOrder limit order st1))) (AddOrder limit order st1)).
    split; [done|]. split; rewrite ?Hm; try done.
    + unfold st1; simpl. by rewrite side_of_set_map, side_of_set_side.
    + unfold st1; simpl. by rewrite map_of_set_map, map_of_set_side.
    + change (limit_at (set_index ?ix ?s) limit) with (limit_at s limit).
      rewrite AddOrder_limit_eq by done. simpl. by rewrite Hnl.
    + unfold queue. change (limit_at (set_index ?ix ?s) limit) with (limit_at s limit).
      rewrite AddOrder_limit_eq by done. simpl. unfold queue. by rewrite Hnl, Hnil.
    + change (limit_at (set_index ?ix ?s) limit) with (limit_at s limit).
      rewrite AddOrder_limit_eq by done. simpl. rewrite Hnl, Hnil. simpl.
      unfold size_at, order_at. by rewrite Hor1.
    + intros l Hne Hl. change (limit_at (set_index ?ix ?s) l) with (limit_at s l).
      rewrite AddOrder_limit_ne by done. by apply Hold1.
    + simpl. unfold AddOrder. simpl. by rewrite length_alter.
    + intros B g Hg o. change (order_at (set_index ?ix ?s) o) with (order_at s o).
      rewrite AddOrder_order_field by done. unfold order_at. by rewrite Hor1.
    + change (order_at (set_index ?ix ?s) order) with (order_at s order).
      unfold AddOrder.
      change (order_at (upd_limit ?l ?f ?s) order) with (order_at s order).
      change (order_at (upd_limit ?l ?f ?s) order) with (order_at s order).
      rewrite order_at_upd_order_eq; [done|]. by rewrite Hor1.
    + change (OrderIndex (set_index ?ix ?s)) with ix.
      rewrite (AddOrder_order_field ID) by done. rewrite AddOrder_book, Hmk1.
      unfold order_at. rewrite Hor1. f_equal.
Qed.

Lemma placed_side_mem pl price order limit st st' l :
  placed pl price order limit st st' →
  l ∈ side_of pl (book st') ↔ l ∈ side_of pl (book st) ∨ l = limit.
Proof.
  intros [HI' Hfound Hfresh Hside Hmap _ _ _ _ _ _ _ _ _ _ _ _].
  rewrite Hside. destruct (map_of pl (book st) !! price) as [l0|] eqn:Hm.
  - split; [by left|]. intros [?| ->]; [done|].
    assert (limit ∈ side_of pl (book st')) as Hin.
    { apply (inv_map pl st' price limit HI'). by rewrite Hmap, lookup_insert_eq. }
    by rewrite Hside in Hin.
  - by rewrite elem_of_app, list_elem_of_singleton.
Qed.

Lemma placed_limit_in pl price order limit st st' :
  placed pl price order limit st st' → limit ∈ side_of pl (book st').
Proof. intros H. apply (placed_side_mem _ _ _ _ _ _ _ H). by right. Qed.

(** The queues after [PlaceLimitOrder]: the order is new in the queue of
    [limit], and no other queue of the book has changed. *)
Lemma placed_queue pl price order limit st st' l o :
  Inv st → placed pl price order limit st st' →
  in_book st' l → o ∈ queue st' l →
  (in_book st l ∧ o ∈ queue st l) ∨ (l = limit ∧ o = order).
Proof.
  intros HI HP Hl Ho.
  pose proof (placed_side_mem _ _ _ _ _ _ l HP) as Hmem.
  destruct HP as [HI' Hfound Hfresh Hside Hmap Hos _ _ _ Hq _ Hlim _ _ _ _ _].
  destruct (decide (l = limit)) as [->|Hne].
  - rewrite Hq in Ho. apply elem_of_app in Ho as [Ho|Ho%list_elem_of_singleton];
      [|by right]. left. split; [|done].
    destruct (decide (limit < length (limits st))) as [Hlt|Hge].
    + destruct (map_of pl (book st) !! price) as [l0|] eqn:Hm.
      * rewrite <- (Hfound l0 eq_refl) in Hm.
        apply (inv_map pl st price limit HI) in Hm as [Hin _].
        by eapply side_of_in_book.
      * specialize (Hfresh eq_refl). lia.
    + unfold queue in Ho. rewrite limit_at_unallocated in Ho by lia.
      by apply elem_of_nil in Ho.
  - assert (in_book st l) as Hl0.
    { apply (in_book_sides pl) in Hl as [Hl|Hl]; apply (in_book_sides pl).
      - apply Hmem in Hl as [?|?]; [by left | done].
      - right. by rewrite <- Hos. }
    left. split; [done|]. unfold queue in *.
    rewrite Hlim in Ho; [done | done | by apply HI].
Qed.

Lemma placed_sides pl price order limit st st' l :
  placed pl price order limit st st' → in_book st l →
  (l ∈ bids (book st) → l ∈ bids (book st')) ∧
  (l ∈ asks (book st) → l ∈ asks (book st')).
Proof.
  intros HP Hl. pose proof (placed_side_mem _ _ _ _ _ _ l HP) as Hmem.
  destruct HP as [_ _ _ _ _ Hos _ _ _ _ _ _ _ _ _ _ _].
  unfold side_of, other_side in *. destruct (String.eqb pl BID_ORDER).
  - split; [intros ?; apply Hmem; by left | by rewrite Hos].
  - split; [by rewrite Hos | intros ?; apply Hmem; by left].
Qed.

Lemma PlaceLimitOrder_Wf price order st :
  Inv st → order < length (orders st) → newest st order →
  Wf st → Wf (snd (PlaceLimitOrder price order st)).
Proof.
  intros HI Ho Hnew HW.
  destruct (decide (OrderPlacement (order_at st order) = BID_ORDER ∨
                    OrderPlacement (order_at st order) = ASK_ORDER)) as [Hpl|Hpl].
  - destruct (PlaceLimitOrder_spec price order st HI Ho Hnew Hpl)
      as (limit & st' & -> & HP). simpl.
    set (pl := OrderPlacement (order_at st order)) in *.
    pose proof (λ l o, placed_queue _ _ _ _ _ _ l o HI HP) as Hq.
    pose proof (placed_limit_in _ _ _ _ _ _ HP) as Hlin.
    pose proof (λ l, placed_sides _ _ _ _ _ _ l HP) as Hsides.
    destruct HW as [Hseq Hid Hix Hb Ha].
    destruct HP as [HI' _ _ _ _ _ _ Hmk _ _ _ _ Hlen Hsq Hfield _ Hindex].
    apply Wf_sides.
    + by rewrite Hsq, Hlen.
    + intros o Hlt. rewrite (Hfield _ ID) by done. apply Hid. lia.
    + intros id md. rewrite Hindex. rewrite Hlen, Hmk.
      destruct (decide (ID (order_at st order) = id)) as [<-|Hne].
      * rewrite lookup_insert_eq. intros [= <-]. simpl.
        by rewrite (Hfield _ ID).
      * rewrite lookup_insert_ne by done. intros Hmd.
        rewrite (Hfield _ ID) by done. by apply Hix.
    + intros pl' l o Hpl' Hl Hoq.
      rewrite (Hfield _ OrderPlacement) by done.
      assert (in_book st' l) as Hlb by (by eapply side_of_in_book).
      destruct (Hq l o Hlb Hoq) as [[Hl0 Ho0]|[-> ->]].
      * destruct (Hsides l Hl0) as [Hbs Has].
        destruct Hl0 as [Hl0|Hl0].
        -- rewrite (Ha l o Hl0 Ho0). destruct Hpl' as [->| ->]; [|done].
           exfalso. apply (inv_sides_disjoint _ HI' l); [by apply Has | done].
        -- rewrite (Hb l o Hl0 Ho0). destruct Hpl' as [->| ->]; [done|].
           exfalso. apply (inv_sides_disjoint _ HI' l); [done | by apply Hbs].
      * fold pl. destruct Hpl as [Hp|Hp]; destruct Hpl' as [->| ->];
          try done; exfalso; rewrite Hp in Hlin;
          apply (inv_sides_disjoint _ HI' limit); done.
  - rewrite PlaceLimitOrder_unfold. simpl.
    apply not_iff_compat with (1 := valid_placement_cases _) in Hpl.
    apply not_false_is_true in Hpl. by rewrite Hpl.
Qed.

Lemma run_op_Wf c st : Inv st → Wf st → Wf (snd (run_op c st)).
Proof.
  intros HI HW.
  pose proof (λ pl size now, NewOrder_Inv pl size now st HI) as HI1.
  pose proof (λ pl size now, NewOrder_Wf pl size now st HI HW) as HW1.
  pose proof (λ pl size now, NewOrder_newest pl size now st HI) as Hnew.
  assert (∀ pl size now,
    length (orders st) < length (orders (snd (NewOrder pl size now st)))) as Hlt
    by (intros; simpl; rewrite length_app; simpl; lia).
  destruct c as [pl size price now|pl size now|orderId pl]; simpl.
  - pose proof (PlaceLimitOrder_Wf price (length (orders st))
                  (snd (NewOrder pl size now st)) (HI1 _ _ _) (Hlt _ _ _)
                  (Hnew _ _ _) (HW1 _ _ _)) as H.
    unfold NewOrder in *. simpl in *.
    by destruct (PlaceLimitOrder price _ _) as [[e|] st2].
  - pose proof (PlaceMarketOrder_Wf (length (orders st))
                  (snd (NewOrder pl size now st)) (HI1 _ _ _) (Hlt _ _ _)
                  (newest_not_resting _ _ (Hnew _ _ _)) (HW1 _ _ _)) as H.
    unfold NewOrder in *. simpl in *.
    by destruct (PlaceMarketOrder _ _) as [[ms|e] st2].
  - pose proof (CancelOrderByID_Wf orderId pl st HI HW) as H.
    by destruct (CancelOrderByID orderId pl st) as [[e|] st1].
Qed.

Lemma run_ops_Wf cs st : Inv st → Wf st → Wf (run_ops cs st).
Proof.
  revert st. induction cs as [|c cs IH]; intros st HI HW; [done|].
  simpl. apply IH; [by apply run_op_Inv | by apply run_op_Wf].
Qed.

Lemma reachable_Wf st : reachable st → Wf st.
Proof.
  intros (market & cs & ->). apply run_ops_Wf; [apply init_Inv | apply init_Wf].
Qed.

(** Below the bound, ids tell orders apart. *)
Lemma Wf_id_inj st o1 o2 :
  Wf st → bounded st → o1 < length (orders st) → o2 < length (orders st) →
  ID (order_at st o1) = ID (order_at st o2) → o1 = o2.
Proof.
  intros [_ Hid _ _ _] Hb H1 H2. unfold bounded in Hb.
  rewrite !Hid by done. rewrite !wrap64_small by lia. lia.
Qed.

Lemma Wf_id_small st o :
  Wf st → bounded st → o < length (orders st) →
  ID (order_at st o) = (Z.of_nat o + 1)%Z.
Proof.
  intros [_ Hid _ _ _] Hb H1. unfold bounded in Hb.
  rewrite Hid by done. rewrite wrap64_small; lia.
Qed.

Lemma deleteLimit_map pl limit st :
  map_of pl (book (deleteLimit pl limit st))
  = delete (Price (limit_at st limit)) (map_of pl (book st)).
Proof.
  unfold deleteLimit, deleteLimitCells.
  destruct (sliceDelete _ _ _) as [cells' len']. simpl.
  by rewrite map_of_set_side, map_of_set_map.
Qed.

Lemma CancelOrderByID_found orderId pl st limit order :
  Inv st → order < length (orders st) →
  findLimitOrder st orderId (side_of pl (book st)) = Some (limit, order) →
  ∃ st', CancelOrderByID orderId pl st = (None, st') ∧
         cancelled pl limit order st st'.
Proof.
  intros HI Hoa Hf. unfold CancelOrderByID. rewrite Hf.
  apply findLimitOrder_Some in Hf as (Hl & Ho & Hid).
  assert (in_book st limit) as Hlb by (by eapply side_of_in_book).
  assert (limit < length (limits st)) as Hla by (by apply HI).
  pose proof (DeleteOrder_Inv limit order st HI Hlb Ho) as HI1.
  set (st1 := DeleteOrder limit order st) in *.
  set (st2 := set_index _ st1).
  assert (Inv st2) as HI2 by (by apply Inv_set_index).
  assert (book st2 = book st) as Hb2 by apply DeleteOrder_book.
  assert (OrderIndex st2 = delete (ID (order_at st order)) (OrderIndex st)) as Hix2.
  { change (OrderIndex st2) with (delete (ID (order_at st1 order)) (OrderIndex st1)).
    unfold st1. by rewrite DeleteOrder_index, (DeleteOrder_order_field ID). }
  assert (∀ l, limit_at st2 l = limit_at st1 l) as Hla2 by done.
  assert (TotalVolume (limit_at st1 limit)
          = (TotalVolume (limit_at st limit) - size_at st order)%Z) as Hvol.
  { unfold st1. by rewrite DeleteOrder_limit_eq. }
  assert (OrderLimit (order_at st1 order) = None) as Hback.
  { unfold st1, DeleteOrder.
    change (order_at (upd_limit ?l ?f ?s) order) with (order_at s order).
    change (order_at (upd_limit ?l ?f ?s) order) with (order_at s order).
    rewrite order_at_upd_order_eq; [done|].
    by destruct (find_index order (Orders (limit_at st limit))). }
  eexists. split; [done|].
  destruct (Z.eqb_spec (TotalVolume (limit_at st2 limit)) 0) as [Hv0|Hvne].
  - pose proof (deleteLimit_spec pl limit st2 HI2) as HD.
    rewrite Hb2 in HD. specialize (HD Hl).
    destruct HD as [HI3 Hor3 Hli3 Hix3 Hos3 Hom3 _ (j & Hj & Hcj & Hcells) Hside3 Hperm3].
    rewrite Hb2 in *.
    assert (∀ l, limit_at (deleteLimit pl limit st2) l = limit_at st1 l) as Hla3
      by (intros l; unfold limit_at; by rewrite Hli3).
    split; try done.
    + by rewrite Hix3.
    + unfold queue. rewrite Hla3. by apply DeleteOrder_queue_perm.
    + by rewrite Hla3.
    + intros l Hne. rewrite Hla3. by apply DeleteOrder_limit_ne.
    + intros o. unfold size_at, order_at. rewrite Hor3. apply DeleteOrder_size.
    + unfold order_at. by rewrite Hor3.
    + rewrite Hla3. by rewrite Hla2 in Hv0.
    + intros _. split; [done|]. rewrite deleteLimit_map, Hb2. f_equal.
      rewrite Hla2. unfold st1. by rewrite DeleteOrder_limit_eq.
    + intros _. exists j. split; [done|]. rewrite Hside3, Hcells.
      unfold swap_delete.
      destruct (lookup_lt_is_Some_2 (side_of pl (book st))
                  (length (side_of pl (book st)) - 1)) as [z Hz]; [lia|].
      by rewrite Hz.
    + unfold queue. rewrite Hla3. unfold st1. by rewrite DeleteOrder_limit_eq.
  - split; try done; try (by rewrite Hb2).
    + by apply DeleteOrder_queue_perm.
    + intros l Hne. by apply DeleteOrder_limit_ne.
    + intros o. apply DeleteOrder_size.
    + unfold queue. rewrite Hla2. unfold st1. by rewrite DeleteOrder_limit_eq.
Qed.

Lemma NewOrder_Indexed pl size now st :
  Inv st → Indexed st → Indexed (snd (NewOrder pl size now st)).
Proof.
  intros HI HX l o Hl Ho.
  rewrite NewOrder_order_at_old by (by eapply inv_queue_alloc).
  by apply (HX l).
Qed.

Lemma PlaceLimitOrder_Indexed price order st :
  Inv st → order < length (orders st) → newest st order →
  Wf st → bounded st →
  Indexed st → Indexed (snd (PlaceLimitOrder price order st)).
Proof.
  intros HI Ho Hnew HW Hb HX.
  destruct (decide (OrderPlacement (order_at st order) = BID_ORDER ∨
                    OrderPlacement (order_at st order) = ASK_ORDER)) as [Hpl|Hpl].
  - destruct (PlaceLimitOrder_spec price order st HI Ho Hnew Hpl)
      as (limit & st' & -> & HP). simpl.
    pose proof (λ l o, placed_queue _ _ _ _ _ _ l o HI HP) as Hq.
    destruct HP as [HI' _ _ _ _ _ _ Hmk _ _ _ _ Hlen Hsq Hfield _ Hindex].
    intros l o Hl Hoq. rewrite Hindex, Hmk, (Hfield _ ID) by done.
    destruct (Hq l o Hl Hoq) as [[Hl0 Ho0]|[-> ->]].
    + assert (o < order) as Hlt by (by apply (Hnew l)).
      rewrite lookup_insert_ne; [by apply (HX l)|].
      intros Heq. apply (Wf_id_inj st) in Heq; try done; lia.
    + by rewrite lookup_insert_eq.
  - rewrite PlaceLimitOrder_unfold. simpl.
    apply not_iff_compat with (1 := valid_placement_cases _) in Hpl.
    apply not_false_is_true in Hpl. by rewrite Hpl.
Qed.

Lemma in_book_sub st st' :
  (∀ l, l ∈ bids (book st') → l ∈ bids (book st)) →
  (∀ l, l ∈ asks (book st') → l ∈ asks (book st)) →
  ∀ l, in_book st' l → in_book st l.
Proof. intros Hb Ha l [?|?]; [left; by apply Ha | right; by apply Hb]. Qed.

Lemma PlaceMarketOrder_Indexed order st :
  Inv st → order < length (orders st) → not_resting st order →
  Indexed st → Indexed (snd (PlaceMarketOrder order st)).
Proof.
  intros HI Ho Hnr HX.
  pose proof (kept_PlaceMarketOrder order st) as HK.
  destruct (decide (Size (order_at st order) ≤ opposingVolume st order)%Z)
    as [Hle|Hgt].
  - destruct (PlaceMarketOrder_accepts st order HI Ho Hnr Hle)
      as (ms & st' & Heq & Hpost).
    rewrite Heq in *. simpl in *.
    destruct Hpost as [_ _ _ Hos _ Hix Hmk Hsub _ _ _ _ _ _].
    destruct (sides_sub (opposite st order) st st') as [Hb Ha]; [done..|].
    destruct HK as [_ _ _ _ Ki _ _ _ Kq].
    intros l o Hl%(in_book_sub st st' Hb Ha) Hoq%Kq.
    rewrite Hix, Hmk, Ki. by apply (HX l).
  - by rewrite (PlaceMarketOrder_reject_eq st order) by lia.
Qed.

Lemma CancelOrderByID_Indexed orderId pl st :
  Inv st → Wf st → bounded st →
  Indexed st → Indexed (snd (CancelOrderByID orderId pl st)).
Proof.
  intros HI HW Hb HX.
  pose proof (kept_CancelOrderByID orderId pl st) as HK.
  destruct (findLimitOrder st orderId (side_of pl (book st)))
    as [[limit order]|] eqn:Hf.
  - pose proof Hf as (Hl & Ho & Hid)%findLimitOrder_Some.
    assert (in_book st limit) as Hlb by (by eapply side_of_in_book).
    assert (order < length (orders st)) as Hoa by (by eapply (inv_queue_alloc _ HI)).
    destruct (CancelOrderByID_found orderId pl st limit order HI Hoa Hf)
      as (st' & Heq & HC).
    rewrite Heq in *. simpl in *.
    destruct HC as [HI' Hix Hos _ Hq _ Hlim _ _ Hkeep Hdrop _ _].
    destruct HK as [_ _ _ Hmk Ki _ _ _ Kq].
    assert (∀ l, l ∈ side_of pl (book st') → l ∈ side_of pl (book st)) as Hsub.
    { intros l Hl'.
      destruct (decide (TotalVolume (limit_at st' limit) = 0%Z)) as [H0|Hn0].
      - destruct (Hdrop H0) as [Hperm _]. rewrite <- Hperm. by right.
      - destruct (Hkeep Hn0) as [<- _]. done. }
    destruct (sides_sub pl st st' Hsub Hos) as [Hbs Has].
    intros l o Hl' Hoq'.
    pose proof (in_book_sub st st' Hbs Has l Hl') as Hl0.
    pose proof (Kq l o Hoq') as Ho0.
    rewrite Hix, Hmk, Ki.
    rewrite lookup_delete_ne; [by apply (HX l)|].
    intros Heq'.
    assert (o < length (orders st)) as Hoa' by (by eapply (inv_queue_alloc _ HI)).
    apply (Wf_id_inj st) in Heq'; try done. subst o.
    assert (l = limit) as -> by (by eapply (inv_queue_disjoint _ HI)).
    pose proof (inv_queue_nodup _ HI limit Hlb) as Hnd.
    rewrite <- Hq in Hnd. by apply NoDup_cons in Hnd as [? _].
  - revert HK. unfold CancelOrderByID. by rewrite Hf.
Qed.

Lemma PlaceLimitOrder_length price order st :
  length (orders (snd (PlaceLimitOrder price order st))) = length (orders st).
Proof.
  rewrite PlaceLimitOrder_unfold. simpl.
  destruct (negb _); simpl; [done|].
  destruct (limitFor _ _ _) as [limit st1] eqn:Hlf. simpl.
  unfold AddOrder. simpl. rewrite length_alter.
  unfold limitFor in Hlf. simpl in Hlf.
  by destruct (_ !! price); injection Hlf as <- <-.
Qed.

Lemma run_op_length c st : length (orders st) ≤ length (orders (snd (run_op c st))).
Proof.
  destruct c as [pl size price now|pl size now|orderId pl]; simpl.
  - pose proof (PlaceLimitOrder_length price (length (orders st))
                  (snd (NewOrder pl size now st))) as H.
    unfold NewOrder in *. simpl in *.
    destruct (PlaceLimitOrder price _ _) as [[e|] st2]; simpl in *;
      rewrite H, length_app; lia.
  - pose proof (kept_PlaceMarketOrder (length (orders st))
                  (snd (NewOrder pl size now st))) as [H _ _ _ _ _ _ _ _].
    unfold NewOrder in *. simpl in *.
    destruct (PlaceMarketOrder _ _) as [[ms|e] st2]; simpl in *;
      rewrite H, length_app; lia.
  - pose proof (kept_CancelOrderByID orderId pl st) as [H _ _ _ _ _ _ _ _].
    destruct (CancelOrderByID orderId pl st) as [[e|] st1]; simpl in *; lia.
Qed.

Lemma run_op_Indexed c st :
  Inv st → Wf st → bounded (snd (run_op c st)) →
  Indexed st → Indexed (snd (run_op c st)).
Proof.
  intros HI HW Hb HX.
  pose proof (λ pl size now, NewOrder_Inv pl size now st HI) as HI1.
  pose proof (λ pl size now, NewOrder_Wf pl size now st HI HW) as HW1.
  pose proof (λ pl size now, NewOrder_Indexed pl size now st HI HX) as HX1.
  pose proof (λ pl size now, NewOrder_newest pl size now st HI) as Hnew.
  assert (∀ pl size now,
    length (orders st) < length (orders (snd (NewOrder pl size now st)))) as Hlt
    by (intros; simpl; rewrite length_app; simpl; lia).
  pose proof (run_op_length c st) as Hlen.
  destruct c as [pl size price now|pl size now|orderId pl]; simpl in *.
  - pose proof (PlaceLimitOrder_Indexed price (length (orders st))
                  (snd (NewOrder pl size now st)) (HI1 _ _ _) (Hlt _ _ _)
                  (Hnew _ _ _) (HW1 _ _ _)) as H.
    pose proof (PlaceLimitOrder_length price (length (orders st))
                  (snd (NewOrder pl size now st))) as HL.
    unfold NewOrder in *. simpl in *.
    destruct (PlaceLimitOrder price _ _) as [[e|] st2]; simpl in *;
      (apply H; [|apply HX1]); unfold bounded in *; simpl in *; lia.
  - pose proof (PlaceMarketOrder_Indexed (length (orders st))
                  (snd (NewOrder pl size now st)) (HI1 _ _ _) (Hlt _ _ _)
                  (newest_not_resting _ _ (Hnew _ _ _)) (HX1 _ _ _)) as H.
    unfold NewOrder in *. simpl in *.
    by destruct (PlaceMarketOrder _ _) as [[ms|e] st2].
  - assert (bounded st) as Hb0.
    { unfold bounded in *. lia. }
    pose proof (CancelOrderByID_Indexed orderId pl st HI HW Hb0 HX) as H.
    by destruct (CancelOrderByID orderId pl st) as [[e|] st1].
Qed.

Lemma filledTotal_app ms1 ms2 :
  filledTotal (ms1 ++ ms2) = (filledTotal ms1 + filledTotal ms2)%Z.
Proof. induction ms1 as [|mt ms1 IH]; simpl; lia. Qed.

Lemma Fill_walk_sum l order resting st :
  order < length (orders st) → order ∉ resting →
  (∀ m, m ∈ resting → m < length (orders st)) →
  match Fill_walk l order resting st with
  | (_, ms, st') =>
    filledTotal ms = (size_at st order - size_at st' order)%Z ∧
    (∀ mt, mt ∈ ms →
       incoming_side (OrderPlacement (order_at st order)) mt = order) ∧
    ((0 ≤ size_at st order)%Z ∨ resting ≠ [] → (0 ≤ size_at st' order)%Z)
  end.
Proof.
  revert st. induction resting as [|m rest IH]; intros st Ho Hnin Hall.
  { simpl. split; [lia|]. split; [by intros mt ?%elem_of_nil|]. by intros [?|?]. }
  simpl.
  assert (m ≠ order) as Hmo by (intros ->; apply Hnin; left).
  assert (m < length (orders st)) as Hm by (apply Hall; left).
  pose proof (fillOrder_match l m order st) as Hmt.
  pose proof (fillOrder_size l m order st order Hmo Hm Ho) as Hsz.
  pose proof (fillOrder_length_orders l m order st) as Hlen.
  pose proof (fillOrder_placement l m order st order) as Hpl.
  destruct (fillOrder l m order st) as [mt st1]. simpl in *.
  rewrite decide_True in Hsz by (by right).
  assert (SizeFilled mt = filled st m order ∧
          incoming_side (OrderPlacement (order_at st order)) mt = order)
    as [Hsf Hinc].
  { rewrite Hmt. unfold incoming_side. by destruct (String.eqb _ _). }
  assert (0 ≤ size_at st1 order)%Z as Hnn by (unfold filled in Hsz; lia).
  destruct (IsFilled st1 order).
  - simpl. split; [lia|]. split; [|done].
    by intros mt' ->%list_elem_of_singleton.
  - specialize (IH st1). destruct (Fill_walk l order rest st1) as [[dels ms] st2].
    destruct IH as (Hsum & Hin & Hnn2).
    + by rewrite Hlen.
    + intros ?. apply Hnin. by right.
    + intros m' Hm'. rewrite Hlen. apply Hall. by right.
    + simpl. split; [lia|]. split.
      * intros mt' [->|Hmt']%elem_of_cons; [done|].
        rewrite <- Hpl. by apply Hin.
      * intros _. apply Hnn2. by left.
Qed.

Lemma deleteAll_size l dels st o : size_at (deleteAll l dels st) o = size_at st o.
Proof.
  revert st. induction dels as [|d dels IH]; intros st; [done|].
  simpl. fold (deleteAll l dels (DeleteOrder l d st)).
  by rewrite IH, DeleteOrder_size.
Qed.

Lemma Fill_sum l order st :
  Inv st → in_book st l → order < length (orders st) → not_resting st order →
  match Fill l order st with
  | (ms, st') =>
    filledTotal ms = (size_at st order - size_at st' order)%Z ∧
    (∀ mt, mt ∈ ms →
       incoming_side (OrderPlacement (order_at st order)) mt = order) ∧
    ((0 ≤ size_at st order)%Z ∨ queue st l ≠ [] → (0 ≤ size_at st' order)%Z)
  end.
Proof.
  intros HI Hl Ho Hnr. unfold Fill.
  pose proof (Fill_walk_sum l order (Orders (limit_at st l)) st Ho (Hnr l Hl)
                (λ m Hm, inv_queue_alloc _ HI l m Hl Hm)) as H.
  destruct (Fill_walk l order (Orders (limit_at st l)) st) as [[dels ms] st1].
  fold (deleteAll l dels st1). by rewrite deleteAll_size.
Qed.

Lemma deleteLimitCells_orders pl limit cells st :
  orders (snd (deleteLimitCells pl limit cells st)) = orders st.
Proof.
  unfold deleteLimitCells. by destruct (sliceDelete _ _ _) as [cells' len'].
Qed.

Lemma marketStep_matches pl order i cells st :
  loop_inv pl order i cells st → i < length cells →
  match marketStep pl order i cells st with
  | (lms, cells1, st2) => step_matches pl order i cells st lms cells1 st2
  end.
Proof.
  intros [HI Ho Hnr Hside Hnd Hmem] Hi.
  destruct (lookup_lt_is_Some_2 cells i Hi) as [limit Hlim].
  assert (visited cells i = limit) as Hvl by (unfold visited; by rewrite Hlim).
  unfold marketStep. rewrite Hlim; simpl.
  pose proof (drop_S cells limit i Hlim) as Hdrop.
  assert (limit ∈ side_of pl (book st)) as Hls by (apply Hmem; rewrite Hdrop; left).
  assert (in_book st limit) as Hlb by (by eapply side_of_in_book).
  pose proof (Fill_spec limit order st HI Hlb Ho Hnr) as HF.
  pose proof (Fill_sum limit order st HI Hlb Ho Hnr) as HS.
  destruct (Fill limit order st) as [lms st1].
  destruct HS as (Hsum & Hinc & Hnn).
  destruct HF as [HI1 Hb1 _ _ _ _ _ _ _ _ Hms _ Hmp _ _ _ _ _].
  assert (∀ mt, mt ∈ lms →
            resting_of st order mt ∈ queue st limit ∧
            MatchPrice mt = Price (limit_at st limit)) as Hrest.
  { intros mt Hmt. split; [|by apply Hmp].
    assert (resting_of st order mt ∈ map (resting_of st order) lms) as H
      by (by apply list_elem_of_fmap_2).
    rewrite Hms in H. by apply elem_of_take in H as (j & ?%list_elem_of_lookup_2 & _). }
  destruct (Z.eqb_spec (TotalVolume (limit_at st1 limit)) 0) as [Hv0|Hvne].
  - pose proof (deleteLimitCells_spec pl limit cells st1 HI1) as HD.
    pose proof (deleteLimitCells_orders pl limit cells st1) as Hor.
    rewrite Hb1 in HD. specialize (HD Hls Hside).
    destruct (deleteLimitCells pl limit cells st1) as [cells1 st2].
    destruct HD as [_ _ _ _ _ _ _ (j & Hj & Hcj & ->) _ _]. simpl in Hor.
    assert (∀ o, size_at st2 o = size_at st1 o) as Hsz2
      by (intros o; unfold size_at, order_at; by rewrite Hor).
    assert (j ≤ i) as Hji.
    { destruct (decide (j ≤ i)) as [|Hgt]; [done|]. exfalso.
      assert (drop i cells !! (j - i) = Some limit) as H1
        by (rewrite lookup_drop; by replace (i + (j - i)) with j by lia).
      assert (drop i cells !! 0 = Some limit) as H2 by (by rewrite Hdrop).
      pose proof (NoDup_lookup _ _ _ _ Hnd H1 H2). lia. }
    split; rewrite ?Hvl, ?Hsz2; try done.
    by rewrite drop_insert_lt by lia.
  - split; rewrite ?Hvl; done.
Qed.

Lemma StronglySorted_impl {A} (R R' : A → A → Prop) (l : list A) :
  (∀ a b, R a b → R' a b) → StronglySorted R l → StronglySorted R' l.
Proof.
  intros HR. induction 1 as [|a l Hl IH Hall]; constructor; [done|].
  eapply Forall_impl; [exact Hall|]. intros b. apply HR.
Qed.

Lemma StronglySorted_const (R : Z → Z → Prop) (p : Z) (ps : list Z) :
  R p p → (∀ q, q ∈ ps → q = p) → StronglySorted R ps.
Proof.
  intros Hr. induction ps as [|q ps IH]; intros Hall; constructor.
  - apply IH. intros q' Hq'. apply Hall. by right.
  - apply Forall_forall. intros q' Hq'.
    rewrite (Hall q) by left. rewrite (Hall q') by (by right). done.
Qed.

Lemma StronglySorted_app_2 (R : Z → Z → Prop) (ps qs : list Z) :
  StronglySorted R ps → StronglySorted R qs →
  (∀ p q, p ∈ ps → q ∈ qs → R p q) →
  StronglySorted R (ps ++ qs).
Proof.
  intros Hp Hq Hpq. induction Hp as [|p ps Hps IH Hall]; [done|].
  simpl. constructor.
  - apply IH. intros p' q Hp' Hq'. apply Hpq; [by right | done].
  - apply Forall_app. split; [done|].
    apply Forall_forall. intros q Hq'. apply Hpq; [left | done].
Qed.

Lemma marketLoop_matches (R : Z → Z → Prop) pl order k i cells ms st :
  (∀ p, R p p) →
  loop_inv pl order i cells st → i + k = length cells →
  StronglySorted (λ a b, R (Price (limit_at st a)) (Price (limit_at st b)))
                 (drop i cells) →
  match marketLoop pl order k i cells ms st with
  | (ms', st') => ∃ new, ms' = ms ++ new ∧ loop_matches R pl order i cells st new st'
  end.
Proof.
  intros Hrefl. revert i cells ms st.
  induction k as [|k IH]; intros i cells ms st HL Hlen Hsorted.
  { simpl. exists []. rewrite app_nil_r. split; [done|].
    split; simpl; try done; try (by intros mt ?%elem_of_nil).
    - lia.
    - intros [?|[? _]]; [done | lia].
    - constructor.
    - by intros l mt _ ?%elem_of_nil. }
  rewrite marketLoop_unfold.
  pose proof (marketStep_spec pl order i cells st HL ltac:(lia)) as HS.
  pose proof (marketStep_matches pl order i cells st HL ltac:(lia)) as HM.
  pose proof (kept_marketStep pl order i cells st) as HK.
  destruct (marketStep pl order i cells st) as [[lms cells1] st2].
  simpl in HK.
  destruct HS as [_ _ _ _ _ _ _ Hsub _ _ _ Hlen1 Hnext Hpl _].
  destruct HM as [Htot Hinc Hrest Hnn Hcells].
  destruct HK as [_ _ _ _ _ _ _ Kprice Kq].
  pose proof HL as [HI Ho Hnr Hside Hnd Hmem].
  destruct (lookup_lt_is_Some_2 cells i ltac:(lia)) as [limit Hlim].
  assert (visited cells i = limit) as Hvl by (unfold visited; by rewrite Hlim).
  rewrite Hvl in *.
  pose proof (drop_S cells limit i Hlim) as Hdrop.
  assert (limit ∈ side_of pl (book st)) as Hls by (apply Hmem; rewrite Hdrop; left).
  rewrite Hdrop in Hsorted. apply StronglySorted_inv in Hsorted as [Hsorted' Hhead].
  rewrite Forall_forall in Hhead.
  assert (∀ l, l ∈ side_of pl (book st) →
            R (Price (limit_at st limit)) (Price (limit_at st l))) as Hbest.
  { intros l Hl%Hmem. rewrite Hdrop in Hl.
    apply elem_of_cons in Hl as [->|Hl]; [apply Hrefl | by apply Hhead]. }
  assert (StronglySorted R (map MatchPrice lms)) as Hs1.
  { apply (StronglySorted_const R (Price (limit_at st limit))); [apply Hrefl|].
    intros q (mt & -> & Hmt)%list_elem_of_fmap. by apply Hrest. }
  destruct (IsFilled st2 order) eqn:Hf.
  { exists lms. split; [done|]. split; rewrite ?Hvl; try done.
    - intros mt Hmt. exists limit. split; [done|]. by apply Hrest.
    - intros [?|[_ ?]]; apply Hnn; auto.
    - intros l mt Hl%Hsub Hmt. destruct (Hrest mt Hmt) as [_ ->]. by apply Hbest. }
  assert (size_at st2 order ≠ 0%Z) as Hne
    by (intros H; apply IsFilled_spec in H; congruence).
  specialize (IH (S i) cells1 (ms ++ lms) st2 (Hnext Hne) ltac:(lia)).
  pose proof (marketLoop_spec pl order k (S i) cells1 (ms ++ lms) st2
                (Hnext Hne) ltac:(lia)) as HLS.
  destruct (marketLoop pl order k (S i) cells1 (ms ++ lms) st2) as [ms' st'].
  destruct HLS as [_ _ _ _ _ _ _ Hsub2 _ _ _ _ _ _].
  destruct IH as (new2 & -> & [Htot2 Hinc2 Hrest2 Hnn2 Hs2 Hleft2]).
  { rewrite Hcells.
    eapply StronglySorted_impl; [|exact Hsorted'].
    intros a b. by rewrite !Kprice. }
  assert (∀ mt, resting_of st2 order mt = resting_of st order mt) as Hro
    by (intros mt; by apply resting_of_ext).
  assert (∀ mt, mt ∈ new2 →
            ∃ l, l ∈ side_of pl (book st) ∧ resting_of st order mt ∈ queue st l ∧
                 MatchPrice mt = Price (limit_at st l)) as Hrest2'.
  { intros mt (l & Hl & Hq & Hp)%Hrest2. exists l.
    split; [by apply Hsub|]. rewrite Hro in Hq. split; [by apply Kq|].
    by rewrite Hp, Kprice. }
  exists (lms ++ new2). split; [by rewrite app_assoc|]. split; rewrite ?Hvl.
  - rewrite filledTotal_app. lia.
  - intros mt [Hmt|Hmt]%elem_of_app; [by apply Hinc|].
    rewrite <- Hpl. by apply Hinc2.
  - intros mt [Hmt|Hmt]%elem_of_app; [|by apply Hrest2'].
    exists limit. split; [done|]. by apply Hrest.
  - intros H. apply Hnn2. left. apply Hnn. destruct H as [?|[_ ?]]; auto.
  - rewrite map_app. apply StronglySorted_app_2; try done.
    intros p q (mt1 & -> & Hmt1)%list_elem_of_fmap (mt2 & -> & Hmt2)%list_elem_of_fmap.
    destruct (Hrest mt1 Hmt1) as [_ ->].
    destruct (Hrest2' mt2 Hmt2) as (l & Hl & _ & ->). by apply Hbest.
  - intros l mt Hl [Hmt|Hmt]%elem_of_app.
    + destruct (Hrest mt Hmt) as [_ ->]. by apply Hbest, Hsub, Hsub2.
    + rewrite <- Kprice. by apply Hleft2.
Qed.

Lemma ByBestBid_Less_key st a b :
  ByBestBid_Less st a b
  = (- Price (limit_at st a) <? - Price (limit_at st b))%Z.
Proof.
  unfold ByBestBid_Less.
  destruct (Z.ltb_spec (- Price (limit_at st a)) (- Price (limit_at st b)));
    destruct (Z.gtb_spec (Price (limit_at st a)) (Price (limit_at st b))); lia.
Qed.

Lemma Asks_sorted st :
  StronglySorted (λ a b, Price (limit_at st a) ≤ Price (limit_at st b))%Z
                 (sortBy (ByBestAsk_Less st) (asks (book st))).
Proof. apply (sortBy_sorted (λ l, Price (limit_at st l))). Qed.

Lemma Bids_sorted st :
  StronglySorted (λ a b, Price (limit_at st b) ≤ Price (limit_at st a))%Z
                 (sortBy (ByBestBid_Less st) (bids (book st))).
Proof.
  rewrite (sortBy_ext _ (λ a b, - Price (limit_at st a) <? - Price (limit_at st b))%Z)
    by apply ByBestBid_Less_key.
  eapply StronglySorted_impl;
    [|apply (sortBy_sorted (λ l, - Price (limit_at st l))%Z)].
  intros a b. simpl. lia.
Qed.

Lemma PlaceMarketOrder_matched st order :
  Inv st → order < length (orders st) → not_resting st order →
  (Size (order_at st order) ≤ opposingVolume st order)%Z →
  ∃ matches st',
    PlaceMarketOrder order st = (inl matches, st') ∧
    matched (priceOrder (OrderPlacement (order_at st order)))
            (opposite st order) order st matches st'.
Proof.
  intros HI Ho Hnr Hle.
  assert (∀ (R : Z → Z → Prop) pl less,
    (∀ p, R p p) →
    StronglySorted (λ a b, R (Price (limit_at st a)) (Price (limit_at st b)))
                   (sortBy less (side_of pl (book st))) →
    let cells := sortBy less (side_of pl (book st)) in
    let st1 := set_book (set_side pl cells (book st)) st in
    match marketLoop pl order (length cells) 0 cells [] st1 with
    | (ms, st') => matched R pl order st ms st'
    end) as Hloop.
  { intros R pl less Hrefl Hsorted cells st1.
    assert (cells ≡ₚ side_of pl (book st)) as Hperm by apply sortBy_perm.
    assert (Inv st1) as HI1 by (by apply Inv_side_perm).
    assert (side_of pl (book st1) = cells) as Hs1 by apply side_of_set_side.
    assert (other_side pl (book st1) = other_side pl (book st)) as Hos1
      by apply other_side_set_side.
    assert (∀ l, in_book st1 l ↔ in_book st l) as Hin.
    { intros l. rewrite !(in_book_sides pl), Hs1, Hos1. by rewrite Hperm. }
    pose proof (marketLoop_matches R pl order (length cells) 0 cells [] st1 Hrefl) as H.
    destruct (marketLoop pl order (length cells) 0 cells [] st1) as [ms st'].
    destruct H as (new & -> & [Htot Hinc Hrest Hnn Hs Hleft]); [|done|done|].
    { split; try done.
      - intros l Hl%Hin. by apply Hnr.
      - by rewrite Hs1, firstn_all.
      - simpl. rewrite Hperm. by apply inv_side_nodup.
      - intros x. by rewrite Hs1. }
    simpl. split; try done.
    - intros mt (l & Hl & Hq)%Hrest. exists l. rewrite Hs1, Hperm in Hl. done.
    - intros [?|[Hne Hall]]; apply Hnn; [by left|]. right.
      assert (cells ≠ []) as Hc.
      { intros Hnil. rewrite Hnil in Hperm. apply Hne.
        by apply Permutation_nil_l in Hperm. }
      destruct cells as [|c cells'] eqn:Hce; [done|]. split; [simpl; lia|].
      unfold visited. simpl. apply (Hall c). rewrite <- Hperm. left. }
  unfold opposingVolume in Hle. unfold PlaceMarketOrder, opposite, priceOrder.
  destruct (String.eqb _ _).
  - destruct (Z.gtb_spec (Size (order_at st order)) (AskTotalVolume st)); [lia|].
    unfold Asks.
    specialize (Hloop Z.le ASK_ORDER (ByBestAsk_Less st) Z.le_refl (Asks_sorted st)).
    simpl in Hloop.
    change (side_of ASK_ORDER (book st)) with (asks (book st)) in Hloop.
    destruct (marketLoop _ _ _ _ _ _ _) as [ms st']. by exists ms, st'.
  - destruct (Z.gtb_spec (Size (order_at st order)) (BidTotalVolume st)); [lia|].
    unfold Bids.
    specialize (Hloop (λ p q, q ≤ p)%Z BID_ORDER (ByBestBid_Less st)
                  (λ p, Z.le_refl p) (Bids_sorted st)).
    simpl in Hloop.
    change (side_of BID_ORDER (book st)) with (bids (book st)) in Hloop.
    destruct (marketLoop _ _ _ _ _ _ _) as [ms st']. by exists ms, st'.
Qed.

(** ** Sorting what is sorted *)

Lemma sortBy_id {A} (less : A → A → bool) (l : list A) :
  StronglySorted (λ a b, less b a = false) l → sortBy less l = l.
Proof.
  induction 1 as [|x l Hl IH Hall]; [done|].
  simpl. rewrite IH. destruct l as [|y l']; [done|].
  simpl. apply Forall_cons in Hall as [Hy _]. by rewrite Hy.
Qed.

Lemma sorted_perm_eq (key : nat → Z) (l1 l2 : list nat) :
  StronglySorted (λ a b, key a ≤ key b)%Z l1 →
  StronglySorted (λ a b, key a < key b)%Z l2 →
  l1 ≡ₚ l2 → l1 = l2.
Proof.
  intros H1 H2. revert l1 H1. induction H2 as [|y l2 Hl2 IH Hy]; intros l1 H1 Hperm.
  { by apply Permutation_nil_r in Hperm. }
  destruct H1 as [|x l1 Hl1 Hx].
  { by apply Permutation_nil_cons in Hperm. }
  rewrite Forall_forall in Hx, Hy.
  assert (x = y) as ->.
  { destruct (decide (x = y)) as [|Hne]; [done|]. exfalso.
    assert (x ∈ y :: l2) as Hxin by (rewrite <- Hperm; left).
    assert (y ∈ x :: l1) as Hyin by (rewrite Hperm; left).
    apply elem_of_cons in Hxin as [?|Hxin]; [done|].
    apply elem_of_cons in Hyin as [?|Hyin]; [done|].
    specialize (Hx y Hyin). specialize (Hy x Hxin). lia. }
  f_equal. apply IH; [done|]. by apply Permutation_cons_inv in Hperm.
Qed.

Lemma sortBy_perm_sorted (key : nat → Z) (l l' : list nat) :
  l ≡ₚ l' → StronglySorted (λ a b, key a < key b)%Z l' →
  sortBy (λ a b, key a <? key b)%Z l = l'.
Proof.
  intros Hperm Hs. apply (sorted_perm_eq key); [apply sortBy_sorted | done |].
  by rewrite sortBy_perm.
Qed.

Lemma StronglySorted_strict (key : nat → Z) (l : list nat) :
  StronglySorted (λ a b, key a ≤ key b)%Z l → NoDup l →
  (∀ a b, a ∈ l → b ∈ l → key a = key b → a = b) →
  StronglySorted (λ a b, key a < key b)%Z l.
Proof.
  induction 1 as [|x l Hl IH Hall]; intros Hnd Hinj; constructor.
  - apply IH; [by apply NoDup_cons in Hnd as [_ ?]|].
    intros a b Ha Hb. apply Hinj; by right.
  - apply NoDup_cons in Hnd as [Hx _]. rewrite Forall_forall in *.
    intros y Hy. specialize (Hall y Hy).
    destruct (decide (key x = key y)) as [Heq|Hne]; [|lia].
    apply Hinj in Heq; [by subst | left | by right].
Qed.

Lemma StronglySorted_middle {A} (R : A → A → Prop) (l1 l2 : list A) (x : A) :
  StronglySorted R (l1 ++ x :: l2) → StronglySorted R (l1 ++ l2).
Proof.
  induction l1 as [|y l1 IH]; simpl; intros H.
  - by apply StronglySorted_inv in H as [? _].
  - apply StronglySorted_inv in H as [H Hall]. constructor; [by apply IH|].
    rewrite Forall_app in *. destruct Hall as [? Hall].
    apply Forall_cons in Hall as [_ ?]. done.
Qed.

(** ** [Asks] and [Bids] *)

Lemma inv_price_inj pl st l1 l2 :
  Inv st → l1 ∈ side_of pl (book st) → l2 ∈ side_of pl (book st) →
  Price (limit_at st l1) = Price (limit_at st l2) → l1 = l2.
Proof.
  intros HI H1 H2 Hp.
  assert (map_of pl (book st) !! Price (limit_at st l1) = Some l1) as E1
    by (by apply inv_map).
  assert (map_of pl (book st) !! Price (limit_at st l1) = Some l2) as E2
    by (by apply inv_map).
  congruence.
Qed.

(** ** [DeleteOrder] of an order of the queue *)

Lemma without_middle o q1 q2 :
  o ∉ q1 → without o (q1 ++ o :: q2) ≡ₚ q1 ++ q2.
Proof.
  intros Hnin.
  apply (Permutation_cons_inv (a := o)).
  rewrite without_perm by (apply elem_of_app; right; left).
  by rewrite Permutation_middle.
Qed.

Lemma DeleteOrder_keeps_order l o st q1 q2 :
  l < length (limits st) →
  queue st l = q1 ++ o :: q2 →
  StronglySorted (λ a b, ts_at st a < ts_at st b)%Z (queue st l) →
  queue (DeleteOrder l o st) l = q1 ++ q2.
Proof.
  intros Hl Hq Hs. unfold queue at 1. rewrite DeleteOrder_limit_eq by done. simpl.
  apply (sortBy_perm_sorted (ts_at st)).
  - rewrite Hq. apply without_middle.
    rewrite Hq in Hs. intros Hin.
    apply list_elem_of_lookup_1 in Hin as [i Hi].
    (* o would stand before itself *)
    clear Hq. induction q1 as [|x q1 IH] in i, Hi, Hs |- *; [done|].
    simpl in Hs. apply StronglySorted_inv in Hs as [Hs Hall].
    destruct i as [|i]; simpl in Hi.
    + injection Hi as ->. rewrite Forall_forall in Hall.
      assert (o ∈ q1 ++ o :: q2) as Hin by (apply elem_of_app; right; left).
      specialize (Hall o Hin). lia.
    + by eapply IH.
  - rewrite Hq in Hs. by eapply StronglySorted_middle.
Qed.

Lemma reachable_Indexed st : reachable st → bounded st → Indexed st.
Proof.
  intros (market & cs & ->). induction cs as [|c cs IH] using rev_ind.
  { by intros _ l o [?%elem_of_nil|?%elem_of_nil]. }
  unfold run_ops in *. rewrite foldl_app. simpl. intros Hb.
  set (st := foldl (λ s c, snd (run_op c s)) (init market) cs) in *.
  assert (Inv st) as HI by (apply run_ops_Inv, init_Inv).
  assert (Wf st) as HW by (apply run_ops_Wf; [apply init_Inv | apply init_Wf]).
  apply run_op_Indexed; try done. apply IH.
  pose proof (run_op_length c st). unfold bounded in *. lia.
Qed.

(** The sizes a market order leaves alone: those of the orders that rest
    nowhere on the side it is matched against. *)
Lemma PlaceMarketOrder_size_frame st order :
  Inv st → order < length (orders st) → not_resting st order →
  (Size (order_at st order) ≤ opposingVolume st order)%Z →
  ∀ o, o ≠ order →
    (∀ l, l ∈ side_of (opposite st order) (book st) → o ∉ queue st l) →
    size_at (snd (PlaceMarketOrder order st)) o = size_at st o.
Proof.
  intros HI Ho Hnr Hle.
  assert (∀ pl less,
    let cells := sortBy less (side_of pl (book st)) in
    let st1 := set_book (set_side pl cells (book st)) st in
    ∀ o, o ≠ order → (∀ l, l ∈ side_of pl (book st) → o ∉ queue st l) →
    size_at (snd (marketLoop pl order (length cells) 0 cells [] st1)) o
    = size_at st o) as Hloop.
  { intros pl less cells st1 o Hne Hout.
    assert (cells ≡ₚ side_of pl (book st)) as Hperm by apply sortBy_perm.
    assert (Inv st1) as HI1 by (by apply Inv_side_perm).
    assert (side_of pl (book st1) = cells) as Hs1 by apply side_of_set_side.
    assert (other_side pl (book st1) = other_side pl (book st)) as Hos1
      by apply other_side_set_side.
    assert (∀ l, in_book st1 l ↔ in_book st l) as Hin.
    { intros l. rewrite !(in_book_sides pl), Hs1, Hos1. by rewrite Hperm. }
    pose proof (marketLoop_fifo pl order (length cells) 0 cells [] st1) as H.
    destruct (marketLoop pl order (length cells) 0 cells [] st1) as [ms st'].
    destruct H as [_ Hframe]; [|done|].
    { split; try done.
      - intros l Hl%Hin. by apply Hnr.
      - by rewrite Hs1, firstn_all.
      - simpl. rewrite Hperm. by apply inv_side_nodup.
      - intros x. by rewrite Hs1. }
    simpl. apply Hframe; [done|]. rewrite Hs1. intros l Hl.
    apply Hout. by rewrite <- Hperm. }
  unfold opposingVolume in Hle. unfold PlaceMarketOrder, opposite.
  destruct (String.eqb _ _).
  - destruct (Z.gtb_spec (Size (order_at st order)) (AskTotalVolume st)); [lia|].
    unfold Asks. specialize (Hloop ASK_ORDER (ByBestAsk_Less st)). simpl in Hloop.
    change (side_of ASK_ORDER (book st)) with (asks (book st)) in Hloop.
    intros o Hne Hout. specialize (Hloop o Hne Hout).
    by destruct (marketLoop _ _ _ _ _ _ _) as [ms st'].
  - destruct (Z.gtb_spec (Size (order_at st order)) (BidTotalVolume st)); [lia|].
    unfold Bids. specialize (Hloop BID_ORDER (ByBestBid_Less st)). simpl in Hloop.
    change (side_of BID_ORDER (book st)) with (bids (book st)) in Hloop.
    intros o Hne Hout. specialize (Hloop o Hne Hout).
    by destruct (marketLoop _ _ _ _ _ _ _) as [ms st'].
Qed.

Lemma opposite_NewOrder placement size now st :
  opposite (snd (NewOrder placement size now st)) (length (orders st))
  = if String.eqb placement BID_ORDER then ASK_ORDER else BID_ORDER.
Proof. unfold opposite. by rewrite NewOrder_order_at_new. Qed.

Lemma side_of_opposite placement b :
  side_of (if String.eqb placement BID_ORDER then ASK_ORDER else BID_ORDER) b
  = other_side placement b.
Proof. unfold side_of, other_side. by destruct (String.eqb placement BID_ORDER). Qed.

Lemma other_side_opposite placement b :
  other_side (if String.eqb placement BID_ORDER then ASK_ORDER else BID_ORDER) b
  = side_of placement b.
Proof. unfold side_of, other_side. by destruct (String.eqb placement BID_ORDER). Qed.

Lemma other_map_opposite placement b :
  other_map (if String.eqb placement BID_ORDER then ASK_ORDER else BID_ORDER) b
  = map_of placement b.
Proof. unfold map_of, other_map. by destruct (String.eqb placement BID_ORDER). Qed.

Lemma sideVolume_opposite placement st :
  sideVolume (if String.eqb placement BID_ORDER then ASK_ORDER else BID_ORDER) st
  = otherVolume placement st.
Proof.
  unfold sideVolume, otherVolume, AskTotalVolume, BidTotalVolume.
  rewrite side_of_opposite, !sumVolume_Zsum. unfold other_side.
  by destruct (String.eqb placement BID_ORDER).
Qed.

Lemma run_op_market_accepted placement size now st :
  Inv st → (size ≤ otherVolume placement st)%Z →
  ∃ ms st', run_op (OpMarket placement size now) st = (Matched ms, st') ∧
            market_run placement size now st ms st'.
Proof.
  intros HI Hle.
  set (order := length (orders st)).
  set (st1 := snd (NewOrder placement size now st)).
  assert (Inv st1) as HI1 by (by apply NewOrder_Inv).
  assert (order < length (orders st1)) as Ho
    by (unfold st1, order; simpl; rewrite length_app; simpl; lia).
  assert (not_resting st1 order) as Hnr
    by (by apply newest_not_resting, NewOrder_newest).
  assert (order_at st1 order = mkOrder (wrap64 (orderIdSequence st + 1))
                                 placement size None now) as Hord
    by apply NewOrder_order_at_new.
  pose proof (opposite_NewOrder placement size now st) as Hopp.
  fold st1 order in Hopp.
  assert (Size (order_at st1 order) ≤ opposingVolume st1 order)%Z as Hle1.
  { rewrite opposingVolume_sideVolume, Hopp, sideVolume_opposite, Hord. done. }
  destruct (PlaceMarketOrder_accepts st1 order HI1 Ho Hnr Hle1)
    as (ms & st' & Hpm & Hpost).
  destruct (PlaceMarketOrder_matched st1 order HI1 Ho Hnr Hle1)
    as (ms2 & st2 & Hpm2 & Hmd).
  rewrite Hpm in Hpm2. injection Hpm2 as <- <-.
  pose proof (PlaceMarketOrder_size_frame st1 order HI1 Ho Hnr Hle1) as Hsz.
  pose proof (kept_PlaceMarketOrder order st1) as HK.
  rewrite Hpm in Hsz, HK. simpl in Hsz, HK.
  rewrite Hopp in Hpost, Hmd, Hsz. rewrite Hord in Hmd. simpl in Hmd.
  exists ms, st'. split.
  - change (run_op (OpMarket placement size now) st)
      with (match PlaceMarketOrder order st1 with
            | (inl matches, st2) => (Matched matches, st2)
            | (inr e, st2) => (Failed e, st2)
            end).
    by rewrite Hpm.
  - split; try done.
    intros o Hlt Hout. rewrite Hsz.
    + unfold size_at, st1. by rewrite NewOrder_order_at_old.
    + unfold order. lia.
    + intros l. rewrite side_of_opposite. apply Hout.
Qed.

Lemma run_op_market_rejected placement size now st :
  (size > otherVolume placement st)%Z →
  ∃ e, run_op (OpMarket placement size now) st
       = (Failed e, snd (NewOrder placement size now st)).
Proof.
  intros Hgt.
  set (order := length (orders st)).
  set (st1 := snd (NewOrder placement size now st)).
  assert (order_at st1 order = mkOrder (wrap64 (orderIdSequence st + 1))
                                 placement size None now) as Hord
    by apply NewOrder_order_at_new.
  pose proof (opposite_NewOrder placement size now st) as Hopp.
  fold st1 order in Hopp.
  assert (Size (order_at st1 order) > opposingVolume st1 order)%Z as Hgt1.
  { rewrite opposingVolume_sideVolume, Hopp, sideVolume_opposite, Hord. done. }
  exists (rejection st1 order).
  change (run_op (OpMarket placement size now) st)
    with (match PlaceMarketOrder order st1 with
          | (inl matches, st2) => (Matched matches, st2)
          | (inr e, st2) => (Failed e, st2)
          end).
  by rewrite (PlaceMarketOrder_reject_eq st1 order Hgt1).
Qed.

Lemma ownVolume_sideVolume placement st :
  ownVolume placement st = sideVolume placement st.
Proof.
  unfold ownVolume, sideVolume, AskTotalVolume, BidTotalVolume, side_of.
  destruct (String.eqb placement BID_ORDER); by rewrite sumVolume_Zsum.
Qed.

Lemma Asks_strict st :
  Inv st →
  StronglySorted (λ a b, Price (limit_at st a) < Price (limit_at st b))%Z
                 (fst (Asks st)).
Proof.
  intros HI. simpl.
  apply (StronglySorted_strict (λ l, Price (limit_at st l))).
  - apply Asks_sorted.
  - rewrite sortBy_perm. apply HI.
  - intros a b Ha Hb. rewrite sortBy_perm in Ha, Hb.
    by apply (inv_price_inj ASK_ORDER st a b HI).
Qed.

Lemma Bids_strict st :
  Inv st →
  StronglySorted (λ a b, Price (limit_at st b) < Price (limit_at st a))%Z
                 (fst (Bids st)).
Proof.
  intros HI. simpl.
  eapply StronglySorted_impl;
    [|apply (StronglySorted_strict (λ l, - Price (limit_at st l))%Z)].
  - intros a b. simpl. lia.
  - eapply StronglySorted_impl; [|apply Bids_sorted]. intros a b. simpl. lia.
  - rewrite sortBy_perm. apply HI.
  - intros a b Ha Hb Hp. rewrite sortBy_perm in Ha, Hb.
    apply (inv_price_inj BID_ORDER st a b HI); try done. lia.
Qed.

(** * Beyond the claims *)

(** X1 ([Asks], [Bids], [ByBestAsk.Less], [ByBestBid.Less]).  In a reachable
    state [Asks] returns the limits of the ask side in strictly increasing
    price order and [Bids] those of the bid side in strictly decreasing price
    order; each is a rearrangement of its side, and a second call returns
    the same slice and changes nothing. *)
Theorem Asks_Bids_best_price_first (st : State) :
  reachable st →
  StronglySorted (λ a b, Price (limit_at st a) < Price (limit_at st b))%Z
                 (fst (Asks st)) ∧
  StronglySorted (λ a b, Price (limit_at st a) > Price (limit_at st b))%Z
                 (fst (Bids st)) ∧
  fst (Asks st) ≡ₚ asks (book st) ∧
  fst (Bids st) ≡ₚ bids (book st) ∧
  Asks (snd (Asks st)) = Asks st ∧
  Bids (snd (Bids st)) = Bids st.
Proof.
  intros HI%reachable_Inv.
  pose proof (Asks_strict st HI) as Ha. pose proof (Bids_strict st HI) as Hb.
  split; [done|]. split.
  { eapply StronglySorted_impl; [|exact Hb]. intros a b. simpl. lia. }
  split; [apply sortBy_perm|]. split; [apply sortBy_perm|].
  assert (sortBy (ByBestAsk_Less (snd (Asks st))) (fst (Asks st)) = fst (Asks st))
    as Ea.
  { apply sortBy_id. eapply StronglySorted_impl; [|exact Ha].
    intros a b Hlt. simpl in Hlt. unfold ByBestAsk_Less.
    change (limit_at (snd (Asks st)) ?l) with (limit_at st l).
    apply Z.ltb_ge. lia. }
  assert (sortBy (ByBestBid_Less (snd (Bids st))) (fst (Bids st)) = fst (Bids st))
    as Eb.
  { apply sortBy_id. eapply StronglySorted_impl; [|exact Hb].
    intros a b Hlt. simpl in Hlt. unfold ByBestBid_Less.
    change (limit_at (snd (Bids st)) ?l) with (limit_at st l).
    destruct (Z.gtb_spec (Price (limit_at st b)) (Price (limit_at st a))); [lia|done]. }
  split.
  - unfold Asks at 1. simpl in *. by rewrite Ea.
  - unfold Bids at 1. simpl in *. by rewrite Eb.
Qed.

Lemma Asks_Bids_best_price_first_witness :
  StronglySorted (λ a b, Price (limit_at sixOrders a) < Price (limit_at sixOrders b))%Z
                 (fst (Asks sixOrders)) ∧
  StronglySorted (λ a b, Price (limit_at sixOrders a) > Price (limit_at sixOrders b))%Z
                 (fst (Bids sixOrders)) ∧
  fst (Asks sixOrders) ≡ₚ asks (book sixOrders) ∧
  fst (Bids sixOrders) ≡ₚ bids (book sixOrders) ∧
  Asks (snd (Asks sixOrders)) = Asks sixOrders ∧
  Bids (snd (Bids sixOrders)) = Bids sixOrders.
Proof.
  apply (Asks_Bids_best_price_first sixOrders).
  eexists "ETH", _. reflexivity.
Defined.

(** In exact arithmetic
    ([PlaceMarketOrder], [Asks], [Bids]).  Price priority: the matches of a
    market order come best price first (lowest ask first for a bid, highest
    bid first otherwise), and no limit left on the opposing side has a better
    price than any of the matches. *)
Lemma market_order_price_priority
    (st : State) (placement : string) (size now : Z) :
  reachable st →
  let r := run_op (OpMarket placement size now) st in
  StronglySorted (priceOrder placement) (map MatchPrice (matches_of (fst r))) ∧
  ∀ l mt, l ∈ other_side placement (book (snd r)) → mt ∈ matches_of (fst r) →
    priceOrder placement (MatchPrice mt) (Price (limit_at (snd r) l)).
Proof.
  intros HI%reachable_Inv r.
  destruct (decide (size ≤ otherVolume placement st)%Z) as [Hle|Hgt].
  - destruct (run_op_market_accepted placement size now st HI Hle)
      as (ms & st' & Hrun & [_ Hmd _ HK]).
    unfold r. rewrite Hrun. simpl.
    destruct Hmd as [_ _ _ _ Hs Hleft]. destruct HK as [_ _ _ _ _ _ _ Kp _].
    split; [done|]. intros l mt Hl Hmt. rewrite Kp.
    apply Hleft; [|done]. by rewrite side_of_opposite.
  - destruct (run_op_market_rejected placement size now st ltac:(lia)) as [e Hrun].
    unfold r. rewrite Hrun. simpl. split; [constructor|].
    by intros l mt _ ?%elem_of_nil.
Qed.

(** In exact arithmetic
    ([PlaceMarketOrder], [Limit.Fill], [Limit.fillOrder]).  A market order
    that is not larger than the opposing volume is filled completely: the
    sizes of its matches add up to its size, it ends with size 0, and the
    opposing volume drops by exactly its size.  This holds for a size of 0 or
    more, and also for a negative size when the opposing side is not empty:
    the opposing volume then grows. *)
Lemma market_order_filled_completely
    (st : State) (placement : string) (size now : Z) :
  reachable st →
  (size ≤ otherVolume placement st)%Z →
  (0 ≤ size)%Z ∨ other_side placement (book st) ≠ [] →
  let r := run_op (OpMarket placement size now) st in
  (∃ matches, fst r = Matched matches ∧ filledTotal matches = size) ∧
  size_at (snd r) (length (orders st)) = 0%Z ∧
  otherVolume placement (snd r) = (otherVolume placement st - size)%Z.
Proof.
  intros Hr Hle Hcase r.
  pose proof (reachable_Inv st Hr) as HI.
  pose proof (reachable_NonEmpty st Hr) as HN.
  destruct (run_op_market_accepted placement size now st HI Hle)
    as (ms & st' & Hrun & [Hpost Hmd _ _]).
  unfold r. rewrite Hrun. simpl.
  set (st1 := snd (NewOrder placement size now st)) in *.
  set (order := length (orders st)) in *.
  assert (size_at st1 order = size) as Hsize.
  { unfold size_at, st1, order. by rewrite NewOrder_order_at_new. }
  destruct Hpost as [_ _ _ _ _ _ _ _ _ Hcons _ Hexit _ _].
  destruct Hmd as [Htot _ _ Hnn _ _].
  rewrite !sideVolume_opposite, Hsize in *. rewrite side_of_opposite in *.
  change (otherVolume placement st1) with (otherVolume placement st) in *.
  assert (0 ≤ size_at st' order)%Z as Hge.
  { apply Hnn. destruct Hcase as [?|Hne]; [by left|]. right. split; [done|].
    intros l Hl. apply (HN l), (in_book_sides placement). by right. }
  assert (size_at st' order = 0%Z) as H0.
  { destruct Hexit as [?|Hnil]; [done|].
    assert (otherVolume placement st' = 0%Z) as Hv.
    { rewrite <- sideVolume_opposite. unfold sideVolume.
      by rewrite side_of_opposite, Hnil. }
    lia. }
  split; [exists ms; split; [done | lia]|]. split; [done | lia].
Qed.

(** X4 ([PlaceMarketOrder], [Limit.Fill], [Limit.fillOrder]).  Every match of
    a market order pairs the incoming order, on the side of its placement,
    with an order that was resting in a limit of the opposing side, at the
    price of that limit; for a bid the resting order is an ask, for an ask
    it is a bid. *)
Theorem market_order_matches_resting_orders
    (st : State) (placement : string) (size now : Z) (mt : Match) :
  reachable st →
  let r := run_op (OpMarket placement size now) st in
  mt ∈ matches_of (fst r) →
  incoming_side placement mt = length (orders st) ∧
  ∃ l, l ∈ other_side placement (book st) ∧
       resting_side placement mt ∈ queue st l ∧
       MatchPrice mt = Price (limit_at st l) ∧
       OrderPlacement (order_at st (resting_side placement mt))
       = (if String.eqb placement BID_ORDER then ASK_ORDER else BID_ORDER).
Proof.
  intros Hr r. pose proof (reachable_Inv st Hr) as HI.
  pose proof (reachable_Wf st Hr) as [_ _ _ Hb Ha].
  destruct (decide (size ≤ otherVolume placement st)%Z) as [Hle|Hgt].
  - destruct (run_op_market_accepted placement size now st HI Hle)
      as (ms & st' & Hrun & [_ Hmd _ _]).
    unfold r. rewrite Hrun. simpl. destruct Hmd as [_ Hinc Hrest _ _ _].
    intros Hmt. specialize (Hinc mt Hmt).
    destruct (Hrest mt Hmt) as (l & Hl & Hq & Hp).
    rewrite NewOrder_order_at_new in Hinc. simpl in Hinc.
    unfold resting_of in Hq. rewrite NewOrder_order_at_new in Hq. simpl in Hq.
    fold (resting_side placement mt) in Hq.
    rewrite side_of_opposite in Hl.
    change (book (snd (NewOrder placement size now st))) with (book st) in Hl.
    change (queue (snd (NewOrder placement size now st)) l) with (queue st l) in Hq.
    change (limit_at (snd (NewOrder placement size now st)) l)
      with (limit_at st l) in Hp.
    split; [done|]. exists l. repeat split; try done.
    unfold other_side in Hl. destruct (String.eqb placement BID_ORDER).
    + by apply (Ha l).
    + by apply (Hb l).
  - destruct (run_op_market_rejected placement size now st ltac:(lia)) as [e Hrun].
    unfold r. rewrite Hrun. simpl. by intros ?%elem_of_nil.
Qed.

Lemma market_order_matches_resting_orders_witness :
  let r := run_op (OpMarket BID_ORDER 500 7) sixOrders in
  mkMatch 2 6 100 10000 ∈ matches_of (fst r) ∧
  incoming_side BID_ORDER (mkMatch 2 6 100 10000) = length (orders sixOrders) ∧
  ∃ l, l ∈ other_side BID_ORDER (book sixOrders) ∧
       resting_side BID_ORDER (mkMatch 2 6 100 10000) ∈ queue sixOrders l ∧
       MatchPrice (mkMatch 2 6 100 10000) = Price (limit_at sixOrders l) ∧
       OrderPlacement (order_at sixOrders (resting_side BID_ORDER (mkMatch 2 6 100 10000)))
       = (if String.eqb BID_ORDER BID_ORDER then ASK_ORDER else BID_ORDER).
Proof.
  assert (reachable sixOrders) as Hr by (eexists "ETH", _; reflexivity).
  assert (mkMatch 2 6 100 10000
          ∈ matches_of (fst (run_op (OpMarket BID_ORDER 500 7) sixOrders))) as Hin
    by (apply list_elem_of_In; vm_compute; auto).
  split; [exact Hin|].
  exact (market_order_matches_resting_orders sixOrders BID_ORDER 500 7
           (mkMatch 2 6 100 10000) Hr Hin).
Defined.

(** X5 ([PlaceMarketOrder]).  A market order, accepted or not, leaves its own
    side alone (the slice, the price map, every limit of the side and the
    size of every order resting there), never enters [OrderIndex] and never
    rests in the book. *)
Theorem market_order_leaves_own_side
    (st : State) (placement : string) (size now : Z) :
  reachable st →
  let r := run_op (OpMarket placement size now) st in
  side_of placement (book (snd r)) = side_of placement (book st) ∧
  map_of placement (book (snd r)) = map_of placement (book st) ∧
  (∀ l, l ∈ side_of placement (book st) →
     limit_at (snd r) l = limit_at st l ∧
     ∀ o, o ∈ queue st l → size_at (snd r) o = size_at st o) ∧
  OrderIndex (snd r) = OrderIndex st ∧
  not_resting (snd r) (length (orders st)).
Proof.
  intros Hr r. pose proof (reachable_Inv st Hr) as HI.
  destruct (decide (size ≤ otherVolume placement st)%Z) as [Hle|Hgt].
  - destruct (run_op_market_accepted placement size now st HI Hle)
      as (ms & st' & Hrun & [Hpost _ Hsz _]).
    unfold r. rewrite Hrun. simpl.
    destruct Hpost as [_ _ Hnr Hos Hom Hix _ _ Hframe _ _ _ _ _].
    rewrite !other_side_opposite in Hos. rewrite !other_map_opposite in Hom.
    repeat split; try done.
    + apply Hframe. rewrite side_of_opposite. intros Hl'.
      by apply (inv_side_other placement st l).
    + intros o Ho. apply Hsz.
      * apply (inv_queue_alloc _ HI l); [by eapply side_of_in_book | done].
      * intros l' Hl' Ho'.
        assert (l' = l) as ->.
        { apply (inv_queue_disjoint _ HI l' l o); try done.
          - apply (in_book_sides placement). by right.
          - by eapply side_of_in_book. }
        by apply (inv_side_other placement st l).
  - destruct (run_op_market_rejected placement size now st ltac:(lia)) as [e Hrun].
    unfold r. rewrite Hrun.
    repeat split; try done.
    + intros o Ho.
      change (size_at (snd (NewOrder placement size now st)) o = size_at st o).
      unfold size_at. rewrite NewOrder_order_at_old; [done|].
      apply (inv_queue_alloc _ HI l); [by eapply side_of_in_book | done].
    + apply newest_not_resting. by apply NewOrder_newest.
Qed.

Lemma market_order_leaves_own_side_witness :
  let r := run_op (OpMarket BID_ORDER 500 7) sixOrders in
  side_of BID_ORDER (book (snd r)) = side_of BID_ORDER (book sixOrders) ∧
  map_of BID_ORDER (book (snd r)) = map_of BID_ORDER (book sixOrders) ∧
  (∀ l, l ∈ side_of BID_ORDER (book sixOrders) →
     limit_at (snd r) l = limit_at sixOrders l ∧
     ∀ o, o ∈ queue sixOrders l → size_at (snd r) o = size_at sixOrders o) ∧
  OrderIndex (snd r) = OrderIndex sixOrders ∧
  not_resting (snd r) (length (orders sixOrders)).
Proof.
  apply (market_order_leaves_own_side sixOrders BID_ORDER 500 7).
  eexists "ETH", _. reflexivity.
Defined.

(** X6 ([NewOrder]).  Ids are handed out in sequence: as long as fewer than
    [2^63] orders have been created, the counter equals the number of orders
    created and the order created in position [o] (from 0) has id [o + 1],
    whether its placement succeeded or not; so no two orders share an id. *)
Theorem order_ids_are_sequential (st : State) :
  reachable st → bounded st →
  orderIdSequence st = Z.of_nat (length (orders st)) ∧
  (∀ o, o < length (orders st) → ID (order_at st o) = (Z.of_nat o + 1)%Z) ∧
  (∀ o1 o2, o1 < length (orders st) → o2 < length (orders st) →
     ID (order_at st o1) = ID (order_at st o2) → o1 = o2).
Proof.
  intros HW%reachable_Wf Hb. split; [|split].
  - destruct HW as [Hseq _ _ _ _]. rewrite Hseq. unfold bounded in Hb.
    apply wrap64_small. lia.
  - intros o Ho. by apply Wf_id_small.
  - intros o1 o2. by apply Wf_id_inj.
Qed.

Lemma order_ids_are_sequential_witness :
  orderIdSequence sixOrders = Z.of_nat (length (orders sixOrders)) ∧
  (∀ o, o < length (orders sixOrders) →
     ID (order_at sixOrders o) = (Z.of_nat o + 1)%Z) ∧
  (∀ o1 o2, o1 < length (orders sixOrders) → o2 < length (orders sixOrders) →
     ID (order_at sixOrders o1) = ID (order_at sixOrders o2) → o1 = o2).
Proof.
  apply (order_ids_are_sequential sixOrders).
  - eexists "ETH", _. reflexivity.
  - unfold bounded. vm_compute. reflexivity.
Defined.

(** X7 ([PlaceLimitOrder], [CancelOrderByID], [OrderIndex]).  In a reachable
    state every entry of [OrderIndex] is filed under the id of the order it
    points to, that order exists, and the entry names the market of the
    book. *)
Theorem index_entries_point_to_their_order
    (st : State) (id : Z) (md : OrderMetadata) :
  reachable st → OrderIndex st !! id = Some md →
  MetaOrder md < length (orders st) ∧
  ID (order_at st (MetaOrder md)) = id ∧
  MetaMarket md = Market (book st).
Proof. intros [_ _ Hix _ _]%reachable_Wf. apply Hix. Qed.

Lemma index_entries_point_to_their_order_witness :
  OrderIndex sixOrders !! 3%Z = Some (mkOrderMetadata 2 "ETH") ∧
  MetaOrder (mkOrderMetadata 2 "ETH") < length (orders sixOrders) ∧
  ID (order_at sixOrders (MetaOrder (mkOrderMetadata 2 "ETH"))) = 3%Z ∧
  MetaMarket (mkOrderMetadata 2 "ETH") = Market (book sixOrders).
Proof.
  assert (reachable sixOrders) as Hr by (eexists "ETH", _; reflexivity).
  assert (OrderIndex sixOrders !! 3%Z = Some (mkOrderMetadata 2 "ETH")) as Hix
    by (vm_compute; reflexivity).
  split; [exact Hix|].
  exact (index_entries_point_to_their_order sixOrders 3 _ Hr Hix).
Defined.

(** X8 ([PlaceLimitOrder], [CancelOrderByID], [Limit.Fill]).  As long as fewer
    than [2^63] orders have been created, every order resting in the book is
    found in [OrderIndex] under its id, with the market of the book. *)
Theorem resting_orders_are_indexed (st : State) (l o : nat) :
  reachable st → bounded st → in_book st l → o ∈ queue st l →
  OrderIndex st !! ID (order_at st o)
  = Some (mkOrderMetadata o (Market (book st))).
Proof. intros Hr Hb. by apply reachable_Indexed. Qed.

Lemma resting_orders_are_indexed_witness :
  OrderIndex sixOrders !! ID (order_at sixOrders 3)
  = Some (mkOrderMetadata 3 (Market (book sixOrders))).
Proof.
  apply (resting_orders_are_indexed sixOrders 1 3).
  - eexists "ETH", _. reflexivity.
  - unfold bounded. vm_compute. reflexivity.
  - left. apply list_elem_of_In. vm_compute. auto.
  - apply list_elem_of_In. vm_compute. auto.
Defined.

(** X9 ([PlaceLimitOrder], [PlaceMarketOrder], [CancelOrderByID]).  In a
    reachable state an order rests on the side of its placement: the orders
    queued in the limits of [bids] are bids, those in the limits of [asks]
    are asks. *)
Theorem orders_rest_on_their_side (st : State) (l o : nat) :
  reachable st → o ∈ queue st l →
  (l ∈ bids (book st) → OrderPlacement (order_at st o) = BID_ORDER) ∧
  (l ∈ asks (book st) → OrderPlacement (order_at st o) = ASK_ORDER).
Proof.
  intros [_ _ _ Hb Ha]%reachable_Wf Ho. split; intros Hl; [by apply (Hb l) | by apply (Ha l)].
Qed.

Lemma orders_rest_on_their_side_witness :
  (1 ∈ bids (book sixOrders) → OrderPlacement (order_at sixOrders 3) = BID_ORDER) ∧
  (1 ∈ asks (book sixOrders) → OrderPlacement (order_at sixOrders 3) = ASK_ORDER).
Proof.
  apply (orders_rest_on_their_side sixOrders 1 3).
  - eexists "ETH", _. reflexivity.
  - apply list_elem_of_In. vm_compute. auto.
Defined.

(** Below the bound, the loops of [CancelOrderByID] find the order that has
    the id, where it rests. *)
Lemma findLimitOrder_resting pl st l o :
  Inv st → Wf st → bounded st →
  l ∈ side_of pl (book st) → o ∈ queue st l →
  findLimitOrder st (ID (order_at st o)) (side_of pl (book st)) = Some (l, o).
Proof.
  intros HI HW Hb Hl Ho.
  destruct (findLimitOrder st (ID (order_at st o)) (side_of pl (book st)))
    as [[l' o']|] eqn:Hf.
  - apply findLimitOrder_Some in Hf as (Hl' & Ho' & Hid).
    assert (in_book st l) as Hlb by (by eapply side_of_in_book).
    assert (in_book st l') as Hlb' by (by eapply side_of_in_book).
    assert (o' = o) as ->.
    { apply (Wf_id_inj st); try done;
        [by apply (inv_queue_alloc _ HI l') | by apply (inv_queue_alloc _ HI l)]. }
    assert (l' = l) as -> by (by eapply (inv_queue_disjoint _ HI)).
    done.
  - exfalso. rewrite findLimitOrder_None in Hf. by apply (Hf l o).
Qed.

Lemma cancelled_sideVolume pl limit order st st' :
  Inv st → limit ∈ side_of pl (book st) →
  cancelled pl limit order st st' →
  sideVolume pl st' = (sideVolume pl st - size_at st order)%Z.
Proof.
  intros HI Hl [HI' _ _ _ _ Hvol Hlim _ _ Hkeep Hdrop _ _]. unfold sideVolume.
  pose proof (inv_side_nodup pl st HI) as Hnd.
  destruct (decide (TotalVolume (limit_at st' limit) = 0%Z)) as [H0|Hn0].
  - destruct (Hdrop H0) as [Hperm _].
    rewrite <- (Zsum_perm _ _ _ Hperm). simpl.
    rewrite <- Hperm in Hnd. apply NoDup_cons in Hnd as [Hnin _].
    rewrite (Zsum_ext (λ l, TotalVolume (limit_at st' l))
               (λ l, TotalVolume (limit_at st l))); [lia|].
    intros l Hl'. rewrite Hlim; [done|]. by intros ->.
  - destruct (Hkeep Hn0) as [-> _].
    apply (Zsum_change _ _ _ limit); try done.
    intros l _ Hne. by rewrite Hlim.
Qed.

Lemma CancelOrderByID_resting pl st l o :
  Inv st → Wf st → bounded st →
  l ∈ side_of pl (book st) → o ∈ queue st l →
  ∃ st', CancelOrderByID (ID (order_at st o)) pl st = (None, st') ∧
         cancelled pl l o st st' ∧ not_resting st' o.
Proof.
  intros HI HW Hb Hl Ho.
  assert (in_book st l) as Hlb by (by eapply side_of_in_book).
  assert (o < length (orders st)) as Hoa by (by eapply (inv_queue_alloc _ HI)).
  pose proof (findLimitOrder_resting pl st l o HI HW Hb Hl Ho) as Hf.
  destruct (CancelOrderByID_found _ pl st l o HI Hoa Hf) as (st' & Heq & HC).
  exists st'. split; [done|]. split; [done|].
  destruct HC as [HI' Hix Hos _ Hq Hvol Hlim Hsz _ Hkeep Hdrop _ _].
  assert (∀ l', l' ∈ side_of pl (book st') → l' ∈ side_of pl (book st)) as Hsub.
  { intros l' Hl'.
    destruct (decide (TotalVolume (limit_at st' l) = 0%Z)) as [H0|Hn0].
    - destruct (Hdrop H0) as [Hperm _]. rewrite <- Hperm. by right.
    - destruct (Hkeep Hn0) as [<- _]. done. }
  intros l' Hl'. destruct (decide (l' = l)) as [->|Hne].
  - pose proof (inv_queue_nodup _ HI l Hlb) as Hnd.
    rewrite <- Hq in Hnd. by apply NoDup_cons in Hnd as [? _].
  - unfold queue. rewrite Hlim by done. intros Ho'. apply Hne.
    apply (inv_queue_disjoint _ HI l' l o); try done.
    apply (in_book_sides pl). apply (in_book_sides pl) in Hl' as [?|?].
    + left. by apply Hsub.
    + right. by rewrite <- Hos.
Qed.

(** In exact arithmetic
    ([CancelOrderByID], [Limit.DeleteOrder], [deleteLimit]).  Cancelling
    a resting order by its id, on its side, succeeds as long as fewer than
    [2^63] orders have been created: the order rests nowhere afterwards, its
    id is gone from [OrderIndex], the total volume of the side drops by its
    residual size, no order changes size and no other limit changes.  Its
    limit stays, with the other orders of the queue, unless no volume is left
    in it, in which case the limit leaves the side. *)
Lemma cancel_removes_the_order (st : State) (placement : string) (l o : nat) :
  reachable st → bounded st →
  l ∈ side_of placement (book st) → o ∈ queue st l →
  let r := run_op (OpCancel (ID (order_at st o)) placement) st in
  fst r = Cancelled ∧
  not_resting (snd r) o ∧
  OrderIndex (snd r) = delete (ID (order_at st o)) (OrderIndex st) ∧
  ownVolume placement (snd r) = (ownVolume placement st - size_at st o)%Z ∧
  (∀ o', size_at (snd r) o' = size_at st o') ∧
  (∀ l', l' ≠ l → limit_at (snd r) l' = limit_at st l') ∧
  other_side placement (book (snd r)) = other_side placement (book st) ∧
  o :: queue (snd r) l ≡ₚ queue st l ∧
  (TotalVolume (limit_at st l) ≠ size_at st o →
     side_of placement (book (snd r)) = side_of placement (book st)) ∧
  (TotalVolume (limit_at st l) = size_at st o →
     l :: side_of placement (book (snd r)) ≡ₚ side_of placement (book st)).
Proof.
  intros Hr Hb Hl Ho r.
  pose proof (reachable_Inv st Hr) as HI. pose proof (reachable_Wf st Hr) as HW.
  destruct (CancelOrderByID_resting placement st l o HI HW Hb Hl Ho)
    as (st' & Heq & HC & Hnr).
  pose proof (cancelled_sideVolume placement l o st st' HI Hl HC) as Hsv.
  assert (r = (Cancelled, st')) as -> by (unfold r; simpl; by rewrite Heq).
  simpl.
  destruct HC as [HI' Hix Hos _ Hq Hvol Hlim Hsz _ Hkeep Hdrop _ _].
  split; [done|]. split; [done|].
  split; [done|]. split; [by rewrite !ownVolume_sideVolume|].
  repeat split; try done.
  - intros Hne. apply Hkeep. lia.
  - intros Heq'. apply Hdrop. lia.
Qed.

(** X11 ([CancelOrderByID]).  Cancelling the id of a resting order on the
    other side than the one it rests on finds nothing: the call returns
    [ErrNotFound] and changes nothing (as long as fewer than [2^63] orders
    have been created). *)
Theorem cancel_on_the_other_side_finds_nothing
    (st : State) (placement : string) (l o : nat) :
  reachable st → bounded st →
  l ∈ other_side placement (book st) → o ∈ queue st l →
  run_op (OpCancel (ID (order_at st o)) placement) st = (Failed ErrNotFound, st).
Proof.
  intros Hr Hb Hl Ho.
  pose proof (reachable_Inv st Hr) as HI. pose proof (reachable_Wf st Hr) as HW.
  assert (in_book st l) as Hlb by (apply (in_book_sides placement); by right).
  assert (findLimitOrder st (ID (order_at st o)) (side_of placement (book st)) = None)
    as Hf.
  { apply findLimitOrder_None. intros l' o' Hl' Ho' Hid.
    assert (in_book st l') as Hlb' by (by eapply side_of_in_book).
    assert (o' = o) as ->.
    { apply (Wf_id_inj st); try done;
        [by apply (inv_queue_alloc _ HI l') | by apply (inv_queue_alloc _ HI l)]. }
    assert (l' = l) as -> by (by eapply (inv_queue_disjoint _ HI)).
    by apply (inv_side_other placement st l). }
  simpl. unfold CancelOrderByID. by rewrite Hf.
Qed.

Lemma cancel_on_the_other_side_finds_nothing_witness :
  run_op (OpCancel (ID (order_at sixOrders 3)) BID_ORDER) sixOrders
  = (Failed ErrNotFound, sixOrders).
Proof.
  apply (cancel_on_the_other_side_finds_nothing sixOrders BID_ORDER 1 3).
  - eexists "ETH", _. reflexivity.
  - unfold bounded. vm_compute. reflexivity.
  - apply list_elem_of_In. vm_compute. auto.
  - apply list_elem_of_In. vm_compute. auto.
Defined.

(** A limit order as the handler issues it. *)
Lemma run_op_limit_placed placement size price now st :
  Inv st → placement = BID_ORDER ∨ placement = ASK_ORDER →
  ∃ limit st', run_op (OpLimit placement size price now) st = (Placed, st') ∧
    placed placement price (length (orders st)) limit
           (snd (NewOrder placement size now st)) st'.
Proof.
  intros HI Hpl.
  set (order := length (orders st)).
  set (st1 := snd (NewOrder placement size now st)).
  assert (Inv st1) as HI1 by (by apply NewOrder_Inv).
  assert (order < length (orders st1)) as Ho
    by (unfold st1, order; simpl; rewrite length_app; simpl; lia).
  assert (newest st1 order) as Hnew by (by apply NewOrder_newest).
  assert (order_at st1 order = mkOrder (wrap64 (orderIdSequence st + 1))
                                 placement size None now) as Hord
    by apply NewOrder_order_at_new.
  destruct (PlaceLimitOrder_spec price order st1 HI1 Ho Hnew)
    as (limit & st' & Heq & HP).
  { by rewrite Hord. }
  rewrite Hord in HP. simpl in HP.
  exists limit, st'. split; [|done].
  change (run_op (OpLimit placement size price now) st)
    with (match PlaceLimitOrder price order st1 with
          | (None, st2) => (Placed, st2)
          | (Some e, st2) => (Failed e, st2)
          end).
  by rewrite Heq.
Qed.

Lemma run_op_limit_invalid placement size price now st :
  ¬ (placement = BID_ORDER ∨ placement = ASK_ORDER) →
  run_op (OpLimit placement size price now) st
  = (Failed ErrInvalidPlacement, snd (NewOrder placement size now st)).
Proof.
  intros Hpl.
  change (run_op (OpLimit placement size price now) st)
    with (match PlaceLimitOrder price (length (orders st))
                  (snd (NewOrder placement size now st)) with
          | (None, st2) => (Placed, st2)
          | (Some e, st2) => (Failed e, st2)
          end).
  rewrite PlaceLimitOrder_unfold. cbv zeta.
  rewrite NewOrder_order_at_new. cbn [OrderPlacement].
  apply not_iff_compat with (1 := valid_placement_cases _) in Hpl.
  apply not_false_is_true in Hpl. by rewrite Hpl.
Qed.

Lemma placed_sideVolume pl price order limit st st' :
  Inv st → placed pl price order limit st st' →
  sideVolume pl st' = (sideVolume pl st + size_at st order)%Z.
Proof.
  intros HI HP.
  pose proof (placed_limit_in _ _ _ _ _ _ HP) as Hin.
  destruct HP as [HI' Hfound Hfresh Hside _ _ _ _ _ _ Hvol Hlim _ _ _ _ _].
  unfold sideVolume. rewrite Hside in *.
  assert (∀ l, l ∈ side_of pl (book st) → l ≠ limit →
            TotalVolume (limit_at st' l) = TotalVolume (limit_at st l)) as Hold.
  { intros l Hl Hne. rewrite Hlim; [done | done |].
    apply (inv_limit_alloc _ HI). by eapply side_of_in_book. }
  destruct (map_of pl (book st) !! price) as [l0|] eqn:Hm.
  - pose proof (Zsum_change (λ l, TotalVolume (limit_at st l))
                  (λ l, TotalVolume (limit_at st' l)) (side_of pl (book st)) limit
                  (- size_at st order)%Z (inv_side_nodup pl st HI) Hin) as H.
    rewrite H; [lia | lia |]. intros l Hl Hne. by apply Hold.
  - rewrite Zsum_app. simpl. rewrite Hvol.
    specialize (Hfresh eq_refl).
    rewrite (limit_at_unallocated st limit) by lia. simpl.
    rewrite (Zsum_ext (λ l, TotalVolume (limit_at st' l))
               (λ l, TotalVolume (limit_at st l))); [lia|].
    intros l Hl. apply Hold; [done|]. intros ->.
    assert (limit < length (limits st)); [|lia].
    apply (inv_limit_alloc _ HI). by eapply side_of_in_book.
Qed.

Lemma book_ext pl (b b' : OrderBook) :
  Market b = Market b' →
  side_of pl b = side_of pl b' → other_side pl b = other_side pl b' →
  map_of pl b = map_of pl b' → other_map pl b = other_map pl b' →
  b = b'.
Proof.
  destruct b, b'. unfold side_of, other_side, map_of, other_map. simpl.
  destruct (String.eqb pl BID_ORDER); congruence.
Qed.

Lemma without_last o q : o ∉ q → without o (q ++ [o]) = q.
Proof.
  intros Hnin. unfold without.
  assert (find_index o (q ++ [o]) = Some (length q)) as ->.
  { induction q as [|x q IH]; simpl.
    - by rewrite decide_True.
    - rewrite decide_False by (intros ->; apply Hnin; left).
      rewrite IH; [done|]. intros ?. apply Hnin. by right. }
  unfold swap_delete. rewrite length_app. simpl.
  replace (length q + 1 - 1) with (length q) by lia.
  rewrite lookup_app_r, Nat.sub_diag by lia. simpl.
  rewrite insert_app_r_alt, Nat.sub_diag by lia. simpl.
  by rewrite take_app_length.
Qed.

Lemma swap_delete_last (s : list nat) x : swap_delete (length s) (s ++ [x]) = s.
Proof.
  unfold swap_delete. rewrite length_app. simpl.
  replace (length s + 1 - 1) with (length s) by lia.
  rewrite lookup_app_r, Nat.sub_diag by lia. simpl.
  rewrite insert_app_r_alt, Nat.sub_diag by lia. simpl.
  by rewrite take_app_length.
Qed.

(** In exact arithmetic
    ([PlaceLimitOrder], [Limit.AddOrder], [NewLimit]).  A limit order with
    a valid placement always succeeds and rests at its price: the price map of
    its side has a limit at that price, the order is the last of its queue,
    behind the orders that were there, the volume of the limit and the total
    volume of the side grow by its size, the order is filed in [OrderIndex]
    under its id, and no other limit of the book changes.  If the side had no
    limit at the price, a new one is appended to the side. *)
Lemma limit_order_rests_at_its_price
    (st : State) (placement : string) (size price now : Z) :
  reachable st → placement = BID_ORDER ∨ placement = ASK_ORDER →
  let r := run_op (OpLimit placement size price now) st in
  let order := length (orders st) in
  fst r = Placed ∧
  ∃ limit,
    map_of placement (book (snd r)) !! price = Some limit ∧
    limit ∈ side_of placement (book (snd r)) ∧
    Price (limit_at (snd r) limit) = price ∧
    size_at (snd r) order = size ∧
    OrderLimit (order_at (snd r) order) = Some limit ∧
    OrderIndex (snd r) !! ID (order_at (snd r) order)
    = Some (mkOrderMetadata order (Market (book st))) ∧
    ownVolume placement (snd r) = (ownVolume placement st + size)%Z ∧
    (∀ l, in_book st l → l ≠ limit → limit_at (snd r) l = limit_at st l) ∧
    match map_of placement (book st) !! price with
    | Some l0 =>
      limit = l0 ∧
      side_of placement (book (snd r)) = side_of placement (book st) ∧
      queue (snd r) limit = queue st limit ++ [order] ∧
      TotalVolume (limit_at (snd r) limit)
      = (TotalVolume (limit_at st limit) + size)%Z
    | None =>
      side_of placement (book (snd r)) = side_of placement (book st) ++ [limit] ∧
      queue (snd r) limit = [order] ∧
      TotalVolume (limit_at (snd r) limit) = size
    end.
Proof.
  intros Hr Hpl r order. subst order. pose proof (reachable_Inv st Hr) as HI.
  destruct (run_op_limit_placed placement size price now st HI Hpl)
    as (limit & st' & Hrun & HP).
  unfold r. rewrite Hrun. simpl.
  set (st1 := snd (NewOrder placement size now st)) in *.
  assert (Inv st1) as HI1 by (by apply NewOrder_Inv).
  pose proof (placed_limit_in _ _ _ _ _ _ HP) as Hin.
  pose proof (placed_sideVolume _ _ _ _ _ _ HI1 HP) as Hsv.
  destruct HP as [HI' Hfound Hfresh Hside Hmap _ _ _ Hprice Hq Hvol Hlim _ _ Hfield
                  Hback Hindex].
  assert (size_at st1 (length (orders st)) = size) as Hsize.
  { unfold size_at, st1. by rewrite NewOrder_order_at_new. }
  change (book st1) with (book st) in *.
  change (queue st1 limit) with (queue st limit) in *.
  change (limit_at st1) with (limit_at st) in *.
  change (limits st1) with (limits st) in *.
  split; [done|]. exists limit.
  split; [by rewrite Hmap, lookup_insert_eq|].
  split; [done|]. split; [done|].
  split; [unfold size_at; by rewrite (Hfield _ Size)|].
  split; [done|]. split.
  { rewrite Hindex, (Hfield _ ID) by done. by rewrite lookup_insert_eq. }
  split.
  { by rewrite !ownVolume_sideVolume, Hsv, Hsize. }
  split.
  { intros l Hl Hne. apply Hlim; [done|]. by apply HI. }
  rewrite Hside. destruct (map_of placement (book st) !! price) as [l0|] eqn:Hm.
  - rewrite Hq, Hvol, Hsize. split; [by apply Hfound|]. done.
  - rewrite Hq, Hvol, Hsize. specialize (Hfresh eq_refl).
    unfold queue. rewrite (limit_at_unallocated st limit) by lia. done.
Qed.

(** In exact arithmetic
    ([PlaceLimitOrder], [CancelOrderByID], [Limit.AddOrder],
    [Limit.DeleteOrder], [deleteLimit]).  Placing a limit order and cancelling
    it at once restores the book: the sides, the price maps and [OrderIndex]
    are as before, every order has its size and every limit its price and
    volume; the queue of a limit holds the same orders, and is the same queue
    if it was in timestamp order.  This needs that the limit at the price, if
    there is one, has a volume other than 0 (a limit without volume is dropped
    by the cancellation), and that no id has wrapped around. *)
Lemma limit_order_then_cancel_restores_the_book
    (st : State) (placement : string) (size price now : Z) :
  reachable st →
  (Z.of_nat (length (orders st)) + 1 < 2 ^ 63)%Z →
  placement = BID_ORDER ∨ placement = ASK_ORDER →
  (∀ l, map_of placement (book st) !! price = Some l →
        TotalVolume (limit_at st l) ≠ 0%Z) →
  let st1 := snd (run_op (OpLimit placement size price now) st) in
  let r := run_op (OpCancel (orderIdSequence st1) placement) st1 in
  fst r = Cancelled ∧
  book (snd r) = book st ∧
  OrderIndex (snd r) = OrderIndex st ∧
  (∀ o, o < length (orders st) → size_at (snd r) o = size_at st o) ∧
  (∀ l, in_book st l →
     Price (limit_at (snd r) l) = Price (limit_at st l) ∧
     TotalVolume (limit_at (snd r) l) = TotalVolume (limit_at st l) ∧
     queue (snd r) l ≡ₚ queue st l ∧
     (StronglySorted (λ a b, ts_at st a ≤ ts_at st b)%Z (queue st l) →
      queue (snd r) l = queue st l)).
Proof.
  intros Hr Hbound Hpl Hvol0 st1 r.
  pose proof (reachable_Inv st Hr) as HI. pose proof (reachable_Wf st Hr) as HW.
  set (order := length (orders st)).
  set (st0 := snd (NewOrder placement size now st)).
  assert (Inv st0) as HI0 by (by apply NewOrder_Inv).
  assert (Inv st1) as HI1 by (by apply run_op_Inv).
  assert (Wf st1) as HW1 by (by apply run_op_Wf).
  destruct (run_op_limit_placed placement size price now st HI Hpl)
    as (limit & st1' & Hrun & HP).
  assert (st1 = st1') as <- by (unfold st1; by rewrite Hrun).
  fold st0 order in HP.
  pose proof (placed_limit_in _ _ _ _ _ _ HP) as Hin.
  pose proof (λ l o, placed_queue _ _ _ _ _ _ l o HI0 HP) as Hqs.
  destruct HP as [_ Hfound Hfresh Hside Hmap Hos Hom Hmk Hprice Hq Hvol Hlim Hlen Hseq
                  Hfield Hback Hindex].
  change (book st0) with (book st) in *.
  change (queue st0) with (queue st) in *.
  change (limit_at st0) with (limit_at st) in *.
  change (limits st0) with (limits st) in *.
  change (OrderIndex st0) with (OrderIndex st) in *.
  assert (length (orders st1) = S order) as Hlen1.
  { rewrite Hlen. unfold st0, order. simpl. rewrite length_app. simpl. lia. }
  assert (bounded st1) as Hb1 by (unfold bounded; rewrite Hlen1; unfold order; lia).
  assert (∀ o, o < order → order_at st0 o = order_at st o) as Hold
    by (intros o Ho; by apply NewOrder_order_at_old).
  assert (size_at st0 order = size) as Hsize.
  { unfold size_at, st0, order. by rewrite NewOrder_order_at_new. }
  assert (ID (order_at st1 order) = orderIdSequence st1) as Hid.
  { destruct HW1 as [Hs Hi _ _ _]. rewrite Hs, Hi, Hlen1 by lia. f_equal. lia. }
  assert (order ∈ queue st1 limit) as Hoq
    by (rewrite Hq; apply elem_of_app; right; left).
  pose proof (findLimitOrder_resting placement st1 limit order HI1 HW1 Hb1 Hin Hoq) as Hf.
  rewrite Hid in Hf.
  destruct (CancelOrderByID_found _ placement st1 limit order HI1 ltac:(lia) Hf)
    as (st2 & Heq & HC).
  pose proof (kept_CancelOrderByID (orderIdSequence st1) placement st1) as HK.
  rewrite Heq in HK. simpl in HK.
  assert (r = (Cancelled, st2)) as -> by (unfold r; simpl; by rewrite Heq).
  simpl.
  destruct HC as [HI2 Hix2 Hos2 Hom2 Hq2 Hvol2 Hlim2 Hsz2 _ Hkeep Hdrop Hswap Hqeq].
  destruct HK as [_ _ _ Kmk _ _ _ Kprice _].
  assert (order ∉ queue st limit) as Hnin.
  { intros Ho. destruct (decide (limit < length (limits st))) as [Hlt|Hge].
    - assert (in_book st limit) as Hlb.
      { destruct (map_of placement (book st) !! price) as [l0|] eqn:Hm.
        - rewrite <- (Hfound l0 eq_refl) in Hm.
          apply (inv_map placement st price limit HI) in Hm as [? _].
          by eapply side_of_in_book.
        - specialize (Hfresh eq_refl). lia. }
      pose proof (inv_queue_alloc _ HI limit order Hlb Ho). unfold order in *. lia.
    - unfold queue in Ho. rewrite limit_at_unallocated in Ho by lia.
      by apply elem_of_nil in Ho. }
  assert (TotalVolume (limit_at st2 limit) = TotalVolume (limit_at st limit)) as Hv2.
  { rewrite Hvol2, Hvol. unfold size_at. rewrite (Hfield _ Size) by done.
    fold (size_at st0 order). lia. }
  assert (queue st2 limit = sortBy (Orders_Less st1) (queue st limit)) as Hq2'.
  { by rewrite Hqeq, Hq, without_last. }
  assert (side_of placement (book st2) = side_of placement (book st) ∧
          map_of placement (book st2) = map_of placement (book st)) as [Hs2 Hm2].
  { destruct (map_of placement (book st) !! price) as [l0|] eqn:Hm.
    - pose proof (Hfound l0 eq_refl) as ->.
      destruct Hkeep as [-> ->]; [rewrite Hv2; by apply Hvol0|].
      split; [done|]. rewrite Hmap. by apply insert_id.
    - specialize (Hfresh eq_refl).
      assert (TotalVolume (limit_at st2 limit) = 0%Z) as H0
        by (rewrite Hv2, limit_at_unallocated by lia; done).
      destruct (Hdrop H0) as [_ ->]. destruct (Hswap H0) as (j & Hj & ->).
      rewrite Hside in *. split.
      + assert (j = length (side_of placement (book st))) as ->.
        { apply lookup_app_Some in Hj as [Hj|[? Hj]].
          - exfalso. apply list_elem_of_lookup_2 in Hj.
            assert (limit < length (limits st)); [|lia].
            apply (inv_limit_alloc _ HI). by eapply side_of_in_book.
          - apply list_lookup_singleton_Some in Hj as [? _]. lia. }
        apply swap_delete_last.
      + rewrite Hprice, Hmap. by apply delete_insert_id. }
  split; [done|]. split.
  { apply (book_ext placement); try congruence. }
  split.
  { rewrite Hix2, Hindex, (Hfield _ ID) by done. apply delete_insert_id.
    destruct (OrderIndex st !! ID (order_at st0 order)) as [md|] eqn:Hmd; [|done].
    exfalso. destruct HW as [_ _ Hixw _ _].
    destruct (Hixw _ _ Hmd) as (Hlt & Hidm & _). fold order in Hlt.
    assert (MetaOrder md = order); [|lia].
    apply (Wf_id_inj st1); try done; try lia.
    by rewrite !(Hfield _ ID), Hold. }
  split.
  { intros o Ho. rewrite Hsz2. unfold size_at.
    rewrite (Hfield _ Size) by done. by rewrite Hold. }
  intros l Hl.
  assert (l < length (limits st)) as Hla by (by apply HI).
  destruct (decide (l = limit)) as [->|Hne].
  - split; [|split; [done|]].
    { rewrite Kprice, Hprice.
      destruct (map_of placement (book st) !! price) as [l0|] eqn:Hm.
      - rewrite <- (Hfound l0 eq_refl) in Hm.
        by apply (inv_map placement st price limit HI) in Hm as [_ ?].
      - specialize (Hfresh eq_refl). lia. }
    rewrite Hq2'. split; [apply sortBy_perm|].
    intros Hs. apply sortBy_id.
    assert (∀ a, a ∈ queue st limit → ts_at st1 a = ts_at st a) as Hts.
    { intros a Ha. unfold ts_at. rewrite (Hfield _ Timestamp) by done.
      rewrite Hold; [done|]. by apply (inv_queue_alloc _ HI limit). }
    clear -Hs Hts. induction Hs as [|x q Hq IH Hall]; constructor.
    + apply IH. intros a Ha. apply Hts. by right.
    + rewrite Forall_forall in *. intros y Hy. unfold Orders_Less.
      fold (ts_at st1 y) (ts_at st1 x).
      rewrite !Hts by (try left; by right). apply Z.ltb_ge. by apply Hall.
  - unfold queue. rewrite !Hlim2, !Hlim by done. done.
Qed.

(** X14 ([Limit.DeleteOrder], [Orders.Less]).  When the timestamps of a queue
    increase strictly from front to back, [DeleteOrder] of one of its orders
    leaves the other orders in their order (the sort undoes the swap with the
    last element), subtracts the size of the order from the volume of the
    limit, clears the order's [Limit] pointer and changes no size. *)
Theorem DeleteOrder_keeps_the_queue_in_order
    (st : State) (l o : nat) (q1 q2 : list nat) :
  l < length (limits st) → o < length (orders st) →
  queue st l = q1 ++ o :: q2 →
  StronglySorted (λ a b, ts_at st a < ts_at st b)%Z (queue st l) →
  queue (DeleteOrder l o st) l = q1 ++ q2 ∧
  TotalVolume (limit_at (DeleteOrder l o st) l)
  = (TotalVolume (limit_at st l) - size_at st o)%Z ∧
  Price (limit_at (DeleteOrder l o st) l) = Price (limit_at st l) ∧
  OrderLimit (order_at (DeleteOrder l o st) o) = None ∧
  (∀ o', size_at (DeleteOrder l o st) o' = size_at st o') ∧
  (∀ l', l' ≠ l → limit_at (DeleteOrder l o st) l' = limit_at st l').
Proof.
  intros Hl Ho Hq Hs.
  split; [by apply DeleteOrder_keeps_order|].
  rewrite DeleteOrder_limit_eq by done. simpl.
  repeat split; try done.
  - unfold DeleteOrder.
    change (order_at (upd_limit ?l ?f ?s) o) with (order_at s o).
    change (order_at (upd_limit ?l ?f ?s) o) with (order_at s o).
    rewrite order_at_upd_order_eq; [done|].
    by destruct (find_index o (Orders (limit_at st l))).
  - intros o'. apply DeleteOrder_size.
  - intros l' Hne. by apply DeleteOrder_limit_ne.
Qed.

Lemma DeleteOrder_keeps_the_queue_in_order_witness :
  queue (DeleteOrder 0 1 limitOfFour) 0 = [0] ++ [2; 3] ∧
  TotalVolume (limit_at (DeleteOrder 0 1 limitOfFour) 0)
  = (TotalVolume (limit_at limitOfFour 0) - size_at limitOfFour 1)%Z ∧
  Price (limit_at (DeleteOrder 0 1 limitOfFour) 0) = Price (limit_at limitOfFour 0) ∧
  OrderLimit (order_at (DeleteOrder 0 1 limitOfFour) 1) = None ∧
  (∀ o', size_at (DeleteOrder 0 1 limitOfFour) o' = size_at limitOfFour o') ∧
  (∀ l', l' ≠ 0 → limit_at (DeleteOrder 0 1 limitOfFour) l' = limit_at limitOfFour l').
Proof.
  apply (DeleteOrder_keeps_the_queue_in_order limitOfFour 0 1 [0] [2; 3]).
  - vm_compute. lia.
  - vm_compute. lia.
  - reflexivity.
  - vm_compute. repeat constructor.
Defined.

(** In exact arithmetic
    ([PlaceLimitOrder], [PlaceMarketOrder], [CancelOrderByID],
    [deleteLimit]).  In a reachable state no limit of the book is empty: a
    limit enters the book with its first order, and leaves it when a fill or
    a cancellation takes its last order. *)
Lemma no_limit_of_the_book_is_empty (st : State) (l : nat) :
  reachable st → in_book st l → queue st l ≠ [].
Proof. intros HN%reachable_NonEmpty. apply HN. Qed.

Lemma side_volume_sum st side :
  (∀ l, l ∈ side → TotalVolume (limit_at st l) = Zsum (size_at st) (queue st l)) →
  sumVolume st side = Zsum (size_at st) (concat (map (queue st) side)).
Proof.
  rewrite sumVolume_Zsum. induction side as [|l side IH]; intros H; [done|].
  simpl. rewrite Zsum_app, <- IH, H; [done | left |].
  intros l' Hl'. apply H. by right.
Qed.

(** In exact arithmetic
    ([AskTotalVolume], [BidTotalVolume]).  In a reachable state
    [AskTotalVolume] is the sum of the residual sizes of all the orders
    resting on the ask side, and [BidTotalVolume] the same for the bid
    side. *)
Lemma total_volume_is_the_resting_size (st : State) :
  reachable st →
  AskTotalVolume st
  = Zsum (size_at st) (concat (map (queue st) (asks (book st)))) ∧
  BidTotalVolume st
  = Zsum (size_at st) (concat (map (queue st) (bids (book st)))).
Proof.
  intros HI%reachable_Inv. split; apply side_volume_sum; intros l Hl;
    apply (inv_volume _ HI); [by left | by right].
Qed.

Lemma run_op_positive c st :
  Inv st → NonEmpty st → positive_book st →
  (∀ placement size price now, c = OpLimit placement size price now → (0 < size)%Z) →
  positive_book (snd (run_op c st)).
Proof.
  intros HI HN HP Hc.
  assert (∀ pl size now, positive_book (snd (NewOrder pl size now st))) as HP1.
  { intros pl size now l o Hl Ho. unfold size_at.
    rewrite NewOrder_order_at_old by (by eapply (inv_queue_alloc _ HI)).
    by apply (HP l). }
  destruct c as [pl size price now|pl size now|orderId pl].
  - destruct (decide (pl = BID_ORDER ∨ pl = ASK_ORDER)) as [Hpl|Hpl].
    + destruct (run_op_limit_placed pl size price now st HI Hpl)
        as (limit & st' & -> & HPl). change (positive_book st').
      pose proof (NewOrder_Inv pl size now st HI) as HI0.
      pose proof (λ l o, placed_queue _ _ _ _ _ _ l o HI0 HPl) as Hq.
      destruct HPl as [_ _ _ _ _ _ _ _ _ _ _ _ _ _ Hfield _ _].
      intros l o Hl Ho. unfold size_at. rewrite (Hfield _ Size) by done.
      destruct (Hq l o Hl Ho) as [[Hl0 Ho0]|[-> ->]].
      * by apply (HP1 pl size now l).
      * rewrite NewOrder_order_at_new. simpl. by eapply Hc.
    + rewrite run_op_limit_invalid by done. apply HP1.
  - destruct (decide (size ≤ otherVolume pl st)%Z) as [Hle|Hgt].
    + destruct (run_op_market_accepted pl size now st HI Hle)
        as (ms & st' & -> & [Hpost _ Hsz _]). change (positive_book st').
      destruct Hpost as [HI' _ _ Hos _ _ _ Hsub Hframe _ Hpos _ _ _].
      rewrite ?side_of_opposite, ?other_side_opposite in *.
      change (book (snd (NewOrder pl size now st))) with (book st) in *.
      intros l o [Hl|Hl]%(in_book_sides pl) Ho.
      * (* own side *)
        rewrite Hos in Hl.
        assert (limit_at st' l = limit_at st l) as Hla.
        { apply Hframe. intros Hl'. by apply (inv_side_other pl st l). }
        unfold queue in Ho. rewrite Hla in Ho.
        assert (in_book st l) as Hlb by (by eapply side_of_in_book).
        rewrite Hsz.
        -- by apply (HP l).
        -- by apply (inv_queue_alloc _ HI l).
        -- intros l' Hl' Ho'.
           assert (l' = l) as ->.
           { apply (inv_queue_disjoint _ HI l' l o); try done.
             apply (in_book_sides pl). by right. }
           by apply (inv_side_other pl st l).
      * (* the side the order was matched against *)
        apply (Hpos) with (l := l); [|by rewrite side_of_opposite|done].
        intros l' Hl'. rewrite side_of_opposite in Hl'.
        change (book (snd (NewOrder pl size now st))) with (book st) in Hl'.
        assert (in_book st l') as Hlb by (apply (in_book_sides pl); by right).
        split; [by apply (HN l')|].
        intros o' Ho'. by apply (HP1 pl size now l').
    + destruct (run_op_market_rejected pl size now st ltac:(lia)) as [e ->].
      apply HP1.
  - simpl. pose proof (kept_CancelOrderByID orderId pl st) as HK.
    destruct (findLimitOrder st orderId (side_of pl (book st)))
      as [[limit order]|] eqn:Hf.
    + pose proof Hf as (Hl & Ho & Hid)%findLimitOrder_Some.
      assert (in_book st limit) as Hlb by (by eapply side_of_in_book).
      assert (order < length (orders st)) as Hoa
        by (by eapply (inv_queue_alloc _ HI)).
      destruct (CancelOrderByID_found orderId pl st limit order HI Hoa Hf)
        as (st' & Heq & HC).
      rewrite Heq in *. simpl in *.
      destruct HC as [HI' _ Hos _ _ _ _ Hsz _ Hkeep Hdrop _ _].
      destruct HK as [_ _ _ _ _ _ _ _ Kq].
      assert (∀ l, l ∈ side_of pl (book st') → l ∈ side_of pl (book st)) as Hsub.
      { intros l Hl'.
        destruct (decide (TotalVolume (limit_at st' limit) = 0%Z)) as [H0|Hn0].
        - destruct (Hdrop H0) as [Hperm _]. rewrite <- Hperm. by right.
        - destruct (Hkeep Hn0) as [<- _]. done. }
      destruct (sides_sub pl st st' Hsub Hos) as [Hbs Has].
      intros l o Hl'%(in_book_sub st st' Hbs Has) Ho'%Kq.
      rewrite Hsz. by apply (HP l).
    + unfold CancelOrderByID. by rewrite Hf.
Qed.

Lemma run_ops_positive cs st :
  Inv st → NonEmpty st → positive_book st → positive_sizes cs →
  positive_book (run_ops cs st).
Proof.
  revert st. induction cs as [|c cs IH]; intros st HI HN HP Hcs; [done|].
  simpl. apply IH.
  - by apply run_op_Inv.
  - by apply run_op_NonEmpty.
  - apply run_op_positive; try done.
    intros pl size price now ->. eapply Hcs. left.
  - intros pl size price now Hin. eapply Hcs. right. exact Hin.
Qed.

(** ** Matches of a positive size *)

Lemma Fill_walk_positive l order resting st :
  order < length (orders st) → order ∉ resting → NoDup resting →
  (∀ m, m ∈ resting → m < length (orders st)) →
  (0 < size_at st order)%Z → (∀ m, m ∈ resting → (0 < size_at st m)%Z) →
  match Fill_walk l order resting st with
  | (_, ms, _) => ∀ mt, mt ∈ ms → (0 < SizeFilled mt)%Z
  end.
Proof.
  revert st. induction resting as [|m rest IH]; intros st Ho Hnin Hnd Hall Hpo Hpr.
  { simpl. by intros mt ?%elem_of_nil. }
  simpl. apply NoDup_cons in Hnd as [Hm_rest Hnd].
  assert (m ≠ order) as Hmo by (intros ->; apply Hnin; left).
  assert (m < length (orders st)) as Hm by (apply Hall; left).
  pose proof (fillOrder_match l m order st) as Hmt.
  pose proof (λ o, fillOrder_size l m order st o Hmo Hm Ho) as Hsz.
  pose proof (fillOrder_length_orders l m order st) as Hlen.
  destruct (fillOrder l m order st) as [mt st1]. simpl in *.
  assert (SizeFilled mt = filled st m order) as Hsf
    by (rewrite Hmt; by destruct (String.eqb _ _)).
  assert (0 < filled st m order)%Z as Hpos.
  { unfold filled. assert (0 < size_at st m)%Z by (apply Hpr; left). lia. }
  destruct (IsFilled st1 order) eqn:Hf.
  - intros mt' ->%list_elem_of_singleton. lia.
  - assert (size_at st1 order ≠ 0%Z) as Hne
      by (intros H; apply IsFilled_spec in H; congruence).
    specialize (IH st1). destruct (Fill_walk l order rest st1) as [[dels ms] st2].
    intros mt' [->|Hmt']%elem_of_cons; [lia|]. revert mt' Hmt'. apply IH.
    + by rewrite Hlen.
    + intros ?. apply Hnin. by right.
    + done.
    + intros m' Hm'. rewrite Hlen. apply Hall. by right.
    + specialize (Hsz order). rewrite decide_True in Hsz by (by right).
      unfold filled in *. lia.
    + intros m' Hm'. rewrite Hsz, decide_False.
      * apply Hpr. by right.
      * intros [->| ->]; [done|]. apply Hnin. by right.
Qed.

Lemma Fill_positive l order st :
  Inv st → in_book st l → order < length (orders st) → not_resting st order →
  (0 < size_at st order)%Z → (∀ m, m ∈ queue st l → (0 < size_at st m)%Z) →
  ∀ mt, mt ∈ fst (Fill l order st) → (0 < SizeFilled mt)%Z.
Proof.
  intros HI Hl Ho Hnr Hpo Hpr. unfold Fill.
  pose proof (Fill_walk_positive l order (Orders (limit_at st l)) st Ho (Hnr l Hl)
                (inv_queue_nodup _ HI l Hl)
                (λ m Hm, inv_queue_alloc _ HI l m Hl Hm) Hpo Hpr) as H.
  by destruct (Fill_walk l order (Orders (limit_at st l)) st) as [[dels ms] st1].
Qed.

Lemma marketStep_positive pl order i cells st :
  loop_inv pl order i cells st → i < length cells →
  positive_side pl st → (0 < size_at st order)%Z →
  ∀ mt, mt ∈ fst (fst (marketStep pl order i cells st)) → (0 < SizeFilled mt)%Z.
Proof.
  intros [HI Ho Hnr Hside Hnd Hmem] Hi Hpos Hpo.
  destruct (lookup_lt_is_Some_2 cells i Hi) as [limit Hlim].
  unfold marketStep. rewrite Hlim; simpl.
  pose proof (drop_S cells limit i Hlim) as Hdrop.
  assert (limit ∈ side_of pl (book st)) as Hls by (apply Hmem; rewrite Hdrop; left).
  assert (in_book st limit) as Hlb by (by eapply side_of_in_book).
  pose proof (Fill_positive limit order st HI Hlb Ho Hnr Hpo
                (proj2 (Hpos limit Hls))) as H.
  destruct (Fill limit order st) as [lms st1]. simpl in H.
  by destruct (if (TotalVolume (limit_at st1 limit) =? 0)%Z then _ else _).
Qed.

Lemma marketLoop_positive pl order k i cells ms st :
  loop_inv pl order i cells st → i + k = length cells →
  positive_side pl st → (0 < size_at st order)%Z →
  (∀ mt, mt ∈ ms → (0 < SizeFilled mt)%Z) →
  ∀ mt, mt ∈ fst (marketLoop pl order k i cells ms st) → (0 < SizeFilled mt)%Z.
Proof.
  revert i cells ms st. induction k as [|k IH]; intros i cells ms st HL Hlen Hpos Hpo Hms;
    [done|].
  rewrite marketLoop_unfold.
  pose proof (marketStep_spec pl order i cells st HL ltac:(lia)) as HS.
  pose proof (marketStep_matches pl order i cells st HL ltac:(lia)) as HM.
  pose proof (marketStep_positive pl order i cells st HL ltac:(lia) Hpos Hpo) as HP.
  destruct (marketStep pl order i cells st) as [[lms cells1] st2]. simpl in HP.
  destruct HS as [_ _ _ _ _ _ _ _ _ _ Hpos2 Hlen1 Hnext _ _].
  destruct HM as [_ _ _ Hnn _].
  assert (∀ mt, mt ∈ ms ++ lms → (0 < SizeFilled mt)%Z) as Hms2
    by (intros mt [?|?]%elem_of_app; auto).
  destruct (IsFilled st2 order) eqn:Hf; [done|].
  assert (size_at st2 order ≠ 0%Z) as Hne
    by (intros H; apply IsFilled_spec in H; congruence).
  apply IH; [by apply Hnext | lia | by apply Hpos2 | | done].
  assert (0 ≤ size_at st2 order)%Z by (apply Hnn; left; lia). lia.
Qed.

Lemma PlaceMarketOrder_positive st order :
  Inv st → order < length (orders st) → not_resting st order →
  positive_side (opposite st order) st → (0 < size_at st order)%Z →
  ∀ ms st', PlaceMarketOrder order st = (inl ms, st') →
  ∀ mt, mt ∈ ms → (0 < SizeFilled mt)%Z.
Proof.
  intros HI Ho Hnr Hpos Hpo.
  assert (∀ pl less, positive_side pl st →
    let cells := sortBy less (side_of pl (book st)) in
    let st1 := set_book (set_side pl cells (book st)) st in
    ∀ mt, mt ∈ fst (marketLoop pl order (length cells) 0 cells [] st1) →
          (0 < SizeFilled mt)%Z) as Hloop.
  { intros pl less Hpos' cells st1.
    assert (cells ≡ₚ side_of pl (book st)) as Hperm by apply sortBy_perm.
    assert (Inv st1) as HI1 by (by apply Inv_side_perm).
    assert (side_of pl (book st1) = cells) as Hs1 by apply side_of_set_side.
    assert (other_side pl (book st1) = other_side pl (book st)) as Hos1
      by apply other_side_set_side.
    assert (∀ l, in_book st1 l ↔ in_book st l) as Hin.
    { intros l. rewrite !(in_book_sides pl), Hs1, Hos1. by rewrite Hperm. }
    apply marketLoop_positive; try done.
    - split; try done.
      + intros l Hl%Hin. by apply Hnr.
      + by rewrite Hs1, firstn_all.
      + simpl. rewrite Hperm. by apply inv_side_nodup.
      + intros x. by rewrite Hs1.
    - intros l. rewrite Hs1, Hperm. apply Hpos'.
    - by intros mt ?%elem_of_nil. }
  unfold PlaceMarketOrder. unfold opposite in Hpos.
  destruct (String.eqb _ _).
  - destruct (_ >? _)%Z; [by intros ms st' [=]|].
    unfold Asks. specialize (Hloop ASK_ORDER (ByBestAsk_Less st) Hpos).
    simpl in Hloop.
    change (side_of ASK_ORDER (book st)) with (asks (book st)) in Hloop.
    destruct (marketLoop _ _ _ _ _ _ _) as [ms0 st0].
    by intros ms st' [= <- <-].
  - destruct (_ >? _)%Z; [by intros ms st' [=]|].
    unfold Bids. specialize (Hloop BID_ORDER (ByBestBid_Less st) Hpos).
    simpl in Hloop.
    change (side_of BID_ORDER (book st)) with (bids (book st)) in Hloop.
    destruct (marketLoop _ _ _ _ _ _ _) as [ms0 st0].
    by intros ms st' [= <- <-].
Qed.

Lemma init_positive market : positive_book (init market).
Proof. by intros l o [?%elem_of_nil|?%elem_of_nil]. Qed.

Lemma init_NonEmpty market : NonEmpty (init market).
Proof. by intros l [?%elem_of_nil|?%elem_of_nil]. Qed.

Lemma sixOps_positive : positive_sizes sixOps.
Proof.
  intros pl size price now Hin. apply list_elem_of_In in Hin. simpl in Hin.
  repeat (destruct Hin as [[= <- <- <- <-]|Hin]; [lia|]). done.
Qed.

(** X17 ([Limit.Fill], [Limit.DeleteOrder], [PlaceLimitOrder],
    [CancelOrderByID]).  If every limit order is placed with a strictly
    positive size, every order resting in the book has a strictly positive
    residual size at all times: an order that a market order exhausts leaves
    its queue within that call. *)
Theorem exhausted_orders_leave_the_book
    (market : string) (cs : list op) (l o : nat) :
  positive_sizes cs →
  in_book (run_ops cs (init market)) l →
  o ∈ queue (run_ops cs (init market)) l →
  (0 < size_at (run_ops cs (init market)) o)%Z.
Proof.
  intros Hcs. apply run_ops_positive; try done.
  - apply init_Inv.
  - apply init_NonEmpty.
  - apply init_positive.
Qed.

Lemma exhausted_orders_leave_the_book_witness :
  (0 < size_at (run_ops (sixOps ++ [OpMarket BID_ORDER 500 7]) (init "ETH")) 3)%Z.
Proof.
  apply (exhausted_orders_leave_the_book "ETH"
           (sixOps ++ [OpMarket BID_ORDER 500 7]) 1 3).
  - intros pl size price now Hin. apply list_elem_of_In in Hin. simpl in Hin.
    repeat (destruct Hin as [[= <- <- <- <-]|Hin]; [lia|]).
    by destruct Hin as [?|[]].
  - left. apply list_elem_of_In. vm_compute. auto.
  - apply list_elem_of_In. vm_compute. auto.
Defined.

(** X18 ([PlaceMarketOrder], [Limit.Fill], [Limit.fillOrder]).  If every limit
    order was placed with a strictly positive size, every match of a market
    order of strictly positive size fills a strictly positive size: no match
    is empty. *)
Theorem matches_fill_a_positive_size
    (market : string) (cs : list op) (placement : string) (size now : Z)
    (mt : Match) :
  positive_sizes cs → (0 < size)%Z →
  mt ∈ matches_of (fst (run_op (OpMarket placement size now)
                               (run_ops cs (init market)))) →
  (0 < SizeFilled mt)%Z.
Proof.
  intros Hcs Hsize.
  set (st := run_ops cs (init market)).
  assert (Inv st) as HI by apply run_ops_Inv, init_Inv.
  assert (NonEmpty st) as HN
    by (apply run_ops_NonEmpty; [apply init_Inv | apply init_NonEmpty]).
  assert (positive_book st) as HP.
  { apply run_ops_positive; try done;
      [apply init_Inv | apply init_NonEmpty | apply init_positive]. }
  set (order := length (orders st)).
  set (st1 := snd (NewOrder placement size now st)).
  assert (Inv st1) as HI1 by (by apply NewOrder_Inv).
  assert (order < length (orders st1)) as Ho
    by (unfold st1, order; simpl; rewrite length_app; simpl; lia).
  assert (not_resting st1 order) as Hnr
    by (by apply newest_not_resting, NewOrder_newest).
  assert (size_at st1 order = size) as Hs1.
  { unfold size_at, st1, order. by rewrite NewOrder_order_at_new. }
  assert (positive_side (opposite st1 order) st1) as Hpos.
  { intros l Hl. change (book st1) with (book st) in Hl.
    assert (in_book st l) as Hlb by (by eapply side_of_in_book).
    split; [by apply (HN l)|]. intros o Ho'. unfold size_at, st1.
    rewrite NewOrder_order_at_old by (by apply (inv_queue_alloc _ HI l)).
    by apply (HP l). }
  pose proof (PlaceMarketOrder_positive st1 order HI1 Ho Hnr Hpos ltac:(lia)) as H.
  change (run_op (OpMarket placement size now) st)
    with (match PlaceMarketOrder order st1 with
          | (inl matches, st2) => (Matched matches, st2)
          | (inr e, st2) => (Failed e, st2)
          end).
  destruct (PlaceMarketOrder order st1) as [[ms|e] st2]; simpl.
  - by apply (H ms st2).
  - by intros ?%elem_of_nil.
Qed.

Lemma matches_fill_a_positive_size_witness :
  mkMatch 2 6 100 10000
  ∈ matches_of (fst (run_op (OpMarket BID_ORDER 500 7) (run_ops sixOps (init "ETH")))) ∧
  (0 < SizeFilled (mkMatch 2 6 100 10000))%Z.
Proof.
  assert (mkMatch 2 6 100 10000
          ∈ matches_of (fst (run_op (OpMarket BID_ORDER 500 7)
                                    (run_ops sixOps (init "ETH"))))) as Hin
    by (apply list_elem_of_In; vm_compute; auto).
  split; [exact Hin|].
  exact (matches_fill_a_positive_size "ETH" sixOps BID_ORDER 500 7 _
           sixOps_positive ltac:(lia) Hin).
Defined.

(** X19 ([PlaceLimitOrder], [PlaceMarketOrder], [CancelOrderByID],
    [NewOrder]).  An operation fails for one reason only (a limit order whose
    placement is neither BID nor ASK, a market order larger than the opposing
    volume, a cancellation whose id is on no order of the side), and a failed
    operation changes neither the book, nor the limits, nor [OrderIndex], nor
    any existing order; a failed placement has still consumed an id. *)
Theorem failed_operation_changes_nothing
    (c : op) (st : State) (e : error) (st' : State) :
  run_op c st = (Failed e, st') →
  book st' = book st ∧ limits st' = limits st ∧ OrderIndex st' = OrderIndex st ∧
  take (length (orders st)) (orders st') = orders st ∧
  match c with
  | OpLimit placement _ _ _ =>
    e = ErrInvalidPlacement ∧ placement ≠ BID_ORDER ∧ placement ≠ ASK_ORDER ∧
    orderIdSequence st' = wrap64 (orderIdSequence st + 1)
  | OpMarket placement size _ =>
    insufficientLiquidity e ∧ (size > otherVolume placement st)%Z ∧
    orderIdSequence st' = wrap64 (orderIdSequence st + 1)
  | OpCancel orderId placement =>
    e = ErrNotFound ∧
    (∀ l o, l ∈ side_of placement (book st) → o ∈ queue st l →
            ID (order_at st o) ≠ orderId) ∧
    orderIdSequence st' = orderIdSequence st
  end.
Proof.
  destruct c as [pl size price now|pl size now|orderId pl].
  - destruct (decide (pl = BID_ORDER ∨ pl = ASK_ORDER)) as [Hpl|Hpl].
    + change (run_op (OpLimit pl size price now) st)
        with (match PlaceLimitOrder price (length (orders st))
                      (snd (NewOrder pl size now st)) with
              | (None, st2) => (Placed, st2)
              | (Some e, st2) => (Failed e, st2)
              end).
      rewrite PlaceLimitOrder_unfold. cbv zeta.
      rewrite NewOrder_order_at_new. cbn [OrderPlacement].
      apply valid_placement_cases in Hpl. rewrite Hpl.
      by destruct (limitFor _ _ _).
    + rewrite run_op_limit_invalid by done. intros [= <- <-].
      simpl. rewrite take_app_length. repeat split; try done; intros ->; tauto.
  - destruct (decide (size ≤ otherVolume pl st)%Z) as [Hle|Hgt].
    + change (run_op (OpMarket pl size now) st)
        with (match PlaceMarketOrder (length (orders st))
                      (snd (NewOrder pl size now st)) with
              | (inl matches, st2) => (Matched matches, st2)
              | (inr e, st2) => (Failed e, st2)
              end).
      unfold PlaceMarketOrder. rewrite NewOrder_order_at_new.
      cbn [OrderPlacement Size].
      change (AskTotalVolume (snd (NewOrder pl size now st)))
        with (AskTotalVolume st).
      change (BidTotalVolume (snd (NewOrder pl size now st)))
        with (BidTotalVolume st).
      unfold otherVolume in Hle. destruct (String.eqb pl BID_ORDER).
      * destruct (Z.gtb_spec size (AskTotalVolume st)); [lia|].
        destruct (Asks _) as [cells st1].
        by destruct (marketLoop _ _ _ _ _ _ _).
      * destruct (Z.gtb_spec size (BidTotalVolume st)); [lia|].
        destruct (Bids _) as [cells st1].
        by destruct (marketLoop _ _ _ _ _ _ _).
    + destruct (run_op_market_rejected pl size now st ltac:(lia)) as [e' Hrun].
      pose proof (PlaceMarketOrder_reject_eq (snd (NewOrder pl size now st))
                    (length (orders st))) as Hrej.
      rewrite Hrun. intros [= <- <-].
      simpl. rewrite take_app_length. repeat split; try done; try lia.
      change (run_op (OpMarket pl size now) st)
        with (match PlaceMarketOrder (length (orders st))
                      (snd (NewOrder pl size now st)) with
              | (inl matches, st2) => (Matched matches, st2)
              | (inr e, st2) => (Failed e, st2)
              end) in Hrun.
      rewrite Hrej in Hrun.
      * injection Hrun as <-. unfold rejection. by destruct (String.eqb _ _).
      * rewrite opposingVolume_sideVolume, opposite_NewOrder, sideVolume_opposite.
        rewrite NewOrder_order_at_new. cbn [Size].
        change (otherVolume pl (snd (NewOrder pl size now st)))
          with (otherVolume pl st). lia.
  - simpl. unfold CancelOrderByID.
    destruct (findLimitOrder st orderId (side_of pl (book st)))
      as [[limit order]|] eqn:Hf; [done|].
    intros [= <- <-]. rewrite firstn_all. repeat split; try done.
    by apply findLimitOrder_None.
Qed.

Lemma failed_operation_changes_nothing_witness :
  let st' := snd (NewOrder BID_ORDER 1000 7 sixOrders) in
  book st' = book sixOrders ∧ limits st' = limits sixOrders ∧
  OrderIndex st' = OrderIndex sixOrders ∧
  take (length (orders sixOrders)) (orders st') = orders sixOrders ∧
  insufficientLiquidity (ErrNotEnoughAskVolume 516 1000) ∧
  (1000 > otherVolume BID_ORDER sixOrders)%Z ∧
  orderIdSequence st' = wrap64 (orderIdSequence sixOrders + 1).
Proof.
  apply (failed_operation_changes_nothing (OpMarket BID_ORDER 1000 7) sixOrders
           (ErrNotEnoughAskVolume 516 1000)).
  vm_compute. reflexivity.
Defined.

(** ** The states of the exchange *)

(** What a request does to the state: nothing, or a [NewOrder] whose order
    is dropped, or one of the public operations, or the two sorts of
    [handleGetBook]. *)
Lemma serve_cases ParseInt ToUpper rq st :
  snd (serve ParseInt ToUpper rq st) = st ∨
  (∃ placement size now,
     snd (serve ParseInt ToUpper rq st) = snd (NewOrder placement size now st)) ∨
  (∃ c, snd (serve ParseInt ToUpper rq st) = snd (run_op c st)) ∨
  snd (serve ParseInt ToUpper rq st) = snd (Bids (snd (Asks st))).
Proof.
  destruct rq as [[req|] now|market|id]; simpl.
  - unfold handlePlaceOrder. destruct (orderBooks _ _); [|by left].
    change (NewOrder (ReqPlacement req) (ReqSize req) now st)
      with (length (orders st), snd (NewOrder (ReqPlacement req) (ReqSize req) now st)).
    cbv iota beta.
    destruct (String.eqb (ReqType req) LimitOrder).
    + right; right; left.
      exists (OpLimit (ReqPlacement req) (ReqSize req) (ReqPrice req) now).
      change (run_op (OpLimit (ReqPlacement req) (ReqSize req) (ReqPrice req) now) st)
        with (match PlaceLimitOrder (ReqPrice req) (length (orders st))
                      (snd (NewOrder (ReqPlacement req) (ReqSize req) now st)) with
              | (None, st2) => (Placed, st2)
              | (Some e, st2) => (Failed e, st2)
              end).
      by destruct (PlaceLimitOrder _ _ _) as [[e|] st2].
    + destruct (String.eqb (ReqType req) MarketOrder).
      * right; right; left.
        exists (OpMarket (ReqPlacement req) (ReqSize req) now).
        change (run_op (OpMarket (ReqPlacement req) (ReqSize req) now) st)
          with (match PlaceMarketOrder (length (orders st))
                        (snd (NewOrder (ReqPlacement req) (ReqSize req) now st)) with
                | (inl matches, st2) => (Matched matches, st2)
                | (inr e, st2) => (Failed e, st2)
                end).
        by destruct (PlaceMarketOrder _ _) as [[ms|e] st2].
      * right; left. by exists (ReqPlacement req), (ReqSize req), now.
  - by left.
  - unfold handleGetBook. destruct (orderBooks _ _); [|by left].
    right; right; right. done.
  - unfold handleCancelOrder. destruct (String.eqb id EmptyString); [by left|].
    destruct (ParseInt id) as [n|]; [|by left].
    destruct (OrderIndex st !! n) as [md|]; [|by left].
    destruct (orderBooks _ _); [|by left].
    right; right; left.
    exists (OpCancel n (OrderPlacement (order_at st (MetaOrder md)))). simpl.
    by destruct (CancelOrderByID _ _ _) as [[[]|] st1].
Qed.

(** The sides after [Asks] and [Bids]. *)
Lemma sorted_sides st :
  let st' := snd (Bids (snd (Asks st))) in
  orders st' = orders st ∧ limits st' = limits st ∧
  OrderIndex st' = OrderIndex st ∧ orderIdSequence st' = orderIdSequence st ∧
  Market (book st') = Market (book st) ∧
  AskLimits (book st') = AskLimits (book st) ∧
  BidLimits (book st') = BidLimits (book st) ∧
  asks (book st') = fst (Asks st) ∧
  bids (book st') = sortBy (ByBestBid_Less st) (bids (book st)).
Proof. by repeat split. Qed.

Lemma sorted_Inv st : Inv st → Inv (snd (Bids (snd (Asks st)))).
Proof.
  intros HI.
  assert (Inv (snd (Asks st))) as HI1.
  { apply (Inv_side_perm ASK_ORDER); [done|]. apply sortBy_perm. }
  apply (Inv_side_perm BID_ORDER); [done|]. apply sortBy_perm.
Qed.

Lemma sorted_asks st l : l ∈ asks (book (snd (Bids (snd (Asks st))))) ↔ l ∈ asks (book st).
Proof.
  change (asks (book (snd (Bids (snd (Asks st))))))
    with (sortBy (ByBestAsk_Less st) (asks (book st))).
  by rewrite sortBy_perm.
Qed.

Lemma sorted_bids st l : l ∈ bids (book (snd (Bids (snd (Asks st))))) ↔ l ∈ bids (book st).
Proof.
  change (bids (book (snd (Bids (snd (Asks st))))))
    with (sortBy (ByBestBid_Less (snd (Asks st))) (bids (book st))).
  by rewrite sortBy_perm.
Qed.

Lemma sorted_in_book st l : in_book (snd (Bids (snd (Asks st)))) l ↔ in_book st l.
Proof. unfold in_book. by rewrite sorted_asks, sorted_bids. Qed.

Lemma sorted_NonEmpty st : NonEmpty st → NonEmpty (snd (Bids (snd (Asks st)))).
Proof.
  intros HN l Hl. apply (proj1 (sorted_in_book st l)) in Hl.
  change (queue st l ≠ []). by apply (HN l).
Qed.

Lemma sorted_Wf st : Wf st → Wf (snd (Bids (snd (Asks st)))).
Proof.
  intros [Hseq Hid Hix Hb Ha]. split; try done.
  - intros l o Hl. apply (proj1 (sorted_bids st l)) in Hl. by apply Hb.
  - intros l o Hl. apply (proj1 (sorted_asks st l)) in Hl. by apply Ha.
Qed.

Lemma sorted_Indexed st : Indexed st → Indexed (snd (Bids (snd (Asks st)))).
Proof.
  intros HX l o Hl Ho. apply (proj1 (sorted_in_book st l)) in Hl.
  change (o ∈ queue st l) in Ho. by apply (HX l).
Qed.

Lemma run_op_market c st : Market (book (snd (run_op c st))) = Market (book st).
Proof.
  destruct c as [pl size price now|pl size now|orderId pl].
  - change (run_op (OpLimit pl size price now) st)
      with (match PlaceLimitOrder price (length (orders st))
                    (snd (NewOrder pl size now st)) with
            | (None, st2) => (Placed, st2)
            | (Some e, st2) => (Failed e, st2)
            end).
    rewrite PlaceLimitOrder_unfold. cbv zeta.
    destruct (negb _); [done|].
    unfold limitFor. destruct (map_of _ _ !! price); [done|].
    simpl. by rewrite Market_set_map, Market_set_side.
  - pose proof (kept_PlaceMarketOrder (length (orders st))
                  (snd (NewOrder pl size now st))) as [_ _ _ H _ _ _ _ _].
    change (run_op (OpMarket pl size now) st)
      with (match PlaceMarketOrder (length (orders st))
                    (snd (NewOrder pl size now st)) with
            | (inl matches, st2) => (Matched matches, st2)
            | (inr e, st2) => (Failed e, st2)
            end).
    by destruct (PlaceMarketOrder _ _) as [[ms|e] st2].
  - pose proof (kept_CancelOrderByID orderId pl st) as [_ _ _ H _ _ _ _ _].
    simpl. by destruct (CancelOrderByID _ _ _) as [[e|] st1].
Qed.

Lemma serve_Good ParseInt ToUpper rq st :
  Good st → Good (snd (serve ParseInt ToUpper rq st)).
Proof.
  intros [HI HN HW HM].
  destruct (serve_cases ParseInt ToUpper rq st)
    as [->|[(pl & size & now & ->)|[(c & ->)| ->]]].
  - done.
  - split; [by apply NewOrder_Inv | | by apply NewOrder_Wf | done].
    intros l Hl. by apply (HN l).
  - split; [by apply run_op_Inv | by apply run_op_NonEmpty | by apply run_op_Wf |].
    by rewrite run_op_market.
  - split; [by apply sorted_Inv | by apply sorted_NonEmpty | by apply sorted_Wf | done].
Qed.

Lemma NewExchange_Good : Good NewExchange.
Proof.
  split; [apply init_Inv | | apply init_Wf | done].
  by intros l [?%elem_of_nil|?%elem_of_nil].
Qed.

Lemma serve_all_Good ParseInt ToUpper rqs st :
  Good st → Good (serve_all ParseInt ToUpper rqs st).
Proof.
  revert st. induction rqs as [|rq rqs IH]; intros st HG; [done|].
  simpl. by apply IH, serve_Good.
Qed.

Lemma served_Good ParseInt ToUpper st : served ParseInt ToUpper st → Good st.
Proof. intros (rqs & ->). apply serve_all_Good, NewExchange_Good. Qed.

Lemma serve_length ParseInt ToUpper rq st :
  length (orders st) ≤ length (orders (snd (serve ParseInt ToUpper rq st))).
Proof.
  destruct (serve_cases ParseInt ToUpper rq st)
    as [->|[(pl & size & now & ->)|[(c & ->)| ->]]]; try done.
  - simpl. rewrite length_app. lia.
  - apply run_op_length.
Qed.

Lemma serve_Indexed ParseInt ToUpper rq st :
  Good st → bounded (snd (serve ParseInt ToUpper rq st)) →
  Indexed st → Indexed (snd (serve ParseInt ToUpper rq st)).
Proof.
  intros [HI HN HW HM].
  destruct (serve_cases ParseInt ToUpper rq st)
    as [->|[(pl & size & now & ->)|[(c & ->)| ->]]]; intros Hb HX.
  - done.
  - by apply NewOrder_Indexed.
  - by apply run_op_Indexed.
  - by apply sorted_Indexed.
Qed.

Lemma served_Indexed ParseInt ToUpper st :
  served ParseInt ToUpper st → bounded st → Indexed st.
Proof.
  intros (rqs & ->). induction rqs as [|rq rqs IH] using rev_ind.
  { by intros _ l o [?%elem_of_nil|?%elem_of_nil]. }
  unfold serve_all in *. rewrite foldl_app. simpl. intros Hb.
  set (st := foldl (λ s rq, snd (serve ParseInt ToUpper rq s)) NewExchange rqs) in *.
  assert (Good st) as HG by apply serve_all_Good, NewExchange_Good.
  apply serve_Indexed; try done. apply IH.
  pose proof (serve_length ParseInt ToUpper rq st). unfold bounded in *. lia.
Qed.

Lemma Inv_price_indexed st :
  Inv st →
  price_indexed st (asks (book st)) (AskLimits (book st)) ∧
  price_indexed st (bids (book st)) (BidLimits (book st)).
Proof.
  intros HI.
  assert (∀ side m, NoDup side →
            (∀ p l, m !! p = Some l ↔ l ∈ side ∧ Price (limit_at st l) = p) →
            price_indexed st side m) as H.
  { intros side m Hnd Hm. split; [done|]. split; [|split].
    - intros l1 l2 H1 H2 Hp.
      assert (m !! Price (limit_at st l1) = Some l1) as E1 by (by apply Hm).
      assert (m !! Price (limit_at st l1) = Some l2) as E2 by (by apply Hm).
      congruence.
    - intros p l Hpl. by apply Hm.
    - intros l Hl. by apply Hm. }
  split; apply H; apply HI.
Qed.

Lemma served_afterRequests : served parseSmall id afterRequests.
Proof. exists fourRequests. reflexivity. Qed.

Lemma served_afterMarketBid : served parseSmall id afterMarketBid.
Proof. exists fiveRequests. reflexivity. Qed.

(** X20 ([handlePlaceOrder], [handleGetBook], [handleCancelOrder],
    [NewExchange]).  Whatever requests the exchange has served, one at a
    time, its book is consistent: it is the book of ETH, each side has one
    limit per price and its price map holds exactly the limits of the side,
    and an order rests on the side of its placement. *)
Theorem handlers_keep_the_book_consistent
    (ParseInt : string → option Z) (ToUpper : string → string) (st : State) :
  served ParseInt ToUpper st →
  Market (book st) = MarketETH ∧
  price_indexed st (asks (book st)) (AskLimits (book st)) ∧
  price_indexed st (bids (book st)) (BidLimits (book st)) ∧
  (∀ l o, o ∈ queue st l →
     (l ∈ bids (book st) → OrderPlacement (order_at st o) = BID_ORDER) ∧
     (l ∈ asks (book st) → OrderPlacement (order_at st o) = ASK_ORDER)).
Proof.
  intros [HI HN [_ _ _ Hb Ha] HM]%served_Good.
  destruct (Inv_price_indexed st HI) as [H1 H2].
  split; [done|]. split; [done|]. split; [done|].
  intros l o Ho. split; intros Hl; [by apply (Hb l) | by apply (Ha l)].
Qed.

Lemma handlers_keep_the_book_consistent_witness :
  Market (book afterMarketBid) = MarketETH ∧
  price_indexed afterMarketBid (asks (book afterMarketBid))
                (AskLimits (book afterMarketBid)) ∧
  price_indexed afterMarketBid (bids (book afterMarketBid))
                (BidLimits (book afterMarketBid)) ∧
  (∀ l o, o ∈ queue afterMarketBid l →
     (l ∈ bids (book afterMarketBid) →
      OrderPlacement (order_at afterMarketBid o) = BID_ORDER) ∧
     (l ∈ asks (book afterMarketBid) →
      OrderPlacement (order_at afterMarketBid o) = ASK_ORDER)).
Proof.
  exact (handlers_keep_the_book_consistent parseSmall id afterMarketBid
           served_afterMarketBid).
Defined.

(** X21 ([handleCancelOrder], [CancelOrderByID]).  A cancel request with the
    id of a resting order is answered 200 "order deleted": the order rests
    nowhere afterwards, its id is deleted from [OrderIndex], and no order
    changes size (as long as fewer than [2^63] orders have been created). *)
Theorem cancel_request_removes_a_resting_order
    (ParseInt : string → option Z) (ToUpper : string → string) (st : State)
    (id : string) (l o : nat) :
  served ParseInt ToUpper st → bounded st →
  in_book st l → o ∈ queue st l →
  id ≠ EmptyString → ParseInt id = Some (ID (order_at st o)) →
  let r := handleCancelOrder ParseInt id st in
  fst r = mkReply (Some (200%Z, Msg "order deleted")) None ∧
  not_resting (snd r) o ∧
  OrderIndex (snd r) = delete (ID (order_at st o)) (OrderIndex st) ∧
  (∀ o', size_at (snd r) o' = size_at st o') ∧
  (∀ l', l' ≠ l → limit_at (snd r) l' = limit_at st l').
Proof.
  intros Hs Hb Hl Ho Hid Hparse r.
  pose proof (served_Good _ _ _ Hs) as [HI HN HW HM].
  pose proof (served_Indexed _ _ _ Hs Hb l o Hl Ho) as Hix.
  set (pl := OrderPlacement (order_at st o)).
  assert (l ∈ side_of pl (book st)) as Hside.
  { destruct HW as [_ _ _ Hbs Has]. destruct Hl as [Hl|Hl].
    - unfold pl. by rewrite (Has l o Hl Ho).
    - unfold pl. by rewrite (Hbs l o Hl Ho). }
  destruct (CancelOrderByID_resting pl st l o HI HW Hb Hside Ho)
    as (st' & Heq & HC & Hnr).
  assert (r = (mkReply (Some (200%Z, Msg "order deleted")) None, st')) as ->.
  { unfold r, handleCancelOrder.
    apply String.eqb_neq in Hid. rewrite Hid, Hparse, Hix. simpl.
    unfold orderBooks. rewrite HM. simpl. fold pl. by rewrite Heq. }
  destruct HC as [_ Hix' _ _ _ _ Hlim Hsz _ _ _ _ _]. done.
Qed.

Lemma cancel_request_removes_a_resting_order_witness :
  let r := handleCancelOrder parseSmall "2" afterRequests in
  fst r = mkReply (Some (200%Z, Msg "order deleted")) None ∧
  not_resting (snd r) 1 ∧
  OrderIndex (snd r)
  = delete (ID (order_at afterRequests 1)) (OrderIndex afterRequests) ∧
  (∀ o', size_at (snd r) o' = size_at afterRequests o') ∧
  (∀ l', l' ≠ 0 → limit_at (snd r) l' = limit_at afterRequests l').
Proof.
  apply (cancel_request_removes_a_resting_order parseSmall id afterRequests "2" 0 1).
  - exact served_afterRequests.
  - unfold bounded. vm_compute. reflexivity.
  - left. apply list_elem_of_In. vm_compute. auto.
  - apply list_elem_of_In. vm_compute. auto.
  - discriminate.
  - vm_compute. reflexivity.
Defined.

(** X22 ([handleCancelOrder], [CancelOrderByID], [Limit.Fill]).  A cancel
    request with an id that no resting order has is answered 404 "order id
    not found" and changes nothing.  This is what the id of an order that a
    market order has filled gets, although [OrderIndex] still holds it. *)
Theorem cancel_request_of_an_order_not_resting
    (ParseInt : string → option Z) (ToUpper : string → string) (st : State)
    (id : string) (orderId : Z) :
  served ParseInt ToUpper st →
  id ≠ EmptyString → ParseInt id = Some orderId →
  (∀ l o, in_book st l → o ∈ queue st l → ID (order_at st o) ≠ orderId) →
  handleCancelOrder ParseInt id st
  = (mkReply (Some (404%Z, Msg "order id not found")) None, st).
Proof.
  intros Hs Hid Hparse Hno.
  pose proof (served_Good _ _ _ Hs) as [HI HN [_ _ Hix _ _] HM].
  unfold handleCancelOrder.
  apply String.eqb_neq in Hid. rewrite Hid, Hparse.
  destruct (OrderIndex st !! orderId) as [md|] eqn:Hmd; [|done].
  destruct (Hix _ _ Hmd) as (_ & _ & Hmk).
  unfold orderBooks. rewrite Hmk, HM. simpl.
  unfold CancelOrderByID.
  assert (findLimitOrder st orderId
            (side_of (OrderPlacement (order_at st (MetaOrder md))) (book st)) = None)
    as ->; [|done].
  apply findLimitOrder_None. intros l o Hl Ho. apply (Hno l o); [|done].
  by eapply side_of_in_book.
Qed.

Lemma cancel_request_of_an_order_not_resting_witness :
  OrderIndex afterMarketBid !! 1%Z = Some (mkOrderMetadata 0 "ETH") ∧
  handleCancelOrder parseSmall "1" afterMarketBid
  = (mkReply (Some (404%Z, Msg "order id not found")) None, afterMarketBid).
Proof.
  split; [vm_compute; reflexivity|].
  apply (cancel_request_of_an_order_not_resting parseSmall id afterMarketBid "1" 1).
  - exact served_afterMarketBid.
  - discriminate.
  - vm_compute. reflexivity.
  - intros l o Hl Ho.
    assert (l = 0) as ->.
    { destruct Hl as [Hl|Hl]; apply list_elem_of_In in Hl; vm_compute in Hl;
        [destruct Hl as [<-|[]]; reflexivity | destruct Hl]. }
    apply list_elem_of_In in Ho. vm_compute in Ho.
    destruct Ho as [<-|[]]. vm_compute. discriminate.
Defined.

Lemma CancelOrderByID_error orderId pl st :
  fst (CancelOrderByID orderId pl st) = None ∨
  fst (CancelOrderByID orderId pl st) = Some ErrNotFound.
Proof.
  unfold CancelOrderByID.
  destruct (findLimitOrder _ _ _) as [[limit order]|]; [by left | by right].
Qed.

(** X23 ([handleCancelOrder], [CancelOrderByID]).  [handleCancelOrder] never
    returns an error and never answers 500, in any state: the only error
    [CancelOrderByID] returns is [ErrNotFound], so the reply is 200, 400 or
    404. *)
Theorem cancel_request_never_fails
    (ParseInt : string → option Z) (id : string) (st : State) :
  returned (fst (handleCancelOrder ParseInt id st)) = None ∧
  ∃ msg, written (fst (handleCancelOrder ParseInt id st)) = Some (200%Z, Msg msg) ∨
         written (fst (handleCancelOrder ParseInt id st)) = Some (400%Z, Msg msg) ∨
         written (fst (handleCancelOrder ParseInt id st)) = Some (404%Z, Msg msg).
Proof.
  unfold handleCancelOrder.
  destruct (String.eqb id EmptyString); [split; eauto|].
  destruct (ParseInt id) as [n|]; [|split; eauto].
  destruct (OrderIndex st !! n) as [md|]; [|split; eauto].
  destruct (orderBooks _ _); [|split; eauto].
  destruct (CancelOrderByID_error n (OrderPlacement (order_at st (MetaOrder md))) st)
    as [H|H]; destruct (CancelOrderByID _ _ _) as [e st1]; simpl in H; subst e;
    split; eauto.
Qed.









(** X26 ([handlePlaceOrder], [PlaceLimitOrder], [PlaceMarketOrder],
    [NewOrder]).  A place request that is not answered 200 changes nothing
    in the book, in any state: the sides, the price maps, the limits,
    [OrderIndex] and the existing orders are as before.  Refused for its body
    or for its market it leaves the whole state as it was; refused later it
    has consumed an order id. *)
Theorem place_request_refused_changes_nothing
    (body : option PlaceOrderRequest) (now : Z) (st : State) :
  let r := handlePlaceOrder body now st in
  (∀ p, written (fst r) ≠ Some (200%Z, p)) →
  book (snd r) = book st ∧ limits (snd r) = limits st ∧
  OrderIndex (snd r) = OrderIndex st ∧
  take (length (orders st)) (orders (snd r)) = orders st ∧
  (body = None ∨ (∃ req, body = Some req ∧ ReqMarket req ≠ MarketETH) →
   snd r = st) ∧
  (∀ req, body = Some req → ReqMarket req = MarketETH →
          orderIdSequence (snd r) = wrap64 (orderIdSequence st + 1)).
Proof.
  intros r Hno. unfold r in *. clear r. unfold handlePlaceOrder, orderBooks in *.
  destruct body as [req|].
  { destruct (String.eqb_spec (ReqMarket req) MarketETH) as [Hm|Hm].
    2:{ simpl. rewrite firstn_all. repeat split; try done.
        intros req' [= <-] ?. done. }
    change (NewOrder (ReqPlacement req) (ReqSize req) now st)
      with (length (orders st), snd (NewOrder (ReqPlacement req) (ReqSize req) now st))
      in *.
    cbv iota beta in *.
    set (st0 := snd (NewOrder (ReqPlacement req) (ReqSize req) now st)) in *.
    assert (book st0 = book st ∧ limits st0 = limits st ∧
            OrderIndex st0 = OrderIndex st ∧
            take (length (orders st)) (orders st0) = orders st ∧
            (Some req = None ∨ (∃ req', Some req = Some req' ∧
                                        ReqMarket req' ≠ MarketETH) → st0 = st) ∧
            (∀ req', Some req = Some req' → ReqMarket req' = MarketETH →
                     orderIdSequence st0 = wrap64 (orderIdSequence st + 1))) as H0.
    { unfold st0. simpl. rewrite take_app_length. repeat split; try done.
      intros [[=]|(req' & [= <-] & ?)]. done. }
    destruct (String.eqb (ReqType req) LimitOrder).
    - rewrite PlaceLimitOrder_unfold in *. cbv zeta in *.
      destruct (negb _); [exact H0|].
      destruct (limitFor _ _ _) as [limit st1]. simpl in Hno.
      exfalso. by eapply Hno.
    - destruct (String.eqb (ReqType req) MarketOrder); [|exact H0].
      unfold PlaceMarketOrder in *.
      destruct (String.eqb _ _).
      + destruct (_ >? _)%Z; [exact H0|].
        destruct (Asks st0) as [cells st1].
        destruct (marketLoop _ _ _ _ _ _ _) as [ms st2]. simpl in Hno.
        exfalso. by eapply Hno.
      + destruct (_ >? _)%Z; [exact H0|].
        destruct (Bids st0) as [cells st1].
        destruct (marketLoop _ _ _ _ _ _ _) as [ms st2]. simpl in Hno.
        exfalso. by eapply Hno. }
  simpl. rewrite firstn_all. repeat split; try done.
Qed.

Lemma place_request_refused_changes_nothing_witness :
  let req := mkPlaceOrderRequest "STOP_ORDER" BID_ORDER 5 100 MarketETH in
  let r := handlePlaceOrder (Some req) 7 afterRequests in
  book (snd r) = book afterRequests ∧ limits (snd r) = limits afterRequests ∧
  OrderIndex (snd r) = OrderIndex afterRequests ∧
  take (length (orders afterRequests)) (orders (snd r)) = orders afterRequests ∧
  orderIdSequence (snd r) = wrap64 (orderIdSequence afterRequests + 1).
Proof.
  intros req r.
  destruct (place_request_refused_changes_nothing (Some req) 7 afterRequests)
    as (Hb & Hl & Hi & Ho & _ & Hq).
  - intros p. vm_compute. discriminate.
  - pose proof (Hq req eq_refl eq_refl) as Hq'.
    split; [exact Hb|]. split; [exact Hl|]. split; [exact Hi|].
    split; [exact Ho|exact Hq'].
Defined.

(** * Whole numbers in binary64 *)

Lemma iter_pos_nat {A} (f : A → A) p x :
  SpecFloat.iter_pos f p x = Nat.iter (Pos.to_nat p) f x.
Proof.
  revert x. induction p as [p IH|p IH|]; intros x.
  - change (SpecFloat.iter_pos f p~1 x)
      with (SpecFloat.iter_pos f p (SpecFloat.iter_pos f p (f x))).
    rewrite !IH, Pos2Nat.inj_xI.
    replace (S (2 * Pos.to_nat p)) with (Pos.to_nat p + S (Pos.to_nat p)) by lia.
    rewrite Nat.iter_add. f_equal. by rewrite Nat.iter_succ_r.
  - change (SpecFloat.iter_pos f p~0 x)
      with (SpecFloat.iter_pos f p (SpecFloat.iter_pos f p x)).
    rewrite !IH, Pos2Nat.inj_xO.
    replace (2 * Pos.to_nat p) with (Pos.to_nat p + Pos.to_nat p) by lia.
    by rewrite Nat.iter_add.
  - done.
Qed.

Lemma Pos_iter_shl m p : Pos.iter xO m p = shl m (Pos.to_nat p).
Proof. unfold shl. by rewrite Pos2Nat.inj_iter. Qed.

Lemma shl_add m a b : shl (shl m a) b = shl m (a + b).
Proof. unfold shl. by rewrite Nat.add_comm, Nat.iter_add. Qed.

Lemma shl_val m n : Z.pos (shl m n) = (Z.pos m * 2 ^ Z.of_nat n)%Z.
Proof.
  induction n as [|n IH]; [simpl; lia|].
  change (shl m (S n)) with (xO (shl m n)).
  rewrite Pos2Z.inj_xO, IH, Nat2Z.inj_succ, Z.pow_succ_r; lia.
Qed.

Lemma digits_shl m n :
  Z.pos (digits2_pos (shl m n)) = (Z.pos (digits2_pos m) + Z.of_nat n)%Z.
Proof.
  induction n as [|n IH]; [simpl; lia|].
  change (shl m (S n)) with (xO (shl m n)). simpl digits2_pos. lia.
Qed.

Lemma digits_size p : digits2_pos p = Pos.size p.
Proof. induction p; simpl; congruence. Qed.

Lemma digits_lt p : (Z.pos p < 2 ^ Z.pos (digits2_pos p))%Z.
Proof.
  rewrite digits_size. pose proof (Pos.size_gt p) as H.
  apply Pos2Z.pos_lt_pos in H. by rewrite Pos2Z.inj_pow in H.
Qed.

Lemma digits_le p : (2 ^ (Z.pos (digits2_pos p) - 1) ≤ Z.pos p)%Z.
Proof.
  rewrite digits_size. pose proof (Pos.size_le p) as H.
  apply Pos2Z.pos_le_pos in H. rewrite Pos2Z.inj_pow in H.
  change (Z.pos 2) with 2%Z in H.
  replace (Z.pos (Pos.size p)) with (Z.succ (Z.pos (Pos.size p) - 1)) in H at 1 by lia.
  rewrite Z.pow_succ_r in H by lia. lia.
Qed.

Lemma digits_small p : (Z.pos p < 2 ^ 53)%Z → (Z.pos (digits2_pos p) ≤ 53)%Z.
Proof.
  intros H. pose proof (digits_le p) as Hle.
  destruct (Z_le_gt_dec (Z.pos (digits2_pos p)) 53) as [|Hgt]; [done|].
  assert (2 ^ 53 ≤ 2 ^ (Z.pos (digits2_pos p) - 1))%Z
    by (apply Z.pow_le_mono_r; lia).
  lia.
Qed.

Lemma shr_exact x n e :
  (0 < n)%nat →
  shr (Build_shr_record (Z.pos (shl x n)) false false) e (Z.of_nat n)
  = (Build_shr_record (Z.pos x) false false, (e + Z.of_nat n)%Z).
Proof.
  intros Hn. unfold shr. destruct (Z.of_nat n) as [|p|p] eqn:Hp; try lia.
  f_equal. rewrite iter_pos_nat.
  assert (Pos.to_nat p = n) as -> by lia.
  clear. induction n as [|n IH]; [done|].
  rewrite Nat.iter_succ_r. change (shl x (S n)) with (xO (shl x n)). simpl shr_1.
  apply IH.
Qed.

Lemma fexp_small d : (-1021 ≤ d)%Z → fexp 53 1024 d = (d - 53)%Z.
Proof. unfold fexp, emin. lia. Qed.

Lemma shr_fexp_full m e :
  Z.pos (digits2_pos m) = 53%Z → (-1074 ≤ e)%Z →
  shr_fexp 53 1024 (Z.pos m) e loc_Exact
  = (Build_shr_record (Z.pos m) false false, e).
Proof.
  intros Hd He. unfold shr_fexp.
  change (Zdigits2 (Z.pos m)) with (Z.pos (digits2_pos m)). rewrite Hd.
  rewrite fexp_small by lia.
  replace (53 + e - 53 - e)%Z with 0%Z by lia. done.
Qed.

(** A mantissa of 53 bits is left as it is. *)
Lemma binary_round_aux_full m e :
  Z.pos (digits2_pos m) = 53%Z → (-1074 ≤ e ≤ 971)%Z →
  binary_round_aux 53 1024 false (Z.pos m) e loc_Exact = S754_finite false m e.
Proof.
  intros Hd He. unfold binary_round_aux.
  rewrite shr_fexp_full by (done || lia).
  cbn [shr_m loc_of_shr_record round_nearest_even].
  rewrite shr_fexp_full by (done || lia). cbn [shr_m].
  assert ((e <=? 1024 - 53)%Z = true) as -> by (apply Z.leb_le; lia). done.
Qed.

(** Zero bits shifted out leave the value as it is. *)
Lemma binary_round_aux_shift m n e :
  Z.pos (digits2_pos m) = 53%Z → (-1074 ≤ e)%Z → (e + Z.of_nat n ≤ 971)%Z →
  binary_round_aux 53 1024 false (Z.pos (shl m n)) e loc_Exact
  = S754_finite false m (e + Z.of_nat n).
Proof.
  intros Hd He He'. destruct n as [|n].
  { change (shl m 0) with m. rewrite Z.add_0_r in *.
    apply binary_round_aux_full; [done|lia]. }
  unfold binary_round_aux.
  assert (shr_fexp 53 1024 (Z.pos (shl m (S n))) e loc_Exact
          = (Build_shr_record (Z.pos m) false false, (e + Z.of_nat (S n))%Z)) as ->.
  { unfold shr_fexp.
    change (Zdigits2 (Z.pos (shl m (S n)))) with (Z.pos (digits2_pos (shl m (S n)))).
    rewrite digits_shl, Hd.
    rewrite fexp_small by lia.
    replace (53 + Z.of_nat (S n) + e - 53 - e)%Z with (Z.of_nat (S n)) by lia.
    apply shr_exact. lia. }
  cbn [shr_m loc_of_shr_record round_nearest_even].
  rewrite shr_fexp_full by (done || lia). cbn [shr_m].
  assert ((e + Z.of_nat (S n) <=? 1024 - 53)%Z = true) as ->
    by (apply Z.leb_le; lia).
  done.
Qed.

(** Rounding [c * 2^k * 2^-k] gives the binary64 of [c]. *)
Lemma binary_round_shl c k :
  (Z.pos c < 2 ^ 53)%Z → k ≤ 1000 →
  binary_round 53 1024 false (shl c k) (- Z.of_nat k) = canon c.
Proof.
  intros Hc Hk. pose proof (digits_small c Hc) as Hd.
  assert (0 < Z.pos (digits2_pos c))%Z as Hd0 by lia.
  unfold binary_round, canon.
  rewrite digits_shl, fexp_small by lia.
  unfold shl_align.
  set (j := 53 - Pos.to_nat (digits2_pos c)).
  assert (Z.of_nat j = 53 - Z.pos (digits2_pos c))%Z as Hj by (unfold j; lia).
  assert (Z.pos (digits2_pos (shl c j)) = 53%Z) as Hfull
    by (rewrite digits_shl; lia).
  destruct (Z.pos (digits2_pos c) + Z.of_nat k + - Z.of_nat k - 53 - - Z.of_nat k)%Z
    as [|p|p] eqn:Hdiff.
  - (* the mantissa is full *)
    assert (k = j) as -> by lia.
    replace (- Z.of_nat j)%Z with (Z.pos (digits2_pos c) - 53)%Z by lia.
    apply binary_round_aux_full; [done|lia].
  - (* more than 53 bits: the low ones are zero *)
    assert (k = j + Pos.to_nat p) as -> by lia.
    rewrite <- shl_add.
    replace (Z.pos (digits2_pos c) - 53)%Z
      with (- Z.of_nat (j + Pos.to_nat p) + Z.of_nat (Pos.to_nat p))%Z by lia.
    apply binary_round_aux_shift; [done|lia|lia].
  - (* fewer than 53 bits: filled up *)
    rewrite Pos_iter_shl, shl_add.
    assert (k + Pos.to_nat p = j) as -> by lia.
    replace (Z.pos (digits2_pos c) + Z.of_nat k + - Z.of_nat k - 53)%Z
      with (Z.pos (digits2_pos c) - 53)%Z by lia.
    apply binary_round_aux_full; [done|lia].
Qed.

Lemma of_Z_pos c : (Z.pos c < 2 ^ 53)%Z → F64.of_Z (Z.pos c) = canon c.
Proof. intros Hc. apply (binary_round_shl c 0); [done|lia]. Qed.

Lemma of_Z_0 : F64.of_Z 0 = F64.zero.
Proof. reflexivity. Qed.

Lemma shl_align_fst m e ez :
  (ez ≤ e)%Z → fst (shl_align m e ez) = shl m (Z.to_nat (e - ez)).
Proof.
  intros Hle. unfold shl_align. destruct (ez - e)%Z as [|p|p] eqn:Hd; try lia.
  - replace (e - ez)%Z with 0%Z by lia. done.
  - simpl. rewrite Pos_iter_shl. f_equal. lia.
Qed.

(** The mantissa of [canon c], aligned at an exponent [- k], is [c * 2^k]. *)
Lemma canon_align c k :
  (Z.pos c < 2 ^ 53)%Z → (- Z.of_nat k ≤ Z.pos (digits2_pos c) - 53)%Z →
  fst (shl_align (shl c (53 - Pos.to_nat (digits2_pos c)))
                 (Z.pos (digits2_pos c) - 53) (- Z.of_nat k))
  = shl c k.
Proof.
  intros Hc Hk. pose proof (digits_small c Hc).
  rewrite shl_align_fst by done. rewrite shl_add. f_equal. lia.
Qed.

Lemma shl_plus a b k : (shl a k + shl b k)%positive = shl (a + b) k.
Proof.
  apply Pos2Z.inj. rewrite Pos2Z.inj_add, !shl_val, Pos2Z.inj_add. lia.
Qed.

Lemma shl_minus a b k :
  (b < a)%positive → (Z.pos (shl a k) - Z.pos (shl b k))%Z = Z.pos (shl (a - b) k).
Proof.
  intros Hlt. rewrite !shl_val, Pos2Z.inj_sub by done. lia.
Qed.

Lemma of_Z_small z :
  small z → z = 0%Z ∧ F64.of_Z z = F64.zero ∨
            ∃ c, z = Z.pos c ∧ (Z.pos c < 2 ^ 53)%Z ∧ F64.of_Z z = canon c.
Proof.
  intros [H0 H1]. destruct z as [|c|c]; [by left| |lia].
  right. exists c. split; [done|]. split; [done|]. by apply of_Z_pos.
Qed.

Lemma min_exp_nat (ea eb : Z) :
  (-52 ≤ ea ≤ 0)%Z → (-52 ≤ eb ≤ 0)%Z →
  ∃ k, k ≤ 52 ∧ Z.min ea eb = (- Z.of_nat k)%Z.
Proof. intros. exists (Z.to_nat (- Z.min ea eb)). lia. Qed.

Lemma canon_exp c :
  (Z.pos c < 2 ^ 53)%Z → (-52 ≤ Z.pos (digits2_pos c) - 53 ≤ 0)%Z.
Proof. intros Hc. pose proof (digits_small c Hc). lia. Qed.

(** Addition is exact on the whole numbers below [2^53]. *)
Lemma of_Z_add a b :
  small a → small b → (a + b < 2 ^ 53)%Z →
  F64.add (F64.of_Z a) (F64.of_Z b) = F64.of_Z (a + b).
Proof.
  intros Ha Hb Hab.
  destruct (of_Z_small a Ha) as [[-> ->]|(ca & -> & Hca & ->)];
    destruct (of_Z_small b Hb) as [[-> Eb]|(cb & -> & Hcb & Eb)]; rewrite Eb.
  - done.
  - rewrite Z.add_0_l, of_Z_pos by done. done.
  - rewrite Z.add_0_r, of_Z_pos by done. done.
  - unfold F64.add, canon, SFadd.
    destruct (min_exp_nat _ _ (canon_exp ca Hca) (canon_exp cb Hcb)) as (k & Hk & Hmin).
    rewrite Hmin.
    pose proof (canon_exp ca Hca). pose proof (canon_exp cb Hcb).
    rewrite !canon_align by (done || lia).
    cbn [cond_Zopp]. rewrite <- Pos2Z.inj_add, shl_plus.
    cbn [binary_normalize]. rewrite binary_round_shl by (done || lia).
    symmetry. apply of_Z_pos. done.
Qed.

(** So is subtraction, when the result is not negative. *)
Lemma of_Z_sub a b :
  small a → small b → (b ≤ a)%Z →
  F64.sub (F64.of_Z a) (F64.of_Z b) = F64.of_Z (a - b).
Proof.
  intros Ha Hb Hle.
  destruct (of_Z_small a Ha) as [[-> ->]|(ca & -> & Hca & ->)];
    destruct (of_Z_small b Hb) as [[-> Eb]|(cb & -> & Hcb & Eb)]; rewrite Eb.
  - done.
  - lia.
  - rewrite Z.sub_0_r, of_Z_pos by done. done.
  - unfold F64.sub, canon, SFsub.
    destruct (min_exp_nat _ _ (canon_exp ca Hca) (canon_exp cb Hcb)) as (k & Hk & Hmin).
    rewrite Hmin.
    pose proof (canon_exp ca Hca). pose proof (canon_exp cb Hcb).
    rewrite !canon_align by (done || lia).
    cbn [cond_Zopp].
    destruct (Pos.eq_dec ca cb) as [->|Hne].
    + rewrite !Z.sub_diag. done.
    + assert (cb < ca)%positive as Hlt by lia.
      rewrite shl_minus by done.
      cbn [binary_normalize]. rewrite binary_round_shl by (done || lia).
      rewrite <- Pos2Z.inj_sub by done. symmetry. apply of_Z_pos. lia.
Qed.

Lemma shl_compare a b k : (shl a k ?= shl b k)%positive = (a ?= b)%positive.
Proof.
  rewrite !Pos2Z.inj_compare, !shl_val.
  assert (0 < 2 ^ Z.of_nat k)%Z by (apply Z.pow_pos_nonneg; lia).
  destruct (Z.compare_spec (Z.pos a) (Z.pos b)) as [Heq|Hlt|Hgt].
  - rewrite Heq. apply Z.compare_refl.
  - apply Z.compare_lt_iff. nia.
  - apply Z.compare_gt_iff. nia.
Qed.

(** Comparison agrees with the comparison of whole numbers. *)
Lemma canon_compare a b :
  (Z.pos a < 2 ^ 53)%Z → (Z.pos b < 2 ^ 53)%Z →
  SFcompare (canon a) (canon b) = Some (a ?= b)%positive.
Proof.
  intros Ha Hb. unfold canon, SFcompare.
  pose proof (digits_small a Ha). pose proof (digits_small b Hb).
  pose proof (digits_lt a). pose proof (digits_le a).
  pose proof (digits_lt b). pose proof (digits_le b).
  f_equal.
  destruct (Z.compare_spec (Z.pos (digits2_pos a) - 53) (Z.pos (digits2_pos b) - 53))
    as [Heq|Hlt|Hgt].
  - assert (digits2_pos a = digits2_pos b) as -> by lia.
    rewrite Pos.compare_cont_spec, shl_compare. by destruct (a ?= b)%positive.
  - symmetry. apply Pos.compare_lt_iff.
    assert (2 ^ Z.pos (digits2_pos a) ≤ 2 ^ (Z.pos (digits2_pos b) - 1))%Z
      by (apply Z.pow_le_mono_r; lia).
    lia.
  - symmetry. apply Pos.compare_gt_iff.
    assert (2 ^ Z.pos (digits2_pos b) ≤ 2 ^ (Z.pos (digits2_pos a) - 1))%Z
      by (apply Z.pow_le_mono_r; lia).
    lia.
Qed.

Lemma of_Z_compare a b :
  small a → small b → SFcompare (F64.of_Z a) (F64.of_Z b) = Some (a ?= b)%Z.
Proof.
  intros Ha Hb.
  destruct (of_Z_small a Ha) as [[-> ->]|(ca & -> & Hca & ->)];
    destruct (of_Z_small b Hb) as [[-> ->]|(cb & -> & Hcb & ->)]; try done.
  by apply canon_compare.
Qed.

Lemma of_Z_gtb a b :
  small a → small b → F64.gtb (F64.of_Z a) (F64.of_Z b) = (a >? b)%Z.
Proof.
  intros Ha Hb. unfold F64.gtb, SFltb. rewrite of_Z_compare by done.
  unfold Z.gtb. rewrite (Z.compare_antisym a b).
  by destruct (a ?= b)%Z.
Qed.

Lemma of_Z_eqb a b :
  small a → small b → F64.eqb (F64.of_Z a) (F64.of_Z b) = (a =? b)%Z.
Proof.
  intros Ha Hb. unfold F64.eqb, SFeqb. rewrite of_Z_compare by done.
  destruct (Z.compare_spec a b), (Z.eqb_spec a b); (done || lia).
Qed.

Lemma of_Z_is_zero a : small a → F64.eqb (F64.of_Z a) F64.zero = (a =? 0)%Z.
Proof. intros Ha. apply (of_Z_eqb a 0); [done|]. unfold small. lia. Qed.

Lemma of_Z_not_nan a : small a → F64.of_Z a ≠ S754_nan.
Proof.
  intros Ha. by destruct (of_Z_small a Ha) as [[-> ->]|(ca & -> & Hca & ->)].
Qed.

Lemma of_Z_min a b :
  small a → small b → F64.min (F64.of_Z a) (F64.of_Z b) = F64.of_Z (Z.min a b).
Proof.
  intros Ha Hb. unfold F64.min, SFltb.
  rewrite !of_Z_compare by done.
  pose proof (of_Z_not_nan a Ha). pose proof (of_Z_not_nan b Hb).
  assert (∀ x y : F64.f64, x ≠ S754_nan → y ≠ S754_nan → ∀ r : F64.f64,
            match x, y with
            | S754_nan, _ | _, S754_nan => S754_nan
            | _, _ => r
            end = r) as Hm.
  { intros x y Hx Hy r. by destruct x, y. }
  rewrite (Z.compare_antisym a b).
  destruct (Z.compare_spec a b) as [->|Hlt|Hgt]; simpl.
  - rewrite Z.min_id.
    destruct (of_Z_small b Hb) as [[-> ->]|(cb & -> & Hcb & ->)]; done.
  - rewrite Z.min_l by lia.
    by destruct (F64.of_Z a), (F64.of_Z b).
  - rewrite Z.min_r by lia.
    by destruct (F64.of_Z a), (F64.of_Z b).
Qed.

(** Distinct whole numbers are distinct in binary64. *)
Lemma of_Z_inj a b : small a → small b → F64.of_Z a = F64.of_Z b → a = b.
Proof.
  intros Ha Hb Heq. apply Z.eqb_eq. rewrite <- of_Z_eqb by done.
  rewrite Heq. rewrite of_Z_eqb by done. apply Z.eqb_refl.
Qed.

(** * The binary64 program on whole-number sizes *)

(** ** Stores *)

Lemma f64_order_at st o : F64.order_at (f64_State st) o = f64_Order (order_at st o).
Proof.
  unfold F64.order_at, order_at. simpl. rewrite list_lookup_fmap.
  by destruct (orders st !! o).
Qed.

Lemma f64_limit_at st l : F64.limit_at (f64_State st) l = f64_Limit (limit_at st l).
Proof.
  unfold F64.limit_at, limit_at. simpl. rewrite list_lookup_fmap.
  by destruct (limits st !! l).
Qed.

Lemma alter_fmap_at {A B} (h : A → B) (f : A → A) (g : B → B) (i : nat) (l : list A) :
  (∀ x, l !! i = Some x → g (h x) = h (f x)) →
  alter g i (h <$> l) = h <$> alter f i l.
Proof.
  revert i. induction l as [|a l IH]; intros [|i] H; simpl; try done.
  - f_equal. by apply H.
  - f_equal. apply IH. intros x Hx. by apply H.
Qed.

Lemma f64_upd_order o f g st :
  (o < length (orders st) → g (f64_Order (order_at st o)) = f64_Order (f (order_at st o))) →
  F64.upd_order o g (f64_State st) = f64_State (upd_order o f st).
Proof.
  intros H. unfold F64.upd_order, upd_order, f64_State, F64.set_orders. simpl. f_equal.
  apply alter_fmap_at. intros x Hx.
  assert (order_at st o = x) as <- by (unfold order_at; by rewrite Hx).
  apply H. by eapply lookup_lt_Some.
Qed.

Lemma f64_upd_limit l f g st :
  (l < length (limits st) → g (f64_Limit (limit_at st l)) = f64_Limit (f (limit_at st l))) →
  F64.upd_limit l g (f64_State st) = f64_State (upd_limit l f st).
Proof.
  intros H. unfold F64.upd_limit, upd_limit, f64_State, F64.set_limits. simpl. f_equal.
  apply alter_fmap_at. intros x Hx.
  assert (limit_at st l = x) as <- by (unfold limit_at; by rewrite Hx).
  apply H. by eapply lookup_lt_Some.
Qed.

Lemma f64_set_book b st : F64.set_book b (f64_State st) = f64_State (set_book b st).
Proof. done. Qed.

Lemma f64_set_index ix st : F64.set_index ix (f64_State st) = f64_State (set_index ix st).
Proof. done. Qed.

Lemma f64_Orders_Less st a b : F64.Orders_Less (f64_State st) a b = Orders_Less st a b.
Proof. unfold F64.Orders_Less, Orders_Less. by rewrite !f64_order_at. Qed.

Lemma f64_ByBestAsk_Less st a b :
  F64.ByBestAsk_Less (f64_State st) a b = ByBestAsk_Less st a b.
Proof. unfold F64.ByBestAsk_Less, ByBestAsk_Less. by rewrite !f64_limit_at. Qed.

Lemma f64_ByBestBid_Less st a b :
  F64.ByBestBid_Less (f64_State st) a b = ByBestBid_Less st a b.
Proof. unfold F64.ByBestBid_Less, ByBestBid_Less. by rewrite !f64_limit_at. Qed.

(** ** Order and Limit *)

Lemma f64_NewOrder placement size now st :
  F64.NewOrder placement (F64.of_Z size) now (f64_State st)
  = (fst (NewOrder placement size now st), f64_State (snd (NewOrder placement size now st))).
Proof.
  unfold F64.NewOrder, NewOrder, f64_State. simpl.
  by rewrite length_fmap, fmap_app.
Qed.

Lemma f64_NewLimit price st :
  F64.NewLimit price (f64_State st)
  = (fst (NewLimit price st), f64_State (snd (NewLimit price st))).
Proof.
  unfold F64.NewLimit, NewLimit, f64_State, F64.set_limits. simpl.
  by rewrite length_fmap, fmap_app.
Qed.

Lemma f64_IsFilled st o :
  small (size_at st o) → F64.IsFilled (f64_State st) o = IsFilled st o.
Proof.
  intros H. unfold F64.IsFilled, IsFilled. rewrite f64_order_at. simpl.
  by apply of_Z_is_zero.
Qed.

Lemma f64_AddOrder l o st :
  small (TotalVolume (limit_at st l)) → small (size_at st o) →
  (TotalVolume (limit_at st l) + size_at st o < 2 ^ 53)%Z →
  F64.AddOrder l o (f64_State st) = f64_State (AddOrder l o st).
Proof.
  intros Hv Hs Hsum. unfold F64.AddOrder, AddOrder.
  rewrite (f64_upd_order o (with_OrderLimit (Some l))) by done.
  set (st1 := upd_order o (with_OrderLimit (Some l)) st).
  rewrite (f64_upd_limit l (with_Orders (λ os, os ++ [o]))) by done.
  set (st2 := upd_limit l (with_Orders (λ os, os ++ [o])) st1).
  assert (size_at st2 o = size_at st o) as Hsz.
  { unfold size_at, st2, upd_limit. 
    change (order_at (set_limits _ st1) o) with (order_at st1 o).
    unfold st1. by apply order_at_upd_order_field. }
  assert (TotalVolume (limit_at st2 l) = TotalVolume (limit_at st l)) as Hvol.
  { unfold st2. rewrite (limit_at_upd_limit_field TotalVolume) by done. done. }
  apply f64_upd_limit. intros _.
  rewrite f64_order_at. unfold f64_Limit, F64.with_TotalVolume, with_TotalVolume. simpl.
  f_equal. fold (size_at st2 o). rewrite Hsz, Hvol.
  by apply of_Z_add.
Qed.

Lemma f64_DeleteOrder l o st :
  small (TotalVolume (limit_at st l)) → small (size_at st o) →
  (size_at st o ≤ TotalVolume (limit_at st l))%Z →
  F64.DeleteOrder l o (f64_State st) = f64_State (DeleteOrder l o st).
Proof.
  intros Hv Hs Hle. unfold F64.DeleteOrder, DeleteOrder.
  rewrite f64_limit_at. change (F64.Orders (f64_Limit ?x)) with (Orders x).
  set (st1 := match find_index o (Orders (limit_at st l)) with
              | Some i => upd_limit l (with_Orders (swap_delete i)) st
              | None => st
              end).
  assert (match find_index o (Orders (limit_at st l)) with
          | Some i => F64.upd_limit l (F64.with_Orders (swap_delete i)) (f64_State st)
          | None => f64_State st
          end = f64_State st1) as ->.
  { unfold st1. destruct (find_index _ _); [|done]. by apply f64_upd_limit. }
  assert (∀ o', size_at st1 o' = size_at st o') as Hsz1
    by (intros o'; unfold st1; by destruct (find_index _ _)).
  assert (TotalVolume (limit_at st1 l) = TotalVolume (limit_at st l)) as Hv1.
  { unfold st1. destruct (find_index _ _); [|done].
    by rewrite (limit_at_upd_limit_field TotalVolume). }
  rewrite (f64_upd_order o (with_OrderLimit None)) by done.
  set (st2 := upd_order o (with_OrderLimit None) st1).
  assert (size_at st2 o = size_at st o) as Hsz2.
  { unfold size_at, st2. rewrite (order_at_upd_order_field Size) by done. apply Hsz1. }
  assert (TotalVolume (limit_at st2 l) = TotalVolume (limit_at st l)) as Hv2 by done.
  rewrite (f64_upd_limit l (with_TotalVolume (λ v, v - Size (order_at st2 o))%Z)).
  2:{ intros _. rewrite f64_order_at.
      unfold f64_Limit, F64.with_TotalVolume, with_TotalVolume. simpl.
      f_equal. fold (size_at st2 o). rewrite Hsz2, Hv2. by apply of_Z_sub. }
  set (st3 := upd_limit l _ st2).
  apply f64_upd_limit. intros _.
  unfold f64_Limit, F64.with_Orders, with_Orders. simpl. f_equal.
  apply sortBy_ext. apply f64_Orders_Less.
Qed.

Lemma filled_bounds st m order :
  (0 ≤ size_at st m)%Z → (0 ≤ size_at st order)%Z →
  (0 ≤ filled st m order ≤ size_at st m)%Z ∧ (filled st m order ≤ size_at st order)%Z.
Proof. unfold filled. lia. Qed.

Lemma f64_fillOrder l m order st :
  m ≠ order → small (size_at st m) → small (size_at st order) →
  small (TotalVolume (limit_at st l)) →
  (filled st m order ≤ TotalVolume (limit_at st l))%Z →
  F64.fillOrder l m order (f64_State st)
  = (f64_Match (fst (fillOrder l m order st)), f64_State (snd (fillOrder l m order st))).
Proof.
  intros Hne Hm Ho Hv Hle.
  assert (small (filled st m order)) as Hf by (unfold filled, small in *; lia).
  assert (∀ ask bid, ask ≠ bid →
            Z.min (size_at st ask) (size_at st bid) = filled st m order →
            small (size_at st ask) → small (size_at st bid) →
            let sizeFilled := Z.min (Size (order_at st ask)) (Size (order_at st bid)) in
            let st1 := upd_order ask (with_Size (λ s, s - sizeFilled)%Z) st in
            let st2 := upd_order bid (with_Size (λ s, s - sizeFilled)%Z) st1 in
            let st3 := upd_limit l (with_TotalVolume (λ v, v - sizeFilled)%Z) st2 in
            let fsize := F64.min (F64.Size (F64.order_at (f64_State st) ask))
                                 (F64.Size (F64.order_at (f64_State st) bid)) in
            let ft1 := F64.upd_order ask (F64.with_Size (λ s, F64.sub s fsize)) (f64_State st) in
            let ft2 := F64.upd_order bid (F64.with_Size (λ s, F64.sub s fsize)) ft1 in
            let ft3 := F64.upd_limit l (F64.with_TotalVolume (λ v, F64.sub v fsize)) ft2 in
            (F64.mkMatch ask bid fsize (F64.Price (F64.limit_at ft3 l)), ft3)
            = (f64_Match (mkMatch ask bid sizeFilled (Price (limit_at st3 l))),
               f64_State st3)) as Hgen.
  { intros ask bid Hab Hmin Ha Hb sizeFilled st1 st2 st3 fsize ft1 ft2 ft3.
    assert (sizeFilled = filled st m order) as Hsf by exact Hmin.
    assert (fsize = F64.of_Z sizeFilled) as Hfs.
    { unfold fsize. rewrite !f64_order_at. simpl. by apply of_Z_min. }
    assert (ft1 = f64_State st1) as Hft1.
    { unfold ft1, st1. apply f64_upd_order. intros _.
      unfold f64_Order, F64.with_Size, with_Size. simpl. f_equal.
      rewrite Hfs. apply of_Z_sub; [done|by rewrite Hsf|].
      change (Size (order_at st ask)) with (size_at st ask). unfold sizeFilled.
      change (Size (order_at st ask)) with (size_at st ask). lia. }
    assert (ft2 = f64_State st2) as Hft2.
    { unfold ft2, st2. rewrite Hft1. apply f64_upd_order. intros _.
      unfold st1. rewrite order_at_upd_order_ne by done.
      unfold f64_Order, F64.with_Size, with_Size. simpl. f_equal.
      rewrite Hfs. apply of_Z_sub; [done|by rewrite Hsf|].
      unfold sizeFilled.
      change (Size (order_at st bid)) with (size_at st bid). lia. }
    assert (ft3 = f64_State st3) as Hft3.
    { unfold ft3, st3. rewrite Hft2. apply f64_upd_limit. intros _.
      assert (limit_at st2 l = limit_at st l) as -> by done.
      unfold f64_Limit, F64.with_TotalVolume, with_TotalVolume. simpl. f_equal.
      rewrite Hfs. apply of_Z_sub; [done|by rewrite Hsf|by rewrite Hsf]. }
    rewrite Hft3, f64_limit_at, Hfs. done. }
  unfold F64.fillOrder, fillOrder. rewrite f64_order_at.
  change (F64.OrderPlacement (f64_Order ?x)) with (OrderPlacement x).
  destruct (String.eqb _ _).
  - apply Hgen; try done.
  - apply Hgen; try done. unfold filled. lia.
Qed.

(** ** [Limit.Fill] *)

Lemma Zsum_nonneg f l : (∀ x, x ∈ l → (0 ≤ f x)%Z) → (0 ≤ Zsum f l)%Z.
Proof.
  induction l as [|x l IH]; intros H; simpl; [done|].
  assert (0 ≤ f x)%Z by (apply H; left).
  assert (0 ≤ Zsum f l)%Z by (apply IH; intros y Hy; apply H; by right).
  lia.
Qed.

Lemma Zsum_le f g l : (∀ x, x ∈ l → (f x ≤ g x)%Z) → (Zsum f l ≤ Zsum g l)%Z.
Proof.
  induction l as [|x l IH]; intros H; simpl; [done|].
  assert (f x ≤ g x)%Z by (apply H; left).
  assert (Zsum f l ≤ Zsum g l)%Z by (apply IH; intros y Hy; apply H; by right).
  lia.
Qed.

Lemma fillOrder_shrinks l m order st :
  m ≠ order → m < length (orders st) → order < length (orders st) →
  l < length (limits st) →
  (∀ o, (0 ≤ size_at st o)%Z) →
  (size_at st m ≤ TotalVolume (limit_at st l))%Z →
  shrinks l st (snd (fillOrder l m order st)) ∧
  TotalVolume (limit_at (snd (fillOrder l m order st)) l)
  = (TotalVolume (limit_at st l) - filled st m order)%Z.
Proof.
  intros Hne Hm Ho Hl Hnn Hle.
  destruct (filled_bounds st m order (Hnn m) (Hnn order)) as [[Hf0 Hfm] Hfo].
  assert (TotalVolume (limit_at (snd (fillOrder l m order st)) l)
          = (TotalVolume (limit_at st l) - filled st m order)%Z) as Hv
    by (by rewrite fillOrder_limit_eq).
  split; [|done]. split.
  - intros o. rewrite fillOrder_size by done. pose proof (Hnn o).
    destruct (decide _) as [[->| ->]|_]; lia.
  - rewrite Hv. lia.
  - apply fillOrder_length_orders.
  - apply fillOrder_length_limits.
Qed.

Lemma f64_Fill_walk l order resting st :
  (∀ o, small (size_at st o)) → small (TotalVolume (limit_at st l)) →
  l < length (limits st) → order < length (orders st) →
  (∀ m, m ∈ resting → m < length (orders st)) →
  NoDup resting → order ∉ resting →
  (Zsum (size_at st) resting ≤ TotalVolume (limit_at st l))%Z →
  F64.Fill_walk l order resting (f64_State st)
  = ((Fill_walk l order resting st).1.1,
     f64_Match <$> (Fill_walk l order resting st).1.2,
     f64_State (Fill_walk l order resting st).2) ∧
  shrinks l st (Fill_walk l order resting st).2 ∧
  (∀ d, d ∈ (Fill_walk l order resting st).1.1 →
        size_at (Fill_walk l order resting st).2 d = 0%Z) ∧
  Forall (λ mt, (0 ≤ SizeFilled mt)%Z) (Fill_walk l order resting st).1.2.
Proof.
  revert st. induction resting as [|m rest IH]; intros st Hsm Hv Hl Ho Hal Hnd Hnot Hsum.
  { simpl. split; [done|]. split; [|split; [by intros d ?%elem_of_nil|constructor]].
    split; [intros o; pose proof (Hsm o); unfold small in *; lia
          |unfold small in *; lia|done|done]. }
  apply NoDup_cons in Hnd as [Hm Hnd].
  apply not_elem_of_cons in Hnot as [Hne Hnot].
  assert (m ≠ order) as Hne' by done.
  assert (m < length (orders st)) as Hml by (apply Hal; left).
  assert (∀ o, (0 ≤ size_at st o)%Z) as Hnn by (intros o; apply Hsm).
  assert (0 ≤ Zsum (size_at st) rest)%Z as Hrest by (apply Zsum_nonneg; auto).
  simpl in Hsum.
  assert (size_at st m ≤ TotalVolume (limit_at st l))%Z as Hle by lia.
  destruct (filled_bounds st m order (Hnn m) (Hnn order)) as [[Hf0 Hfm] Hfo].
  destruct (fillOrder_shrinks l m order st Hne' Hml Ho Hl Hnn Hle) as [Hsh Hvol].
  pose proof (f64_fillOrder l m order st Hne' (Hsm m) (Hsm order) Hv ltac:(lia)) as Hsim.
  assert (0 ≤ SizeFilled (fst (fillOrder l m order st)))%Z as Hmt.
  { rewrite fillOrder_match. by destruct (String.eqb _ _). }
  simpl. rewrite Hsim.
  destruct (fillOrder l m order st) as [mt st1] eqn:Hfo1. simpl in *.
  destruct Hsh as [Hsz1 Hv1 Hlo1 Hll1].
  assert (∀ o, small (size_at st1 o)) as Hsm1.
  { intros o. pose proof (Hsz1 o). pose proof (Hsm o). unfold small in *. lia. }
  rewrite !f64_IsFilled by done.
  destruct (IsFilled st1 order) eqn:Hfilled.
  - simpl. split; [done|]. split; [done|]. split; [|by repeat constructor].
    intros d Hd. destruct (IsFilled st1 m) eqn:Hfm1; [|by apply elem_of_nil in Hd].
    apply list_elem_of_singleton in Hd as ->. by apply IsFilled_spec.
  - assert (Zsum (size_at st1) rest = Zsum (size_at st) rest) as Hsame.
    { apply Zsum_ext. intros x Hx.
      replace st1 with (snd (fillOrder l m order st)) by (by rewrite Hfo1).
      rewrite fillOrder_size by done.
      destruct (decide _) as [[->| ->]|_]; done. }
    destruct (IH st1) as (Hsim2 & [Hsz2 Hv2 Hlo2 Hll2] & Hd2 & Hms2); try done.
    { unfold small in *. lia. }
    { lia. }
    { lia. }
    { intros x Hx. rewrite Hlo1. apply Hal. by right. }
    { lia. }
    rewrite Hsim2.
    destruct (Fill_walk l order rest st1) as [[dels ms] st2]. simpl in *.
    split; [done|]. split.
    + split; [|lia|lia|lia]. intros o. pose proof (Hsz1 o). pose proof (Hsz2 o). lia.
    + split; [|by constructor].
      intros d [Hd|Hd]%elem_of_app; [|by apply Hd2].
      destruct (IsFilled st1 m) eqn:Hfm1; [|by apply elem_of_nil in Hd].
      apply list_elem_of_singleton in Hd as ->.
      apply IsFilled_spec in Hfm1. pose proof (Hsz2 m). lia.
Qed.

Lemma f64_deleteAll l dels st :
  small (TotalVolume (limit_at st l)) → l < length (limits st) →
  (∀ d, d ∈ dels → size_at st d = 0%Z) →
  foldl (λ s o, F64.DeleteOrder l o s) (f64_State st) dels
  = f64_State (deleteAll l dels st) ∧
  TotalVolume (limit_at (deleteAll l dels st) l) = TotalVolume (limit_at st l).
Proof.
  revert st. induction dels as [|d dels IH]; intros st Hv Hl Hd; [done|].
  assert (size_at st d = 0%Z) as Hd0 by (apply Hd; left).
  simpl. rewrite f64_DeleteOrder; [|done|rewrite Hd0; unfold small; lia|
                                   rewrite Hd0; unfold small in Hv; lia].
  assert (TotalVolume (limit_at (DeleteOrder l d st) l) = TotalVolume (limit_at st l)) as Hv1.
  { rewrite DeleteOrder_limit_eq by done. simpl. lia. }
  destruct (IH (DeleteOrder l d st)) as [Hsim Hvol].
  - by rewrite Hv1.
  - by rewrite DeleteOrder_length_limits.
  - intros x Hx. rewrite DeleteOrder_size. apply Hd. by right.
  - unfold deleteAll in *. simpl. split; [done|]. by rewrite Hvol.
Qed.

Lemma deleteAll_lengths l dels st :
  length (orders (deleteAll l dels st)) = length (orders st) ∧
  length (limits (deleteAll l dels st)) = length (limits st).
Proof.
  revert st. induction dels as [|d dels IH]; intros st; [done|].
  unfold deleteAll in *. simpl. destruct (IH (DeleteOrder l d st)) as [-> ->].
  by rewrite DeleteOrder_length_orders, DeleteOrder_length_limits.
Qed.

Lemma f64_Fill l order st :
  (∀ o, small (size_at st o)) → small (TotalVolume (limit_at st l)) →
  l < length (limits st) → order < length (orders st) →
  (∀ m, m ∈ queue st l → m < length (orders st)) →
  NoDup (queue st l) → order ∉ queue st l →
  (Zsum (size_at st) (queue st l) ≤ TotalVolume (limit_at st l))%Z →
  F64.Fill l order (f64_State st)
  = (f64_Match <$> (Fill l order st).1, f64_State (Fill l order st).2) ∧
  shrinks l st (Fill l order st).2 ∧
  Forall (λ mt, (0 ≤ SizeFilled mt)%Z) (Fill l order st).1.
Proof.
  intros Hsm Hv Hl Ho Hal Hnd Hnot Hsum.
  destruct (f64_Fill_walk l order (queue st l) st)
    as (Hsim & [Hsz Hvol Hlo Hll] & Hd & Hms); try done.
  unfold F64.Fill, Fill. rewrite f64_limit_at.
  change (F64.Orders (f64_Limit ?x)) with (Orders x).
  fold (queue st l). rewrite Hsim.
  destruct (Fill_walk l order (queue st l) st) as [[dels ms] st1]. simpl in *.
  destruct (f64_deleteAll l dels st1) as [Hsim2 Hv2]; [unfold small in *; lia|lia|done|].
  fold (deleteAll l dels st1). rewrite Hsim2.
  split; [done|]. split; [|done].
  destruct (deleteAll_lengths l dels st1) as [Hlo2 Hll2].
  split; [|lia|lia|lia].
  intros o. rewrite deleteAll_size. apply Hsz.
Qed.

(** ** What [Exact] bounds *)

Lemma Zsum_submseteq f l k :
  (∀ x, (0 ≤ f x)%Z) → l ⊆+ k → (Zsum f l ≤ Zsum f k)%Z.
Proof.
  intros Hf H. induction H as [|x l k _ IH|x y l|x l k _ IH|l k m _ IH1 _ IH2]; simpl.
  - done.
  - lia.
  - lia.
  - pose proof (Hf x). lia.
  - lia.
Qed.

Lemma Zsum_total st os :
  (∀ o, (0 ≤ size_at st o)%Z) → NoDup os → (∀ o, o ∈ os → o < length (orders st)) →
  (Zsum (size_at st) os ≤ total st)%Z.
Proof.
  intros Hnn Hnd Hal. apply Zsum_submseteq; [done|].
  apply NoDup_submseteq; [done|]. intros o Ho. apply elem_of_seq. split; [lia|].
  simpl. by apply Hal.
Qed.

Lemma Exact_small_size st o : Exact st → small (size_at st o).
Proof.
  intros [Hnn Ht]. split; [done|].
  destruct (decide (o < length (orders st))) as [Ho|Ho].
  - pose proof (Zsum_total st [o] Hnn) as H. simpl in H.
    assert (size_at st o + 0 ≤ total st)%Z.
    { apply H; [apply NoDup_singleton|]. by intros ? ->%list_elem_of_singleton. }
    lia.
  - unfold size_at, order_at. rewrite lookup_ge_None_2 by lia. done.
Qed.

Lemma Zsum_elem f l x : (∀ y, (0 ≤ f y)%Z) → x ∈ l → (f x ≤ Zsum f l)%Z.
Proof.
  intros Hf Hx. induction l as [|y l IH]; [by apply elem_of_nil in Hx|].
  simpl. apply elem_of_cons in Hx as [->|Hx].
  - pose proof (Zsum_nonneg f l (λ z _, Hf z)). lia.
  - pose proof (Hf y). pose proof (IH Hx). lia.
Qed.

Lemma Exact_small_volume st l :
  Inv st → Exact st → in_book st l → small (TotalVolume (limit_at st l)).
Proof.
  intros HI [Hnn Ht] Hl. rewrite (inv_volume _ HI l Hl). split.
  - by apply Zsum_nonneg.
  - pose proof (Zsum_total st (queue st l) Hnn (inv_queue_nodup _ HI l Hl)
                  (λ o, inv_queue_alloc _ HI l o Hl)). lia.
Qed.

Lemma list_elem_of_join_concat {A} (x : A) (ls : list (list A)) :
  x ∈ concat ls → ∃ l, x ∈ l ∧ l ∈ ls.
Proof.
  induction ls as [|l ls IH]; simpl; [by intros ?%elem_of_nil|].
  intros [H|H]%elem_of_app.
  - exists l. split; [done|left].
  - destruct (IH H) as (l' & ? & ?). exists l'. split; [done|by right].
Qed.

Lemma NoDup_queues st ls :
  Inv st → NoDup ls → (∀ l, l ∈ ls → in_book st l) →
  NoDup (concat (queue st <$> ls)).
Proof.
  intros HI. induction ls as [|l ls IH]; intros Hnd Hin; [constructor|].
  apply NoDup_cons in Hnd as [Hl Hnd]. simpl. apply NoDup_app. split; [|split].
  - apply (inv_queue_nodup _ HI). apply Hin. left.
  - intros o Ho (q & Hq & (l' & -> & Hl')%list_elem_of_fmap)%list_elem_of_join_concat.
    assert (l = l') as ->; [|done].
    apply (inv_queue_disjoint _ HI l l' o); try done; apply Hin; [left|by right].
  - apply IH; [done|]. intros l' Hl'. apply Hin. by right.
Qed.

Lemma Zsum_queues st ls :
  Inv st → (∀ l, l ∈ ls → in_book st l) →
  Zsum (λ l, TotalVolume (limit_at st l)) ls
  = Zsum (size_at st) (concat (queue st <$> ls)).
Proof.
  intros HI. induction ls as [|l ls IH]; intros Hin; [done|].
  change (concat (queue st <$> l :: ls))
    with (queue st l ++ concat (queue st <$> ls)).
  rewrite Zsum_app, <- IH by (intros l' Hl'; apply Hin; by right).
  rewrite <- (inv_volume _ HI l) by (apply Hin; left). done.
Qed.

Lemma Exact_small_side st ls :
  Inv st → Exact st → NoDup ls → (∀ l, l ∈ ls → in_book st l) →
  small (Zsum (λ l, TotalVolume (limit_at st l)) ls).
Proof.
  intros HI [Hnn Ht] Hnd Hin. rewrite Zsum_queues by done. split.
  - by apply Zsum_nonneg.
  - pose proof (Zsum_total st (concat (queue st <$> ls)) Hnn
                  (NoDup_queues st ls HI Hnd Hin)) as H.
    assert (Zsum (size_at st) (concat (queue st <$> ls)) ≤ total st)%Z; [|lia].
    apply H. intros o (q & Hq & (l & -> & Hl)%list_elem_of_fmap)%list_elem_of_join_concat.
    apply (inv_queue_alloc _ HI l); [by apply Hin|done].
Qed.

(** Sizes that only shrink keep a state exact. *)
Lemma Exact_shrinks l st st' : Exact st → shrinks l st st' → Exact st'.
Proof.
  intros [Hnn Ht] [Hsz _ Hlo _]. split; [intros o; apply Hsz|].
  unfold total in *. rewrite Hlo.
  assert (Zsum (size_at st') (seq 0 (length (orders st)))
          ≤ Zsum (size_at st) (seq 0 (length (orders st))))%Z; [|lia].
  apply Zsum_le. intros o _. apply Hsz.
Qed.

(** ** [AskTotalVolume], [BidTotalVolume], [Asks], [Bids], [deleteLimit] *)

Lemma f64_sumVolume_from st ls a :
  (0 ≤ a)%Z → (∀ l, l ∈ ls → (0 ≤ TotalVolume (limit_at st l))%Z) →
  (a + Zsum (λ l, TotalVolume (limit_at st l)) ls < 2 ^ 53)%Z →
  foldl (λ totalVolume l,
           F64.add totalVolume (F64.TotalVolume (F64.limit_at (f64_State st) l)))
        (F64.of_Z a) ls
  = F64.of_Z (foldl (λ totalVolume l, totalVolume + TotalVolume (limit_at st l))%Z a ls).
Proof.
  revert a. induction ls as [|l ls IH]; intros a Ha Hnn Hb; [done|].
  simpl in *.
  assert (0 ≤ TotalVolume (limit_at st l))%Z as Hl by (apply Hnn; left).
  assert (0 ≤ Zsum (λ l, TotalVolume (limit_at st l)) ls)%Z as Hrest.
  { apply Zsum_nonneg. intros x Hx. apply Hnn. by right. }
  rewrite f64_limit_at. simpl. rewrite of_Z_add by (unfold small; lia).
  apply IH; [lia|intros x Hx; apply Hnn; by right|lia].
Qed.

Lemma f64_sumVolume st ls :
  (∀ l, l ∈ ls → (0 ≤ TotalVolume (limit_at st l))%Z) →
  (Zsum (λ l, TotalVolume (limit_at st l)) ls < 2 ^ 53)%Z →
  F64.sumVolume (f64_State st) ls = F64.of_Z (sumVolume st ls).
Proof.
  intros Hnn Hsum. apply (f64_sumVolume_from st ls 0); [done|done|lia].
Qed.

Lemma f64_sideVolume pl st :
  Inv st → Exact st →
  F64.sumVolume (f64_State st) (side_of pl (book st))
  = F64.of_Z (sumVolume st (side_of pl (book st))) ∧
  small (sumVolume st (side_of pl (book st))).
Proof.
  intros HI HE.
  pose proof (Exact_small_side st (side_of pl (book st)) HI HE
                (inv_side_nodup pl st HI) (λ l, side_of_in_book pl st l)) as Hs.
  split; [|by rewrite sumVolume_Zsum].
  apply f64_sumVolume; [|apply Hs].
  intros l Hl. apply (Exact_small_volume st l HI HE). by eapply side_of_in_book.
Qed.

Lemma f64_Asks st :
  F64.Asks (f64_State st) = (fst (Asks st), f64_State (snd (Asks st))).
Proof.
  unfold F64.Asks, Asks. simpl.
  rewrite (sortBy_ext _ (ByBestAsk_Less st)) by apply f64_ByBestAsk_Less. done.
Qed.

Lemma f64_Bids st :
  F64.Bids (f64_State st) = (fst (Bids st), f64_State (snd (Bids st))).
Proof.
  unfold F64.Bids, Bids. simpl.
  rewrite (sortBy_ext _ (ByBestBid_Less st)) by apply f64_ByBestBid_Less. done.
Qed.

Lemma f64_deleteLimitCells pl limit cells st :
  F64.deleteLimitCells pl limit cells (f64_State st)
  = (fst (deleteLimitCells pl limit cells st),
     f64_State (snd (deleteLimitCells pl limit cells st))).
Proof.
  unfold F64.deleteLimitCells, deleteLimitCells. rewrite f64_limit_at. simpl.
  by destruct (sliceDelete _ _ _).
Qed.

Lemma f64_deleteLimit pl limit st :
  F64.deleteLimit pl limit (f64_State st) = f64_State (deleteLimit pl limit st).
Proof.
  unfold F64.deleteLimit, deleteLimit.
  change (F64.book (f64_State st)) with (book st).
  by rewrite f64_deleteLimitCells.
Qed.

(** ** [PlaceMarketOrder] *)

Lemma no_growth_refl st : Exact st → no_growth st st.
Proof. intros [Hnn _]. split; [done|lia]. Qed.

Lemma no_growth_trans st1 st2 st3 :
  no_growth st1 st2 → no_growth st2 st3 → no_growth st1 st3.
Proof. intros [_ H1] [Hnn H2]. split; [done|lia]. Qed.

Lemma no_growth_Exact st st' : Exact st → no_growth st st' → Exact st'.
Proof. intros [_ Ht] [Hnn Hle]. split; [done|lia]. Qed.

Lemma shrinks_no_growth l st st' : shrinks l st st' → no_growth st st'.
Proof.
  intros [Hsz _ Hlo _]. split; [intros o; apply Hsz|].
  unfold total. rewrite Hlo. apply Zsum_le. intros o _. apply Hsz.
Qed.

Lemma no_growth_orders st st' :
  Exact st → orders st' = orders st → no_growth st st'.
Proof.
  intros [Hnn _] Ho.
  assert (∀ o, size_at st' o = size_at st o) as Hsz
    by (intros o; unfold size_at, order_at; by rewrite Ho).
  split; [intros o; by rewrite Hsz|].
  unfold total. rewrite Ho. erewrite Zsum_ext; [done|]. intros o _. apply Hsz.
Qed.

Lemma loop_inv_visited pl order i cells st :
  loop_inv pl order i cells st → i < length cells →
  default 0 (cells !! i) ∈ side_of pl (book st).
Proof.
  intros [_ _ _ _ _ Hmem] Hi.
  destruct (lookup_lt_is_Some_2 cells i Hi) as [x Hx]. rewrite Hx. simpl.
  apply Hmem. rewrite <- (take_drop_middle cells i x Hx) at 1.
  rewrite drop_app_length'; [left|]. rewrite length_take. lia.
Qed.

Lemma f64_Fill_visited pl order i cells st :
  loop_inv pl order i cells st → Exact st → i < length cells →
  let limit := default 0 (cells !! i) in
  F64.Fill limit order (f64_State st)
  = (f64_Match <$> (Fill limit order st).1, f64_State (Fill limit order st).2) ∧
  shrinks limit st (Fill limit order st).2 ∧
  small (TotalVolume (limit_at st limit)) ∧
  Forall (λ mt, (0 ≤ SizeFilled mt)%Z) (Fill limit order st).1.
Proof.
  intros Hinv HE Hi limit.
  pose proof (loop_inv_visited pl order i cells st Hinv Hi) as Hside.
  destruct Hinv as [HI Ho Hnr _ _ _].
  assert (in_book st limit) as Hl by (by eapply side_of_in_book).
  pose proof (Exact_small_volume st limit HI HE Hl) as Hv.
  destruct (f64_Fill limit order st) as (Hsim & Hsh & Hms); try done.
  - intros o. by apply Exact_small_size.
  - by apply (inv_limit_alloc _ HI).
  - intros m. by apply (inv_queue_alloc _ HI).
  - by apply (inv_queue_nodup _ HI).
  - by apply Hnr.
  - rewrite (inv_volume _ HI limit Hl). lia.
Qed.

Lemma f64_marketLoop pl order k : ∀ i cells ms st,
  loop_inv pl order i cells st → Exact st → i + k = length cells →
  Forall (λ mt, (0 ≤ SizeFilled mt)%Z) ms →
  F64.marketLoop pl order k i cells (f64_Match <$> ms) (f64_State st)
  = (f64_Match <$> (marketLoop pl order k i cells ms st).1,
     f64_State (marketLoop pl order k i cells ms st).2) ∧
  no_growth st (marketLoop pl order k i cells ms st).2 ∧
  Forall (λ mt, (0 ≤ SizeFilled mt)%Z) (marketLoop pl order k i cells ms st).1.
Proof.
  induction k as [|k IH]; intros i cells ms st Hinv HE Hik Hms.
  { simpl. split; [done|]. split; [by apply no_growth_refl|done]. }
  assert (i < length cells) as Hi by lia.
  pose proof (marketStep_spec pl order i cells st Hinv Hi) as Hspec.
  destruct (f64_Fill_visited pl order i cells st Hinv HE Hi) as (Hsim & Hsh & Hv & Hlms).
  rewrite marketLoop_unfold. unfold marketStep in *.
  cbn [F64.marketLoop]. rewrite Hsim.
  destruct (Fill (default 0 (cells !! i)) order st) as [lms st1]. simpl in Hsh, Hlms |- *.
  assert (Forall (λ mt, (0 ≤ SizeFilled mt)%Z) (ms ++ lms)) as Hall
    by (by apply Forall_app).
  set (limit := default 0 (cells !! i)) in *.
  pose proof (Exact_shrinks limit st st1 HE Hsh) as HE1.
  assert (small (TotalVolume (limit_at st1 limit))) as Hv1.
  { destruct Hsh as [_ Hvol _ _]. unfold small in *. lia. }
  rewrite f64_limit_at.
  change (F64.TotalVolume (f64_Limit ?x)) with (F64.of_Z (TotalVolume x)).
  rewrite of_Z_is_zero by done.
  assert (∀ cells1 st2,
    (if (TotalVolume (limit_at st1 limit) =? 0)%Z
     then deleteLimitCells pl limit cells st1 else (cells, st1)) = (cells1, st2) →
    (if (TotalVolume (limit_at st1 limit) =? 0)%Z
     then F64.deleteLimitCells pl limit cells (f64_State st1)
     else (cells, f64_State st1)) = (cells1, f64_State st2) ∧
    orders st2 = orders st1) as Hdel.
  { intros cells1 st2. destruct (_ =? _)%Z.
    - rewrite f64_deleteLimitCells. intros H. rewrite H. split; [done|].
      unfold deleteLimitCells in H. destruct (sliceDelete _ _ _).
      by injection H as _ <-.
    - by intros [= <- <-]. }
  destruct (if (TotalVolume (limit_at st1 limit) =? 0)%Z
            then deleteLimitCells pl limit cells st1 else (cells, st1))
    as [cells1 st2] eqn:Hstep.
  destruct (Hdel cells1 st2 eq_refl) as [-> Hord].
  pose proof (no_growth_orders st1 st2 HE1 Hord) as Hng2.
  pose proof (no_growth_Exact st1 st2 HE1 Hng2) as HE2.
  assert (no_growth st st2) as Hng
    by (eapply no_growth_trans; [by eapply shrinks_no_growth|done]).
  rewrite <- fmap_app.
  rewrite f64_IsFilled by (by apply Exact_small_size).
  destruct (IsFilled st2 order) eqn:Hfilled.
  - simpl. done.
  - destruct Hspec as [_ _ _ _ _ _ _ _ _ _ _ Hlen Hnext _ _].
    assert (size_at st2 order ≠ 0%Z) as Hn0.
    { intros H0. apply IsFilled_spec in H0. congruence. }
    destruct (IH (S i) cells1 (ms ++ lms) st2) as (Hsim2 & Hng3 & Hms3);
      [by apply Hnext|done|lia|done|].
    split; [done|]. split; [by eapply no_growth_trans|done].
Qed.

Lemma f64_sorted_loop pl less order st :
  Inv st → Exact st → order < length (orders st) → not_resting st order →
  let cells := sortBy less (side_of pl (book st)) in
  let st1 := set_book (set_side pl cells (book st)) st in
  F64.marketLoop pl order (length cells) 0 cells [] (f64_State st1)
  = (f64_Match <$> (marketLoop pl order (length cells) 0 cells [] st1).1,
     f64_State (marketLoop pl order (length cells) 0 cells [] st1).2) ∧
  no_growth st (marketLoop pl order (length cells) 0 cells [] st1).2 ∧
  Forall (λ mt, (0 ≤ SizeFilled mt)%Z)
         (marketLoop pl order (length cells) 0 cells [] st1).1.
Proof.
  intros HI HE Ho Hnr cells st1.
  assert (cells ≡ₚ side_of pl (book st)) as Hperm by apply sortBy_perm.
  assert (Inv st1) as HI1 by (by apply Inv_side_perm).
  assert (side_of pl (book st1) = cells) as Hs1 by apply side_of_set_side.
  assert (other_side pl (book st1) = other_side pl (book st)) as Hos1
    by apply other_side_set_side.
  assert (∀ l, in_book st1 l ↔ in_book st l) as Hin.
  { intros l. rewrite !(in_book_sides pl), Hs1, Hos1. by rewrite Hperm. }
  assert (Exact st1) as HE1 by (by destruct HE).
  destruct (f64_marketLoop pl order (length cells) 0 cells [] st1) as (Hsim & Hng & Hms);
    [|done|done|constructor|].
  { split; try done.
    - intros l Hl%Hin. by apply Hnr.
    - by rewrite Hs1, firstn_all.
    - simpl. rewrite Hperm. by apply inv_side_nodup.
    - intros x. by rewrite Hs1. }
  split; [done|]. split; [|done]. destruct Hng as [Hnn Hle]. by split.
Qed.

Lemma f64_PlaceMarketOrder order st :
  Inv st → Exact st → order < length (orders st) → not_resting st order →
  F64.PlaceMarketOrder order (f64_State st)
  = (match (PlaceMarketOrder order st).1 with
     | inl matches => inl (f64_Match <$> matches)
     | inr e => inr (f64_error e)
     end, f64_State (PlaceMarketOrder order st).2) ∧
  no_growth st (PlaceMarketOrder order st).2 ∧
  match (PlaceMarketOrder order st).1 with
  | inl matches => Forall (λ mt, (0 ≤ SizeFilled mt)%Z) matches
  | inr _ => True
  end.
Proof.
  intros HI HE Ho Hnr.
  unfold F64.PlaceMarketOrder, PlaceMarketOrder. rewrite f64_order_at.
  change (F64.OrderPlacement (f64_Order ?x)) with (OrderPlacement x).
  change (F64.Size (f64_Order ?x)) with (F64.of_Z (Size x)).
  pose proof (Exact_small_size st order HE) as Hsz.
  destruct (String.eqb _ _).
  - destruct (f64_sideVolume ASK_ORDER st HI HE) as [Hvol Hsmall].
    change (side_of ASK_ORDER (book st)) with (asks (book st)) in *.
    unfold F64.AskTotalVolume, AskTotalVolume.
    change (F64.book (f64_State st)) with (book st).
    rewrite Hvol, of_Z_gtb by done.
    destruct (_ >? _)%Z; [split; [done|split; [by apply no_growth_refl|done]]|].
    rewrite f64_Asks. unfold Asks. cbn [fst snd].
    destruct (f64_sorted_loop ASK_ORDER (ByBestAsk_Less st) order st HI HE Ho Hnr)
      as (Hsim & Hng & Hms).
    change (side_of ASK_ORDER (book st)) with (asks (book st)) in *.
    rewrite Hsim. by destruct (marketLoop _ _ _ _ _ _ _).
  - destruct (f64_sideVolume BID_ORDER st HI HE) as [Hvol Hsmall].
    change (side_of BID_ORDER (book st)) with (bids (book st)) in *.
    unfold F64.BidTotalVolume, BidTotalVolume.
    change (F64.book (f64_State st)) with (book st).
    rewrite Hvol, of_Z_gtb by done.
    destruct (_ >? _)%Z; [split; [done|split; [by apply no_growth_refl|done]]|].
    rewrite f64_Bids. unfold Bids. cbn [fst snd].
    destruct (f64_sorted_loop BID_ORDER (ByBestBid_Less st) order st HI HE Ho Hnr)
      as (Hsim & Hng & Hms).
    change (side_of BID_ORDER (book st)) with (bids (book st)) in *.
    rewrite Hsim. by destruct (marketLoop _ _ _ _ _ _ _).
Qed.

(** ** [PlaceLimitOrder] *)

Lemma f64_limitFor pl price st :
  match map_of pl (F64.book (f64_State st)) !! price with
  | Some limit => (limit, f64_State st)
  | None =>
    let '(limit, st0) := F64.NewLimit price (f64_State st) in
    let b := F64.book st0 in
    let b1 := set_side pl (side_of pl b ++ [limit]) b in
    let b2 := set_map pl (<[price := limit]> (map_of pl b1)) b1 in
    (limit, F64.set_book b2 st0)
  end = ((limitFor pl price st).1, f64_State (limitFor pl price st).2).
Proof.
  unfold limitFor. change (F64.book (f64_State st)) with (book st).
  destruct (map_of pl (book st) !! price); [done|].
  rewrite f64_NewLimit. done.
Qed.

Lemma f64_PlaceLimitOrder price order st :
  Inv st → Exact st → order < length (orders st) → newest st order →
  F64.PlaceLimitOrder price order (f64_State st)
  = (f64_error <$> (PlaceLimitOrder price order st).1,
     f64_State (PlaceLimitOrder price order st).2) ∧
  no_growth st (PlaceLimitOrder price order st).2.
Proof.
  intros HI HE Ho Hnew.
  rewrite PlaceLimitOrder_unfold. unfold F64.PlaceLimitOrder.
  rewrite f64_order_at.
  change (F64.OrderPlacement (f64_Order ?x)) with (OrderPlacement x).
  cbv zeta. set (pl := OrderPlacement (order_at st order)).
  destruct (negb _); [split; [done|by apply no_growth_refl]|].
  rewrite f64_limitFor.
  pose proof (limitFor_spec pl price st HI) as HL.
  destruct (limitFor pl price st) as [limit st1]. cbn [fst snd].
  destruct HL as [HI1 Hside _ Hord _ _ _ _ Hold Hbook _].
  assert (in_book st1 limit) as Hl1 by (by eapply side_of_in_book).
  assert (Exact st1) as HE1
    by (eapply no_growth_Exact; [done|by apply no_growth_orders]).
  assert (order ∉ queue st1 limit) as Hnotin.
  { intros Hin. destruct (Hbook limit Hl1) as [Hl|[_ Hnil]].
    - assert (queue st1 limit = queue st limit) as Hq
        by (unfold queue; rewrite Hold; [done|by apply (inv_limit_alloc _ HI)]).
      rewrite Hq in Hin. pose proof (Hnew limit order Hl Hin). lia.
    - rewrite Hnil in Hin. by apply elem_of_nil in Hin. }
  assert (order < length (orders st1)) as Ho1 by (by rewrite Hord).
  assert (TotalVolume (limit_at st1 limit) + size_at st1 order < 2 ^ 53)%Z as Hsum.
  { rewrite (inv_volume _ HI1 limit Hl1).
    destruct HE1 as [Hnn Ht].
    pose proof (Zsum_total st1 (queue st1 limit ++ [order]) Hnn) as H.
    rewrite Zsum_app in H. simpl in H.
    assert (Zsum (size_at st1) (queue st1 limit) + (size_at st1 order + 0) ≤ total st1)%Z;
      [|lia].
    apply H.
    - apply NoDup_app. split; [by apply (inv_queue_nodup _ HI1)|].
      split; [|apply NoDup_singleton].
      intros x Hx ->%list_elem_of_singleton. done.
    - intros o [Hq| ->%list_elem_of_singleton]%elem_of_app; [|done].
      by apply (inv_queue_alloc _ HI1 limit). }
  rewrite f64_AddOrder;
    [|by apply Exact_small_volume|by apply Exact_small_size|done].
  split.
  - simpl. f_equal. by rewrite f64_order_at.
  - apply no_growth_trans with st1; [by apply no_growth_orders|].
    assert (∀ o, size_at (AddOrder limit order st1) o = size_at st1 o) as Hsz.
    { intros o. unfold size_at. by apply (AddOrder_order_field Size). }
    assert (length (orders (AddOrder limit order st1)) = length (orders st1)) as Hlen.
    { unfold AddOrder. simpl. by rewrite length_alter. }
    destruct HE1 as [Hnn Ht]. split.
    + intros o. change (size_at (set_index _ ?s) o) with (size_at s o).
      by rewrite Hsz.
    + unfold total. change (orders (set_index ?ix ?s)) with (orders s). rewrite Hlen.
      erewrite Zsum_ext; [done|]. intros o _.
      change (size_at (set_index _ ?s) o) with (size_at s o). apply Hsz.
Qed.

(** ** [CancelOrderByID] *)

Lemma f64_findOrder st orderId os :
  F64.findOrder (f64_State st) orderId os = findOrder st orderId os.
Proof.
  induction os as [|o os IH]; simpl; [done|].
  rewrite f64_order_at, IH. done.
Qed.

Lemma f64_findLimitOrder st orderId ls :
  F64.findLimitOrder (f64_State st) orderId ls = findLimitOrder st orderId ls.
Proof.
  induction ls as [|l ls IH]; simpl; [done|].
  rewrite f64_limit_at, f64_findOrder, IH. done.
Qed.

Lemma f64_CancelOrderByID orderId pl st :
  Inv st → Exact st →
  F64.CancelOrderByID orderId pl (f64_State st)
  = (f64_error <$> (CancelOrderByID orderId pl st).1,
     f64_State (CancelOrderByID orderId pl st).2) ∧
  no_growth st (CancelOrderByID orderId pl st).2.
Proof.
  intros HI HE. unfold F64.CancelOrderByID, CancelOrderByID.
  change (F64.book (f64_State st)) with (book st).
  rewrite f64_findLimitOrder.
  destruct (findLimitOrder st orderId (side_of pl (book st)))
    as [[limit order]|] eqn:Hf; [|split; [done|by apply no_growth_refl]].
  apply findLimitOrder_Some in Hf as (Hl & Ho & _).
  assert (in_book st limit) as Hlb by (by eapply side_of_in_book).
  pose proof (Exact_small_volume st limit HI HE Hlb) as Hv.
  pose proof (Exact_small_size st order HE) as Hs.
  assert (size_at st order ≤ TotalVolume (limit_at st limit))%Z as Hle.
  { rewrite (inv_volume _ HI limit Hlb). apply Zsum_elem; [apply HE|done]. }
  rewrite f64_DeleteOrder by done.
  set (st1 := DeleteOrder limit order st).
  rewrite f64_order_at. change (F64.ID (f64_Order ?x)) with (ID x).
  change (F64.OrderIndex (f64_State st1)) with (OrderIndex st1).
  rewrite f64_set_index.
  set (st2 := set_index _ st1).
  rewrite f64_limit_at.
  change (F64.TotalVolume (f64_Limit ?x)) with (F64.of_Z (TotalVolume x)).
  assert (TotalVolume (limit_at st2 limit)
          = (TotalVolume (limit_at st limit) - size_at st order)%Z) as Hv2.
  { change (limit_at st2 limit) with (limit_at st1 limit). unfold st1.
    rewrite DeleteOrder_limit_eq by (by apply (inv_limit_alloc _ HI)). done. }
  rewrite of_Z_is_zero by (rewrite Hv2; unfold small in *; lia).
  assert (no_growth st st2) as Hng.
  { destruct HE as [Hnn Ht]. split.
    - intros o. change (size_at st2 o) with (size_at st1 o).
      unfold st1. by rewrite DeleteOrder_size.
    - unfold total. change (orders st2) with (orders st1).
      unfold st1. rewrite DeleteOrder_length_orders.
      erewrite Zsum_ext; [done|]. intros o _.
      change (size_at st2 o) with (size_at (DeleteOrder limit order st) o).
      by rewrite DeleteOrder_size. }
  destruct (_ =? _)%Z.
  - rewrite f64_deleteLimit. split; [done|].
    eapply no_growth_trans; [done|].
    apply no_growth_orders; [by eapply no_growth_Exact|].
    unfold deleteLimit, deleteLimitCells. by destruct (sliceDelete _ _ _).
  - done.
Qed.

(** ** The public operations *)

Lemma NewOrder_Exact pl size now st :
  Exact st → (0 ≤ size)%Z → (total st + size < 2 ^ 53)%Z →
  Exact (snd (NewOrder pl size now st)) ∧
  total (snd (NewOrder pl size now st)) = (total st + size)%Z.
Proof.
  intros [Hnn Ht] H0 Hlt.
  assert (∀ o, size_at (snd (NewOrder pl size now st)) o
               = if decide (o = length (orders st)) then size else size_at st o) as Hsz.
  { intros o. unfold size_at. destruct (decide _) as [->|Hne].
    - by rewrite NewOrder_order_at_new.
    - destruct (decide (o < length (orders st))).
      + by rewrite NewOrder_order_at_old.
      + unfold order_at, NewOrder. simpl.
        rewrite !lookup_ge_None_2; [done|lia|rewrite length_app; simpl; lia]. }
  assert (total (snd (NewOrder pl size now st)) = (total st + size)%Z) as Htot.
  { set (st' := snd (NewOrder pl size now st)) in *.
    assert (length (orders st') = length (orders st) + 1) as Hlen
      by (unfold st'; simpl; by rewrite length_app).
    unfold total. rewrite Hlen, seq_app, Zsum_app.
    assert (Zsum (size_at st') (seq 0 (length (orders st)))
            = Zsum (size_at st) (seq 0 (length (orders st)))) as ->.
    { apply Zsum_ext. intros o Ho%elem_of_seq.
      rewrite Hsz, decide_False by lia. done. }
    simpl. rewrite Hsz, decide_True by done. lia. }
  split; [|done]. split; [|lia].
  intros o. rewrite Hsz. destruct (decide _); [done|apply Hnn].
Qed.

Lemma f64_run_op c st :
  Inv st → Exact st → (0 ≤ op_size c)%Z → (total st + op_size c < 2 ^ 53)%Z →
  F64.run_op (f64_op c) (f64_State st)
  = (f64_outcome (run_op c st).1, f64_State (run_op c st).2) ∧
  Exact (run_op c st).2 ∧ (total (run_op c st).2 ≤ total st + op_size c)%Z ∧
  Forall (λ mt, (0 ≤ SizeFilled mt)%Z) (matches_of (run_op c st).1).
Proof.
  intros HI HE H0 Hlt. destruct c as [pl size price now|pl size now|orderId pl];
    simpl in H0, Hlt.
  - destruct (NewOrder_Exact pl size now st HE H0 Hlt) as [HE1 Ht1].
    change (F64.run_op (f64_op (OpLimit pl size price now)) (f64_State st))
      with (let '(order, st1) := F64.NewOrder pl (F64.of_Z size) now (f64_State st) in
            match F64.PlaceLimitOrder price order st1 with
            | (None, st2) => (F64.Placed, st2)
            | (Some e, st2) => (F64.Failed e, st2)
            end).
    change (run_op (OpLimit pl size price now) st)
      with (match PlaceLimitOrder price (length (orders st))
                    (snd (NewOrder pl size now st)) with
            | (None, st2) => (Placed, st2)
            | (Some e, st2) => (Failed e, st2)
            end).
    rewrite f64_NewOrder, NewOrder_fst.
    destruct (f64_PlaceLimitOrder price (length (orders st))
                (snd (NewOrder pl size now st))) as [Hsim Hng];
      [by apply NewOrder_Inv|done|simpl; rewrite length_app; simpl; lia
      |by apply NewOrder_newest|].
    rewrite Hsim.
    destruct (PlaceLimitOrder price _ _) as [[e|] st2]; simpl in *;
      (split; [done|]); (split; [by eapply no_growth_Exact|]);
      (split; [|constructor]); destruct Hng as [_ Hle]; lia.
  - destruct (NewOrder_Exact pl size now st HE H0 Hlt) as [HE1 Ht1].
    change (F64.run_op (f64_op (OpMarket pl size now)) (f64_State st))
      with (let '(order, st1) := F64.NewOrder pl (F64.of_Z size) now (f64_State st) in
            match F64.PlaceMarketOrder order st1 with
            | (inl matches, st2) => (F64.Matched matches, st2)
            | (inr e, st2) => (F64.Failed e, st2)
            end).
    change (run_op (OpMarket pl size now) st)
      with (match PlaceMarketOrder (length (orders st))
                    (snd (NewOrder pl size now st)) with
            | (inl matches, st2) => (Matched matches, st2)
            | (inr e, st2) => (Failed e, st2)
            end).
    rewrite f64_NewOrder, NewOrder_fst.
    destruct (f64_PlaceMarketOrder (length (orders st))
                (snd (NewOrder pl size now st))) as (Hsim & Hng & Hms);
      [by apply NewOrder_Inv|done|simpl; rewrite length_app; simpl; lia
      |by apply newest_not_resting, NewOrder_newest|].
    rewrite Hsim.
    destruct (PlaceMarketOrder _ _) as [[ms|e] st2]; simpl in *;
      (split; [done|]); (split; [by eapply no_growth_Exact|]);
      (split; [|done || constructor]); destruct Hng as [_ Hle]; lia.
  - change (F64.run_op (f64_op (OpCancel orderId pl)) (f64_State st))
      with (match F64.CancelOrderByID orderId pl (f64_State st) with
            | (None, st1) => (F64.Cancelled, st1)
            | (Some e, st1) => (F64.Failed e, st1)
            end).
    change (run_op (OpCancel orderId pl) st)
      with (match CancelOrderByID orderId pl st with
            | (None, st1) => (Cancelled, st1)
            | (Some e, st1) => (Failed e, st1)
            end).
    destruct (f64_CancelOrderByID orderId pl st HI HE) as [Hsim Hng].
    rewrite Hsim.
    destruct (CancelOrderByID orderId pl st) as [[e|] st2]; simpl in *;
      (split; [done|]); (split; [by eapply no_growth_Exact|]);
      (split; [|constructor]); destruct Hng as [_ Hle]; lia.
Qed.

Lemma init_Exact market : Exact (init market) ∧ total (init market) = 0%Z.
Proof. split; [|done]. split; [by intros o; unfold size_at, order_at; simpl|done]. Qed.

Lemma requested_nonneg cs : (∀ c, c ∈ cs → (0 ≤ op_size c)%Z) → (0 ≤ requested cs)%Z.
Proof.
  induction cs as [|c cs IH]; intros H; simpl; [done|].
  assert (0 ≤ op_size c)%Z by (apply H; left).
  assert (0 ≤ requested cs)%Z by (apply IH; intros x Hx; apply H; by right).
  lia.
Qed.

Lemma f64_run_ops_from cs st :
  Inv st → Exact st → (∀ c, c ∈ cs → (0 ≤ op_size c)%Z) →
  (total st + requested cs < 2 ^ 53)%Z →
  F64.run_ops (f64_op <$> cs) (f64_State st) = f64_State (run_ops cs st) ∧
  Exact (run_ops cs st) ∧ (total (run_ops cs st) ≤ total st + requested cs)%Z.
Proof.
  revert st. induction cs as [|c cs IH]; intros st HI HE Hnn Hlt.
  { simpl in *. split; [done|]. split; [done|lia]. }
  simpl in Hlt.
  assert (0 ≤ op_size c)%Z as Hc by (apply Hnn; left).
  assert (∀ x, x ∈ cs → (0 ≤ op_size x)%Z) as Hnn' by (intros x Hx; apply Hnn; by right).
  pose proof (requested_nonneg cs Hnn') as Hreq.
  destruct (f64_run_op c st HI HE Hc ltac:(lia)) as (Hsim & HE1 & Ht1 & _).
  destruct (IH (run_op c st).2) as (Hsim2 & HE2 & Ht2);
    [by apply run_op_Inv|done|done|lia|].
  unfold F64.run_ops, run_ops in *. simpl. rewrite Hsim. simpl.
  split; [done|]. split; [done|]. simpl. lia.
Qed.

(** ** Runs of whole-number sizes *)

Lemma requested_app cs cs' : requested (cs ++ cs') = (requested cs + requested cs')%Z.
Proof. induction cs as [|c cs IH]; simpl; lia. Qed.

Lemma exact_ops_app cs c :
  exact_ops (cs ++ [c]) →
  exact_ops cs ∧ (0 ≤ op_size c)%Z ∧ (requested cs + op_size c < 2 ^ 53)%Z.
Proof.
  intros [[Hcs Hc]%Forall_app Hreq]. rewrite requested_app in Hreq. simpl in Hreq.
  apply Forall_inv in Hc. simpl in Hc.
  assert (0 ≤ requested cs)%Z
    by (apply requested_nonneg; by apply Forall_forall).
  split; [|split; [done|lia]]. split; [done|]. lia.
Qed.

(** The state a run of whole-number sizes reaches in binary64 is the image of
    the state it reaches in exact arithmetic. *)
Lemma exact_run market cs :
  exact_ops cs →
  F64.run_ops (f64_op <$> cs) (F64.init market) = f64_State (run_ops cs (init market)) ∧
  Inv (run_ops cs (init market)) ∧ Exact (run_ops cs (init market)) ∧
  (total (run_ops cs (init market)) ≤ requested cs)%Z.
Proof.
  intros [Hnn Hreq]. destruct (init_Exact market) as [HE Ht].
  destruct (f64_run_ops_from cs (init market)) as (Hsim & HE' & Ht');
    [apply init_Inv|done|by apply Forall_forall|lia|].
  split; [done|]. split; [apply run_ops_Inv, init_Inv|]. split; [done|lia].
Qed.

(** The same for one more operation, with its outcome. *)
Lemma exact_step market cs c :
  exact_ops (cs ++ [c]) →
  let st := run_ops cs (init market) in
  F64.run_ops (f64_op <$> cs) (F64.init market) = f64_State st ∧
  F64.run_op (f64_op c) (f64_State st)
  = (f64_outcome (run_op c st).1, f64_State (run_op c st).2) ∧
  reachable st ∧ Exact st ∧ Exact (run_op c st).2 ∧
  Forall (λ mt, (0 ≤ SizeFilled mt)%Z) (matches_of (run_op c st).1).
Proof.
  intros (Hcs & Hc & Hreq)%exact_ops_app st.
  destruct (exact_run market cs Hcs) as (Hsim & HI & HE & Ht).
  destruct (f64_run_op c st HI HE Hc) as (Hsim2 & HE2 & _ & Hms); [unfold st; lia|].
  split; [done|]. split; [done|]. split; [by exists market, cs|]. done.
Qed.

(** ** The image of a state *)

Lemma f64_queue st l : F64.queue (f64_State st) l = queue st l.
Proof. unfold F64.queue. by rewrite f64_limit_at. Qed.

Lemma f64_size_at st o : F64.size_at (f64_State st) o = F64.of_Z (size_at st o).
Proof. unfold F64.size_at. by rewrite f64_order_at. Qed.

Lemma f64_TotalVolume st l :
  F64.TotalVolume (F64.limit_at (f64_State st) l) = F64.of_Z (TotalVolume (limit_at st l)).
Proof. by rewrite f64_limit_at. Qed.

Lemma f64_Price st l : F64.Price (F64.limit_at (f64_State st) l) = Price (limit_at st l).
Proof. by rewrite f64_limit_at. Qed.

Lemma f64_in_book st l : F64.in_book (f64_State st) l ↔ in_book st l.
Proof. done. Qed.

Lemma f64_not_resting st o : F64.not_resting (f64_State st) o ↔ not_resting st o.
Proof.
  unfold F64.not_resting, not_resting.
  split; intros H l Hl; specialize (H l Hl); by rewrite f64_queue in *.
Qed.

Lemma f64_queueVolume_from st os a :
  (0 ≤ a)%Z → (∀ o, (0 ≤ size_at st o)%Z) → (a + Zsum (size_at st) os < 2 ^ 53)%Z →
  foldl (λ total o, F64.add total (F64.size_at (f64_State st) o)) (F64.of_Z a) os
  = F64.of_Z (a + Zsum (size_at st) os).
Proof.
  revert a. induction os as [|o os IH]; intros a Ha Hnn Hlt; simpl in *.
  { by rewrite Z.add_0_r. }
  pose proof (Hnn o). pose proof (Zsum_nonneg (size_at st) os (λ x _, Hnn x)).
  rewrite f64_size_at, of_Z_add by (unfold small; lia).
  rewrite IH; [|lia|done|lia]. f_equal. lia.
Qed.

Lemma f64_queueVolume st os :
  (∀ o, (0 ≤ size_at st o)%Z) → (Zsum (size_at st) os < 2 ^ 53)%Z →
  F64.queueVolume (f64_State st) os = F64.of_Z (Zsum (size_at st) os).
Proof.
  intros Hnn Hlt. unfold F64.queueVolume. change F64.zero with (F64.of_Z 0).
  rewrite f64_queueVolume_from by (done || lia). done.
Qed.

Lemma f64_AskTotalVolume st :
  Inv st → Exact st →
  F64.AskTotalVolume (f64_State st) = F64.of_Z (AskTotalVolume st) ∧
  small (AskTotalVolume st).
Proof. intros HI HE. apply (f64_sideVolume ASK_ORDER st HI HE). Qed.

Lemma f64_BidTotalVolume st :
  Inv st → Exact st →
  F64.BidTotalVolume (f64_State st) = F64.of_Z (BidTotalVolume st) ∧
  small (BidTotalVolume st).
Proof. intros HI HE. apply (f64_sideVolume BID_ORDER st HI HE). Qed.

Lemma f64_otherVolume pl st :
  Inv st → Exact st →
  F64.otherVolume pl (f64_State st) = F64.of_Z (otherVolume pl st) ∧
  small (otherVolume pl st).
Proof.
  intros HI HE. unfold F64.otherVolume, otherVolume.
  destruct (String.eqb _ _); [by apply f64_AskTotalVolume|by apply f64_BidTotalVolume].
Qed.

Lemma f64_ownVolume pl st :
  Inv st → Exact st →
  F64.ownVolume pl (f64_State st) = F64.of_Z (ownVolume pl st) ∧
  small (ownVolume pl st).
Proof.
  intros HI HE. unfold F64.ownVolume, ownVolume.
  destruct (String.eqb _ _); [by apply f64_BidTotalVolume|by apply f64_AskTotalVolume].
Qed.

Lemma f64_matches_of r :
  F64.matches_of (f64_outcome r) = f64_Match <$> matches_of r.
Proof. by destruct r. Qed.

Lemma small_queue st l :
  Inv st → Exact st → in_book st l → small (Zsum (size_at st) (queue st l)).
Proof.
  intros HI HE Hl. rewrite <- (inv_volume _ HI l Hl). by apply Exact_small_volume.
Qed.

(** * Quantities in binary64 *)

(** ** C4: the volume invariant *)

(** C4 as stated fails: asks of 0.1 and 0.2 are placed at one price and the
    first is cancelled, every operation succeeding; the limit is left with
    the order of 0.2 and a [TotalVolume] of 0.1 + 0.2 - 0.1, which is
    0.20000000000000004. *)
Lemma volume_invariant_fails_on_fractions :
  let r1 := F64.run_op (F64.OpLimit ASK_ORDER (F64.of_ratio 1 10) 100 1) (F64.init "ETH") in
  let r2 := F64.run_op (F64.OpLimit ASK_ORDER (F64.of_ratio 2 10) 100 2) (snd r1) in
  let r3 := F64.run_op (F64.OpCancel 1 ASK_ORDER) (snd r2) in
  fst r1 = F64.Placed ∧ fst r2 = F64.Placed ∧ fst r3 = F64.Cancelled ∧
  snd r3 = fifthLeft ∧
  F64.in_book fifthLeft 0 ∧ F64.queue fifthLeft 0 = [1] ∧
  F64.size_at fifthLeft 1 = F64.of_ratio 2 10 ∧
  F64.queueVolume fifthLeft (F64.queue fifthLeft 0) = S754_finite false 7205759403792794 (-55) ∧
  F64.TotalVolume (F64.limit_at fifthLeft 0) = S754_finite false 7205759403792795 (-55) ∧
  ¬ (∀ l, F64.in_book fifthLeft l →
          F64.TotalVolume (F64.limit_at fifthLeft l)
          = F64.queueVolume fifthLeft (F64.queue fifthLeft l)).
Proof.
  assert (F64.in_book fifthLeft 0) as Hin
    by (left; apply list_elem_of_In; vm_compute; auto).
  repeat split; try (vm_compute; reflexivity); [exact Hin|].
  intros H. specialize (H 0 Hin). vm_compute in H. discriminate.
Qed.

(** C4, amended: when the sizes of the orders placed are whole numbers, none
    negative, that add up to less than [2^53], then between any two public
    operations on a book that started empty the [TotalVolume] of every limit
    of either side is the sum of the residual sizes of the orders in its
    queue. *)
Theorem volume_invariant_whole_sizes (market : string) (cs : list op) (l : nat) :
  exact_ops cs →
  let st := F64.run_ops (f64_op <$> cs) (F64.init market) in
  F64.in_book st l →
  F64.TotalVolume (F64.limit_at st l) = F64.queueVolume st (F64.queue st l).
Proof.
  intros Hcs st Hl. unfold st in *.
  destruct (exact_run market cs Hcs) as (Hsim & HI & HE & _).
  rewrite Hsim in *. apply f64_in_book in Hl.
  pose proof (small_queue _ l HI HE Hl) as [_ Hlt].
  rewrite f64_TotalVolume, f64_queue, f64_queueVolume; [|apply HE|done].
  by rewrite (inv_volume _ HI l Hl).
Qed.

Lemma exact_scenarioA : exact_ops (scenarioA 1 2 3 4).
Proof. split; [repeat constructor; simpl; lia|vm_compute; reflexivity]. Qed.

Lemma volume_invariant_whole_sizes_witness :
  exact_ops (scenarioA 1 2 3 4) ∧
  let st := F64.run_ops (f64_op <$> scenarioA 1 2 3 4) (F64.init "ETH") in
  F64.in_book st 1 ∧
  F64.TotalVolume (F64.limit_at st 1) = F64.queueVolume st (F64.queue st 1).
Proof.
  assert (F64.in_book (F64.run_ops (f64_op <$> scenarioA 1 2 3 4) (F64.init "ETH")) 1)
    as Hin by (left; apply list_elem_of_In; vm_compute; auto).
  split; [exact exact_scenarioA|]. split; [exact Hin|].
  exact (volume_invariant_whole_sizes "ETH" (scenarioA 1 2 3 4) 1 exact_scenarioA Hin).
Defined.

(** ** C10: a market order of exactly the opposing volume *)

(** C10 as stated fails, in two ways.  Sizes are not validated: with asks of
    5 at 100 and of 0 at 200 a market bid of exactly 5 is accepted and
    filled, and the limit at 200 is still on the ask side afterwards.  And
    sizes are rounded: with asks of 0.1 and 0.2 at one price the ask volume is
    0.30000000000000004; a market bid of exactly that size is accepted, fills
    both asks, and ends with a residual size of [2^-55] while the limit, its
    queue empty, stays on the ask side with that volume. *)
Lemma exact_bid_does_not_drain :
  (let r := F64.run_op (F64.OpMarket BID_ORDER (F64.of_Z 5) 3) zeroSizeAsk64 in
   F64.otherVolume BID_ORDER zeroSizeAsk64 = F64.of_Z 5 ∧
   (∃ matches, fst r = F64.Matched matches) ∧
   F64.size_at (snd r) 2 = F64.zero ∧
   other_side BID_ORDER (F64.book (snd r)) ≠ []) ∧
  (let st := F64.run_ops tenthAndFifth (F64.init "ETH") in
   let r := F64.run_op (F64.OpMarket BID_ORDER (F64.otherVolume BID_ORDER st) 3) st in
   (∀ l o, l ∈ other_side BID_ORDER (F64.book st) → o ∈ F64.queue st l →
           F64.gtb (F64.size_at st o) F64.zero = true) ∧
   (∃ matches, fst r = F64.Matched matches ∧ length matches = 2) ∧
   F64.size_at (snd r) 2 = S754_finite false 4503599627370496 (-107) ∧
   other_side BID_ORDER (F64.book (snd r)) = [0] ∧
   F64.queue (snd r) 0 = [] ∧
   F64.otherVolume BID_ORDER (snd r) = S754_finite false 4503599627370496 (-107)).
Proof.
  split.
  - vm_compute. repeat split; [by eexists|discriminate].
  - cbv zeta. split.
    + intros l o Hl Ho. apply list_elem_of_In in Hl. vm_compute in Hl.
      destruct Hl as [<-|[]]. apply list_elem_of_In in Ho. vm_compute in Ho.
      destruct Ho as [<-|[<-|[]]]; vm_compute; reflexivity.
    + vm_compute. repeat split. by eexists.
Qed.

(** C10, amended: when the sizes of the orders placed are whole numbers, none
    negative, that add up to less than [2^53], and every order resting on the
    opposing side has a strictly positive residual size, a market order of
    exactly the total volume of the opposing side is accepted, and afterwards
    the opposing side has no limit, its total volume is zero and the residual
    size of the order is zero. *)
Theorem exact_market_order_drains_whole_sizes
    (market : string) (cs : list op) (placement : string) (size now : Z) :
  exact_ops (cs ++ [OpMarket placement size now]) →
  let st := F64.run_ops (f64_op <$> cs) (F64.init market) in
  (∀ l o, l ∈ other_side placement (F64.book st) → o ∈ F64.queue st l →
     F64.gtb (F64.size_at st o) F64.zero = true) →
  F64.of_Z size = F64.otherVolume placement st →
  let r := F64.run_op (F64.OpMarket placement (F64.of_Z size) now) st in
  (∃ matches, fst r = F64.Matched matches) ∧
  other_side placement (F64.book (snd r)) = [] ∧
  F64.otherVolume placement (snd r) = F64.zero ∧
  F64.size_at (snd r) (length (F64.orders st)) = F64.zero.
Proof.
  intros Hex st Hpos Hsize r. unfold r, st in *. clear r st.
  destruct (exact_step market _ _ Hex) as (Hsim & Hstep & Hr & HE & HE' & _).
  apply exact_ops_app in Hex as (Hcs & H0 & Hreq). simpl in H0, Hreq.
  set (st := run_ops cs (init market)) in *.
  pose proof (reachable_Inv st Hr) as HI.
  rewrite Hsim in *. change (f64_op (OpMarket placement size now))
    with (F64.OpMarket placement (F64.of_Z size) now) in Hstep. rewrite Hstep.
  destruct (f64_otherVolume placement st HI HE) as [Hov Hsmall].
  rewrite Hov in Hsize.
  assert (small size) as Hss.
  { split; [done|]. pose proof (requested_nonneg cs ltac:(by apply Forall_forall, Hcs)).
    lia. }
  apply of_Z_inj in Hsize; [|done|done].
  destruct (exact_market_order_drains_side st placement size now Hr) as (Hm & Hnil & Hv0 & Hs0);
    [|done|].
  { intros l o Hl Ho. specialize (Hpos l o Hl). rewrite f64_queue, f64_size_at in Hpos.
    specialize (Hpos Ho). change F64.zero with (F64.of_Z 0) in Hpos.
    rewrite of_Z_gtb in Hpos; [lia|by apply Exact_small_size|unfold small; lia]. }
  set (r := run_op (OpMarket placement size now) st) in *.
  assert (Inv (snd r)) as HI' by (by apply run_op_Inv).
  destruct (f64_otherVolume placement (snd r) HI' HE') as [Hov' _].
  cbn [fst snd]. destruct Hm as [ms Hm].
  split; [exists (f64_Match <$> ms); by rewrite Hm|].
  split; [done|]. split; [by rewrite Hov', Hv0|].
  rewrite f64_size_at. simpl. rewrite length_fmap. fold st. by rewrite Hs0.
Qed.

Lemma exact_twoLevels : exact_ops (twoLevelsOps ++ [OpMarket BID_ORDER 150 3]).
Proof. split; [repeat constructor; simpl; lia|vm_compute; reflexivity]. Qed.

Lemma exact_market_order_drains_whole_sizes_witness :
  exact_ops (twoLevelsOps ++ [OpMarket BID_ORDER 150 3]) ∧
  let st := F64.run_ops (f64_op <$> twoLevelsOps) (F64.init "ETH") in
  F64.of_Z 150 = F64.otherVolume BID_ORDER st ∧
  let r := F64.run_op (F64.OpMarket BID_ORDER (F64.of_Z 150) 3) st in
  (∃ matches, fst r = F64.Matched matches) ∧
  other_side BID_ORDER (F64.book (snd r)) = [] ∧
  F64.otherVolume BID_ORDER (snd r) = F64.zero ∧
  F64.size_at (snd r) (length (F64.orders st)) = F64.zero.
Proof.
  split; [exact exact_twoLevels|]. cbv zeta.
  assert (F64.of_Z 150
          = F64.otherVolume BID_ORDER
              (F64.run_ops (f64_op <$> twoLevelsOps) (F64.init "ETH"))) as Hsize
    by (vm_compute; reflexivity).
  split; [exact Hsize|].
  apply (exact_market_order_drains_whole_sizes "ETH" twoLevelsOps BID_ORDER 150 3
           exact_twoLevels); [|exact Hsize].
  intros l o Hl Ho. apply list_elem_of_In in Hl. vm_compute in Hl.
  destruct Hl as [<-|[<-|[]]];
    apply list_elem_of_In in Ho; vm_compute in Ho;
    destruct Ho as [<-|[]]; vm_compute; reflexivity.
Defined.

(** ** Market orders on whole-number sizes *)

Lemma exact_sixOps c : (0 ≤ op_size c < 2 ^ 40)%Z → exact_ops (sixOps ++ [c]).
Proof.
  intros Hc. split.
  - apply Forall_app. split; [repeat constructor; simpl; lia|].
    apply Forall_singleton. lia.
  - rewrite requested_app. simpl requested.
    change (15 + (350 + (100 + (51 + (7 + (9 + 0))))))%Z with 532%Z. lia.
Qed.

Lemma exact_ops_init cs c : exact_ops (cs ++ [c]) → exact_ops cs.
Proof. by intros (? & _)%exact_ops_app. Qed.

Lemma exact_ops_cancel cs orderId pl :
  exact_ops cs → exact_ops (cs ++ [OpCancel orderId pl]).
Proof.
  intros [Hnn Hreq]. split.
  - apply Forall_app. split; [done|]. by apply Forall_singleton.
  - rewrite requested_app. simpl. lia.
Qed.

Lemma f64_run_ops_snoc cs c st :
  F64.run_ops (cs ++ [c]) st = snd (F64.run_op c (F64.run_ops cs st)).
Proof. unfold F64.run_ops. by rewrite foldl_app. Qed.

Lemma f64_MatchPrice ms : map F64.MatchPrice (f64_Match <$> ms) = map MatchPrice ms.
Proof. induction ms as [|m ms IH]; simpl; [done|]. by f_equal. Qed.

Lemma f64_filledTotal_from ms a :
  (0 ≤ a)%Z → Forall (λ mt, (0 ≤ SizeFilled mt)%Z) ms →
  (a + filledTotal ms < 2 ^ 53)%Z →
  foldl (λ total mt, F64.add total (F64.SizeFilled mt)) (F64.of_Z a) (f64_Match <$> ms)
  = F64.of_Z (a + filledTotal ms).
Proof.
  revert a. induction ms as [|mt ms IH]; intros a Ha Hnn Hlt; simpl in *.
  { by rewrite Z.add_0_r. }
  apply Forall_cons in Hnn as [Hmt Hnn].
  assert (0 ≤ filledTotal ms)%Z.
  { clear -Hnn. induction Hnn; simpl; [done|]. lia. }
  rewrite of_Z_add by (unfold small; lia).
  rewrite IH; [|lia|done|lia]. f_equal. lia.
Qed.

Lemma f64_filledTotal ms :
  Forall (λ mt, (0 ≤ SizeFilled mt)%Z) ms → (filledTotal ms < 2 ^ 53)%Z →
  F64.filledTotal (f64_Match <$> ms) = F64.of_Z (filledTotal ms).
Proof.
  intros Hnn Hlt. unfold F64.filledTotal. change F64.zero with (F64.of_Z 0).
  by rewrite f64_filledTotal_from.
Qed.

Lemma exact_size cs c : exact_ops (cs ++ [c]) → small (op_size c).
Proof.
  intros ([Hnn _] & H0 & Hreq)%exact_ops_app.
  pose proof (requested_nonneg cs ltac:(by apply Forall_forall)).
  unfold small. lia.
Qed.

(** X2 ([PlaceMarketOrder], [Asks], [Bids], [Limit.Fill]).  Price priority on
    whole-number sizes: when the sizes of the orders placed are whole numbers,
    none negative, that add up to less than [2^53], the matches of a market
    order come best price first (lowest ask first for a bid, highest bid
    first otherwise), and no limit left on the opposing side has a better
    price than any of the matches. *)
Theorem market_order_price_priority_whole_sizes
    (market : string) (cs : list op) (placement : string) (size now : Z) :
  exact_ops (cs ++ [OpMarket placement size now]) →
  let st := F64.run_ops (f64_op <$> cs) (F64.init market) in
  let r := F64.run_op (F64.OpMarket placement (F64.of_Z size) now) st in
  StronglySorted (priceOrder placement) (map F64.MatchPrice (F64.matches_of (fst r))) ∧
  ∀ l mt, l ∈ other_side placement (F64.book (snd r)) → mt ∈ F64.matches_of (fst r) →
    priceOrder placement (F64.MatchPrice mt) (F64.Price (F64.limit_at (snd r) l)).
Proof.
  intros Hex st r. unfold r, st. clear r st.
  destruct (exact_step market _ _ Hex) as (Hsim & Hstep & Hr & _).
  rewrite Hsim.
  change (F64.OpMarket placement (F64.of_Z size) now)
    with (f64_op (OpMarket placement size now)).
  rewrite Hstep. cbn [fst snd].
  destruct (market_order_price_priority _ placement size now Hr) as [Hsorted Hleft].
  rewrite f64_matches_of, f64_MatchPrice. split; [done|].
  intros l mt Hl (m & -> & Hm)%list_elem_of_fmap.
  rewrite f64_Price. by apply Hleft.
Qed.

Lemma market_order_price_priority_whole_sizes_witness :
  exact_ops (sixOps ++ [OpMarket BID_ORDER 500 7]) ∧
  let st := F64.run_ops (f64_op <$> sixOps) (F64.init "ETH") in
  let r := F64.run_op (F64.OpMarket BID_ORDER (F64.of_Z 500) 7) st in
  StronglySorted (priceOrder BID_ORDER) (map F64.MatchPrice (F64.matches_of (fst r))) ∧
  ∀ l mt, l ∈ other_side BID_ORDER (F64.book (snd r)) → mt ∈ F64.matches_of (fst r) →
    priceOrder BID_ORDER (F64.MatchPrice mt) (F64.Price (F64.limit_at (snd r) l)).
Proof.
  assert (exact_ops (sixOps ++ [OpMarket BID_ORDER 500 7])) as Hex
    by (apply exact_sixOps; simpl; lia).
  split; [exact Hex|].
  exact (market_order_price_priority_whole_sizes "ETH" sixOps BID_ORDER 500 7 Hex).
Defined.

(** X3 ([PlaceMarketOrder], [Limit.Fill], [Limit.fillOrder]).  On
    whole-number sizes (none negative, adding up to less than [2^53]) a market
    order that is not larger than the opposing volume is filled completely:
    the sizes of its matches add up to its size, it ends with size 0, and the
    opposing volume drops by exactly its size. *)
Theorem market_order_filled_whole_sizes
    (market : string) (cs : list op) (placement : string) (size now : Z) :
  exact_ops (cs ++ [OpMarket placement size now]) →
  let st := F64.run_ops (f64_op <$> cs) (F64.init market) in
  F64.gtb (F64.of_Z size) (F64.otherVolume placement st) = false →
  let r := F64.run_op (F64.OpMarket placement (F64.of_Z size) now) st in
  (∃ matches, fst r = F64.Matched matches ∧ F64.filledTotal matches = F64.of_Z size) ∧
  F64.size_at (snd r) (length (F64.orders st)) = F64.zero ∧
  F64.otherVolume placement (snd r)
  = F64.sub (F64.otherVolume placement st) (F64.of_Z size).
Proof.
  intros Hex st Hle r. unfold r, st in *. clear r st.
  destruct (exact_step market _ _ Hex) as (Hsim & Hstep & Hr & HE & HE' & Hnn).
  pose proof (exact_size _ _ Hex) as Hss. simpl in Hss.
  set (st := run_ops cs (init market)) in *.
  pose proof (reachable_Inv st Hr) as HI.
  rewrite Hsim in *.
  change (F64.OpMarket placement (F64.of_Z size) now)
    with (f64_op (OpMarket placement size now)).
  rewrite Hstep. cbn [fst snd].
  destruct (f64_otherVolume placement st HI HE) as [Hov Hsmall].
  rewrite Hov, of_Z_gtb in Hle by done.
  destruct (market_order_filled_completely st placement size now Hr)
    as ((ms & Hm & Htot) & Hs0 & Hvol); [lia|left; apply Hss|].
  set (r := run_op (OpMarket placement size now) st) in *.
  assert (Inv (snd r)) as HI' by (by apply run_op_Inv).
  destruct (f64_otherVolume placement (snd r) HI' HE') as [Hov' _].
  rewrite Hm in Hnn |- *. simpl in Hnn.
  split.
  - exists (f64_Match <$> ms). split; [done|].
    rewrite f64_filledTotal, Htot; [done|done|]. rewrite Htot. apply Hss.
  - rewrite f64_size_at. simpl. rewrite length_fmap. fold st. rewrite Hs0.
    split; [done|]. rewrite Hov', Hov, Hvol.
    symmetry. apply of_Z_sub; [done|done|lia].
Qed.

Lemma market_order_filled_whole_sizes_witness :
  exact_ops (sixOps ++ [OpMarket BID_ORDER 500 7]) ∧
  let st := F64.run_ops (f64_op <$> sixOps) (F64.init "ETH") in
  F64.gtb (F64.of_Z 500) (F64.otherVolume BID_ORDER st) = false ∧
  let r := F64.run_op (F64.OpMarket BID_ORDER (F64.of_Z 500) 7) st in
  (∃ matches, fst r = F64.Matched matches ∧ F64.filledTotal matches = F64.of_Z 500) ∧
  F64.size_at (snd r) (length (F64.orders st)) = F64.zero ∧
  F64.otherVolume BID_ORDER (snd r)
  = F64.sub (F64.otherVolume BID_ORDER st) (F64.of_Z 500).
Proof.
  assert (exact_ops (sixOps ++ [OpMarket BID_ORDER 500 7])) as Hex
    by (apply exact_sixOps; simpl; lia).
  assert (F64.gtb (F64.of_Z 500)
            (F64.otherVolume BID_ORDER
               (F64.run_ops (f64_op <$> sixOps) (F64.init "ETH"))) = false) as Hle
    by (vm_compute; reflexivity).
  split; [exact Hex|]. split; [exact Hle|].
  exact (market_order_filled_whole_sizes "ETH" sixOps BID_ORDER 500 7 Hex Hle).
Defined.

(** ** The volumes of the book on whole-number sizes *)

(** X15 ([PlaceLimitOrder], [PlaceMarketOrder], [CancelOrderByID],
    [deleteLimit]).  On whole-number sizes (none negative, adding up to less
    than [2^53]) no limit of the book is empty: a limit enters the book with
    its first order, and leaves it when a fill or a cancellation takes its
    last order. *)
Theorem no_limit_is_empty_whole_sizes (market : string) (cs : list op) (l : nat) :
  exact_ops cs →
  let st := F64.run_ops (f64_op <$> cs) (F64.init market) in
  F64.in_book st l → F64.queue st l ≠ [].
Proof.
  intros Hex st Hl. unfold st in *. clear st.
  destruct (exact_run market cs Hex) as (Hsim & HI & _).
  rewrite Hsim in *. rewrite f64_queue.
  apply no_limit_of_the_book_is_empty; [by exists market, cs|done].
Qed.

Lemma no_limit_is_empty_whole_sizes_witness :
  exact_ops sixOps ∧
  F64.queue (F64.run_ops (f64_op <$> sixOps) (F64.init "ETH")) 1 ≠ [].
Proof.
  assert (exact_ops sixOps) as Hex
    by (split; [repeat constructor; simpl; lia|vm_compute; reflexivity]).
  split; [exact Hex|].
  apply (no_limit_is_empty_whole_sizes "ETH" sixOps 1 Hex).
  left. apply list_elem_of_In. vm_compute. auto.
Defined.

(** X16 ([AskTotalVolume], [BidTotalVolume]).  On whole-number sizes (none
    negative, adding up to less than [2^53]) [AskTotalVolume] is the sum of
    the residual sizes of all the orders resting on the ask side, and
    [BidTotalVolume] the same for the bid side. *)
Theorem total_volume_whole_sizes (market : string) (cs : list op) :
  exact_ops cs →
  let st := F64.run_ops (f64_op <$> cs) (F64.init market) in
  F64.AskTotalVolume st
  = F64.queueVolume st (concat (map (F64.queue st) (asks (F64.book st)))) ∧
  F64.BidTotalVolume st
  = F64.queueVolume st (concat (map (F64.queue st) (bids (F64.book st)))).
Proof.
  intros Hex st. unfold st. clear st.
  destruct (exact_run market cs Hex) as (Hsim & HI & HE & _).
  rewrite Hsim. set (st := run_ops cs (init market)) in *.
  destruct (total_volume_is_the_resting_size st) as [Ha Hb]; [by exists market, cs|].
  destruct (f64_AskTotalVolume st HI HE) as [Hfa Hsa].
  destruct (f64_BidTotalVolume st HI HE) as [Hfb Hsb].
  assert (∀ ls, map (F64.queue (f64_State st)) ls = map (queue st) ls) as Hq.
  { intros ls. apply map_ext. intros l. apply f64_queue. }
  change (F64.book (f64_State st)) with (book st). rewrite !Hq.
  rewrite !f64_queueVolume; try apply HE.
  - by rewrite Hfa, Hfb, Ha, Hb.
  - rewrite <- Hb. apply Hsb.
  - rewrite <- Ha. apply Hsa.
Qed.

Lemma total_volume_whole_sizes_witness :
  exact_ops sixOps ∧
  let st := F64.run_ops (f64_op <$> sixOps) (F64.init "ETH") in
  F64.AskTotalVolume st
  = F64.queueVolume st (concat (map (F64.queue st) (asks (F64.book st)))) ∧
  F64.BidTotalVolume st
  = F64.queueVolume st (concat (map (F64.queue st) (bids (F64.book st)))).
Proof.
  assert (exact_ops sixOps) as Hex
    by (split; [repeat constructor; simpl; lia|vm_compute; reflexivity]).
  split; [exact Hex|].
  exact (total_volume_whole_sizes "ETH" sixOps Hex).
Defined.

(** ** Limit orders and cancellations on whole-number sizes *)

Lemma f64_limit_at_eq st st' l l' :
  limit_at st l = limit_at st' l' →
  F64.limit_at (f64_State st) l = F64.limit_at (f64_State st') l'.
Proof. intros H. by rewrite !f64_limit_at, H. Qed.

Lemma of_Z_neq a b : F64.of_Z a ≠ F64.of_Z b → a ≠ b.
Proof. intros H ->. done. Qed.

(** X10 ([CancelOrderByID], [Limit.DeleteOrder], [deleteLimit]).  On
    whole-number sizes (none negative, adding up to less than [2^53]),
    cancelling a resting order by its id, on its side, succeeds as long as
    fewer than [2^63] orders have been created: the order rests nowhere
    afterwards, its id is gone from [OrderIndex], the total volume of the
    side drops by its residual size, no order changes size and no other limit
    changes.  Its limit stays, with the other orders of the queue, unless no
    volume is left in it, in which case the limit leaves the side. *)
Theorem cancel_removes_the_order_whole_sizes
    (market : string) (cs : list op) (placement : string) (l o : nat) :
  exact_ops cs →
  let st := F64.run_ops (f64_op <$> cs) (F64.init market) in
  (Z.of_nat (length (F64.orders st)) < 2 ^ 63)%Z →
  l ∈ side_of placement (F64.book st) → o ∈ F64.queue st l →
  let r := F64.run_op (F64.OpCancel (F64.ID (F64.order_at st o)) placement) st in
  fst r = F64.Cancelled ∧
  F64.not_resting (snd r) o ∧
  F64.OrderIndex (snd r) = delete (F64.ID (F64.order_at st o)) (F64.OrderIndex st) ∧
  F64.ownVolume placement (snd r)
  = F64.sub (F64.ownVolume placement st) (F64.size_at st o) ∧
  (∀ o', F64.size_at (snd r) o' = F64.size_at st o') ∧
  (∀ l', l' ≠ l → F64.limit_at (snd r) l' = F64.limit_at st l') ∧
  other_side placement (F64.book (snd r)) = other_side placement (F64.book st) ∧
  o :: F64.queue (snd r) l ≡ₚ F64.queue st l ∧
  (F64.TotalVolume (F64.limit_at st l) ≠ F64.size_at st o →
     side_of placement (F64.book (snd r)) = side_of placement (F64.book st)) ∧
  (F64.TotalVolume (F64.limit_at st l) = F64.size_at st o →
     l :: side_of placement (F64.book (snd r)) ≡ₚ side_of placement (F64.book st)).
Proof.
  intros Hex st Hb Hl Ho r. unfold r, st in *. clear r st.
  set (st := run_ops cs (init market)).
  pose proof (exact_ops_cancel cs (ID (order_at st o)) placement Hex) as Hex'.
  destruct (exact_step market _ _ Hex') as (Hsim & Hstep & Hr & HE & HE' & _).
  fold st in Hsim, Hstep, Hr, HE, HE'.
  pose proof (reachable_Inv st Hr) as HI.
  rewrite Hsim in *. rewrite f64_queue in Ho. rewrite f64_order_at.
  change (F64.ID (f64_Order ?x)) with (ID x).
  change (F64.OpCancel (ID (order_at st o)) placement)
    with (f64_op (OpCancel (ID (order_at st o)) placement)).
  rewrite Hstep. cbn [fst snd].
  assert (bounded st) as Hbd
    by (unfold bounded; simpl in Hb; by rewrite length_fmap in Hb).
  destruct (cancel_removes_the_order st placement l o Hr Hbd Hl Ho)
    as (Hc & Hnr & Hix & Hvol & Hsz & Hlim & Hos & Hq & Hkeep & Hdrop).
  set (r := run_op (OpCancel (ID (order_at st o)) placement) st) in *.
  assert (Inv (snd r)) as HI' by (by apply run_op_Inv).
  destruct (f64_ownVolume placement st HI HE) as [Hov Hsmall].
  destruct (f64_ownVolume placement (snd r) HI' HE') as [Hov' Hsmall'].
  pose proof (Exact_small_size st o HE) as Hso.
  assert (in_book st l) as Hlb by (by eapply side_of_in_book).
  pose proof (Exact_small_volume st l HI HE Hlb) as Hsv.
  split; [by rewrite Hc|]. split; [by apply f64_not_resting|].
  split; [done|]. split.
  { rewrite Hov', Hov, f64_size_at, Hvol. symmetry. apply of_Z_sub; [done|done|].
    unfold small in Hsmall'. lia. }
  split; [intros o'; by rewrite !f64_size_at, Hsz|].
  split; [intros l' Hne; by apply f64_limit_at_eq, Hlim|].
  split; [done|]. split; [by rewrite !f64_queue|].
  rewrite f64_TotalVolume, f64_size_at. split.
  - intros Hne%of_Z_neq. by apply Hkeep.
  - intros Heq%of_Z_inj; [by apply Hdrop|done|done].
Qed.

Lemma cancel_removes_the_order_whole_sizes_witness :
  exact_ops sixOps ∧
  let st := F64.run_ops (f64_op <$> sixOps) (F64.init "ETH") in
  let r := F64.run_op (F64.OpCancel (F64.ID (F64.order_at st 3)) ASK_ORDER) st in
  fst r = F64.Cancelled ∧
  F64.not_resting (snd r) 3 ∧
  F64.OrderIndex (snd r) = delete (F64.ID (F64.order_at st 3)) (F64.OrderIndex st) ∧
  F64.ownVolume ASK_ORDER (snd r)
  = F64.sub (F64.ownVolume ASK_ORDER st) (F64.size_at st 3) ∧
  (∀ o', F64.size_at (snd r) o' = F64.size_at st o') ∧
  (∀ l', l' ≠ 1 → F64.limit_at (snd r) l' = F64.limit_at st l') ∧
  other_side ASK_ORDER (F64.book (snd r)) = other_side ASK_ORDER (F64.book st) ∧
  3 :: F64.queue (snd r) 1 ≡ₚ F64.queue st 1 ∧
  (F64.TotalVolume (F64.limit_at st 1) ≠ F64.size_at st 3 →
     side_of ASK_ORDER (F64.book (snd r)) = side_of ASK_ORDER (F64.book st)) ∧
  (F64.TotalVolume (F64.limit_at st 1) = F64.size_at st 3 →
     1 :: side_of ASK_ORDER (F64.book (snd r)) ≡ₚ side_of ASK_ORDER (F64.book st)).
Proof.
  assert (exact_ops sixOps) as Hex
    by (split; [repeat constructor; simpl; lia|vm_compute; reflexivity]).
  split; [exact Hex|].
  apply (cancel_removes_the_order_whole_sizes "ETH" sixOps ASK_ORDER 1 3 Hex).
  - vm_compute. reflexivity.
  - apply list_elem_of_In. vm_compute. auto.
  - apply list_elem_of_In. vm_compute. auto.
Defined.

(** X12 ([PlaceLimitOrder], [Limit.AddOrder], [NewLimit]).  On whole-number
    sizes (none negative, adding up to less than [2^53]) a limit order with a
    valid placement always succeeds and rests at its price: the price map of
    its side has a limit at that price, the order is the last of its queue,
    behind the orders that were there, the volume of the limit and the total
    volume of the side grow by its size, the order is filed in [OrderIndex]
    under its id, and no other limit of the book changes.  If the side had no
    limit at the price, a new one is appended to the side. *)
Theorem limit_order_rests_at_its_price_whole_sizes
    (market : string) (cs : list op) (placement : string) (size price now : Z) :
  exact_ops (cs ++ [OpLimit placement size price now]) →
  placement = BID_ORDER ∨ placement = ASK_ORDER →
  let st := F64.run_ops (f64_op <$> cs) (F64.init market) in
  let r := F64.run_op (F64.OpLimit placement (F64.of_Z size) price now) st in
  let order := length (F64.orders st) in
  fst r = F64.Placed ∧
  ∃ limit,
    map_of placement (F64.book (snd r)) !! price = Some limit ∧
    limit ∈ side_of placement (F64.book (snd r)) ∧
    F64.Price (F64.limit_at (snd r) limit) = price ∧
    F64.size_at (snd r) order = F64.of_Z size ∧
    F64.OrderLimit (F64.order_at (snd r) order) = Some limit ∧
    F64.OrderIndex (snd r) !! F64.ID (F64.order_at (snd r) order)
    = Some (mkOrderMetadata order (Market (F64.book st))) ∧
    F64.ownVolume placement (snd r)
    = F64.add (F64.ownVolume placement st) (F64.of_Z size) ∧
    (∀ l, F64.in_book st l → l ≠ limit → F64.limit_at (snd r) l = F64.limit_at st l) ∧
    match map_of placement (F64.book st) !! price with
    | Some l0 =>
      limit = l0 ∧
      side_of placement (F64.book (snd r)) = side_of placement (F64.book st) ∧
      F64.queue (snd r) limit = F64.queue st limit ++ [order] ∧
      F64.TotalVolume (F64.limit_at (snd r) limit)
      = F64.add (F64.TotalVolume (F64.limit_at st limit)) (F64.of_Z size)
    | None =>
      side_of placement (F64.book (snd r)) = side_of placement (F64.book st) ++ [limit] ∧
      F64.queue (snd r) limit = [order] ∧
      F64.TotalVolume (F64.limit_at (snd r) limit) = F64.of_Z size
    end.
Proof.
  intros Hex Hpl st r order. unfold r, order, st in *. clear r order st.
  destruct (exact_step market _ _ Hex) as (Hsim & Hstep & Hr & HE & HE' & _).
  pose proof (exact_size _ _ Hex) as Hss. simpl in Hss.
  set (st := run_ops cs (init market)) in *.
  pose proof (reachable_Inv st Hr) as HI.
  rewrite Hsim.
  change (F64.OpLimit placement (F64.of_Z size) price now)
    with (f64_op (OpLimit placement size price now)).
  rewrite Hstep. cbn [fst snd].
  destruct (limit_order_rests_at_its_price st placement size price now Hr Hpl)
    as (Hp & limit & Hmap & Hin & Hprice & Hsz & Hback & Hix & Hvol & Hlim & Hcase).
  set (r := run_op (OpLimit placement size price now) st) in *.
  assert (Inv (snd r)) as HI' by (by apply run_op_Inv).
  destruct (f64_ownVolume placement st HI HE) as [Hov Hsmall].
  destruct (f64_ownVolume placement (snd r) HI' HE') as [Hov' Hsmall'].
  assert (in_book (snd r) limit) as Hlb' by (by eapply side_of_in_book).
  pose proof (Exact_small_volume (snd r) limit HI' HE' Hlb') as Hsv'.
  simpl length. rewrite length_fmap.
  split; [by rewrite Hp|]. exists limit.
  split; [done|]. split; [done|]. split; [by rewrite f64_Price|].
  split; [by rewrite f64_size_at, Hsz|].
  split; [by rewrite f64_order_at|].
  split; [by rewrite f64_order_at|].
  split.
  { rewrite Hov', Hov, Hvol. symmetry. apply of_Z_add; [done|done|].
    unfold small in Hsmall'. lia. }
  split; [intros l Hl Hne; by apply f64_limit_at_eq, Hlim|].
  change (F64.book (f64_State st)) with (book st).
  destruct (map_of placement (book st) !! price) as [l0|] eqn:Hm.
  - destruct Hcase as (-> & Hside & Hq & Htv).
    split; [done|]. split; [done|]. split; [by rewrite !f64_queue|].
    rewrite !f64_TotalVolume, Htv. symmetry.
    assert (in_book st l0) as Hlb.
    { eapply side_of_in_book. by apply (inv_map placement st price l0 HI). }
    apply of_Z_add; [by apply Exact_small_volume|done|].
    unfold small in Hsv'. lia.
  - destruct Hcase as (Hside & Hq & Htv).
    split; [done|]. split; [by rewrite f64_queue|].
    by rewrite f64_TotalVolume, Htv.
Qed.

Lemma limit_order_rests_at_its_price_whole_sizes_witness :
  exact_ops (sixOps ++ [OpLimit ASK_ORDER 20 12000 7]) ∧
  let st := F64.run_ops (f64_op <$> sixOps) (F64.init "ETH") in
  let r := F64.run_op (F64.OpLimit ASK_ORDER (F64.of_Z 20) 12000 7) st in
  let order := length (F64.orders st) in
  fst r = F64.Placed ∧
  ∃ limit,
    map_of ASK_ORDER (F64.book (snd r)) !! 12000%Z = Some limit ∧
    limit ∈ side_of ASK_ORDER (F64.book (snd r)) ∧
    F64.Price (F64.limit_at (snd r) limit) = 12000%Z ∧
    F64.size_at (snd r) order = F64.of_Z 20 ∧
    F64.OrderLimit (F64.order_at (snd r) order) = Some limit ∧
    F64.OrderIndex (snd r) !! F64.ID (F64.order_at (snd r) order)
    = Some (mkOrderMetadata order (Market (F64.book st))) ∧
    F64.ownVolume ASK_ORDER (snd r)
    = F64.add (F64.ownVolume ASK_ORDER st) (F64.of_Z 20) ∧
    (∀ l, F64.in_book st l → l ≠ limit → F64.limit_at (snd r) l = F64.limit_at st l) ∧
    match map_of ASK_ORDER (F64.book st) !! 12000%Z with
    | Some l0 =>
      limit = l0 ∧
      side_of ASK_ORDER (F64.book (snd r)) = side_of ASK_ORDER (F64.book st) ∧
      F64.queue (snd r) limit = F64.queue st limit ++ [order] ∧
      F64.TotalVolume (F64.limit_at (snd r) limit)
      = F64.add (F64.TotalVolume (F64.limit_at st limit)) (F64.of_Z 20)
    | None =>
      side_of ASK_ORDER (F64.book (snd r)) = side_of ASK_ORDER (F64.book st) ++ [limit] ∧
      F64.queue (snd r) limit = [order] ∧
      F64.TotalVolume (F64.limit_at (snd r) limit) = F64.of_Z 20
    end.
Proof.
  assert (exact_ops (sixOps ++ [OpLimit ASK_ORDER 20 12000 7])) as Hex
    by (apply exact_sixOps; simpl; lia).
  split; [exact Hex|].
  apply (limit_order_rests_at_its_price_whole_sizes "ETH" sixOps ASK_ORDER 20 12000 7 Hex).
  by right.
Defined.

(** X13 ([PlaceLimitOrder], [CancelOrderByID], [Limit.AddOrder],
    [Limit.DeleteOrder], [deleteLimit]).  On whole-number sizes (none
    negative, adding up to less than [2^53]) placing a limit order and
    cancelling it at once restores the book: the sides, the price maps and
    [OrderIndex] are as before, every order has its size and every limit its
    price and volume; the queue of a limit holds the same orders, and is the
    same queue if it was in timestamp order.  This needs that the limit at the
    price, if there is one, has a volume other than 0 (a limit without volume
    is dropped by the cancellation), and that no id has wrapped around. *)
Theorem limit_order_then_cancel_whole_sizes
    (market : string) (cs : list op) (placement : string) (size price now : Z) :
  exact_ops (cs ++ [OpLimit placement size price now]) →
  let st := F64.run_ops (f64_op <$> cs) (F64.init market) in
  (Z.of_nat (length (F64.orders st)) + 1 < 2 ^ 63)%Z →
  placement = BID_ORDER ∨ placement = ASK_ORDER →
  (∀ l, map_of placement (F64.book st) !! price = Some l →
        F64.TotalVolume (F64.limit_at st l) ≠ F64.zero) →
  let st1 := snd (F64.run_op (F64.OpLimit placement (F64.of_Z size) price now) st) in
  let r := F64.run_op (F64.OpCancel (F64.orderIdSequence st1) placement) st1 in
  fst r = F64.Cancelled ∧
  F64.book (snd r) = F64.book st ∧
  F64.OrderIndex (snd r) = F64.OrderIndex st ∧
  (∀ o, o < length (F64.orders st) → F64.size_at (snd r) o = F64.size_at st o) ∧
  (∀ l, F64.in_book st l →
     F64.Price (F64.limit_at (snd r) l) = F64.Price (F64.limit_at st l) ∧
     F64.TotalVolume (F64.limit_at (snd r) l) = F64.TotalVolume (F64.limit_at st l) ∧
     F64.queue (snd r) l ≡ₚ F64.queue st l ∧
     (StronglySorted (λ a b, F64.Timestamp (F64.order_at st a)
                             ≤ F64.Timestamp (F64.order_at st b))%Z (F64.queue st l) →
      F64.queue (snd r) l = F64.queue st l)).
Proof.
  intros Hex st Hb Hpl Hvol0 st1 r. unfold r, st1, st in *. clear r st1 st.
  destruct (exact_step market _ _ Hex) as (Hsim & Hstep & Hr & HE & HE' & _).
  set (st := run_ops cs (init market)) in *.
  pose proof (reachable_Inv st Hr) as HI.
  rewrite Hsim in *.
  change (F64.OpLimit placement (F64.of_Z size) price now)
    with (f64_op (OpLimit placement size price now)).
  rewrite Hstep. cbn [fst snd].
  set (st1 := snd (run_op (OpLimit placement size price now) st)) in *.
  assert (Inv st1) as HI1 by (by apply run_op_Inv).
  change (F64.orderIdSequence (f64_State st1)) with (orderIdSequence st1).
  destruct (f64_run_op (OpCancel (orderIdSequence st1) placement) st1 HI1 HE')
    as (Hstep2 & _); [done|destruct HE' as [_ Ht]; simpl; lia|].
  change (F64.OpCancel (orderIdSequence st1) placement)
    with (f64_op (OpCancel (orderIdSequence st1) placement)).
  rewrite Hstep2. cbn [fst snd].
  simpl in Hb. rewrite length_fmap in Hb.
  destruct (limit_order_then_cancel_restores_the_book st placement size price now Hr Hb Hpl)
    as (Hc & Hbook & Hix & Hsz & Hlims).
  { intros l Hl Hz. apply (Hvol0 l Hl). by rewrite f64_TotalVolume, Hz. }
  fold st1 in Hc, Hbook, Hix, Hsz, Hlims.
  split; [by rewrite Hc|]. split; [done|]. split; [done|].
  split.
  { intros o Ho. simpl in Ho. rewrite length_fmap in Ho.
    by rewrite !f64_size_at, Hsz. }
  intros l Hl. destruct (Hlims l Hl) as (Hp & Hv & Hq & Hs).
  rewrite !f64_Price, !f64_TotalVolume, !f64_queue.
  split; [done|]. split; [by rewrite Hv|]. split; [done|].
  intros Hsorted. apply Hs.
  eapply StronglySorted_impl; [|exact Hsorted].
  intros a b H. cbv beta in H. by rewrite !f64_order_at in H.
Qed.

Lemma limit_order_then_cancel_whole_sizes_witness :
  exact_ops (sixOps ++ [OpLimit ASK_ORDER 20 12000 7]) ∧
  let st := F64.run_ops (f64_op <$> sixOps) (F64.init "ETH") in
  let st1 := snd (F64.run_op (F64.OpLimit ASK_ORDER (F64.of_Z 20) 12000 7) st) in
  let r := F64.run_op (F64.OpCancel (F64.orderIdSequence st1) ASK_ORDER) st1 in
  fst r = F64.Cancelled ∧
  F64.book (snd r) = F64.book st ∧
  F64.OrderIndex (snd r) = F64.OrderIndex st ∧
  (∀ o, o < length (F64.orders st) → F64.size_at (snd r) o = F64.size_at st o) ∧
  (∀ l, F64.in_book st l →
     F64.Price (F64.limit_at (snd r) l) = F64.Price (F64.limit_at st l) ∧
     F64.TotalVolume (F64.limit_at (snd r) l) = F64.TotalVolume (F64.limit_at st l) ∧
     F64.queue (snd r) l ≡ₚ F64.queue st l ∧
     (StronglySorted (λ a b, F64.Timestamp (F64.order_at st a)
                             ≤ F64.Timestamp (F64.order_at st b))%Z (F64.queue st l) →
      F64.queue (snd r) l = F64.queue st l)).
Proof.
  assert (exact_ops (sixOps ++ [OpLimit ASK_ORDER 20 12000 7])) as Hex
    by (apply exact_sixOps; simpl; lia).
  split; [exact Hex|].
  apply (limit_order_then_cancel_whole_sizes "ETH" sixOps ASK_ORDER 20 12000 7 Hex).
  - vm_compute. reflexivity.
  - by right.
  - intros l Hl. vm_compute in Hl. injection Hl as <-. vm_compute. discriminate.
Defined.

(** ** The two programs *)

(** X27 ([Limit.AddOrder], [Limit.DeleteOrder], [Limit.fillOrder],
    [Limit.Fill], [AskTotalVolume], [BidTotalVolume], [PlaceMarketOrder],
    [PlaceLimitOrder], [CancelOrderByID]).  On whole-number sizes, none
    negative, that add up to less than [2^53], no addition, subtraction,
    minimum or comparison of the order book rounds: after any list of
    operations the state in binary64 is the state computed in exact
    arithmetic, and the next operation has the same outcome, matches
    included, and leads to the same state. *)
Theorem binary64_agrees_on_whole_sizes (market : string) (cs : list op) (c : op) :
  exact_ops (cs ++ [c]) →
  let st := run_ops cs (init market) in
  F64.run_ops (f64_op <$> cs) (F64.init market) = f64_State st ∧
  F64.run_op (f64_op c) (F64.run_ops (f64_op <$> cs) (F64.init market))
  = (f64_outcome (fst (run_op c st)), f64_State (snd (run_op c st))).
Proof.
  intros Hex st. destruct (exact_step market cs c Hex) as (Hsim & Hstep & _).
  fold st in Hsim, Hstep. split; [done|]. by rewrite Hsim.
Qed.

Lemma binary64_agrees_on_whole_sizes_witness :
  exact_ops (sixOps ++ [OpMarket BID_ORDER 500 7]) ∧
  let st := run_ops sixOps (init "ETH") in
  F64.run_ops (f64_op <$> sixOps) (F64.init "ETH") = f64_State st ∧
  F64.run_op (f64_op (OpMarket BID_ORDER 500 7))
             (F64.run_ops (f64_op <$> sixOps) (F64.init "ETH"))
  = (f64_outcome (fst (run_op (OpMarket BID_ORDER 500 7) st)),
     f64_State (snd (run_op (OpMarket BID_ORDER 500 7) st))).
Proof.
  assert (exact_ops (sixOps ++ [OpMarket BID_ORDER 500 7])) as Hex
    by (apply exact_sixOps; simpl; lia).
  split; [exact Hex|].
  exact (binary64_agrees_on_whole_sizes "ETH" sixOps (OpMarket BID_ORDER 500 7) Hex).
Defined.
